(** * h3-routing-platform: the CSR routing engine, embedded and verified

    Source files covered:
    - [services/engine-cpp/cpp/include/csr_graph.hpp]
    - [services/engine-cpp/cpp/src/csr_graph.cpp]
    - [services/engine-cpp/cpp/src/query_unidirectional_impl.cpp]
    - [services/engine-cpp/cpp/src/h3_utils.cpp]

    Conventions of the embedding.
    - [uint32_t], [uint64_t], [int], [int8_t] values are integers in [Z];
      where the C++ arithmetic can wrap, the wrap-around is written out
      ([wrap32], [int8], [int32], the bit-fields of [CSRShortcut]).
    - [float] and [double] costs are exact integers: every finite binary
      floating-point number is an integral multiple of the smallest
      subnormal, so a cost is the number of such units and sums are exact.
      The engine is therefore modelled up to floating-point rounding:
      there is no rounding and no overflow to infinity, and two sums of
      the same costs taken in different orders, which may differ in the
      last bit in the code, are equal here.
      [std::numeric_limits<double>::infinity()] is the constructor [Inf].
    - [std::vector] is [list], read with [!!]; [std::unordered_map] is
      [gmap].
    - Loops that the C++ code runs without a bound take a [fuel] argument
      and return [None] when it runs out.
    - The distance [-1] of a query that fails is [Fin (-1)].
    - A read or a write of a vector out of its range, undefined in C++,
      reads 0 and writes nothing. *)

From Stdlib Require Import ZArith Lia.
From stdpp Require Import base numbers option list sorting gmap strings pretty.

Local Open Scope Z_scope.

(** ** Machine integers *)

Definition wrap32 (x : Z) : Z := x mod 2 ^ 32.

(** [static_cast<int8_t>(x)] *)
Definition int8 (x : Z) : Z := (x + 128) mod 256 - 128.

(** [static_cast<int>(x)], and the narrowing of an [int64_t] to [int]. *)
Definition int32 (x : Z) : Z := (x + 2 ^ 31) mod 2 ^ 32 - 2 ^ 31.

(** A [uint32_t via_edge : 30] bit-field. *)
Definition bits30 (x : Z) : Z := x mod 2 ^ 30.

(** An [int32_t inside : 2] bit-field: the values -2, -1, 0, 1. *)
Definition sbits2 (x : Z) : Z := (x + 2) mod 4 - 2.

(** ** Distances that may be infinite *)

Inductive Dist := Fin (d : Z) | Inf.

Definition Dlt (a b : Dist) : bool :=
  match a, b with
  | Fin x, Fin y => x <? y
  | Fin _, Inf => true
  | Inf, _ => false
  end.

Definition Dle (a b : Dist) : bool := negb (Dlt b a).

Definition Dadd (a b : Dist) : Dist :=
  match a, b with
  | Fin x, Fin y => Fin (x + y)
  | _, _ => Inf
  end.

Definition Dmin (a b : Dist) : Dist := if Dlt b a then b else a.

(** ** Records of [csr_graph.hpp] and [csr_graph.cpp] *)

(** [struct TempShortcut] *)
Record TempShortcut := {
  t_from : Z;
  t_to : Z;
  t_cost : Z;
  t_via_edge : Z;
  t_cell : Z;
  t_inside : Z;
  t_cell_res : Z
}.

(** [struct CSRShortcut] *)
Record CSRShortcut := {
  sc_cell : Z;
  sc_cost : Z;
  sc_from : Z;
  sc_to : Z;
  sc_via_edge : Z;
  sc_inside : Z
}.

(** [CSRShortcut::get_res] *)
Definition get_res (sc : CSRShortcut) : Z :=
  if sc_cell sc =? 0 then -1
  else int8 (Z.land (Z.shiftr (sc_cell sc) 52) 15).

(** [struct CSREdgeMeta]; [length] and [geometry] are not used by the
    query engine and are left out. *)
Record CSREdgeMeta := {
  em_to_cell : Z;
  em_from_cell : Z;
  em_lca_res : Z;
  em_cost : Z
}.

(** [struct CSRHighCell] *)
Record CSRHighCell := {
  hc_cell : Z;
  hc_res : Z
}.

(** [struct CSRQueryResult] *)
Record CSRQueryResult := {
  distance : Dist;
  path : list Z;
  reachable : bool;
  error : string
}.

(** The data members of [class CSRGraph] that the engine reads. *)
Record CSRGraph := {
  shortcuts_ : list CSRShortcut;
  fwd_offsets_ : list Z;
  bwd_offsets_ : list Z;
  bwd_indices_ : list Z;
  max_edge_id_ : Z;
  edge_meta_ : gmap Z CSREdgeMeta
}.

(** ** The C++ standard library

    [std::priority_queue] with [std::greater] pops an entry of least
    [dist]; which one among equals is left to the heap.  [std::sort]
    orders by the comparator and is not stable.  Both are taken through
    an interface that fixes what the standard guarantees. *)

Definition from_le (a b : TempShortcut) : Prop := t_from a ≤ t_from b.

#[global] Instance from_le_dec : RelDecision from_le :=
  λ a b, decide (t_from a ≤ t_from b).

Class Stl := {
  pq_pop : ∀ {A : Type}, list (Z * A) → option ((Z * A) * list (Z * A));
  std_sort : list TempShortcut → list TempShortcut;
  pq_pop_None : ∀ A (q : list (Z * A)), pq_pop q = None → q = [];
  pq_pop_Some : ∀ A (q q' : list (Z * A)) e,
    pq_pop q = Some (e, q') → q ≡ₚ e :: q' ∧ Forall (λ x, e.1 ≤ x.1) q';
  std_sort_perm : ∀ l, std_sort l ≡ₚ l;
  std_sort_sorted : ∀ l, StronglySorted from_le (std_sort l)
}.

(** ** The H3 library

    [h3_utils.cpp] wraps two functions of the external H3 library.  They
    are taken through an interface with the laws of the H3 hierarchy that
    the wrapper relies on: a resolution is between 0 and 15, a parent has
    the resolution asked for, and the parent of a parent is the parent. *)

Class H3Lib := {
  getResolution : Z → Z;
  cellToParent : Z → Z → option Z;
  getResolution_range : ∀ c, 0 ≤ getResolution c ≤ 15;
  cellToParent_res : ∀ c r p,
    0 ≤ r < getResolution c → cellToParent c r = Some p → getResolution p = r;
  cellToParent_trans : ∀ c a b p q,
    0 ≤ b < a → a < getResolution c →
    cellToParent c a = Some p → cellToParent p b = Some q →
    cellToParent c b = Some q
}.

(** ** [h3_utils.cpp] *)

(** [h3_utils::get_resolution] *)
Definition get_resolution `{H3Lib} (cell : Z) : Z :=
  if cell =? 0 then -1 else getResolution cell.

(** [h3_utils::cell_to_parent] *)
Definition cell_to_parent `{H3Lib} (cell target_res : Z) : Z :=
  if (cell =? 0) || (target_res <? 0) then 0
  else
    let current_res := getResolution cell in
    if target_res >=? current_res then cell
    else match cellToParent cell target_res with
         | Some parent => parent
         | None => 0
         end.

(** The [while (c1 != c2 && min_res > 0)] loop of [find_lca]; the
    argument [n] is [min_res], which the loop counts down to 0. *)
Fixpoint find_lca_loop `{H3Lib} (n : nat) (c1 c2 : Z) : Z * Z :=
  match n with
  | O => (c1, c2)
  | S n' =>
      if c1 =? c2 then (c1, c2)
      else find_lca_loop n' (cell_to_parent c1 (Z.of_nat n'))
                            (cell_to_parent c2 (Z.of_nat n'))
  end.

(** [h3_utils::find_lca] *)
Definition find_lca `{H3Lib} (cell1 cell2 : Z) : Z :=
  if (cell1 =? 0) || (cell2 =? 0) then 0
  else
    let res1 := getResolution cell1 in
    let res2 := getResolution cell2 in
    let min_res := if res1 <? res2 then res1 else res2 in
    let c1 := if res1 >? min_res then cell_to_parent cell1 min_res else cell1 in
    let c2 := if res2 >? min_res then cell_to_parent cell2 min_res else cell2 in
    let '(c1', c2') := find_lca_loop (Z.to_nat min_res) c1 c2 in
    if c1' =? c2' then c1' else 0.

(** [h3_utils::parent_check] *)
Definition parent_check `{H3Lib} (node_cell high_cell high_res : Z) : bool :=
  if (high_cell =? 0) || (high_res <? 0) then true
  else if node_cell =? 0 then false
  else
    let node_res := getResolution node_cell in
    if high_res >? node_res then false
    else cell_to_parent node_cell high_res =? high_cell.

(** ** Accessors of [CSRGraph] *)

(** [v[i]] on a vector of integers; an index out of range reads 0. *)
Definition at_ (v : list Z) (i : Z) : Z :=
  if i <? 0 then 0 else default 0 (v !! Z.to_nat i).

(** The elements [v[i]] for [i = first; i < last && i < v.size(); ++i]. *)
Definition slice {A} (first last : Z) (v : list A) : list A :=
  take (Z.to_nat (last - first)) (drop (Z.to_nat first) v).

(** [CSRGraph::get_edge_cost] *)
Definition get_edge_cost (g : CSRGraph) (edge_id : Z) : Z :=
  match edge_meta_ g !! edge_id with
  | Some m => em_cost m
  | None => 0
  end.

(** [CSRGraph::get_edge_cell] *)
Definition get_edge_cell (g : CSRGraph) (edge_id : Z) : Z :=
  match edge_meta_ g !! edge_id with
  | Some m => em_to_cell m
  | None => 0
  end.

(** [CSRGraph::is_valid_edge] *)
Definition is_valid_edge (g : CSRGraph) (edge_id : Z) : bool :=
  (edge_id <=? max_edge_id_ g)
  && (wrap32 (edge_id + 1) <? Z.of_nat (length (fwd_offsets_ g)))
  && (wrap32 (edge_id + 1) <? Z.of_nat (length (bwd_offsets_ g))).

(** [CSRGraph::get_fwd_range] *)
Definition get_fwd_range (g : CSRGraph) (edge_id : Z) : Z * Z :=
  if is_valid_edge g edge_id
  then (at_ (fwd_offsets_ g) edge_id, at_ (fwd_offsets_ g) (wrap32 (edge_id + 1)))
  else (0, 0).

(** [CSRGraph::get_bwd_range] *)
Definition get_bwd_range (g : CSRGraph) (edge_id : Z) : Z * Z :=
  if is_valid_edge g edge_id
  then (at_ (bwd_offsets_ g) edge_id, at_ (bwd_offsets_ g) (wrap32 (edge_id + 1)))
  else (0, 0).

(** The shortcuts visited by
    [for (i = start; i < end && i < shortcuts_.size(); ++i)]
    over the forward range of [u]. *)
Definition fwd_shortcuts (g : CSRGraph) (u : Z) : list CSRShortcut :=
  let '(start, end_) := get_fwd_range g u in
  slice start end_ (shortcuts_ g).

(** The shortcuts visited by
    [for (k = start; k < end && k < bwd_indices_.size(); ++k)]
    over the backward range of [u], skipping an [idx >= shortcuts_.size()]. *)
Definition bwd_shortcuts (g : CSRGraph) (u : Z) : list CSRShortcut :=
  let '(start, end_) := get_bwd_range g u in
  omap (λ idx, if idx <? 0 then None else shortcuts_ g !! Z.to_nat idx)
       (slice start end_ (bwd_indices_ g)).

(** [CSRGraph::compute_high_cell] *)
Definition compute_high_cell `{H3Lib} (g : CSRGraph) (source_edge target_edge : Z)
    : CSRHighCell :=
  match edge_meta_ g !! source_edge, edge_meta_ g !! target_edge with
  | Some src, Some tgt =>
      let src_cell := em_to_cell src in
      let tgt_cell := em_to_cell tgt in
      if (src_cell =? 0) || (tgt_cell =? 0) then {| hc_cell := 0; hc_res := -1 |}
      else
        let lca := find_lca src_cell tgt_cell in
        let res := if lca =? 0 then -1 else get_resolution lca in
        {| hc_cell := lca; hc_res := res |}
  | _, _ => {| hc_cell := 0; hc_res := -1 |}
  end.

(** The loop of [find_shortcut_index] over the forward range, started at
    index [i]; a hit returns [static_cast<int>(i)]. *)
Fixpoint find_to (l : list CSRShortcut) (i v : Z) : Z :=
  match l with
  | [] => -1
  | sc :: l' => if sc_to sc =? v then int32 i else find_to l' (i + 1) v
  end.

(** [CSRGraph::find_shortcut_index] *)
Definition find_shortcut_index (g : CSRGraph) (u v : Z) : Z :=
  let '(first, last) := get_fwd_range g u in
  find_to (slice first last (shortcuts_ g)) first v.

(** ** [CSRGraph::load_shortcuts]

    The model starts from [temp_list], the rows read from the Parquet
    file.  A vector write out of range (undefined behaviour in C++) leaves
    the vector as it is. *)

(** [v[i] = x] *)
Definition set_at (v : list Z) (i x : Z) : list Z :=
  if i <? 0 then v else <[Z.to_nat i := x]> v.

(** [v[i]++] on a vector of [uint32_t] *)
Definition incr_at (v : list Z) (i : Z) : list Z :=
  set_at v i (wrap32 (at_ v i + 1)).

(** [for (const auto& sc : temp_list) max_edge_id_ = max(max(max_edge_id_, sc.from), sc.to)] *)
Definition find_max_edge_id (temp_list : list TempShortcut) : Z :=
  foldl (λ m sc, Z.max (Z.max m (t_from sc)) (t_to sc)) 0 temp_list.

(** [for (i = 0; i <= max_edge_id_; ++i) { offsets[i] = offset; offset += counts[i]; }]
    run for the indices [i], [i+1], ..., [i+n-1]. *)
Fixpoint prefix_sum_loop (n : nat) (i : Z) (counts offsets : list Z) (offset : Z)
    : list Z * Z :=
  match n with
  | O => (offsets, offset)
  | S n' =>
      prefix_sum_loop n' (i + 1) counts (set_at offsets i offset)
                      (wrap32 (offset + at_ counts i))
  end.

(** The construction of an offsets vector from the per-edge counts. *)
Definition build_offsets (max_edge_id : Z) (counts : list Z) : list Z :=
  let offsets := replicate (Z.to_nat (wrap32 (max_edge_id + 2))) 0 in
  let '(offsets, offset) :=
    prefix_sum_loop (Z.to_nat (max_edge_id + 1)) 0 counts offsets 0 in
  set_at offsets (wrap32 (max_edge_id + 1)) offset.

(** The copy of a [TempShortcut] into a [CSRShortcut]; the two bit-fields
    keep the low bits. *)
Definition to_csr (t : TempShortcut) : CSRShortcut :=
  {| sc_cell := t_cell t;
     sc_cost := t_cost t;
     sc_from := t_from t;
     sc_to := t_to t;
     sc_via_edge := bits30 (t_via_edge t);
     sc_inside := sbits2 (t_inside t) |}.

(** [for (i = 0; i < shortcuts_.size(); ++i)
       bwd_indices_[current_pos[shortcuts_[i].to]++] = i;]
    over the shortcuts [l], the first of which has index [i]. *)
Fixpoint fill_bwd (l : list CSRShortcut) (i : Z) (current_pos bwd_indices : list Z)
    : list Z :=
  match l with
  | [] => bwd_indices
  | sc :: l' =>
      let target := sc_to sc in
      fill_bwd l' (i + 1) (incr_at current_pos target)
               (set_at bwd_indices (at_ current_pos target) (wrap32 i))
  end.

(** [CSRGraph::load_shortcuts], on a graph whose [edge_meta_] is [em];
    [None] is the return value [false]. *)
Definition load_shortcuts `{Stl} (em : gmap Z CSREdgeMeta)
    (temp_list : list TempShortcut) : option CSRGraph :=
  match temp_list with
  | [] => None
  | _ =>
      let max_edge_id := find_max_edge_id temp_list in
      let sorted := std_sort temp_list in
      let counts0 := replicate (Z.to_nat (wrap32 (max_edge_id + 1))) 0 in
      let counts := foldl (λ cs sc, incr_at cs (t_from sc)) counts0 sorted in
      let fwd_offsets := build_offsets max_edge_id counts in
      let shortcuts := to_csr <$> sorted in
      let counts := foldl (λ cs sc, incr_at cs (sc_to sc)) counts0 shortcuts in
      let bwd_offsets := build_offsets max_edge_id counts in
      let current_pos := take (length bwd_offsets - 1) bwd_offsets in
      let bwd_indices :=
        fill_bwd shortcuts 0 current_pos (replicate (length shortcuts) 0) in
      Some {| shortcuts_ := shortcuts;
              fwd_offsets_ := fwd_offsets;
              bwd_offsets_ := bwd_offsets;
              bwd_indices_ := bwd_indices;
              max_edge_id_ := max_edge_id;
              edge_meta_ := em |}
  end.

(** ** [CSRGraph::expand_path] *)

(** The recursive lambda [expand] of [expand_path].  The argument
    [budget] is [51 - depth]: the test [depth > 50] is [budget = 0].  The
    pushes onto [result] are returned as a list.  The index is an [int]
    and is compared with [static_cast<int>(shortcuts_.size())]. *)
Fixpoint expand (g : CSRGraph) (budget : nat) (u v : Z) : list Z :=
  match budget with
  | O => [u]
  | S budget' =>
      let idx := find_shortcut_index g u v in
      if (idx <? 0) || (idx >=? int32 (Z.of_nat (length (shortcuts_ g)))) then [u]
      else
        match shortcuts_ g !! Z.to_nat idx with
        | None => [u]
        | Some sc =>
            let via := sc_via_edge sc in
            if (via =? u) || (via =? v) || (via =? 0) then [u]
            else expand g budget' u via ++ expand g budget' via v
        end
  end.

(** [for (i = 0; i + 1 < shortcut_path.size(); ++i) expand(path[i], path[i+1], 0);] *)
Fixpoint expand_pairs (g : CSRGraph) (shortcut_path : list Z) : list Z :=
  match shortcut_path with
  | a :: (b :: _) as rest => expand g 51 a b ++ expand_pairs g rest
  | _ => []
  end.

(** [CSRGraph::expand_path] *)
Definition expand_path (g : CSRGraph) (shortcut_path : list Z) : list Z :=
  match shortcut_path with
  | [] | [_] => shortcut_path
  | _ => expand_pairs g shortcut_path ++ [List.last shortcut_path 0]
  end.

(** ** The query engine: shared pieces

    [struct PQEntry] is the pair [(dist, edge)], [struct PQEntryWithRes]
    the pair [(dist, (edge, res))] and [struct PQEntryWithState] the pair
    [(dist, state)].  A priority queue is the list of its entries;
    [pq_pop] is [top()] followed by [pop()]. *)

(** One direction of a search: the maps [dist_*], [parent_*] and the
    queue [pq_*]; [E] is the payload of a queue entry. *)
Record Frontier (E : Type) := {
  dist : gmap Z Z;
  parent : gmap Z Z;
  pq : list (Z * E)
}.
Arguments dist {E} _.
Arguments parent {E} _.
Arguments pq {E} _.

(** The locals [best], [meeting] and [found]. *)
Record Meet := {
  best : Dist;
  meeting : Z;
  found : bool
}.

(** [pq.empty()] *)
Definition pq_empty {E} (q : list (Z * E)) : bool :=
  match q with [] => true | _ => false end.

(** [pq.top().dist] *)
Definition pq_top_dist `{Stl} {E} (q : list (Z * E)) : option Z :=
  match pq_pop q with
  | Some (e, _) => Some e.1
  | None => None
  end.

(** [it = dist.find(u); it != dist.end() && d > it->second] *)
Definition stale (dist : gmap Z Z) (u d : Z) : bool :=
  match dist !! u with
  | Some du => d >? du
  | None => false
  end.

(** [v_it == dist.end() || nd < v_it->second] *)
Definition improves (dist : gmap Z Z) (v nd : Z) : bool :=
  match dist !! v with
  | Some old => nd <? old
  | None => true
  end.

(** [dist[v] = nd; parent[v] = u; pq.push({nd, e});] *)
Definition update {E} (f : Frontier E) (u v nd : Z) (e : E) : Frontier E :=
  {| dist := <[v := nd]> (dist f);
     parent := <[v := u]> (parent f);
     pq := (nd, e) :: pq f |}.

(** [it = other.find(v); if (it != other.end()) { total = nd + it->second;
    if (total < best) { best = total; meeting = v; found = true; } }] *)
Definition meet_check (other : gmap Z Z) (v nd : Z) (m : Meet) : Meet :=
  match other !! v with
  | Some o =>
      let total := nd + o in
      if Dlt (Fin total) (best m)
      then {| best := Fin total; meeting := v; found := true |}
      else m
  | None => m
  end.

(** The relaxation of one shortcut from [u], popped at distance [d], to
    its other end [a.1] at cost [a.2], as [query_classic],
    [query_bidijkstra] and [query_multi] do it: with the look-up of the
    other direction. *)
Definition relax (other : gmap Z Z) (d u : Z) (s : Frontier Z * Meet) (a : Z * Z)
    : Frontier Z * Meet :=
  let nd := d + a.2 in
  if improves (dist s.1) a.1 nd
  then (update s.1 u a.1 nd a.1, meet_check other a.1 nd s.2)
  else s.

(** The relaxation of [query_dijkstra]: no other direction. *)
Definition relax_plain (d u : Z) (f : Frontier Z) (a : Z * Z) : Frontier Z :=
  let nd := d + a.2 in
  if improves (dist f) a.1 nd then update f u a.1 nd a.1 else f.

(** The other end and the cost of the shortcuts that a direction of a
    search may take from [u]. *)
Definition fwd_arcs (allowed : CSRShortcut → bool) (g : CSRGraph) (u : Z)
    : list (Z * Z) :=
  (λ sc, (sc_to sc, sc_cost sc)) <$> filter (λ sc, allowed sc = true) (fwd_shortcuts g u).

Definition bwd_arcs (allowed : CSRShortcut → bool) (g : CSRGraph) (u : Z)
    : list (Z * Z) :=
  (λ sc, (sc_from sc, sc_cost sc)) <$> filter (λ sc, allowed sc = true) (bwd_shortcuts g u).

(** [if (sc.inside != 1) continue;] *)
Definition climbs (sc : CSRShortcut) : bool := sc_inside sc =? 1.

(** [if (sc.inside != -1 && sc.inside != 0) continue;] *)
Definition descends (sc : CSRShortcut) : bool :=
  (sc_inside sc =? -1) || (sc_inside sc =? 0).

(** No filter on [inside]. *)
Definition any_shortcut (sc : CSRShortcut) : bool := true.

(** The [while (true)] loops that follow [parent] from [curr] until an
    edge without parent or its own parent: the edges visited. *)
Fixpoint follow (fuel : nat) (parent : gmap Z Z) (curr : Z) : option (list Z) :=
  match fuel with
  | O => None
  | S fuel' =>
      match parent !! curr with
      | None => Some [curr]
      | Some p =>
          if p =? curr then Some [curr]
          else cons curr <$> follow fuel' parent p
      end
  end.

(** The path of the bidirectional searches: the forward chain of
    [meeting] reversed, then the backward chain after [meeting]. *)
Definition bidir_path (fuel : nat) (parent_fwd parent_bwd : gmap Z Z) (meeting : Z)
    : option (list Z) :=
  match follow fuel parent_fwd meeting, follow fuel parent_bwd meeting with
  | Some pf, Some pb => Some (reverse pf ++ tail pb)
  | _, _ => None
  end.

(** [return {-1, {}, false, msg};] *)
Definition failed (msg : string) : CSRQueryResult :=
  {| distance := Fin (-1); path := []; reachable := false; error := msg |}.

(** [return {get_edge_cost(source_edge), {source_edge}, true, ""};] *)
Definition self_result (g : CSRGraph) (source_edge : Z) : CSRQueryResult :=
  {| distance := Fin (get_edge_cost g source_edge);
     path := [source_edge];
     reachable := true;
     error := "" |}.

(** [dist[source] = 0.0; parent[source] = source; pq.push({0.0, source});]
    and the same for the target with its cost. *)
Definition seed {E} (edge key : Z) (e : E) : Frontier E :=
  {| dist := {[edge := key]}; parent := {[edge := edge]}; pq := [(key, e)] |}.

Definition no_meet : Meet := {| best := Inf; meeting := 0; found := false |}.

(** ** [query_classic], [query_multi]: the loop *)

(** One block [if (!pq.empty()) { ... }] of the loop of [query_classic]:
    [this] is the direction that moves, [other] the opposite one.  The
    boolean tells whether the block left through [continue]. *)
Definition classic_half `{Stl} (arcs : Z → list (Z * Z))
    (this other : Frontier Z) (m : Meet) : bool * (Frontier Z * Meet) :=
  match pq_pop (pq this) with
  | None => (false, (this, m))
  | Some ((d, u), q) =>
      let this := {| dist := dist this; parent := parent this; pq := q |} in
      if stale (dist this) u d then (true, (this, m))
      else if Dle (best m) (Fin d) then (true, (this, m))
      else (false, foldl (relax (dist other) d u) (this, m) (arcs u))
  end.

(** The early termination test at the end of the loop body. *)
Definition classic_done `{Stl} (f b : Frontier Z) (m : Meet) : bool :=
  match pq_top_dist (pq f), pq_top_dist (pq b) with
  | Some tf, Some tb => Dle (best m) (Fin tf) && Dle (best m) (Fin tb)
  | None, None => true
  | _, _ => false
  end.

(** [while (!pq_fwd.empty() || !pq_bwd.empty()) { ... }] *)
Fixpoint classic_loop `{Stl} (fuel : nat) (farcs barcs : Z → list (Z * Z))
    (f b : Frontier Z) (m : Meet) : option (Frontier Z * Frontier Z * Meet) :=
  match fuel with
  | O => None
  | S fuel' =>
      if pq_empty (pq f) && pq_empty (pq b) then Some (f, b, m)
      else
        let '(cont, (f, m)) := classic_half farcs f b m in
        if cont then classic_loop fuel' farcs barcs f b m
        else
          let '(cont, (b, m)) := classic_half barcs b f m in
          if cont then classic_loop fuel' farcs barcs f b m
          else if classic_done f b m then Some (f, b, m)
          else classic_loop fuel' farcs barcs f b m
  end.

(** The end of the bidirectional queries: [if (!found) return ...;] and
    the reconstruction of the path; [dist] is the distance returned. *)
Definition bidir_result (fuel : nat) (msg : string)
    (s : Frontier Z * Frontier Z * Meet) : option CSRQueryResult :=
  let '(f, b, m) := s in
  if negb (found m) then Some (failed msg)
  else
    match bidir_path fuel (parent f) (parent b) (meeting m) with
    | Some p => Some {| distance := best m; path := p; reachable := true; error := "" |}
    | None => None
    end.

(** The state before the loop of [query_classic] and of
    [query_bidijkstra]: the source at 0 in the forward direction, the
    target at its own cost in the backward direction. *)
Definition classic_init (g : CSRGraph) (source_edge target_edge : Z)
    : Frontier Z * Frontier Z * Meet :=
  let f := seed source_edge 0 source_edge in
  let target_cost := get_edge_cost g target_edge in
  let b := seed target_edge target_cost target_edge in
  (f, b, no_meet).

(** [CSRGraph::query_classic] *)
Definition query_classic `{Stl} (fuel : nat) (g : CSRGraph)
    (source_edge target_edge : Z) : option CSRQueryResult :=
  if source_edge =? target_edge then Some (self_result g source_edge)
  else if negb (bool_decide (is_Some (edge_meta_ g !! source_edge)))
  then Some (failed "Source edge not found")
  else if negb (bool_decide (is_Some (edge_meta_ g !! target_edge)))
  then Some (failed "Target edge not found")
  else
    let '(f, b, m) := classic_init g source_edge target_edge in
    match classic_loop fuel (fwd_arcs climbs g) (bwd_arcs descends g) f b m with
    | Some s => bidir_result fuel "No path found" s
    | None => None
    end.

(** The two initialisation loops of [query_multi]: an edge is seeded if
    it is in [edge_meta_]. *)
Definition seed_all (g : CSRGraph) (key : Z → Z) (edges : list Z) : Frontier Z :=
  foldl (λ f e,
           if bool_decide (is_Some (edge_meta_ g !! e))
           then {| dist := <[e := key e]> (dist f);
                   parent := <[e := e]> (parent f);
                   pq := (key e, e) :: pq f |}
           else f)
        {| dist := ∅; parent := ∅; pq := [] |} edges.

(** The state before the loop of [query_multi]. *)
Definition multi_init (g : CSRGraph) (source_edges target_edges : list Z)
    : Frontier Z * Frontier Z * Meet :=
  let f := seed_all g (λ _, 0) source_edges in
  let b := seed_all g (get_edge_cost g) target_edges in
  (f, b, no_meet).

(** [CSRGraph::query_multi]; [source_dists] and [target_dists] are not
    read by the function. *)
Definition query_multi `{Stl} (fuel : nat) (g : CSRGraph)
    (source_edges : list Z) (source_dists : list Z)
    (target_edges : list Z) (target_dists : list Z) : option CSRQueryResult :=
  let '(f, b, m) := multi_init g source_edges target_edges in
  match classic_loop fuel (fwd_arcs climbs g) (bwd_arcs descends g) f b m with
  | Some s => bidir_result fuel "No path found" s
  | None => None
  end.

(** ** [query_classic_alt]

    The loop is the one of [query_classic] with the cost of a shortcut
    multiplied by [penalty_factor] when its far end or its via edge is
    penalised.  The product [cost * penalty_factor], computed in [double],
    is the function [times]. *)

(** [penalty_set]: the penalised edges without the two endpoints. *)
Definition penalty_set (penalized_nodes : list Z) (source_edge target_edge : Z) : gset Z :=
  list_to_set penalized_nodes ∖ {[source_edge]} ∖ {[target_edge]}.

(** [cost = sc.cost; if (penalty_set.count(end) || (sc.via_edge != 0 &&
    penalty_set.count(sc.via_edge))) cost *= penalty_factor;] where [end]
    is [sc.to] in the forward block and [sc.from] in the backward one. *)
Definition alt_cost (times : Z → Z) (pset : gset Z) (far_end : Z) (sc : CSRShortcut) : Z :=
  if bool_decide (far_end ∈ pset)
     || (negb (sc_via_edge sc =? 0) && bool_decide (sc_via_edge sc ∈ pset))
  then times (sc_cost sc)
  else sc_cost sc.

Definition alt_fwd_arcs (times : Z → Z) (pset : gset Z) (g : CSRGraph) (u : Z)
    : list (Z * Z) :=
  (λ sc, (sc_to sc, alt_cost times pset (sc_to sc) sc))
    <$> filter (λ sc, climbs sc = true) (fwd_shortcuts g u).

Definition alt_bwd_arcs (times : Z → Z) (pset : gset Z) (g : CSRGraph) (u : Z)
    : list (Z * Z) :=
  (λ sc, (sc_from sc, alt_cost times pset (sc_from sc) sc))
    <$> filter (λ sc, descends sc = true) (bwd_shortcuts g u).

(** [for (i = 1; i < path.size(); ++i)] of the cost without penalties:
    the cost of the first shortcut of the forward range of [path[i-1]]
    that goes to [path[i]] is added to [true_total]; [None] is the return
    of "Path reconstruction error". *)
Fixpoint true_total (g : CSRGraph) (path : list Z) (total : Z) : option Z :=
  match path with
  | a :: (b :: _) as rest =>
      match List.find (λ sc, sc_to sc =? b) (fwd_shortcuts g a) with
      | Some sc => true_total g rest (total + sc_cost sc)
      | None => None
      end
  | _ => Some total
  end.

(** [CSRGraph::query_classic_alt]; [std::to_string] of an edge id is
    [pretty].  The path is never empty where [path[0]] is read. *)
Definition query_classic_alt `{Stl} (fuel : nat) (g : CSRGraph)
    (source_edge target_edge : Z) (penalized_nodes : list Z) (times : Z → Z)
    : option CSRQueryResult :=
  if source_edge =? target_edge then Some (self_result g source_edge)
  else if negb (is_valid_edge g source_edge)
  then Some (failed ("Source edge " +:+ pretty source_edge +:+ " not found in graph"))
  else if negb (is_valid_edge g target_edge)
  then Some (failed ("Target edge " +:+ pretty target_edge +:+ " not found in graph"))
  else
    let pset := penalty_set penalized_nodes source_edge target_edge in
    let '(f, b, m) := classic_init g source_edge target_edge in
    match classic_loop fuel (alt_fwd_arcs times pset g) (alt_bwd_arcs times pset g) f b m with
    | None => None
    | Some (f, b, m) =>
        if negb (found m) then Some (failed "No path found")
        else
          match bidir_path fuel (parent f) (parent b) (meeting m) with
          | None => None
          | Some path =>
              match true_total g path (get_edge_cost g (List.hd 0 path)) with
              | Some total =>
                  Some {| distance := Fin total; path := path; reachable := true;
                          error := "" |}
              | None => Some (failed "Path reconstruction error")
              end
          end
    end.

(** ** [query_bidijkstra] *)

(** [dist[u]] through [operator[]]: 0 for an edge that is not there. *)
Definition dist_at (dist : gmap Z Z) (u : Z) : Z := default 0 (dist !! u).

(** One of the two branches of the loop body: [pop], [if (d > dist[u])
    continue;], then the relaxations. *)
Definition bidijkstra_half `{Stl} (arcs : Z → list (Z * Z))
    (this other : Frontier Z) (m : Meet) : Frontier Z * Meet :=
  match pq_pop (pq this) with
  | None => (this, m)
  | Some ((d, u), q) =>
      let this := {| dist := dist this; parent := parent this; pq := q |} in
      if d >? dist_at (dist this) u then (this, m)
      else foldl (relax (dist other) d u) (this, m) (arcs u)
  end.

(** [while (!pq_fwd.empty() && !pq_bwd.empty()) { ... }] *)
Fixpoint bidijkstra_loop `{Stl} (fuel : nat) (farcs barcs : Z → list (Z * Z))
    (f b : Frontier Z) (m : Meet) : option (Frontier Z * Frontier Z * Meet) :=
  match fuel with
  | O => None
  | S fuel' =>
      match pq_top_dist (pq f), pq_top_dist (pq b) with
      | Some tf, Some tb =>
          if Dle (best m) (Fin (tf + tb)) then Some (f, b, m)
          else if tf <=? tb then
            let '(f, m) := bidijkstra_half farcs f b m in
            bidijkstra_loop fuel' farcs barcs f b m
          else
            let '(b, m) := bidijkstra_half barcs b f m in
            bidijkstra_loop fuel' farcs barcs f b m
      | _, _ => Some (f, b, m)
      end
  end.

(** [CSRGraph::query_bidijkstra] *)
Definition query_bidijkstra `{Stl} (fuel : nat) (g : CSRGraph)
    (source_edge target_edge : Z) : option CSRQueryResult :=
  if source_edge =? target_edge then Some (self_result g source_edge)
  else if negb (bool_decide (is_Some (edge_meta_ g !! source_edge)))
  then Some (failed "Source edge not found")
  else if negb (bool_decide (is_Some (edge_meta_ g !! target_edge)))
  then Some (failed "Target edge not found")
  else
    let '(f, b, m) := classic_init g source_edge target_edge in
    match bidijkstra_loop fuel (fwd_arcs any_shortcut g) (bwd_arcs any_shortcut g)
                          f b m with
    | Some s => bidir_result fuel "No path found between source and target" s
    | None => None
    end.

(** ** [query_dijkstra] *)

(** [while (!pq.empty()) { ... }]; the result is the frontier and, when
    the target was popped, [best_dist]. *)
Fixpoint dijkstra_loop `{Stl} (fuel : nat) (arcs : Z → list (Z * Z))
    (target_edge : Z) (f : Frontier Z) : option (Frontier Z * option Z) :=
  match fuel with
  | O => None
  | S fuel' =>
      match pq_pop (pq f) with
      | None => Some (f, None)
      | Some ((d, u), q) =>
          let f := {| dist := dist f; parent := parent f; pq := q |} in
          if d >? dist_at (dist f) u then dijkstra_loop fuel' arcs target_edge f
          else if u =? target_edge then Some (f, Some d)
          else dijkstra_loop fuel' arcs target_edge (foldl (relax_plain d u) f (arcs u))
      end
  end.

(** [while (curr != source_edge) { path.push_back(curr); curr = parent[curr]; }
    path.push_back(source_edge);] *)
Fixpoint follow_to (fuel : nat) (parent : gmap Z Z) (source_edge curr : Z)
    : option (list Z) :=
  match fuel with
  | O => None
  | S fuel' =>
      if curr =? source_edge then Some [source_edge]
      else cons curr <$> follow_to fuel' parent source_edge (dist_at parent curr)
  end.

(** [CSRGraph::query_dijkstra] *)
Definition query_dijkstra `{Stl} (fuel : nat) (g : CSRGraph)
    (source_edge target_edge : Z) : option CSRQueryResult :=
  if source_edge =? target_edge then Some (self_result g source_edge)
  else if negb (bool_decide (is_Some (edge_meta_ g !! source_edge)))
  then Some (failed "Source edge not found")
  else if negb (bool_decide (is_Some (edge_meta_ g !! target_edge)))
  then Some (failed "Target edge not found")
  else
    let f := seed source_edge 0 source_edge in
    match dijkstra_loop fuel (fwd_arcs any_shortcut g) target_edge f with
    | None => None
    | Some (_, None) => Some (failed "Path not found")
    | Some (f, Some best_dist) =>
        match follow_to fuel (parent f) source_edge target_edge with
        | None => None
        | Some p =>
            Some {| distance := Fin (best_dist + get_edge_cost g target_edge);
                    path := reverse p;
                    reachable := true;
                    error := "" |}
        end
    end.

(** ** [query_pruned] *)

(** The locals of [query_pruned] besides the two frontiers. *)
Record PrunedMeet := {
  pm_meet : Meet;
  min_arrival_fwd : Dist;
  min_arrival_bwd : Dist
}.

(** [std::min(a, b)] on doubles: [b] when [b < a], else [a]. *)
Definition std_min (a b : Dist) : Dist := Dmin a b.

(** The look-up of the popped edge in the opposite map, at the top of
    both blocks: [this_arrival] and [other_arrival] are the two
    [min_arrival_*] of the moving and of the opposite direction. *)
Definition pruned_meet_at_pop (this other : gmap Z Z) (d u : Z)
    (m : Meet) (this_arrival other_arrival : Dist) : Meet * Dist * Dist :=
  match other !! u with
  | Some o =>
      let this_arrival := std_min (Fin (dist_at this u)) this_arrival in
      let other_arrival := std_min (Fin o) other_arrival in
      if Dlt (Fin (d + o)) (best m)
      then ({| best := Fin (d + o); meeting := u; found := true |},
            this_arrival, other_arrival)
      else (m, this_arrival, other_arrival)
  | None => (m, this_arrival, other_arrival)
  end.

(** The relaxations of [query_pruned]: the entry pushed carries
    [sc.get_res()], and there is no look-up of the opposite map. *)
Definition relax_res (d u : Z) (f : Frontier (Z * Z)) (a : Z * Z * Z)
    : Frontier (Z * Z) :=
  let '(v, c, r) := a in
  let nd := d + c in
  if improves (dist f) v nd then update f u v nd (v, r) else f.

(** The forward block of the loop of [query_pruned]. *)
Definition pruned_fwd `{Stl} (g : CSRGraph) (high : CSRHighCell)
    (f b : Frontier (Z * Z)) (pm : PrunedMeet)
    : bool * (Frontier (Z * Z) * PrunedMeet) :=
  match pq_pop (pq f) with
  | None => (false, (f, pm))
  | Some ((d, (u, u_res)), q) =>
      let f := {| dist := dist f; parent := parent f; pq := q |} in
      let '(m, maf, mab) :=
        pruned_meet_at_pop (dist f) (dist b) d u (pm_meet pm)
                           (min_arrival_fwd pm) (min_arrival_bwd pm) in
      let pm := {| pm_meet := m; min_arrival_fwd := maf; min_arrival_bwd := mab |} in
      if stale (dist f) u d then (true, (f, pm))
      else if Dle (best m) (Fin d) then (true, (f, pm))
      else if u_res <? hc_res high then
        (true, (f, {| pm_meet := m;
                      min_arrival_fwd := std_min (Fin (dist_at (dist f) u)) maf;
                      min_arrival_bwd := mab |}))
      else
        let maf := if u_res =? hc_res high
                   then std_min (Fin (dist_at (dist f) u)) maf else maf in
        let arcs := (λ sc, (sc_to sc, sc_cost sc, get_res sc))
                      <$> filter (λ sc, climbs sc = true) (fwd_shortcuts g u) in
        (false, (foldl (relax_res d u) f arcs,
                 {| pm_meet := m; min_arrival_fwd := maf; min_arrival_bwd := mab |}))
  end.

(** The [allowed] flag of the backward block. *)
Definition pruned_bwd_allowed (u_res high_res : Z) (sc : CSRShortcut) : bool :=
  let check := u_res >=? high_res in
  if (sc_inside sc =? -1) && check then true
  else if (sc_inside sc =? 0) && (u_res <=? high_res) then true
  else if (sc_inside sc =? -2) && negb check then true
  else false.

(** The backward block of the loop of [query_pruned]. *)
Definition pruned_bwd `{Stl} (g : CSRGraph) (high : CSRHighCell)
    (f b : Frontier (Z * Z)) (pm : PrunedMeet)
    : bool * (Frontier (Z * Z) * PrunedMeet) :=
  match pq_pop (pq b) with
  | None => (false, (b, pm))
  | Some ((d, (u, u_res)), q) =>
      let b := {| dist := dist b; parent := parent b; pq := q |} in
      let '(m, mab, maf) :=
        pruned_meet_at_pop (dist b) (dist f) d u (pm_meet pm)
                           (min_arrival_bwd pm) (min_arrival_fwd pm) in
      let pm := {| pm_meet := m; min_arrival_fwd := maf; min_arrival_bwd := mab |} in
      if stale (dist b) u d then (true, (b, pm))
      else if Dle (best m) (Fin d) then (true, (b, pm))
      else
        let check := u_res >=? hc_res high in
        let mab := if (u_res =? hc_res high) || negb check
                   then std_min (Fin (dist_at (dist b) u)) mab else mab in
        let arcs := (λ sc, (sc_from sc, sc_cost sc, get_res sc))
                      <$> filter (λ sc, pruned_bwd_allowed u_res (hc_res high) sc = true)
                                 (bwd_shortcuts g u) in
        (false, (foldl (relax_res d u) b arcs,
                 {| pm_meet := m; min_arrival_fwd := maf; min_arrival_bwd := mab |}))
  end.

(** The early termination test of [query_pruned]. *)
Definition pruned_done `{Stl} (f b : Frontier (Z * Z)) (pm : PrunedMeet) : bool :=
  let best := best (pm_meet pm) in
  if Dlt best Inf then
    let top_f := pq_top_dist (pq f) in
    let top_b := pq_top_dist (pq b) in
    let bound_fwd := match top_f with
                     | Some t => std_min (min_arrival_fwd pm) (Fin t)
                     | None => min_arrival_fwd pm
                     end in
    let bound_bwd := match top_b with
                     | Some t => std_min (min_arrival_bwd pm) (Fin t)
                     | None => min_arrival_bwd pm
                     end in
    let fwd_good := match top_f with
                    | Some t => Dlt (Dadd (Fin t) bound_bwd) best
                    | None => false
                    end in
    let bwd_good := match top_b with
                    | Some t => Dlt (Dadd (Fin t) bound_fwd) best
                    | None => false
                    end in
    negb fwd_good && negb bwd_good
  else false.

(** [while (!pq_fwd.empty() || !pq_bwd.empty()) { ... }] of [query_pruned] *)
Fixpoint pruned_loop `{Stl} (fuel : nat) (g : CSRGraph) (high : CSRHighCell)
    (f b : Frontier (Z * Z)) (pm : PrunedMeet)
    : option (Frontier (Z * Z) * Frontier (Z * Z) * PrunedMeet) :=
  match fuel with
  | O => None
  | S fuel' =>
      if pq_empty (pq f) && pq_empty (pq b) then Some (f, b, pm)
      else
        let '(cont, (f, pm)) := pruned_fwd g high f b pm in
        if cont then pruned_loop fuel' g high f b pm
        else
          let '(cont, (b, pm)) := pruned_bwd g high f b pm in
          if cont then pruned_loop fuel' g high f b pm
          else if pruned_done f b pm then Some (f, b, pm)
          else pruned_loop fuel' g high f b pm
  end.

(** [CSRGraph::query_pruned] *)
Definition query_pruned `{Stl} `{H3Lib} (fuel : nat) (g : CSRGraph)
    (source_edge target_edge : Z) : option CSRQueryResult :=
  if source_edge =? target_edge then Some (self_result g source_edge)
  else if negb (bool_decide (is_Some (edge_meta_ g !! source_edge)))
  then Some (failed "Source edge not found")
  else if negb (bool_decide (is_Some (edge_meta_ g !! target_edge)))
  then Some (failed "Target edge not found")
  else
    let high := compute_high_cell g source_edge target_edge in
    let src_res := match edge_meta_ g !! source_edge with
                   | Some m => int8 (em_lca_res m) | None => -1 end in
    let tgt_res := match edge_meta_ g !! target_edge with
                   | Some m => int8 (em_lca_res m) | None => -1 end in
    let f := seed source_edge 0 (source_edge, src_res) in
    let target_cost := get_edge_cost g target_edge in
    let b := seed target_edge target_cost (target_edge, tgt_res) in
    let pm := {| pm_meet := no_meet; min_arrival_fwd := Inf; min_arrival_bwd := Inf |} in
    match pruned_loop fuel g high f b pm with
    | None => None
    | Some (f, b, pm) =>
        let m := pm_meet pm in
        if negb (found m) then Some (failed "No path found")
        else
          match bidir_path fuel (parent f) (parent b) (meeting m) with
          | Some p =>
              Some {| distance := best m; path := p; reachable := true; error := "" |}
          | None => None
          end
    end.

(** ** [query_unidirectional], as defined in [csr_graph.cpp]

    The search state is packed as [(edge << 4) | phase]. *)

(** One direction of a search over packed states. *)
Record StateFrontier := {
  dist_map : gmap Z Z;
  parent_map : gmap Z Z;
  spq : list (Z * Z)
}.

(** The [allowed] flag and [next_phase] of one shortcut, from the four
    phases of the draft in [csr_graph.cpp]. *)
Definition phase_transition (phase high_res : Z) (sc : CSRShortcut) : option Z :=
  if (phase =? 0) || (phase =? 1) then
    if (get_res sc >? high_res) && (sc_inside sc =? 1) then Some 1
    else if (get_res sc <=? high_res) && (sc_inside sc =? 1) then Some 2
    else if negb (sc_inside sc =? 1) then Some 2
    else None
  else if phase =? 2 then
    if negb (sc_inside sc =? 1) then Some 3 else None
  else if phase =? 3 then
    if sc_inside sc =? -1 then Some 3 else None
  else None.

(** The relaxation of a packed state. *)
Definition relax_state (d curr_packed : Z) (f : StateFrontier) (a : Z * Z)
    : StateFrontier :=
  let '(next_state, c) := a in
  let new_dist := d + c in
  if improves (dist_map f) next_state new_dist
  then {| dist_map := <[next_state := new_dist]> (dist_map f);
          parent_map := <[next_state := curr_packed]> (parent_map f);
          spq := (new_dist, next_state) :: spq f |}
  else f.

(** The locals [best_dist], [best_end_state], [found]. *)
Record UniBest := {
  best_dist : Dist;
  best_end_state : Z;
  ufound : bool
}.

(** [while (!pq.empty()) { ... }] of the draft in [csr_graph.cpp] *)
Fixpoint phase_loop `{Stl} (fuel : nat) (g : CSRGraph) (high : CSRHighCell)
    (target_edge : Z) (f : StateFrontier) (b : UniBest)
    : option (StateFrontier * UniBest) :=
  match fuel with
  | O => None
  | S fuel' =>
      match pq_pop (spq f) with
      | None => Some (f, b)
      | Some ((d, curr_packed), q) =>
          let f := {| dist_map := dist_map f; parent_map := parent_map f; spq := q |} in
          let u := wrap32 (Z.shiftr curr_packed 4) in
          let phase := Z.land curr_packed 15 in
          if d >? dist_at (dist_map f) curr_packed then phase_loop fuel' g high target_edge f b
          else if Dle (best_dist b) (Fin d) then phase_loop fuel' g high target_edge f b
          else if u =? target_edge then
            Some (f, {| best_dist := Fin (d + get_edge_cost g target_edge);
                        best_end_state := curr_packed;
                        ufound := true |})
          else
            let arcs :=
              omap (λ sc, match phase_transition phase (hc_res high) sc with
                          | Some next_phase =>
                              Some (Z.lor (Z.shiftl (sc_to sc) 4) next_phase, sc_cost sc)
                          | None => None
                          end)
                   (fwd_shortcuts g u) in
            phase_loop fuel' g high target_edge (foldl (relax_state d curr_packed) f arcs) b
      end
  end.

(** The reconstruction of the path from the packed states. *)
Definition state_path (fuel : nat) (parent_map : gmap Z Z) (best_end_state : Z)
    : option (list Z) :=
  match follow fuel parent_map best_end_state with
  | Some states => Some (reverse ((λ s, wrap32 (Z.shiftr s 4)) <$> states))
  | None => None
  end.

(** [CSRGraph::query_unidirectional] of [csr_graph.cpp] *)
Definition query_unidirectional `{Stl} `{H3Lib} (fuel : nat) (g : CSRGraph)
    (source_edge target_edge : Z) : option CSRQueryResult :=
  if source_edge =? target_edge then Some (self_result g source_edge)
  else if negb (is_valid_edge g source_edge) then Some (failed "Source edge not found")
  else if negb (is_valid_edge g target_edge) then Some (failed "Target edge not found")
  else
    let high := compute_high_cell g source_edge target_edge in
    let start_state := Z.lor (Z.shiftl source_edge 4) 0 in
    let f := {| dist_map := {[start_state := 0]};
                parent_map := {[start_state := start_state]};
                spq := [(0, start_state)] |} in
    let b := {| best_dist := Inf; best_end_state := 0; ufound := false |} in
    match phase_loop fuel g high target_edge f b with
    | None => None
    | Some (f, b) =>
        if negb (ufound b) then Some (failed "No path found")
        else
          match state_path fuel (parent_map f) (best_end_state b) with
          | Some p =>
              Some {| distance := best_dist b; path := p; reachable := true; error := "" |}
          | None => None
          end
    end.

(** ** [query_unidirectional], as defined in [query_unidirectional_impl.cpp]

    The search state is packed as
    [(edge << 4) | (counter << 1) | used_minus1]. *)

(** [(edge << 4) | (counter << 1) | (used_minus1 ? 1 : 0)] *)
Definition pack_state (edge counter : Z) (used_minus1 : bool) : Z :=
  Z.lor (Z.lor (Z.shiftl edge 4) (Z.shiftl counter 1)) (if used_minus1 then 1 else 0).

(** The three reads at the top of the loop body. *)
Definition unpack_state (curr_packed : Z) : Z * Z * bool :=
  (wrap32 (Z.shiftr curr_packed 4),
   Z.land (Z.shiftr curr_packed 1) 7,
   negb (Z.land curr_packed 1 =? 0)).

(** The pruning rules of the loop body: [can_use], and with it
    [next_counter] and [next_used_minus1]. *)
Definition uni_transition (u_res high_res : Z) (counter : Z) (used_minus1 : bool)
    (inside : Z) : option (Z * bool) :=
  if u_res >? high_res then
    if inside =? 1 then Some (counter, used_minus1)
    else if inside =? -1 then
      if negb used_minus1 then Some (counter, true) else None
    else None
  else
    if inside =? -1 then Some (counter, used_minus1)
    else if (inside =? 0) || (inside =? -2) then
      if counter <? 2 then Some (counter + 1, used_minus1) else None
    else None.

(** [while (!pq.empty()) { ... }] of the draft in
    [query_unidirectional_impl.cpp]; [int u_res = meta->lca_res] narrows
    the [int64_t] field to [int]. *)
Fixpoint uni_loop `{Stl} (fuel : nat) (g : CSRGraph) (high : CSRHighCell)
    (target_edge : Z) (f : StateFrontier) (b : UniBest)
    : option (StateFrontier * UniBest) :=
  match fuel with
  | O => None
  | S fuel' =>
      match pq_pop (spq f) with
      | None => Some (f, b)
      | Some ((d, curr_packed), q) =>
          let f := {| dist_map := dist_map f; parent_map := parent_map f; spq := q |} in
          let '(u, counter, used_minus1) := unpack_state curr_packed in
          if d >? dist_at (dist_map f) curr_packed then uni_loop fuel' g high target_edge f b
          else if Dle (best_dist b) (Fin d) then uni_loop fuel' g high target_edge f b
          else if u =? target_edge then
            uni_loop fuel' g high target_edge f
              (if Dlt (Fin d) (best_dist b)
               then {| best_dist := Fin d; best_end_state := curr_packed; ufound := true |}
               else b)
          else
            let u_res := match edge_meta_ g !! u with
                         | Some meta => int32 (em_lca_res meta)
                         | None => -1
                         end in
            let arcs :=
              omap (λ sc, match uni_transition u_res (hc_res high) counter used_minus1
                                               (sc_inside sc) with
                          | Some (next_counter, next_used_minus1) =>
                              Some (pack_state (sc_to sc) next_counter next_used_minus1,
                                    sc_cost sc)
                          | None => None
                          end)
                   (fwd_shortcuts g u) in
            uni_loop fuel' g high target_edge (foldl (relax_state d curr_packed) f arcs) b
      end
  end.

(** [CSRGraph::query_unidirectional] of [query_unidirectional_impl.cpp] *)
Definition query_unidirectional_impl `{Stl} `{H3Lib} (fuel : nat) (g : CSRGraph)
    (source_edge target_edge : Z) : option CSRQueryResult :=
  if source_edge =? target_edge then Some (self_result g source_edge)
  else if negb (is_valid_edge g source_edge) then Some (failed "Source edge not found")
  else if negb (is_valid_edge g target_edge) then Some (failed "Target edge not found")
  else
    let high := compute_high_cell g source_edge target_edge in
    let start_state := pack_state source_edge 0 false in
    let f := {| dist_map := {[start_state := 0]};
                parent_map := {[start_state := start_state]};
                spq := [(0, start_state)] |} in
    let b := {| best_dist := Inf; best_end_state := 0; ufound := false |} in
    match uni_loop fuel g high target_edge f b with
    | None => None
    | Some (f, b) =>
        if negb (ufound b) then Some (failed "No path found")
        else
          match state_path fuel (parent_map f) (best_end_state b) with
          | Some p =>
              Some {| distance := best_dist b; path := p; reachable := true; error := "" |}
          | None => None
          end
    end.

(** The transition rules as the specification words them (section 4.4.5),
    to be compared with [uni_transition]. *)
Definition spec_uni_transition (u_res high_res : Z) (counter : Z) (used_minus1 : bool)
    (inside : Z) : option (Z * bool) :=
  if u_res >? high_res then
    if (inside =? 1) && negb used_minus1 then Some (counter, used_minus1)
    else if (inside =? -1) && used_minus1 then Some (counter, used_minus1)
    else None
  else
    if used_minus1 then
      if inside =? -1 then Some (counter, used_minus1) else None
    else
      if ((inside =? 0) || (inside =? -2)) && (counter <? 2) then Some (counter + 1, true)
      else if inside =? -1 then Some (counter, true)
      else None.

(** [query_bidijkstra] as the specification words it (section 9, open
    question 2), to be compared with [query_bidijkstra]: the backward
    direction starts at 0 and [edge_cost(path[0])] is added at the end. *)
Definition spec_query_bidijkstra `{Stl} (fuel : nat) (g : CSRGraph)
    (source_edge target_edge : Z) : option CSRQueryResult :=
  if source_edge =? target_edge then Some (self_result g source_edge)
  else if negb (bool_decide (is_Some (edge_meta_ g !! source_edge)))
  then Some (failed "Source edge not found")
  else if negb (bool_decide (is_Some (edge_meta_ g !! target_edge)))
  then Some (failed "Target edge not found")
  else
    let f := seed source_edge 0 source_edge in
    let b := seed target_edge 0 target_edge in
    match bidijkstra_loop fuel (fwd_arcs any_shortcut g) (bwd_arcs any_shortcut g)
                          f b no_meet with
    | Some (f, b, m) =>
        if negb (found m) then Some (failed "No path found between source and target")
        else
          match bidir_path fuel (parent f) (parent b) (meeting m) with
          | Some p =>
              Some {| distance := Dadd (Fin (get_edge_cost g (List.hd 0 p))) (best m);
                      path := p; reachable := true; error := "" |}
          | None => None
          end
    | None => None
    end.

(** ** The depth cap of [expand_path] *)

(** Whether the recursion of [expand] from [(u, v)] stays within the
    budget: [false] when some call reaches [depth > 50]. *)
Fixpoint within_cap (g : CSRGraph) (budget : nat) (u v : Z) : bool :=
  match budget with
  | O => false
  | S budget' =>
      let idx := find_shortcut_index g u v in
      if (idx <? 0) || (idx >=? int32 (Z.of_nat (length (shortcuts_ g)))) then true
      else
        match shortcuts_ g !! Z.to_nat idx with
        | None => true
        | Some sc =>
            let via := sc_via_edge sc in
            if (via =? u) || (via =? v) || (via =? 0) then true
            else within_cap g budget' u via && within_cap g budget' via v
        end
  end.

(** ** A reference standard library

    A priority queue that pops the least entry, the latest pushed among
    equals, and a merge sort. *)

Fixpoint pop_min {A} (q : list (Z * A)) : option ((Z * A) * list (Z * A)) :=
  match q with
  | [] => None
  | e :: q' =>
      match pop_min q' with
      | None => Some (e, [])
      | Some (m, r) => if e.1 <=? m.1 then Some (e, q') else Some (m, e :: r)
      end
  end.

Definition sort_by_from (l : list TempShortcut) : list TempShortcut :=
  merge_sort from_le l.

(** ** A reference H3 library: the bit layout of an H3 index

    Bits 52 to 55 hold the resolution; the digit of resolution [i], for
    [i] from 1 to 15, is the three bits from [3 * (15 - i)].  The parent at
    resolution [r] stores [r] and sets the digits of the resolutions above
    [r] to 7. *)

Definition h3_get_resolution (h : Z) : Z := Z.land (Z.shiftr h 52) 15.

Definition h3_set_resolution (h r : Z) : Z :=
  Z.lor (Z.ldiff h (Z.shiftl 15 52)) (Z.shiftl r 52).

Definition h3_cell_to_parent (h parent_res : Z) : option Z :=
  let child_res := h3_get_resolution h in
  if (parent_res <? 0) || (parent_res >? 15) then None
  else if parent_res >? child_res then None
  else Some (Z.lor (h3_set_resolution h parent_res)
                   (Z.shiftl (Z.ones (3 * (child_res - parent_res)))
                             (3 * (15 - child_res)))).

(** * Properties *)

(** ** The reference libraries satisfy their interfaces *)

Lemma pop_min_None {A} (q : list (Z * A)) : pop_min q = None → q = [].
Proof.
  destruct q as [|e q]; [done|]. simpl.
  destruct (pop_min q) as [[m r]|]; [|done].
  by destruct (e.1 <=? m.1).
Qed.

Lemma pop_min_Some {A} (q q' : list (Z * A)) e :
  pop_min q = Some (e, q') → q ≡ₚ e :: q' ∧ Forall (λ x, e.1 ≤ x.1) q'.
Proof.
  revert q' e. induction q as [|a q IH]; intros q' e; [done|]. simpl.
  destruct (pop_min q) as [[m r]|] eqn:Hq.
  - destruct (IH _ _ eq_refl) as [Hp Hf].
    destruct (a.1 <=? m.1) eqn:Hle; intros [= <- <-].
    + split; [done|]. apply Z.leb_le in Hle.
      rewrite Hp. constructor; [done|].
      eapply Forall_impl; [exact Hf|]. simpl. lia.
    + apply Z.leb_gt in Hle. split.
      * rewrite Hp. apply Permutation_swap.
      * constructor; [lia | done].
  - apply pop_min_None in Hq as ->. intros [= <- <-]. by split.
Qed.

#[local] Instance from_le_trans : Transitive from_le.
Proof. intros a b c. unfold from_le. lia. Qed.

#[local] Instance from_le_total : Total from_le.
Proof. intros a b. unfold from_le. lia. Qed.

Lemma sort_by_from_sorted l : StronglySorted from_le (sort_by_from l).
Proof. apply StronglySorted_merge_sort; apply _. Qed.

Lemma sort_by_from_perm l : sort_by_from l ≡ₚ l.
Proof. apply merge_sort_Permutation. Qed.

Definition stl_ref : Stl :=
  {| pq_pop := @pop_min;
     std_sort := sort_by_from;
     pq_pop_None := @pop_min_None;
     pq_pop_Some := @pop_min_Some;
     std_sort_perm := sort_by_from_perm;
     std_sort_sorted := sort_by_from_sorted |}.

Lemma testbit_small r k n : 0 ≤ r < 2 ^ k → 0 ≤ k ≤ n → Z.testbit r n = false.
Proof.
  intros Hr Hk. rewrite <- (Z.mod_small r (2 ^ k)) by lia.
  apply Z.mod_pow2_bits_high. lia.
Qed.

Lemma h3_get_resolution_range h : 0 ≤ h3_get_resolution h ≤ 15.
Proof.
  unfold h3_get_resolution.
  replace (Z.land (Z.shiftr h 52) 15) with (Z.shiftr h 52 mod 16).
  - pose proof (Z.mod_pos_bound (Z.shiftr h 52) 16 ltac:(lia)). lia.
  - change 15 with (Z.ones 4). by rewrite Z.land_ones by lia.
Qed.

Lemma h3_set_resolution_bits h r n :
  0 ≤ n →
  Z.testbit (h3_set_resolution h r) n =
  if (52 <=? n) && (n <? 56) then Z.testbit h n && false || Z.testbit r (n - 52)
  else Z.testbit h n || Z.testbit r (n - 52).
Proof.
  intros Hn. unfold h3_set_resolution.
  rewrite Z.lor_spec, Z.ldiff_spec, !Z.shiftl_spec by lia.
  change 15 with (Z.ones 4).
  destruct (Z.ltb_spec (n - 52) 0) as [Hneg|Hpos].
  - rewrite (Z.testbit_neg_r _ (n - 52)) by lia.
    replace ((52 <=? n) && (n <? 56)) with false by lia.
    by rewrite andb_true_r.
  - rewrite Z.testbit_ones_nonneg by lia.
    destruct (Z.ltb_spec (n - 52) 4).
    + replace ((52 <=? n) && (n <? 56)) with true by lia. done.
    + replace ((52 <=? n) && (n <? 56)) with false by lia. by rewrite andb_true_r.
Qed.

Lemma h3_cell_to_parent_bits h r p n :
  0 ≤ n → h3_cell_to_parent h r = Some p →
  0 ≤ r ≤ h3_get_resolution h ∧
  Z.testbit p n =
  if (52 <=? n) && (n <? 56) then Z.testbit r (n - 52)
  else Z.testbit h n
       || (3 * (15 - h3_get_resolution h) <=? n) && (n <? 3 * (15 - r)).
Proof.
  intros Hn. unfold h3_cell_to_parent.
  pose proof (h3_get_resolution_range h) as HR.
  destruct (Z.ltb_spec r 0); [done|]. destruct (Z.gtb_spec r 15); [done|]. cbn [orb].
  destruct (Z.gtb_spec r (h3_get_resolution h)); [done|].
  intros [= <-]. split; [lia|].
  rewrite Z.lor_spec, h3_set_resolution_bits, Z.shiftl_spec by lia.
  set (R := h3_get_resolution h) in *.
  assert (Z.testbit (Z.ones (3 * (R - r))) (n - 3 * (15 - R))
          = (3 * (15 - R) <=? n) && (n <? 3 * (15 - r))) as ->.
  { destruct (Z.ltb_spec (n - 3 * (15 - R)) 0).
    - rewrite Z.testbit_neg_r by lia. lia.
    - rewrite Z.testbit_ones_nonneg by lia. lia. }
  destruct (Z.leb_spec 52 n), (Z.ltb_spec n 56); cbn [andb].
  - replace ((3 * (15 - R) <=? n) && (n <? 3 * (15 - r))) with false by lia.
    by rewrite andb_false_r, orb_false_r.
  - rewrite (testbit_small r 4 (n - 52)) by lia.
    by rewrite orb_false_r.
  - rewrite (Z.testbit_neg_r _ (n - 52)) by lia. by rewrite orb_false_r.
  - lia.
Qed.

Lemma h3_cell_to_parent_res c r p :
  0 ≤ r < h3_get_resolution c → h3_cell_to_parent c r = Some p →
  h3_get_resolution p = r.
Proof.
  intros Hr Hp. pose proof (h3_get_resolution_range c).
  unfold h3_get_resolution at 1. apply Z.bits_inj'. intros n Hn.
  rewrite Z.land_spec, Z.shiftr_spec by lia.
  destruct (h3_cell_to_parent_bits c r p (n + 52) ltac:(lia) Hp) as [_ ->].
  change 15 with (Z.ones 4). rewrite Z.testbit_ones_nonneg by lia.
  destruct (Z.ltb_spec n 4).
  - replace ((52 <=? n + 52) && (n + 52 <? 56)) with true by lia.
    replace (n + 52 - 52) with n by lia. by rewrite andb_true_r.
  - rewrite andb_false_r. symmetry. apply (testbit_small r 4); lia.
Qed.

Lemma h3_cell_to_parent_trans c a b p q :
  0 ≤ b < a → a < h3_get_resolution c →
  h3_cell_to_parent c a = Some p → h3_cell_to_parent p b = Some q →
  h3_cell_to_parent c b = Some q.
Proof.
  intros Hb Ha Hp Hq.
  pose proof (h3_get_resolution_range c) as HR.
  pose proof (h3_cell_to_parent_res c a p ltac:(lia) Hp) as Hresp.
  destruct (h3_cell_to_parent c b) as [q'|] eqn:Hq'; cycle 1.
  { unfold h3_cell_to_parent in Hq'.
    destruct (Z.ltb_spec b 0); [lia|]. destruct (Z.gtb_spec b 15); [lia|].
    cbn [orb] in Hq'. destruct (Z.gtb_spec b (h3_get_resolution c)); [lia|done]. }
  f_equal. apply Z.bits_inj'. intros n Hn.
  destruct (h3_cell_to_parent_bits c b q' n Hn Hq') as [_ ->].
  destruct (h3_cell_to_parent_bits p b q n Hn Hq) as [_ ->].
  destruct (h3_cell_to_parent_bits c a p n Hn Hp) as [_ ->].
  rewrite Hresp.
  destruct ((52 <=? n) && (n <? 56)) eqn:E; [done|].
  destruct (Z.testbit c n); cbn [orb]; [done|]. lia.
Qed.

Definition h3_ref : H3Lib :=
  {| getResolution := h3_get_resolution;
     cellToParent := h3_cell_to_parent;
     getResolution_range := h3_get_resolution_range;
     cellToParent_res := h3_cell_to_parent_res;
     cellToParent_trans := h3_cell_to_parent_trans |}.

(** ** H3 utilities *)

Section h3_utils.
Context `{H3Lib}.

Lemma cell_to_parent_zero r : cell_to_parent 0 r = 0.
Proof. done. Qed.

Lemma cell_to_parent_same (c : Z) : c ≠ 0 → cell_to_parent c (getResolution c) = c.
Proof.
  intros Hc. unfold cell_to_parent. pose proof (getResolution_range c).
  destruct (Z.eqb_spec c 0); [done|]. destruct (Z.ltb_spec (getResolution c) 0); [lia|].
  simpl. destruct (Z.geb_spec (getResolution c) (getResolution c)); [done|lia].
Qed.

(** [x] is 0 or the ancestor of [c] at resolution [m]. *)
Definition ancestor_at (c m x : Z) : Prop :=
  x ≠ 0 → getResolution x = m ∧ cell_to_parent c m = x.

Lemma ancestor_at_step c m x :
  c ≠ 0 → 0 ≤ m → m + 1 ≤ getResolution c →
  ancestor_at c (m + 1) x → ancestor_at c m (cell_to_parent x m).
Proof.
  intros Hc Hm Hle Hx Hne.
  assert (x ≠ 0) as Hx0 by (intros ->; by rewrite cell_to_parent_zero in Hne).
  destruct (Hx Hx0) as [Hres Hpar].
  unfold cell_to_parent in Hne |- *.
  destruct (Z.eqb_spec x 0); [done|]. destruct (Z.eqb_spec c 0); [done|].
  destruct (Z.ltb_spec m 0); [lia|]. simpl in *.
  destruct (Z.geb_spec m (getResolution x)); [lia|].
  destruct (Z.geb_spec m (getResolution c)); [lia|].
  destruct (cellToParent x m) as [p|] eqn:Hp; [|done].
  split; [eapply cellToParent_res; [|done]; lia|].
  unfold cell_to_parent in Hpar.
  destruct (Z.eqb_spec c 0); [done|]. destruct (Z.ltb_spec (m + 1) 0); [lia|].
  simpl in Hpar. destruct (Z.geb_spec (m + 1) (getResolution c)).
  - subst x. by rewrite Hp.
  - destruct (cellToParent c (m + 1)) as [x'|] eqn:Hx'; [|done]. subst x'.
    by rewrite (cellToParent_trans c (m + 1) m x p) by (done || lia).
Qed.

Lemma find_lca_loop_ancestor c n c1 c2 :
  c ≠ 0 → Z.of_nat n ≤ getResolution c → ancestor_at c (Z.of_nat n) c1 →
  ∃ m, 0 ≤ m ≤ getResolution c ∧ ancestor_at c m (find_lca_loop n c1 c2).1.
Proof.
  intros Hc. revert c1 c2. induction n as [|n IH]; intros c1 c2 Hle Hanc; simpl.
  - exists 0. split; [|done]. pose proof (getResolution_range c). lia.
  - destruct (c1 =? c2).
    + exists (Z.of_nat (S n)). split; [lia|done].
    + apply IH; [lia|]. apply ancestor_at_step; [done|lia|lia|].
      by replace (Z.of_nat n + 1) with (Z.of_nat (S n)) by lia.
Qed.

Lemma find_lca_ancestor c c' :
  c ≠ 0 → c' ≠ 0 →
  ∃ m, 0 ≤ m ≤ getResolution c ∧ ancestor_at c m (find_lca c c').
Proof.
  intros Hc Hc'. unfold find_lca.
  destruct (Z.eqb_spec c 0); [done|]. destruct (Z.eqb_spec c' 0); [done|]. simpl.
  set (res1 := getResolution c). set (res2 := getResolution c').
  set (min_res := if res1 <? res2 then res1 else res2).
  set (c1 := if res1 >? min_res then cell_to_parent c min_res else c).
  set (c2 := if res2 >? min_res then cell_to_parent c' min_res else c').
  pose proof (getResolution_range c). pose proof (getResolution_range c').
  assert (0 ≤ min_res ≤ res1) as Hmin.
  { unfold min_res, res1, res2. destruct (Z.ltb_spec (getResolution c) (getResolution c')); lia. }
  assert (ancestor_at c min_res c1) as Hanc.
  { unfold c1. destruct (Z.gtb_spec res1 min_res) as [Hgt|Hle].
    - intros Hne. split; [|done]. unfold cell_to_parent in *.
      destruct (Z.eqb_spec c 0); [done|]. destruct (Z.ltb_spec min_res 0); [lia|].
      simpl in *. destruct (Z.geb_spec min_res (getResolution c)); [unfold res1 in *; lia|].
      destruct (cellToParent c min_res) as [p|] eqn:Hp; [|done].
      eapply cellToParent_res; [|done]. unfold res1 in *. lia.
    - intros _. assert (min_res = res1) as -> by lia.
      split; [done|]. by apply cell_to_parent_same. }
  destruct (find_lca_loop_ancestor c (Z.to_nat min_res) c1 c2) as (m & Hm & Hm');
    [done| unfold res1 in *; lia | by rewrite Z2Nat.id by lia |].
  destruct (find_lca_loop (Z.to_nat min_res) c1 c2) as [c1' c2']. simpl in Hm'.
  destruct (c1' =? c2'); [by exists m|]. exists 0. split; [lia|done].
Qed.

Lemma parent_check_find_lca c c' :
  c ≠ 0 → c' ≠ 0 →
  parent_check c (find_lca c c') (get_resolution (find_lca c c')) = true.
Proof.
  intros Hc Hc'. destruct (find_lca_ancestor c c' Hc Hc') as (m & Hm & Hanc).
  unfold parent_check, get_resolution.
  destruct (Z.eqb_spec (find_lca c c') 0) as [|Hne]; [done|].
  destruct (Hanc Hne) as [-> Hpar].
  destruct (Z.ltb_spec m 0); [lia|]. simpl.
  destruct (Z.eqb_spec c 0); [done|].
  destruct (Z.gtb_spec m (getResolution c)); [lia|].
  rewrite Hpar. apply Z.eqb_refl.
Qed.

End h3_utils.

(** C9. For non-zero cells [c] and [c'], [parent_check] accepts [c]
    against the lowest common ancestor of [c] and [c'] at the resolution
    of that ancestor, and [cell_to_parent] at the resolution of [c] itself
    returns [c]. *)
Theorem h3_laws `{H3Lib} (c c' : Z) :
  c ≠ 0 → c' ≠ 0 →
  parent_check c (find_lca c c') (get_resolution (find_lca c c')) = true
  ∧ cell_to_parent c (get_resolution c) = c.
Proof.
  intros Hc Hc'. split; [by apply parent_check_find_lca|].
  unfold get_resolution. destruct (Z.eqb_spec c 0); [done|].
  by apply cell_to_parent_same.
Qed.

Lemma h3_laws_witness :
  @parent_check h3_ref 617700169958293503
     (@find_lca h3_ref 617700169958293503 617700169961177087)
     (@get_resolution h3_ref (@find_lca h3_ref 617700169958293503 617700169961177087))
  = true
  ∧ @cell_to_parent h3_ref 617700169958293503
      (@get_resolution h3_ref 617700169958293503) = 617700169958293503.
Proof. apply (@h3_laws h3_ref); lia. Defined.

(** ** Path expansion *)

Lemma expand_head g budget u v : ∃ l, expand g budget u v = u :: l.
Proof.
  revert u v. induction budget as [|n IH]; intros u v; simpl; [by eexists|].
  destruct ((find_shortcut_index g u v <? 0)
            || (find_shortcut_index g u v >=? int32 (Z.of_nat (length (shortcuts_ g)))));
    [by eexists|].
  destruct (shortcuts_ g !! Z.to_nat (find_shortcut_index g u v)) as [sc|]; [|by eexists].
  destruct ((sc_via_edge sc =? u) || (sc_via_edge sc =? v) || (sc_via_edge sc =? 0));
    [by eexists|].
  destruct (IH u (sc_via_edge sc)) as [l ->]. by eexists.
Qed.

(** When the size of [shortcuts_] cast to [int] is not positive, as it is
    from 2^31 shortcuts on, the test on the index always holds and
    nothing is expanded. *)
Lemma expand_size_cast g budget u v :
  int32 (Z.of_nat (length (shortcuts_ g))) ≤ 0 → expand g budget u v = [u].
Proof.
  intros Hsize. destruct budget as [|n]; [done|]. cbn [expand].
  destruct (Z.ltb_spec (find_shortcut_index g u v) 0) as [|Hidx]; [done|].
  destruct (Z.geb_spec (find_shortcut_index g u v) (int32 (Z.of_nat (length (shortcuts_ g)))));
    [done|lia].
Qed.

Lemma expand_pairs_head g a b rest :
  ∃ l, expand_pairs g (a :: b :: rest) = a :: l.
Proof.
  cbn [expand_pairs]. destruct (expand_head g 51 a b) as [l ->]. by eexists.
Qed.

(** Below the cap, a larger budget changes nothing. *)
Lemma expand_within_cap g n m u v :
  within_cap g n u v = true → (n ≤ m)%nat → expand g m u v = expand g n u v.
Proof.
  revert m u v. induction n as [|n IH]; intros m u v Hcap Hle; [done|].
  destruct m as [|m]; [lia|]. simpl in *.
  destruct ((find_shortcut_index g u v <? 0)
            || (find_shortcut_index g u v >=? int32 (Z.of_nat (length (shortcuts_ g)))));
    [done|].
  destruct (shortcuts_ g !! Z.to_nat (find_shortcut_index g u v)) as [sc|]; [|done].
  destruct ((sc_via_edge sc =? u) || (sc_via_edge sc =? v) || (sc_via_edge sc =? 0));
    [done|].
  apply andb_true_iff in Hcap as [H1 H2].
  rewrite (IH m u _ H1), (IH m _ v H2) by lia. done.
Qed.

Lemma last_default (l : list Z) a : last (a :: l) = Some (List.last (a :: l) 0).
Proof.
  revert a. induction l as [|c l IH]; intros a; [done|].
  change (last (a :: c :: l)) with (last (c :: l)). by rewrite IH.
Qed.

(** C10. [expand_path] returns an input of at most one element as it is;
    on an input of two or more elements the result begins with the first
    element of the input and ends with its last element. *)
Theorem expand_path_ends (g : CSRGraph) :
  expand_path g [] = []
  ∧ (∀ a, expand_path g [a] = [a])
  ∧ (∀ a b rest,
       head (expand_path g (a :: b :: rest)) = Some a
       ∧ last (expand_path g (a :: b :: rest)) = last (a :: b :: rest)).
Proof.
  split; [done|]. split; [done|]. intros a b rest.
  unfold expand_path.
  destruct (expand_pairs_head g a b rest) as [l ->]. split; [done|].
  by rewrite last_snoc, last_default.
Qed.

Lemma expand_path_pair g a b : expand_path g [a; b] = expand g 51 a b ++ [b].
Proof. cbn [expand_path expand_pairs List.last]. by rewrite app_nil_r. Qed.

(** Below 2^31 the cast to [int] changes nothing. *)
Lemma int32_small x : 0 ≤ x < 2 ^ 31 → int32 x = x.
Proof. intros Hx. unfold int32. rewrite Z.mod_small; lia. Qed.

Lemma expand_via_step g n u v w sc :
  Z.of_nat (length (shortcuts_ g)) < 2 ^ 31 →
  0 ≤ find_shortcut_index g u v →
  shortcuts_ g !! Z.to_nat (find_shortcut_index g u v) = Some sc →
  sc_via_edge sc = w → w ≠ 0 → w ≠ u → w ≠ v →
  within_cap g (S n) u v = true →
  expand g (S n) u v = expand g n u w ++ expand g n w v
  ∧ within_cap g n u w = true ∧ within_cap g n w v = true.
Proof.
  intros Hsize Hidx Hsc Hvia Hw0 Hwu Hwv Hcap.
  assert (find_shortcut_index g u v < Z.of_nat (length (shortcuts_ g))) as Hlt.
  { apply lookup_lt_Some in Hsc. lia. }
  cbn [expand within_cap] in *. rewrite int32_small in Hcap |- * by lia.
  destruct (Z.ltb_spec (find_shortcut_index g u v) 0); [lia|].
  destruct (Z.geb_spec (find_shortcut_index g u v) (Z.of_nat (length (shortcuts_ g))));
    [lia|].
  simpl in *. rewrite Hsc, Hvia in Hcap |- *.
  destruct (Z.eqb_spec w u); [done|]. destruct (Z.eqb_spec w v); [done|].
  destruct (Z.eqb_spec w 0); [done|]. simpl in *.
  apply andb_true_iff in Hcap as [H1 H2]. done.
Qed.

(** C7, as amended.  In a store of fewer than 2^31 shortcuts, where the
    casts of the index and of the size to [int] change nothing, for the
    shortcut that [find_shortcut_index] returns for [(u, v)], with a via
    edge [w] other than 0, [u] and [v], and when the recursion from
    [(u, v)] stays within the depth cap, the expansion of [[u, v]] is the
    expansion of [[u, w]] followed by the tail of the expansion of
    [[w, v]]. *)
Theorem expand_path_via (g : CSRGraph) (u v w : Z) (sc : CSRShortcut) :
  Z.of_nat (length (shortcuts_ g)) < 2 ^ 31 →
  0 ≤ find_shortcut_index g u v →
  shortcuts_ g !! Z.to_nat (find_shortcut_index g u v) = Some sc →
  sc_via_edge sc = w → w ≠ 0 → w ≠ u → w ≠ v →
  within_cap g 51 u v = true →
  expand_path g [u; v] = expand_path g [u; w] ++ tail (expand_path g [w; v]).
Proof.
  intros Hsize Hidx Hsc Hvia Hw0 Hwu Hwv Hcap.
  rewrite !expand_path_pair.
  destruct (expand_via_step g 50 u v w sc) as (-> & H1 & H2); try done.
  rewrite (expand_within_cap g 50 51 u w H1), (expand_within_cap g 50 51 w v H2) by lia.
  destruct (expand_head g 50 w v) as [l ->].
  cbn [tail app]. by rewrite <- !app_assoc.
Qed.

(** ** Small stores used as examples *)

(** A row of the shortcut table without a cell. *)
Definition temp (f t c via ins : Z) : TempShortcut :=
  {| t_from := f; t_to := t; t_cost := c; t_via_edge := via;
     t_cell := 0; t_inside := ins; t_cell_res := -1 |}.

(** An edge of cost [c] without cells. *)
Definition meta (c : Z) : CSREdgeMeta :=
  {| em_to_cell := 0; em_from_cell := 0; em_lca_res := -1; em_cost := c |}.

(** The store that [load_shortcuts] builds with the reference library. *)
Definition loaded (em : list (Z * CSREdgeMeta)) (temp_list : list TempShortcut)
    : CSRGraph :=
  default {| shortcuts_ := []; fwd_offsets_ := []; bwd_offsets_ := [];
             bwd_indices_ := []; max_edge_id_ := 0; edge_meta_ := ∅ |}
          (@load_shortcuts stl_ref (list_to_map em) temp_list).

Ltac run := vm_compute; first [reflexivity | discriminate | congruence | lia].

(** Case analysis on the membership [Hq] in a list written out. *)
Ltac in_list Hq :=
  repeat (apply elem_of_cons in Hq as [->|Hq]; [done|]); by apply elem_of_nil in Hq.

(** Scenario S5: the shortcut (1,3) through 2 over the base shortcuts
    (1,2) and (2,3). *)
Definition g_s5 : CSRGraph :=
  loaded [(1, meta 1); (2, meta 1); (3, meta 1)]
         [temp 1 3 9 2 1; temp 1 2 4 0 1; temp 2 3 5 0 1].

Example expand_path_s5 : expand_path g_s5 [1; 3] = [1; 2; 3].
Proof. run. Qed.

(** Two shortcuts (1,3): the first is a base shortcut, the second goes
    through 2. *)
Definition g_dup : CSRGraph :=
  loaded [(1, meta 1); (2, meta 1); (3, meta 1)]
         [temp 1 3 10 0 1; temp 1 3 10 2 1; temp 1 2 4 0 1; temp 2 3 5 0 1].

Lemma expand_path_via_witness :
  expand_path g_s5 [1; 3] = expand_path g_s5 [1; 2] ++ tail (expand_path g_s5 [2; 3]).
Proof.
  apply (expand_path_via g_s5 1 3 2
           {| sc_cell := 0; sc_cost := 9; sc_from := 1; sc_to := 3;
              sc_via_edge := 2; sc_inside := 1 |}); run.
Defined.

(** C7 fails as stated: the store [g_dup] holds a shortcut (1,3) with via
    edge 2, and the expansion of [[1, 3]] is not the expansion of [[1, 2]]
    followed by the tail of the expansion of [[2, 3]], because the look-up
    of (1,3) finds the base shortcut first. *)
Lemma expand_path_via_counterexample :
  ∃ sc, shortcuts_ g_dup !! 1%nat = Some sc
        ∧ sc_from sc = 1 ∧ sc_to sc = 3 ∧ sc_via_edge sc = 2
        ∧ expand_path g_dup [1; 3]
          ≠ expand_path g_dup [1; 2] ++ tail (expand_path g_dup [2; 3]).
Proof.
  exists {| sc_cell := 0; sc_cost := 10; sc_from := 1; sc_to := 3;
            sc_via_edge := 2; sc_inside := 1 |}.
  repeat split; run.
Qed.

(** ** The guards at the head of the queries *)

(** Scenario S1 with distinct edge costs: the shortcut (1,2) of cost 10,
    edge 1 of cost 1 and edge 2 of cost 7. *)
Definition g_s1 : CSRGraph :=
  loaded [(1, meta 1); (2, meta 7)] [temp 1 2 10 0 1].

(** The store of [g_s1] without the metadata of edge 1. *)
Definition g_nometa : CSRGraph :=
  loaded [(2, meta 7)] [temp 1 2 10 0 1].

(** Scenario S2: edge 5 of cost 35, and a shortcut (5,6). *)
Definition g_s2 : CSRGraph :=
  loaded [(5, meta 35); (6, meta 1)] [temp 5 6 10 0 1].

Section guards.
Context `{Stl} `{H3Lib}.

Lemma self_query_one_to_one fuel g e :
  query_classic fuel g e e = Some (self_result g e)
  ∧ query_bidijkstra fuel g e e = Some (self_result g e)
  ∧ query_pruned fuel g e e = Some (self_result g e)
  ∧ query_unidirectional fuel g e e = Some (self_result g e)
  ∧ query_unidirectional_impl fuel g e e = Some (self_result g e)
  ∧ query_dijkstra fuel g e e = Some (self_result g e).
Proof.
  unfold query_classic, query_bidijkstra, query_pruned, query_unidirectional,
    query_unidirectional_impl, query_dijkstra.
  by rewrite Z.eqb_refl.
Qed.

Lemma source_not_in_meta fuel g s t :
  s ≠ t → edge_meta_ g !! s = None →
  query_classic fuel g s t = Some (failed "Source edge not found")
  ∧ query_bidijkstra fuel g s t = Some (failed "Source edge not found")
  ∧ query_pruned fuel g s t = Some (failed "Source edge not found")
  ∧ query_dijkstra fuel g s t = Some (failed "Source edge not found").
Proof.
  intros Hne Hs.
  unfold query_classic, query_bidijkstra, query_pruned, query_dijkstra.
  destruct (Z.eqb_spec s t); [done|]. rewrite Hs.
  rewrite bool_decide_eq_false_2 by (by intros [? ?]). done.
Qed.

Lemma target_not_in_meta fuel g s t :
  s ≠ t → is_Some (edge_meta_ g !! s) → edge_meta_ g !! t = None →
  query_classic fuel g s t = Some (failed "Target edge not found")
  ∧ query_bidijkstra fuel g s t = Some (failed "Target edge not found")
  ∧ query_pruned fuel g s t = Some (failed "Target edge not found")
  ∧ query_dijkstra fuel g s t = Some (failed "Target edge not found").
Proof.
  intros Hne Hs Ht.
  unfold query_classic, query_bidijkstra, query_pruned, query_dijkstra.
  destruct (Z.eqb_spec s t); [done|].
  rewrite (bool_decide_eq_true_2 _ Hs), Ht.
  rewrite bool_decide_eq_false_2 by (by intros [? ?]). done.
Qed.

Lemma source_not_valid fuel g s t :
  s ≠ t → is_valid_edge g s = false →
  query_unidirectional fuel g s t = Some (failed "Source edge not found")
  ∧ query_unidirectional_impl fuel g s t = Some (failed "Source edge not found").
Proof.
  intros Hne Hs. unfold query_unidirectional, query_unidirectional_impl.
  destruct (Z.eqb_spec s t); [done|]. by rewrite Hs.
Qed.

Lemma target_not_valid fuel g s t :
  s ≠ t → is_valid_edge g s = true → is_valid_edge g t = false →
  query_unidirectional fuel g s t = Some (failed "Target edge not found")
  ∧ query_unidirectional_impl fuel g s t = Some (failed "Target edge not found").
Proof.
  intros Hne Hs Ht. unfold query_unidirectional, query_unidirectional_impl.
  destruct (Z.eqb_spec s t); [done|]. by rewrite Hs, Ht.
Qed.

End guards.

(** C3, as amended.  For a query with distinct endpoints, [query_classic],
    [query_bidijkstra], [query_pruned] and [query_dijkstra] return
    [reachable = false] with the error "Source edge not found" when the
    source is absent from [edge_meta_], and with "Target edge not found"
    when the source is present and the target is absent;
    [query_unidirectional] (both drafts) returns the same two results when
    the source, respectively the target, is out of CSR range. *)
Theorem endpoint_not_found `{Stl} `{H3Lib} (fuel : nat) (g : CSRGraph) (s t : Z) :
  s ≠ t →
  (edge_meta_ g !! s = None →
     ∀ q, q ∈ [query_classic fuel g s t; query_bidijkstra fuel g s t;
               query_pruned fuel g s t; query_dijkstra fuel g s t] →
          q = Some (failed "Source edge not found"))
  ∧ (is_Some (edge_meta_ g !! s) → edge_meta_ g !! t = None →
     ∀ q, q ∈ [query_classic fuel g s t; query_bidijkstra fuel g s t;
               query_pruned fuel g s t; query_dijkstra fuel g s t] →
          q = Some (failed "Target edge not found"))
  ∧ (is_valid_edge g s = false →
     ∀ q, q ∈ [query_unidirectional fuel g s t; query_unidirectional_impl fuel g s t] →
          q = Some (failed "Source edge not found"))
  ∧ (is_valid_edge g s = true → is_valid_edge g t = false →
     ∀ q, q ∈ [query_unidirectional fuel g s t; query_unidirectional_impl fuel g s t] →
          q = Some (failed "Target edge not found")).
Proof.
  intros Hne. repeat split.
  - intros Hs q Hq. destruct (source_not_in_meta fuel g s t Hne Hs) as (?&?&?&?).
    in_list Hq.
  - intros Hs Ht q Hq. destruct (target_not_in_meta fuel g s t Hne Hs Ht) as (?&?&?&?).
    in_list Hq.
  - intros Hs q Hq. destruct (source_not_valid fuel g s t Hne Hs) as (?&?). in_list Hq.
  - intros Hs Ht q Hq. destruct (target_not_valid fuel g s t Hne Hs Ht) as (?&?).
    in_list Hq.
Qed.

Lemma endpoint_not_found_witness :
  @query_classic stl_ref 10 g_s1 9999 1 = Some (failed "Source edge not found")
  ∧ @query_classic stl_ref 10 g_s1 1 9999 = Some (failed "Target edge not found")
  ∧ @query_unidirectional stl_ref h3_ref 10 g_s1 9999 1
    = Some (failed "Source edge not found")
  ∧ @query_unidirectional stl_ref h3_ref 10 g_s1 1 9999
    = Some (failed "Target edge not found").
Proof.
  destruct (@endpoint_not_found stl_ref h3_ref 10 g_s1 1 9999 ltac:(lia))
    as (_ & Ht & _ & Ht').
  destruct (@endpoint_not_found stl_ref h3_ref 10 g_s1 9999 1 ltac:(lia))
    as (Hs & _ & Hs' & _).
  split; [|split; [|split]].
  - apply Hs; [run | constructor].
  - apply Ht; [by eexists | run | constructor].
  - apply Hs'; [run | constructor].
  - apply Ht'; [run | run | constructor].
Defined.

(** C3 fails as stated.  Edge 9999 is absent from [edge_meta_] and out of
    CSR range, and the self-query on it is reachable; edge 1 is absent
    from the [edge_meta_] of [g_nometa], and [query_unidirectional] from
    it is reachable. *)
Lemma endpoint_not_found_counterexample :
  edge_meta_ g_s1 !! 9999 = None
  ∧ is_valid_edge g_s1 9999 = false
  ∧ reachable <$> @query_classic stl_ref 10 g_s1 9999 9999 = Some true
  ∧ edge_meta_ g_nometa !! 1 = None
  ∧ reachable <$> @query_unidirectional stl_ref h3_ref 10 g_nometa 1 2 = Some true.
Proof. repeat split; run. Qed.

(** C8.  The one-to-one algorithms answer a self-query by
    [{edge_cost(e), [e], true, ""}]; [query_multi] seeded with the loaded
    edge 5 on both sides of [g_s2] finds no path. *)
Theorem self_query :
  (∀ (stl : Stl) (h3 : H3Lib) fuel g e,
     ∀ q, q ∈ [query_classic fuel g e e; query_bidijkstra fuel g e e;
               query_pruned fuel g e e; query_unidirectional fuel g e e;
               query_unidirectional_impl fuel g e e; query_dijkstra fuel g e e] →
          q = Some {| distance := Fin (get_edge_cost g e); path := [e];
                      reachable := true; error := "" |})
  ∧ edge_meta_ g_s2 !! 5 = Some (meta 35)
  ∧ @query_multi stl_ref 10 g_s2 [5] [0] [5] [0]
    = Some {| distance := Fin (-1); path := []; reachable := false;
              error := "No path found" |}.
Proof.
  split; [|split; run].
  intros stl h3 fuel g e q Hq.
  destruct (self_query_one_to_one fuel g e) as (?&?&?&?&?&?).
  unfold self_result in *. in_list Hq.
Qed.

(** ** The pruning rules of the unidirectional search *)

Lemma unpack_pack_state edge counter used_minus1 :
  0 ≤ edge < 2 ^ 32 → 0 ≤ counter < 8 →
  unpack_state (pack_state edge counter used_minus1) = (edge, counter, used_minus1).
Proof.
  intros He Hc. unfold unpack_state, pack_state.
  set (b := if used_minus1 then 1 else 0).
  assert (0 ≤ b < 2) as Hb by (unfold b; destruct used_minus1; lia).
  assert (∀ n, 0 ≤ n →
            Z.testbit (Z.lor (Z.lor (Z.shiftl edge 4) (Z.shiftl counter 1)) b) n
            = Z.testbit edge (n - 4) || Z.testbit counter (n - 1) || Z.testbit b n)
    as Hbits.
  { intros n Hn. by rewrite !Z.lor_spec, !Z.shiftl_spec by lia. }
  f_equal; [f_equal|].
  - unfold wrap32. rewrite Z.mod_small; [|].
    + apply Z.bits_inj'. intros n Hn. rewrite Z.shiftr_spec, Hbits by lia.
      replace (n + 4 - 4) with n by lia.
      rewrite (testbit_small counter 3), (testbit_small b 1) by lia.
      by rewrite !orb_false_r.
    + replace (Z.shiftr _ 4) with edge; [done|].
      apply Z.bits_inj'. intros n Hn. rewrite Z.shiftr_spec, Hbits by lia.
      replace (n + 4 - 4) with n by lia.
      rewrite (testbit_small counter 3), (testbit_small b 1) by lia.
      by rewrite !orb_false_r.
  - apply Z.bits_inj'. intros n Hn.
    rewrite Z.land_spec, Z.shiftr_spec, Hbits by lia.
    change 7 with (Z.ones 3). rewrite Z.testbit_ones_nonneg by lia.
    replace (n + 1 - 1) with n by lia.
    rewrite (testbit_small b 1 (n + 1)) by lia. rewrite orb_false_r.
    destruct (Z.ltb_spec n 3).
    + rewrite (Z.testbit_neg_r edge) by lia. by rewrite andb_true_r.
    + rewrite (testbit_small counter 3 n) by lia. by rewrite andb_false_r.
  - assert (Z.land (Z.lor (Z.lor (Z.shiftl edge 4) (Z.shiftl counter 1)) b) 1 = b) as ->.
    { apply Z.bits_inj'. intros n Hn. rewrite Z.land_spec, Hbits by lia.
      change 1 with (Z.ones 1) at 2. rewrite Z.testbit_ones_nonneg by lia.
      destruct (Z.ltb_spec n 1).
      - rewrite (Z.testbit_neg_r edge), (Z.testbit_neg_r counter) by lia.
        by rewrite andb_true_r.
      - rewrite andb_false_r. symmetry. apply (testbit_small b 1); lia. }
    unfold b. by destruct used_minus1.
Qed.

(** C4, as amended.  [query_unidirectional] of
    [query_unidirectional_impl.cpp] takes a shortcut from the state
    [(u, counter, used_minus1)] to the state [(to, counter', used')] exactly
    in these cases.  Above the peak ([u_res > high_res]): [inside = 1],
    state unchanged; or [inside = -1] with [used_minus1] false, which sets
    [used_minus1].  At or below the peak: [inside = -1], state unchanged;
    or [inside] 0 or -2 with [counter < 2], which increments [counter] and
    leaves [used_minus1]. *)
Theorem uni_transition_rules (u_res high_res counter : Z) (used : bool) (inside : Z)
    (counter' : Z) (used' : bool) :
  uni_transition u_res high_res counter used inside = Some (counter', used') ↔
    (u_res > high_res ∧ inside = 1 ∧ counter' = counter ∧ used' = used)
    ∨ (u_res > high_res ∧ inside = -1 ∧ used = false
       ∧ counter' = counter ∧ used' = true)
    ∨ (u_res ≤ high_res ∧ inside = -1 ∧ counter' = counter ∧ used' = used)
    ∨ (u_res ≤ high_res ∧ (inside = 0 ∨ inside = -2) ∧ counter < 2
       ∧ counter' = counter + 1 ∧ used' = used).
Proof.
  unfold uni_transition.
  destruct (Z.gtb_spec u_res high_res);
    destruct (Z.eqb_spec inside 1); destruct (Z.eqb_spec inside (-1));
    destruct (Z.eqb_spec inside 0); destruct (Z.eqb_spec inside (-2));
    destruct (Z.ltb_spec counter 2); destruct used; cbn [negb orb];
    (split;
     [ intros Heq; first
         [ discriminate Heq
         | injection Heq as <- <-;
           solve [ left; repeat split; (lia || done)
                 | right; left; repeat split; (lia || done)
                 | right; right; left; repeat split; (lia || done)
                 | right; right; right; repeat split; (lia || done) ] ]
     | intros [(?&?&?&?)|[(?&?&?&?&?)|[(?&?&?&?)|(?&?&?&?&?)]]]; subst;
       first [ done | exfalso; lia ] ]).
Qed.

(** C4 fails as stated: above the peak, the code takes a shortcut with
    [inside = 1] from a state in which [used_minus1] is set, which the
    rules as specified do not allow. *)
Lemma uni_transition_counterexample :
  uni_transition 1 0 0 true 1 = Some (0, true)
  ∧ spec_uni_transition 1 0 0 true 1 = None.
Proof. split; reflexivity. Qed.

(** ** The seeds of the backward direction *)

Lemma seed_all_lookup g key edges e :
  e ∈ edges → is_Some (edge_meta_ g !! e) →
  dist (seed_all g key edges) !! e = Some (key e)
  ∧ (key e, e) ∈ pq (seed_all g key edges).
Proof.
  intros Hin Hmeta. unfold seed_all.
  set (step := λ (f : Frontier Z) e, if bool_decide (is_Some (edge_meta_ g !! e))
        then {| dist := <[e:=key e]> (dist f); parent := <[e:=e]> (parent f);
                pq := (key e, e) :: pq f |} else f).
  assert (∀ f0, e ∈ edges ∨ (dist f0 !! e = Some (key e) ∧ (key e, e) ∈ pq f0) →
            dist (foldl step f0 edges) !! e = Some (key e)
            ∧ (key e, e) ∈ pq (foldl step f0 edges)) as Hgen.
  { clear Hin. induction edges as [|a edges IH]; intros f0 Hor; simpl.
    - destruct Hor as [Hor|Hor]; [by apply elem_of_nil in Hor | done].
    - apply IH. unfold step.
      destruct (decide (a = e)) as [->|Hne].
      + right. rewrite (bool_decide_eq_true_2 _ Hmeta). simpl.
        split; [apply lookup_insert_eq | constructor].
      + destruct Hor as [Hor|[Hd Hq]].
        * apply elem_of_cons in Hor as [->|Hor]; [done | by left].
        * right. destruct (bool_decide (is_Some (edge_meta_ g !! a))); simpl; [|done].
          split; [by rewrite lookup_insert_ne | by constructor]. }
  apply Hgen. by left.
Qed.

(** C5, as amended.  For distinct loaded endpoints, [query_classic] and
    [query_bidijkstra] both run their loop from the source at 0 and the
    target at [edge_cost(target)]; [query_multi] seeds every loaded target
    at its own cost; and the distance of a reachable result is [best],
    with nothing added. *)
Theorem backward_seed `{Stl} (fuel : nat) (g : CSRGraph) (s t : Z) :
  s ≠ t → is_Some (edge_meta_ g !! s) → is_Some (edge_meta_ g !! t) →
  let b := seed t (get_edge_cost g t) t in
  dist b = {[t := get_edge_cost g t]} ∧ pq b = [(get_edge_cost g t, t)]
  ∧ query_classic fuel g s t
    = classic_loop fuel (fwd_arcs climbs g) (bwd_arcs descends g) (seed s 0 s) b no_meet
      ≫= bidir_result fuel "No path found"
  ∧ query_bidijkstra fuel g s t
    = bidijkstra_loop fuel (fwd_arcs any_shortcut g) (bwd_arcs any_shortcut g)
                      (seed s 0 s) b no_meet
      ≫= bidir_result fuel "No path found between source and target"
  ∧ (∀ sources sd targets td,
       query_multi fuel g sources sd targets td
       = classic_loop fuel (fwd_arcs climbs g) (bwd_arcs descends g)
                      (seed_all g (λ _, 0) sources)
                      (seed_all g (get_edge_cost g) targets) no_meet
         ≫= bidir_result fuel "No path found")
  ∧ (∀ targets tgt, tgt ∈ targets → is_Some (edge_meta_ g !! tgt) →
       dist (seed_all g (get_edge_cost g) targets) !! tgt = Some (get_edge_cost g tgt)
       ∧ (get_edge_cost g tgt, tgt) ∈ pq (seed_all g (get_edge_cost g) targets))
  ∧ (∀ msg st r, bidir_result fuel msg st = Some r → reachable r = true →
       distance r = best st.2).
Proof.
  intros Hne Hs Ht b. split; [done|]. split; [done|].
  unfold query_classic, query_bidijkstra, query_multi.
  destruct (Z.eqb_spec s t); [done|].
  rewrite (bool_decide_eq_true_2 _ Hs), (bool_decide_eq_true_2 _ Ht).
  split; [done|]. split; [done|]. split; [done|].
  split; [intros targets tgt; apply seed_all_lookup|].
  intros msg [[f b'] m] r. unfold bidir_result.
  destruct (found m); simpl; [|by intros [= <-]].
  destruct (bidir_path _ _ _ _); [|done]. by intros [= <-].
Qed.

Lemma backward_seed_witness :
  @query_bidijkstra stl_ref 10 g_s1 1 2
  = @bidijkstra_loop stl_ref 10 (fwd_arcs any_shortcut g_s1) (bwd_arcs any_shortcut g_s1)
      (seed 1 0 1) (seed 2 (get_edge_cost g_s1 2) 2) no_meet
    ≫= bidir_result 10 "No path found between source and target".
Proof.
  refine (proj1 (proj2 (proj2 (proj2
    (@backward_seed stl_ref 10 g_s1 1 2 ltac:(lia) _ _))))); by eexists.
Defined.

(** C5 fails as stated: on [g_s1], [query_bidijkstra] from 1 to 2 starts
    the backward direction at the cost 7 of edge 2 and returns 17, the
    shortcut cost 10 plus that 7, where a search that starts backward at 0
    and adds the cost of [path[0]] returns 11. *)
Lemma backward_seed_counterexample :
  pq (classic_init g_s1 1 2).1.2 = [(7, 2)]
  ∧ @query_bidijkstra stl_ref 10 g_s1 1 2
    = Some {| distance := Fin 17; path := [1; 2]; reachable := true; error := "" |}
  ∧ @spec_query_bidijkstra stl_ref 10 g_s1 1 2
    = Some {| distance := Fin 11; path := [1; 2]; reachable := true; error := "" |}.
Proof. repeat split; run. Qed.

(** ** The CSR arrays built by [load_shortcuts] *)

Lemma wrap32_small x : 0 ≤ x < 2 ^ 32 → wrap32 x = x.
Proof. intros Hx. unfold wrap32. by apply Z.mod_small. Qed.

Lemma at_nonneg (v : list Z) i : 0 ≤ i → at_ v i = default 0 (v !! Z.to_nat i).
Proof. intros Hi. unfold at_. by destruct (Z.ltb_spec i 0); [lia|]. Qed.

Lemma at_lookup (v : list Z) i x : 0 ≤ i → v !! Z.to_nat i = Some x → at_ v i = x.
Proof. intros Hi Hx. by rewrite at_nonneg, Hx. Qed.

Lemma length_set_at v i x : length (set_at v i x) = length v.
Proof. unfold set_at. destruct (i <? 0); [done|]. apply length_insert. Qed.

Lemma at_set_at_eq v i x : 0 ≤ i < Z.of_nat (length v) → at_ (set_at v i x) i = x.
Proof.
  intros Hi. unfold set_at. destruct (Z.ltb_spec i 0); [lia|].
  apply at_lookup; [lia|]. apply list_lookup_insert_eq. lia.
Qed.

Lemma at_set_at_ne v i j x : i ≠ j → at_ (set_at v i x) j = at_ v j.
Proof.
  intros Hne. unfold set_at, at_. destruct (Z.ltb_spec i 0); [done|].
  destruct (Z.ltb_spec j 0); [done|]. rewrite list_lookup_insert_ne; [done|lia].
Qed.

Lemma length_incr_at v i : length (incr_at v i) = length v.
Proof. apply length_set_at. Qed.

Section counting.
Context {A : Type} (k : A → Z).

(** The number of elements of [l] with key [u], and with a key below [j]. *)
Definition cnt (u : Z) (l : list A) : Z :=
  Z.of_nat (length (filter (λ x, k x = u) l)).

Definition below (j : Z) (l : list A) : Z :=
  Z.of_nat (length (filter (λ x, k x < j) l)).

Lemma cnt_nil u : cnt u [] = 0.
Proof. done. Qed.

Lemma cnt_cons u a l : cnt u (a :: l) = (if decide (k a = u) then 1 else 0) + cnt u l.
Proof.
  unfold cnt. rewrite filter_cons. destruct (decide (k a = u)); simpl; lia.
Qed.

Lemma below_cons j a l : below j (a :: l) = (if decide (k a < j) then 1 else 0) + below j l.
Proof.
  unfold below. rewrite filter_cons. destruct (decide (k a < j)); simpl; lia.
Qed.

Lemma cnt_range u l : 0 ≤ cnt u l ≤ Z.of_nat (length l).
Proof. unfold cnt. pose proof (length_filter (λ x, k x = u) l). lia. Qed.

Lemma below_range j l : 0 ≤ below j l ≤ Z.of_nat (length l).
Proof. unfold below. pose proof (length_filter (λ x, k x < j) l). lia. Qed.

Lemma below_succ j l : below (j + 1) l = below j l + cnt j l.
Proof.
  induction l as [|a l IH]; [done|]. rewrite !below_cons, cnt_cons, IH.
  destruct (decide (k a < j + 1)), (decide (k a < j)), (decide (k a = j)); lia.
Qed.

Lemma below_mono i j l : i ≤ j → below i l ≤ below j l.
Proof.
  intros Hij. induction l as [|a l IH]; [done|]. rewrite !below_cons.
  destruct (decide (k a < i)), (decide (k a < j)); lia.
Qed.

Lemma below_all j l : Forall (λ x, k x < j) l → below j l = Z.of_nat (length l).
Proof.
  induction 1 as [|a l Ha _ IH]; [done|]. rewrite below_cons, IH.
  destruct (decide (k a < j)); simpl; lia.
Qed.

Lemma below_none j l : Forall (λ x, j ≤ k x) l → below j l = 0.
Proof.
  induction 1 as [|a l Ha _ IH]; [done|]. rewrite below_cons, IH.
  destruct (decide (k a < j)); lia.
Qed.

Lemma cnt_none u l : Forall (λ x, k x ≠ u) l → cnt u l = 0.
Proof.
  induction 1 as [|a l Ha _ IH]; [done|]. rewrite cnt_cons, IH.
  destruct (decide (k a = u)); [done|lia].
Qed.

Lemma cnt_app u l1 l2 : cnt u (l1 ++ l2) = cnt u l1 + cnt u l2.
Proof. unfold cnt. rewrite filter_app, length_app. lia. Qed.

(** The counting loop [for (x : l) counts[key(x)]++]. *)
Lemma count_loop l cs :
  Forall (λ x, 0 ≤ k x < Z.of_nat (length cs)) l →
  (∀ u, 0 ≤ at_ cs u ∧ at_ cs u + cnt u l < 2 ^ 32) →
  length (foldl (λ cs x, incr_at cs (k x)) cs l) = length cs
  ∧ ∀ u, at_ (foldl (λ cs x, incr_at cs (k x)) cs l) u = at_ cs u + cnt u l.
Proof.
  revert cs. induction l as [|a l IH]; intros cs Hk Hb; simpl.
  - split; [done|]. intros u. rewrite cnt_nil. lia.
  - apply Forall_cons in Hk as [Ha Hk].
    assert (∀ u, at_ (incr_at cs (k a)) u
                 = at_ cs u + if decide (k a = u) then 1 else 0) as Hincr.
    { intros u. unfold incr_at. destruct (decide (k a = u)) as [<-|Hne].
      - rewrite at_set_at_eq by lia. apply wrap32_small.
        specialize (Hb (k a)). rewrite cnt_cons in Hb.
        destruct (decide (k a = k a)); [|done]. pose proof (cnt_range (k a) l). lia.
      - rewrite at_set_at_ne by done. lia. }
    destruct (IH (incr_at cs (k a))) as [Hlen Hat].
    + by rewrite length_incr_at.
    + intros u. rewrite Hincr. specialize (Hb u). rewrite cnt_cons in Hb.
      destruct (decide (k a = u)); lia.
    + rewrite length_incr_at in Hlen. split; [done|].
      intros u. rewrite Hat, Hincr, cnt_cons. lia.
Qed.

End counting.

(** The prefix-sum loop writes [F i], ..., [F (i + n - 1)] and ends with
    the running sum [F (i + n)], when the counts are the increments of [F]. *)
Lemma prefix_sum_loop_spec (F : Z → Z) n i counts offsets :
  0 ≤ i → i + Z.of_nat n ≤ Z.of_nat (length offsets) →
  (∀ m, i ≤ m < i + Z.of_nat n → at_ counts m = F (m + 1) - F m) →
  (∀ m, i ≤ m ≤ i + Z.of_nat n → 0 ≤ F m < 2 ^ 32) →
  ∃ offsets',
    prefix_sum_loop n i counts offsets (F i) = (offsets', F (i + Z.of_nat n))
    ∧ length offsets' = length offsets
    ∧ (∀ j, i ≤ j < i + Z.of_nat n → at_ offsets' j = F j)
    ∧ (∀ j, ¬ (i ≤ j < i + Z.of_nat n) → at_ offsets' j = at_ offsets j).
Proof.
  revert i offsets. induction n as [|n IH]; intros i offsets Hi Hlen Hc HF; simpl.
  - exists offsets. replace (i + Z.of_nat 0) with i by lia.
    split; [done|]. split; [done|]. split; [lia|done].
  - rewrite Hc by lia. replace (F i + (F (i + 1) - F i)) with (F (i + 1)) by lia.
    rewrite wrap32_small by (apply HF; lia).
    destruct (IH (i + 1) (set_at offsets i (F i))) as (offs & Heq & Hl & Hin & Hout).
    + lia.
    + rewrite length_set_at. lia.
    + intros m Hm. apply Hc. lia.
    + intros m Hm. apply HF. lia.
    + exists offs. replace (i + Z.of_nat (S n)) with (i + 1 + Z.of_nat n) by lia.
      split; [done|]. rewrite length_set_at in Hl. split; [done|]. split.
      * intros j Hj. destruct (decide (j = i)) as [->|Hne].
        -- rewrite Hout by lia. apply at_set_at_eq. lia.
        -- apply Hin. lia.
      * intros j Hj. rewrite Hout by lia. apply at_set_at_ne. lia.
Qed.

Lemma build_offsets_spec {A} (k : A → Z) (l : list A) n counts :
  0 ≤ n → n + 2 < 2 ^ 32 → Z.of_nat (length l) < 2 ^ 32 →
  Forall (λ x, 0 ≤ k x ≤ n) l →
  (∀ m, 0 ≤ m ≤ n → at_ counts m = cnt k m l) →
  length (build_offsets n counts) = Z.to_nat (n + 2)
  ∧ ∀ j, 0 ≤ j ≤ n + 1 → at_ (build_offsets n counts) j = below k j l.
Proof.
  intros Hn Hn2 Hl Hk Hc. unfold build_offsets.
  rewrite !wrap32_small by lia.
  assert (below k 0 l = 0) as H0.
  { apply below_none. eapply Forall_impl; [exact Hk|]. simpl. lia. }
  destruct (prefix_sum_loop_spec (λ j, below k j l) (Z.to_nat (n + 1)) 0 counts
              (replicate (Z.to_nat (n + 2)) 0)) as (offs & Heq & Hlen & Hin & Hout).
  - lia.
  - rewrite length_replicate. lia.
  - intros m Hm. rewrite below_succ, Hc by lia. lia.
  - intros m Hm. pose proof (below_range k m l). lia.
  - simpl in Heq. rewrite H0 in Heq. rewrite Heq.
    rewrite length_replicate in Hlen. split.
    + by rewrite length_set_at.
    + intros j Hj. rewrite Z2Nat.id by lia. destruct (decide (j = n + 1)) as [->|Hne].
      * rewrite at_set_at_eq by lia. f_equal; lia.
      * rewrite at_set_at_ne by lia. apply Hin. lia.
Qed.

Lemma find_max_edge_id_spec tl :
  0 ≤ find_max_edge_id tl
  ∧ Forall (λ x, t_from x ≤ find_max_edge_id tl ∧ t_to x ≤ find_max_edge_id tl) tl
  ∧ ∀ B, 0 ≤ B → Forall (λ x, t_from x ≤ B ∧ t_to x ≤ B) tl → find_max_edge_id tl ≤ B.
Proof.
  unfold find_max_edge_id.
  assert (∀ m0, m0 ≤ foldl (λ m sc, Z.max (Z.max m (t_from sc)) (t_to sc)) m0 tl
                ∧ Forall (λ x, t_from x ≤ foldl (λ m sc, Z.max (Z.max m (t_from sc)) (t_to sc)) m0 tl
                               ∧ t_to x ≤ foldl (λ m sc, Z.max (Z.max m (t_from sc)) (t_to sc)) m0 tl) tl
                ∧ ∀ B, m0 ≤ B → Forall (λ x, t_from x ≤ B ∧ t_to x ≤ B) tl →
                       foldl (λ m sc, Z.max (Z.max m (t_from sc)) (t_to sc)) m0 tl ≤ B) as Hgen.
  { induction tl as [|a tl IH]; intros m0; simpl.
    - split; [lia|]. split; [constructor|]. intros B HB _. done.
    - destruct (IH (Z.max (Z.max m0 (t_from a)) (t_to a))) as (H1 & H2 & H3).
      split; [lia|]. split.
      + constructor; [lia|done].
      + intros B HB Hall. apply Forall_cons in Hall as [[? ?] Hall].
        apply H3; [lia|done]. }
  destruct (Hgen 0) as (H1 & H2 & H3). split; [done|]. split; [done|].
  intros B HB. by apply H3.
Qed.

(** In a list sorted by key, the element at index [i] sits between the
    number of keys below its own and the number of keys up to its own. *)
Lemma sorted_index_below {A} (k : A → Z) (l : list A) i x :
  StronglySorted (λ a b, k a ≤ k b) l → l !! i = Some x →
  below k (k x) l ≤ Z.of_nat i < below k (k x + 1) l.
Proof.
  intros Hs. revert i. induction Hs as [|a l Hs IH Ha]; intros i Hx; [done|].
  rewrite !below_cons. destruct i as [|i]; simpl in Hx.
  - injection Hx as ->.
    rewrite (below_none k (k x) l) by done.
    pose proof (below_range k (k x + 1) l).
    destruct (decide (k x < k x)), (decide (k x < k x + 1)); lia.
  - specialize (IH i Hx).
    assert (k a ≤ k x) as Hle.
    { rewrite Forall_forall in Ha. apply Ha. by eapply list_elem_of_lookup_2. }
    destruct (decide (k a < k x)), (decide (k a < k x + 1)); lia.
Qed.

Lemma filter_none {A} (P : A → Prop) `{!∀ x, Decision (P x)} (l : list A) :
  Forall (λ x, ¬ P x) l → filter P l = [].
Proof.
  induction 1 as [|a l Ha _ IH]; [done|]. by rewrite filter_cons_False.
Qed.

(** A list sorted by key is the keys below [u], then the keys equal to
    [u], then the keys above [u]. *)
Lemma sorted_split {A} (k : A → Z) (l : list A) u :
  StronglySorted (λ a b, k a ≤ k b) l →
  l = filter (λ x, k x < u) l ++ filter (λ x, k x = u) l ++ filter (λ x, u < k x) l.
Proof.
  induction 1 as [|a l Hs IH Ha]; [done|].
  rewrite !filter_cons.
  destruct (decide (k a < u)) as [Hlt|Hge].
  - destruct (decide (k a = u)); [lia|]. destruct (decide (u < k a)); [lia|].
    simpl. by rewrite <- IH.
  - assert (filter (λ x, k x < u) l = []) as Hnil.
    { apply filter_none. eapply Forall_impl; [exact Ha|]. simpl. lia. }
    rewrite Hnil in IH |- *. simpl in *.
    destruct (decide (k a = u)) as [Heq|Hne].
    + destruct (decide (u < k a)); [lia|]. simpl. by rewrite <- IH.
    + destruct (decide (u < k a)); [|lia].
      assert (filter (λ x, k x = u) l = []) as Hnil'.
      { apply filter_none. eapply Forall_impl; [exact Ha|]. simpl. lia. }
      rewrite Hnil' in IH |- *. simpl in *. by rewrite <- IH.
Qed.

Lemma sorted_slice {A} (k : A → Z) (l : list A) u :
  StronglySorted (λ a b, k a ≤ k b) l →
  slice (below k u l) (below k (u + 1) l) l = filter (λ x, k x = u) l.
Proof.
  intros Hs. unfold slice. rewrite below_succ.
  replace (below k u l + cnt k u l - below k u l) with (cnt k u l) by lia.
  rewrite (sorted_split k l u Hs) at 3. unfold below, cnt. rewrite !Nat2Z.id.
  rewrite drop_app_length, take_app_length. done.
Qed.

(** The indices, counted from [start], of the shortcuts of [l] with
    target [v]. *)
Fixpoint positions (v : Z) (l : list CSRShortcut) (start : Z) : list Z :=
  match l with
  | [] => []
  | sc :: l' =>
      if decide (sc_to sc = v) then start :: positions v l' (start + 1)
      else positions v l' (start + 1)
  end.

Lemma positions_app v l1 l2 start :
  positions v (l1 ++ l2) start
  = positions v l1 start ++ positions v l2 (start + Z.of_nat (length l1)).
Proof.
  revert start. induction l1 as [|a l1 IH]; intros start; simpl.
  - f_equal. lia.
  - rewrite IH.
    replace (start + 1 + Z.of_nat (length l1)) with (start + Z.of_nat (S (length l1))) by lia.
    by destruct (decide (sc_to a = v)).
Qed.

Lemma length_positions v l start :
  Z.of_nat (length (positions v l start)) = cnt sc_to v l.
Proof.
  revert start. induction l as [|a l IH]; intros start; [done|].
  simpl. rewrite cnt_cons. destruct (decide (sc_to a = v)); simpl; rewrite <- (IH (start + 1)); lia.
Qed.

Lemma positions_lookup (pre l : list CSRShortcut) v :
  omap (λ idx, if idx <? 0 then None else (pre ++ l) !! Z.to_nat idx)
       (positions v l (Z.of_nat (length pre)))
  = filter (λ sc, sc_to sc = v) l.
Proof.
  revert pre. induction l as [|a l IH]; intros pre; [done|].
  simpl. rewrite filter_cons.
  specialize (IH (pre ++ [a])). rewrite <- app_assoc, length_app in IH. simpl in IH.
  replace (Z.of_nat (length pre + 1)) with (Z.of_nat (length pre) + 1) in IH by lia.
  destruct (decide (sc_to a = v)); [|exact IH]. simpl.
  destruct (Z.ltb_spec (Z.of_nat (length pre)) 0); [lia|].
  rewrite Nat2Z.id, list_lookup_middle by done. f_equal. exact IH.
Qed.

Section fill.
Context (all : list CSRShortcut) (n : Z).
Let B (v : Z) : Z := below sc_to v all.

(** What [fill_bwd] has written after the shortcuts [pre]: the indices of
    the shortcuts with target [v], from the start of the range of [v]. *)
Definition filled (pre : list CSRShortcut) (bi : list Z) : Prop :=
  ∀ v j x, 0 ≤ v ≤ n → positions v pre 0 !! j = Some x →
           bi !! (Z.to_nat (B v) + j)%nat = Some x.

Lemma fill_bwd_filled l pre cur bi :
  pre ++ l = all →
  Z.of_nat (length all) < 2 ^ 32 →
  Forall (λ sc, 0 ≤ sc_to sc ≤ n) all →
  length bi = length all →
  Z.of_nat (length cur) = n + 1 →
  (∀ v, 0 ≤ v ≤ n → at_ cur v = B v + cnt sc_to v pre) →
  filled pre bi →
  length (fill_bwd l (Z.of_nat (length pre)) cur bi) = length all
  ∧ filled all (fill_bwd l (Z.of_nat (length pre)) cur bi).
Proof.
  intros Hall Hsize Hto. revert pre cur bi Hall.
  induction l as [|sc l IH]; intros pre cur bi Hall Hbi Hcur Hat Hfilled.
  - rewrite app_nil_r in Hall. subst pre. done.
  - cbn [fill_bwd].
    set (w := sc_to sc).
    assert (0 ≤ w ≤ n) as Hw.
    { rewrite Forall_forall in Hto. apply Hto. rewrite <- Hall.
      apply elem_of_app. right. constructor. }
    assert (cnt sc_to w all = cnt sc_to w pre + 1 + cnt sc_to w l) as Hcw.
    { rewrite <- Hall, cnt_app, cnt_cons. unfold w.
      destruct (decide (sc_to sc = sc_to sc)); [lia|done]. }
    pose proof (cnt_range sc_to w l) as Hrl.
    pose proof (cnt_range sc_to w pre) as Hrp.
    pose proof (below_range sc_to (w + 1) all) as Hrb.
    pose proof (below_range sc_to w all) as Hrb'.
    pose proof (below_succ sc_to w all) as Hsucc.
    assert (length pre < length all)%nat as Hpre.
    { rewrite <- Hall, length_app. simpl. lia. }
    rewrite (Hat w Hw).
    replace (Z.of_nat (length pre) + 1) with (Z.of_nat (length (pre ++ [sc])))
      by (rewrite length_app; simpl; lia).
    apply IH.
    + by rewrite <- app_assoc.
    + by rewrite length_set_at.
    + by rewrite length_incr_at.
    + intros v Hv. unfold incr_at. rewrite cnt_app, cnt_cons, cnt_nil.
      destruct (decide (sc_to sc = v)) as [Heq|Hne].
      * fold w in Heq. subst v. rewrite at_set_at_eq by lia.
        rewrite (Hat w Hw). fold (B w). unfold B. rewrite wrap32_small; lia.
      * rewrite at_set_at_ne by done. rewrite (Hat v Hv). lia.
    + intros v j x Hv Hj. rewrite positions_app in Hj. simpl in Hj.
      unfold set_at. fold (B w).
      destruct (Z.ltb_spec (B w + cnt sc_to w pre) 0); [unfold B in *; lia|].
      pose proof (length_positions v pre 0) as Hlp.
      apply lookup_app_Some in Hj as [Hj|[Hge Hj]].
      * (* an index written earlier *)
        apply lookup_lt_Some in Hj as Hlt.
        rewrite list_lookup_insert_ne; [by apply Hfilled|].
        pose proof (below_succ sc_to v all) as Hsv.
        pose proof (cnt_range sc_to v pre).
        assert (cnt sc_to v pre ≤ cnt sc_to v all) as Hcv.
        { rewrite <- Hall, cnt_app. pose proof (cnt_range sc_to v (sc :: l)). lia. }
        destruct (Z.lt_trichotomy v w) as [Hvw|[->|Hvw]].
        -- pose proof (below_mono sc_to (v + 1) w all ltac:(lia)).
           pose proof (below_range sc_to v all). unfold B. lia.
        -- pose proof (below_range sc_to w all). unfold B. lia.
        -- pose proof (below_mono sc_to (w + 1) v all ltac:(lia)).
           pose proof (below_range sc_to v all). unfold B. lia.
      * (* the index written now *)
        destruct (decide (sc_to sc = v)) as [Heq|Hne]; [|by destruct (j - _)%nat].
        fold w in Heq. subst v.
        destruct (j - length (positions w pre 0))%nat as [|j'] eqn:Hj'; [|done].
        injection Hj as <-.
        replace (Z.to_nat (B w) + j)%nat with (Z.to_nat (B w + cnt sc_to w pre))
          by (unfold B; lia).
        rewrite wrap32_small by lia. replace (0 + Z.of_nat (length pre)) with (Z.of_nat (length pre)) by lia.
        apply list_lookup_insert_eq. unfold B. lia.
Qed.

End fill.

Lemma below_fmap {A B} (f : A → B) (k : B → Z) j (l : list A) :
  below k j (f <$> l) = below (λ x, k (f x)) j l.
Proof.
  induction l as [|a l IH]; [done|]. rewrite fmap_cons, !below_cons, IH. done.
Qed.

Lemma StronglySorted_fmap_from (l : list TempShortcut) :
  StronglySorted from_le l →
  StronglySorted (λ a b, sc_from a ≤ sc_from b) (to_csr <$> l).
Proof.
  induction 1 as [|a l Hs IH Ha]; [constructor|].
  rewrite fmap_cons. constructor; [done|].
  apply Forall_fmap. eapply Forall_impl; [exact Ha|]. done.
Qed.

(** The store is a CSR representation of its shortcuts: they are sorted
    by source, an offset is the number of shortcuts with a smaller source
    (forward) or target (backward), and [bwd_indices_] lists, range by
    range, the indices of the shortcuts with that target. *)
Record csr_wf (g : CSRGraph) : Prop := {
  wf_sorted : StronglySorted (λ a b, sc_from a ≤ sc_from b) (shortcuts_ g);
  wf_max : 0 ≤ max_edge_id_ g ∧ max_edge_id_ g + 2 < 2 ^ 32;
  wf_size : Z.of_nat (length (shortcuts_ g)) < 2 ^ 32;
  wf_ids : Forall (λ sc, 0 ≤ sc_from sc ≤ max_edge_id_ g ∧ 0 ≤ sc_to sc ≤ max_edge_id_ g)
                  (shortcuts_ g);
  wf_fwd_len : Z.of_nat (length (fwd_offsets_ g)) = max_edge_id_ g + 2;
  wf_bwd_len : Z.of_nat (length (bwd_offsets_ g)) = max_edge_id_ g + 2;
  wf_idx_len : length (bwd_indices_ g) = length (shortcuts_ g);
  wf_fwd : ∀ j, 0 ≤ j ≤ max_edge_id_ g + 1 →
                at_ (fwd_offsets_ g) j = below sc_from j (shortcuts_ g);
  wf_bwd : ∀ j, 0 ≤ j ≤ max_edge_id_ g + 1 →
                at_ (bwd_offsets_ g) j = below sc_to j (shortcuts_ g);
  wf_idx : filled (shortcuts_ g) (max_edge_id_ g) (shortcuts_ g) (bwd_indices_ g)
}.

Lemma load_shortcuts_wf `{Stl} em tl g :
  Forall (λ x, 0 ≤ t_from x < 2 ^ 32 - 2 ∧ 0 ≤ t_to x < 2 ^ 32 - 2) tl →
  Z.of_nat (length tl) < 2 ^ 32 →
  load_shortcuts em tl = Some g →
  csr_wf g ∧ shortcuts_ g ≡ₚ to_csr <$> tl ∧ edge_meta_ g = em.
Proof.
  intros Hids Hsize. unfold load_shortcuts.
  destruct tl as [|t0 tl0] eqn:Htl; [done|]. rewrite <- Htl in *. clear Htl t0 tl0.
  set (n := find_max_edge_id tl). set (sorted := std_sort tl).
  set (counts0 := replicate (Z.to_nat (wrap32 (n + 1))) 0).
  set (shortcuts := to_csr <$> sorted).
  intros [= <-]. cbn [shortcuts_ max_edge_id_ fwd_offsets_ bwd_offsets_ bwd_indices_ edge_meta_].
  destruct (find_max_edge_id_spec tl) as (Hn0 & Hmax & Hbound). fold n in Hn0, Hmax.
  assert (n < 2 ^ 32 - 2) as Hn.
  { assert (n ≤ 2 ^ 32 - 3); [|lia]. apply Hbound; [lia|].
    eapply Forall_impl; [exact Hids|]. simpl. lia. }
  assert (sorted ≡ₚ tl) as Hperm by apply std_sort_perm.
  assert (length sorted = length tl) as Hlen by by rewrite Hperm.
  assert (Forall (λ x, (0 ≤ t_from x ≤ n) ∧ (0 ≤ t_to x ≤ n)) sorted) as Hsids.
  { rewrite Hperm. rewrite Forall_forall in Hids, Hmax |- *. intros x Hx.
    specialize (Hids x Hx). specialize (Hmax x Hx). lia. }
  assert (length counts0 = Z.to_nat (n + 1)) as Hc0.
  { unfold counts0. rewrite length_replicate, wrap32_small; lia. }
  assert (∀ u, at_ counts0 u = 0) as Hat0.
  { intros u. unfold at_, counts0. destruct (u <? 0); [done|].
    destruct (replicate _ _ !! _) as [x|] eqn:Hx; [|done].
    by apply lookup_replicate in Hx as [-> _]. }
  (* forward *)
  destruct (count_loop t_from sorted counts0) as [_ Hfc].
  { eapply Forall_impl; [exact Hsids|]. simpl. lia. }
  { intros u. rewrite Hat0. pose proof (cnt_range t_from u sorted). lia. }
  destruct (build_offsets_spec t_from sorted n
              (foldl (λ cs sc, incr_at cs (t_from sc)) counts0 sorted))
    as [Hfl Hfo]; [lia|lia|lia| | |].
  { eapply Forall_impl; [exact Hsids|]. simpl. lia. }
  { intros m Hm. rewrite Hfc, Hat0. lia. }
  (* backward *)
  assert (Forall (λ sc, 0 ≤ sc_from sc ≤ n ∧ 0 ≤ sc_to sc ≤ n) shortcuts) as Hcids.
  { unfold shortcuts. apply Forall_fmap. eapply Forall_impl; [exact Hsids|]. done. }
  assert (length shortcuts = length tl) as Hslen.
  { unfold shortcuts. by rewrite length_fmap. }
  destruct (count_loop sc_to shortcuts counts0) as [_ Hbc].
  { eapply Forall_impl; [exact Hcids|]. simpl. lia. }
  { intros u. rewrite Hat0. pose proof (cnt_range sc_to u shortcuts). lia. }
  destruct (build_offsets_spec sc_to shortcuts n
              (foldl (λ cs sc, incr_at cs (sc_to sc)) counts0 shortcuts))
    as [Hbl Hbo]; [lia|lia|lia| | |].
  { eapply Forall_impl; [exact Hcids|]. simpl. lia. }
  { intros m Hm. rewrite Hbc, Hat0. lia. }
  set (bwd_offsets := build_offsets n (foldl (λ cs sc, incr_at cs (sc_to sc)) counts0 shortcuts))
    in *.
  destruct (fill_bwd_filled shortcuts n shortcuts [] (take (length bwd_offsets - 1) bwd_offsets)
              (replicate (length shortcuts) 0)) as [Hil Hif].
  - done.
  - lia.
  - eapply Forall_impl; [exact Hcids|]. simpl. lia.
  - apply length_replicate.
  - rewrite length_take. lia.
  - intros v Hv. rewrite cnt_nil, Z.add_0_r, <- Hbo by lia.
    rewrite !at_nonneg by lia. by rewrite lookup_take_lt by lia.
  - intros v j x _ Hj. done.
  - split; [|split; [|done]].
    + constructor; cbn [shortcuts_ max_edge_id_ fwd_offsets_ bwd_offsets_ bwd_indices_];
        try done; try lia.
      * apply StronglySorted_fmap_from, std_sort_sorted.
      * intros j Hj. rewrite (Hfo j Hj). unfold shortcuts. by rewrite below_fmap.
    + unfold shortcuts. by rewrite Hperm.
Qed.

Lemma positions_lookup_all (pre l : list CSRShortcut) v :
  omap (λ idx, (pre ++ l) !! Z.to_nat idx) (positions v l (Z.of_nat (length pre)))
  = filter (λ sc, sc_to sc = v) l.
Proof.
  revert pre. induction l as [|a l IH]; intros pre; [done|].
  simpl. rewrite filter_cons.
  specialize (IH (pre ++ [a])). rewrite <- app_assoc, length_app in IH. simpl in IH.
  replace (Z.of_nat (length pre + 1)) with (Z.of_nat (length pre) + 1) in IH by lia.
  destruct (decide (sc_to a = v)); [|exact IH]. simpl.
  rewrite Nat2Z.id, list_lookup_middle by done. f_equal. exact IH.
Qed.

Lemma is_valid_edge_wf g u :
  csr_wf g → 0 ≤ u → is_valid_edge g u = bool_decide (u ≤ max_edge_id_ g).
Proof.
  intros Hwf Hu. unfold is_valid_edge.
  destruct Hwf as [_ [Hn0 Hn] _ _ Hfl Hbl _ _ _ _].
  destruct (Z.leb_spec u (max_edge_id_ g)).
  - rewrite wrap32_small by lia. rewrite bool_decide_eq_true_2 by done.
    apply andb_true_iff. split; [apply andb_true_iff; split|]; lia.
  - by rewrite bool_decide_eq_false_2 by lia.
Qed.

Lemma get_fwd_range_wf g u :
  csr_wf g → 0 ≤ u ≤ max_edge_id_ g →
  get_fwd_range g u = (below sc_from u (shortcuts_ g), below sc_from (u + 1) (shortcuts_ g)).
Proof.
  intros Hwf Hu. unfold get_fwd_range.
  rewrite is_valid_edge_wf, bool_decide_eq_true_2 by (done || lia).
  destruct Hwf as [_ [Hn0 Hn] _ _ _ _ _ Hf _ _].
  rewrite wrap32_small by lia. by rewrite !Hf by lia.
Qed.

Lemma get_bwd_range_wf g u :
  csr_wf g → 0 ≤ u ≤ max_edge_id_ g →
  get_bwd_range g u = (below sc_to u (shortcuts_ g), below sc_to (u + 1) (shortcuts_ g)).
Proof.
  intros Hwf Hu. unfold get_bwd_range.
  rewrite is_valid_edge_wf, bool_decide_eq_true_2 by (done || lia).
  destruct Hwf as [_ [Hn0 Hn] _ _ _ _ _ _ Hb _].
  rewrite wrap32_small by lia. by rewrite !Hb by lia.
Qed.

(** The backward range of [v] in [bwd_indices_] is the list of the
    indices of the shortcuts with target [v]. *)
Lemma bwd_indices_wf g v :
  csr_wf g → 0 ≤ v ≤ max_edge_id_ g →
  slice (below sc_to v (shortcuts_ g)) (below sc_to (v + 1) (shortcuts_ g)) (bwd_indices_ g)
  = positions v (shortcuts_ g) 0.
Proof.
  intros Hwf Hv. destruct Hwf as [_ _ _ _ _ _ Hil _ _ Hfilled].
  pose proof (below_range sc_to v (shortcuts_ g)) as Hr.
  pose proof (below_range sc_to (v + 1) (shortcuts_ g)) as Hr'.
  pose proof (below_succ sc_to v (shortcuts_ g)) as Hs.
  pose proof (cnt_range sc_to v (shortcuts_ g)) as Hc.
  pose proof (length_positions v (shortcuts_ g) 0) as Hlp.
  apply (list_eq_same_length _ _ (Z.to_nat (cnt sc_to v (shortcuts_ g)))).
  - lia.
  - unfold slice. rewrite length_take, length_drop, Hil. lia.
  - intros i x y Hi Hx Hy. unfold slice in Hx.
    rewrite lookup_take_lt, lookup_drop in Hx by lia.
    rewrite (Hfilled v i y Hv Hy) in Hx. by injection Hx.
Qed.

Lemma fwd_shortcuts_wf g u :
  csr_wf g → 0 ≤ u →
  fwd_shortcuts g u = filter (λ sc, sc_from sc = u) (shortcuts_ g).
Proof.
  intros Hwf Hu. unfold fwd_shortcuts.
  destruct (decide (u ≤ max_edge_id_ g)) as [Hle|Hgt].
  - rewrite get_fwd_range_wf by done. apply sorted_slice, Hwf.
  - unfold get_fwd_range. rewrite is_valid_edge_wf, bool_decide_eq_false_2 by done.
    symmetry. apply filter_none. eapply Forall_impl; [apply Hwf|]. simpl. lia.
Qed.

Lemma bwd_shortcuts_wf g v :
  csr_wf g → 0 ≤ v →
  bwd_shortcuts g v = filter (λ sc, sc_to sc = v) (shortcuts_ g).
Proof.
  intros Hwf Hv. unfold bwd_shortcuts.
  destruct (decide (v ≤ max_edge_id_ g)) as [Hle|Hgt].
  - rewrite get_bwd_range_wf, bwd_indices_wf by done.
    apply (positions_lookup [] (shortcuts_ g) v).
  - unfold get_bwd_range. rewrite is_valid_edge_wf, bool_decide_eq_false_2 by done.
    symmetry. apply filter_none. eapply Forall_impl; [apply Hwf|]. simpl. lia.
Qed.

(** C6.  After a successful [load_shortcuts] (edge identifiers below
    [2^32 - 2] and fewer than [2^32] rows, so that no index wraps):
    every shortcut sits inside the forward range of its source, and the
    forward range of [u] is exactly the shortcuts with source [u]; the
    shortcuts referenced by [bwd_indices_] over the backward range of [v]
    are, as a multiset, the shortcuts with target [v]; both offset arrays
    are non-decreasing and end with the number of shortcuts. *)
Theorem load_shortcuts_csr `{Stl} (em : gmap Z CSREdgeMeta) (tl : list TempShortcut)
    (g : CSRGraph) :
  Forall (λ x, 0 ≤ t_from x < 2 ^ 32 - 2 ∧ 0 ≤ t_to x < 2 ^ 32 - 2) tl →
  Z.of_nat (length tl) < 2 ^ 32 →
  load_shortcuts em tl = Some g →
  (∀ i s, shortcuts_ g !! i = Some s →
     at_ (fwd_offsets_ g) (sc_from s) ≤ Z.of_nat i < at_ (fwd_offsets_ g) (sc_from s + 1))
  ∧ (∀ u, 0 ≤ u ≤ max_edge_id_ g →
       slice (at_ (fwd_offsets_ g) u) (at_ (fwd_offsets_ g) (u + 1)) (shortcuts_ g)
       = filter (λ sc, sc_from sc = u) (shortcuts_ g))
  ∧ (∀ v, 0 ≤ v ≤ max_edge_id_ g →
       omap (λ idx, shortcuts_ g !! Z.to_nat idx)
            (slice (at_ (bwd_offsets_ g) v) (at_ (bwd_offsets_ g) (v + 1)) (bwd_indices_ g))
       ≡ₚ filter (λ sc, sc_to sc = v) (shortcuts_ g))
  ∧ (∀ i j, 0 ≤ i → i ≤ j → j ≤ max_edge_id_ g + 1 →
       at_ (fwd_offsets_ g) i ≤ at_ (fwd_offsets_ g) j
       ∧ at_ (bwd_offsets_ g) i ≤ at_ (bwd_offsets_ g) j)
  ∧ Z.of_nat (length (fwd_offsets_ g)) = max_edge_id_ g + 2
  ∧ Z.of_nat (length (bwd_offsets_ g)) = max_edge_id_ g + 2
  ∧ at_ (fwd_offsets_ g) (max_edge_id_ g + 1) = Z.of_nat (length (shortcuts_ g))
  ∧ at_ (bwd_offsets_ g) (max_edge_id_ g + 1) = Z.of_nat (length (shortcuts_ g)).
Proof.
  intros Hids Hsize Hload.
  destruct (load_shortcuts_wf em tl g Hids Hsize Hload) as (Hwf & _ & _).
  pose proof Hwf as [Hsorted [Hn0 Hn] Hsz Hcids Hfl Hbl Hil Hf Hb Hfilled].
  assert (Forall (λ sc, sc_from sc < max_edge_id_ g + 1) (shortcuts_ g)) as Hlt_from.
  { eapply Forall_impl; [exact Hcids|]. simpl. lia. }
  assert (Forall (λ sc, sc_to sc < max_edge_id_ g + 1) (shortcuts_ g)) as Hlt_to.
  { eapply Forall_impl; [exact Hcids|]. simpl. lia. }
  split; [|split; [|split; [|split; [|split; [|split; [|split]]]]]].
  - intros i s Hs.
    assert (0 ≤ sc_from s ≤ max_edge_id_ g) as Hfrom.
    { rewrite Forall_forall in Hcids. apply list_elem_of_lookup_2 in Hs.
      specialize (Hcids s Hs). lia. }
    rewrite (Hf (sc_from s)), (Hf (sc_from s + 1)) by lia.
    by apply sorted_index_below.
  - intros u Hu. rewrite (Hf u), (Hf (u + 1)) by lia. by apply sorted_slice.
  - intros v Hv. rewrite (Hb v), (Hb (v + 1)) by lia. rewrite bwd_indices_wf by done.
    pose proof (positions_lookup_all [] (shortcuts_ g) v) as Hpos.
    simpl in Hpos. change (Z.of_nat 0) with 0 in Hpos. by rewrite Hpos.
  - intros i j Hi Hij Hj. rewrite (Hf i), (Hf j), (Hb i), (Hb j) by lia.
    split; by apply below_mono.
  - done.
  - done.
  - rewrite Hf by lia. by apply below_all.
  - rewrite Hb by lia. by apply below_all.
Qed.


Lemma load_shortcuts_csr_witness :
  at_ (fwd_offsets_ g_dup) (sc_from (to_csr (temp 2 3 5 0 1))) ≤ 3
  ∧ 3 < at_ (fwd_offsets_ g_dup) (sc_from (to_csr (temp 2 3 5 0 1)) + 1)
  ∧ at_ (bwd_offsets_ g_dup) (max_edge_id_ g_dup + 1)
    = Z.of_nat (length (shortcuts_ g_dup)).
Proof.
  destruct (@load_shortcuts_csr stl_ref
              (list_to_map [(1, meta 1); (2, meta 1); (3, meta 1)])
              [temp 1 3 10 0 1; temp 1 3 10 2 1; temp 1 2 4 0 1; temp 2 3 5 0 1]
              g_dup) as (H1 & _ & _ & _ & _ & _ & _ & H8).
  - repeat (apply Forall_cons; split; [cbn; lia|]). constructor.
  - cbn. lia.
  - reflexivity.
  - specialize (H1 3%nat (to_csr (temp 2 3 5 0 1)) eq_refl).
    split; [apply H1|]. split; [apply H1|apply H8].
Defined.

(** ** One direction of a search: the invariant *)

(** The chain of parents from [v] up to the root, without repetition. *)
Inductive chain (P : gmap Z Z) (root : Z) : Z → list Z → Prop :=
  | chain_root : P !! root = Some root → chain P root root [root]
  | chain_step v p l :
      P !! v = Some p → v ≠ p → v ∉ l → chain P root p l → chain P root v (v :: l).

Lemma chain_head P root v l : chain P root v l → ∃ l', l = v :: l'.
Proof. destruct 1; by eexists. Qed.

Lemma chain_last P root v l : chain P root v l → last l = Some root.
Proof.
  induction 1 as [|v p l Hp Hne Hnin Hc IH]; [done|].
  destruct (chain_head _ _ _ _ Hc) as [l' ->]. done.
Qed.

Lemma chain_NoDup P root v l : chain P root v l → NoDup l.
Proof.
  induction 1 as [|v p l Hp Hne Hnin Hc IH].
  - apply NoDup_singleton.
  - by constructor.
Qed.

(** Every edge of a chain but the first is the parent of another edge. *)
Lemma chain_parents P root v l x :
  chain P root v l → x ∈ l → x = v ∨ ∃ z, z ≠ x ∧ P !! z = Some x.
Proof.
  induction 1 as [|v p l Hp Hne Hnin Hc IH]; intros Hx.
  - apply list_elem_of_singleton in Hx. by left.
  - apply elem_of_cons in Hx as [->|Hx]; [by left|]. right.
    destruct (IH Hx) as [->|Hz]; [by exists v | done].
Qed.

Lemma chain_insert P root v u y l :
  chain P root y l → v ∉ l → chain (<[v:=u]> P) root y l.
Proof.
  induction 1 as [Hroot|y p l Hp Hne Hnin Hc IH]; intros Hv.
  - constructor. rewrite lookup_insert_ne; [done|]. intros ->. apply Hv. constructor.
  - apply not_elem_of_cons in Hv as [Hvy Hv].
    apply chain_step with p; [by rewrite lookup_insert_ne | done | done | by apply IH].
Qed.

(** [follow] walks the chain. *)
Lemma follow_chain P root v l fuel l' :
  chain P root v l → follow fuel P v = Some l' → l' = l.
Proof.
  intros Hc. revert fuel l'.
  induction Hc as [Hroot|v p l Hp Hne Hnin Hc IH]; intros fuel l'.
  - destruct fuel as [|fuel]; [done|]. simpl. rewrite Hroot, Z.eqb_refl. by intros [= <-].
  - destruct fuel as [|fuel]; [done|]. simpl. rewrite Hp.
    destruct (Z.eqb_spec p v); [congruence|].
    destruct (follow fuel P p) as [l0|] eqn:Hf; [|done].
    simpl. intros [= <-]. f_equal. by eapply IH.
Qed.

Lemma follow_chain_enough P root v l fuel :
  chain P root v l → (length l ≤ fuel)%nat → follow fuel P v = Some l.
Proof.
  intros Hc. revert fuel.
  induction Hc as [Hroot|v p l Hp Hne Hnin Hc IH]; intros fuel Hfuel.
  - destruct fuel as [|fuel]; [simpl in Hfuel; lia|]. simpl. by rewrite Hroot, Z.eqb_refl.
  - destruct fuel as [|fuel]; [simpl in Hfuel; lia|]. simpl. rewrite Hp.
    destruct (Z.eqb_spec p v); [congruence|].
    rewrite IH by (simpl in Hfuel; lia). done.
Qed.

(** The loop of [query_dijkstra] that walks back to the source. *)
Lemma follow_to_chain P root v l fuel l' :
  chain P root v l → follow_to fuel P root v = Some l' → l' = l.
Proof.
  intros Hc. revert fuel l'.
  induction Hc as [Hroot|v p l Hp Hne Hnin Hc IH]; intros fuel l'.
  - destruct fuel as [|fuel]; [done|]. simpl. rewrite Z.eqb_refl. by intros [= <-].
  - destruct fuel as [|fuel]; [done|]. simpl.
    destruct (Z.eqb_spec v root) as [->|Hvr].
    + exfalso. apply Hnin. apply chain_last in Hc. by apply last_Some_elem_of.
    + unfold dist_at. rewrite Hp. simpl.
      destruct (follow_to fuel P root p) as [l0|] eqn:Hf; [|done].
      simpl. intros [= <-]. f_equal. by eapply IH.
Qed.

Lemma follow_to_chain_enough P root v l fuel :
  chain P root v l → (length l ≤ fuel)%nat → follow_to fuel P root v = Some l.
Proof.
  intros Hc. revert fuel.
  induction Hc as [Hroot|v p l Hp Hne Hnin Hc IH]; intros fuel Hfuel.
  - destruct fuel as [|fuel]; [simpl in Hfuel; lia|]. simpl. by rewrite Z.eqb_refl.
  - destruct fuel as [|fuel]; [simpl in Hfuel; lia|]. simpl.
    destruct (Z.eqb_spec v root) as [->|Hvr].
    + exfalso. apply Hnin. apply chain_last in Hc. by apply last_Some_elem_of.
    + unfold dist_at. rewrite Hp. simpl. rewrite IH by (simpl in Hfuel; lia). done.
Qed.

Section search.
Context (arcs : Z → list (Z * Z)).
Context (arcs_nonneg : ∀ u a, a ∈ arcs u → 0 ≤ a.2).
Context (root key : Z).

(** [x] has the distance [dx] and no queue entry at that distance: it
    has been popped. *)
Definition closed (f : Frontier Z) (x dx : Z) : Prop :=
  dist f !! x = Some dx ∧ (dx, x) ∉ pq f.

(** The invariant of one direction of a search from [root], seeded at
    [key]. *)
Record finv (f : Frontier Z) : Prop := {
  fi_root_dist : dist f !! root = Some key;
  fi_root_parent : parent f !! root = Some root;
  fi_pq : ∀ k v, (k, v) ∈ pq f → ∃ d, dist f !! v = Some d ∧ d ≤ k;
  fi_nodup : NoDup (pq f);
  fi_lower : ∀ v d, dist f !! v = Some d → key ≤ d;
  fi_closed : ∀ x dx k v, closed f x dx → (k, v) ∈ pq f → dx ≤ k;
  fi_tree : ∀ v p, parent f !! v = Some p → v ≠ p →
            ∃ dp c, closed f p dp ∧ (v, c) ∈ arcs p ∧ dist f !! v = Some (dp + c);
  fi_chain : ∀ v d, dist f !! v = Some d → ∃ l, chain (parent f) root v l
}.

(** The invariant inside the relaxation loop of [u], popped at [d]. *)
Definition expanding (d u : Z) (f : Frontier Z) : Prop :=
  finv f ∧ closed f u d ∧ ∀ x dx, closed f x dx → dx ≤ d.

Lemma seed_finv : finv (seed root key root).
Proof.
  constructor; unfold seed, closed; cbn [dist parent pq].
  - apply lookup_singleton_eq.
  - apply lookup_singleton_eq.
  - intros k v Hin. apply list_elem_of_singleton in Hin as [= -> ->].
    exists key. by rewrite lookup_singleton_eq.
  - apply NoDup_singleton.
  - intros v d Hd. apply lookup_singleton_Some in Hd as [_ <-]. done.
  - intros x dx k v [Hd Hnin] _. apply lookup_singleton_Some in Hd as [<- <-].
    exfalso. apply Hnin. constructor.
  - intros v p Hp Hne. apply lookup_singleton_Some in Hp as [<- <-]. done.
  - intros v d Hd. apply lookup_singleton_Some in Hd as [<- <-].
    exists [root]. constructor. apply lookup_singleton_eq.
Qed.

Lemma pop_finv `{Stl} f d u q :
  finv f → pq_pop (pq f) = Some ((d, u), q) →
  finv {| dist := dist f; parent := parent f; pq := q |}
  ∧ (∀ x dx, closed {| dist := dist f; parent := parent f; pq := q |} x dx → dx ≤ d)
  ∧ (∃ du, dist f !! u = Some du ∧ du ≤ d)
  ∧ ((d, u) ∉ q)
  ∧ (∀ e, e ∈ q → d ≤ e.1)
  ∧ pq f ≡ₚ (d, u) :: q.
Proof.
  intros Hinv Hpop. apply pq_pop_Some in Hpop as [Hperm Hmin].
  pose proof (fi_nodup _ Hinv) as Hnd. rewrite Hperm in Hnd.
  apply NoDup_cons in Hnd as [Hnin Hnd].
  assert (∀ e, e ∈ q → e ∈ pq f) as Hsub.
  { intros e He. rewrite Hperm. by constructor. }
  assert ((d, u) ∈ pq f) as Hin by (rewrite Hperm; constructor).
  assert (∀ x dx, closed {| dist := dist f; parent := parent f; pq := q |} x dx → dx ≤ d)
    as Hbound.
  { intros x dx [Hd Hq]. cbn [dist pq] in *.
    destruct (decide ((dx, x) = (d, u))) as [[= -> ->]|Hne]; [done|].
    apply (fi_closed _ Hinv x dx d u); [|done]. split; [done|].
    rewrite Hperm. intros Hc. apply elem_of_cons in Hc as [Hc|Hc]; done. }
  rewrite Forall_forall in Hmin.
  split; [|split; [done|split; [by apply (fi_pq _ Hinv)|done]]].
  destruct Hinv as [Hrd Hrp Hpq _ Hlow Hcl Htree Hchain].
  constructor; cbn [dist parent pq]; try done.
  - intros k v Hk. apply Hpq. by apply Hsub.
  - intros x dx k v Hc Hk. specialize (Hbound x dx Hc). specialize (Hmin _ Hk).
    simpl in Hmin. lia.
  - intros v p Hp Hne. destruct (Htree v p Hp Hne) as (dp & c & [Hdp Hcl'] & Hc & Hv).
    exists dp, c. split; [|done]. split; [done|]. cbn [pq]. intros Hq. by apply Hcl', Hsub.
Qed.

Lemma update_expanding d u f v c :
  expanding d u f → (v, c) ∈ arcs u → improves (dist f) v (d + c) = true →
  expanding d u (update f u v (d + c) v).
Proof.
  intros (Hinv & [Hdu Hcu] & Hbound) Harc Himp.
  pose proof (arcs_nonneg u (v, c) Harc) as Hc. simpl in Hc.
  pose proof (fi_lower _ Hinv u d Hdu) as Hkey.
  assert (∀ dv, dist f !! v = Some dv → d + c < dv) as Hless.
  { intros dv Hdv. unfold improves in Himp. rewrite Hdv in Himp. lia. }
  assert (∀ dv, ¬ closed f v dv) as Hopen.
  { intros dv Hcl. specialize (Hbound v dv Hcl). destruct Hcl as [Hdv _].
    specialize (Hless dv Hdv). lia. }
  assert (v ≠ u) as Hvu by (intros ->; by apply (Hopen d)).
  assert (v ≠ root) as Hvr.
  { intros ->. specialize (Hless key (fi_root_dist _ Hinv)). lia. }
  assert (∀ z, z ≠ v → parent f !! z ≠ Some v) as Hleaf.
  { intros z Hz Hp. destruct (fi_tree _ Hinv z v Hp Hz) as (dp & ? & Hcl & _).
    by apply (Hopen dp). }
  assert (∀ x dx, closed (update f u v (d + c) v) x dx ↔ x ≠ v ∧ closed f x dx) as Hclosed.
  { intros x dx. unfold closed, update. cbn [dist pq]. split.
    - intros [Hd Hq]. destruct (decide (x = v)) as [->|Hne].
      + rewrite lookup_insert_eq in Hd. injection Hd as <-. exfalso. apply Hq. constructor.
      + rewrite lookup_insert_ne in Hd by done. split; [done|]. split; [done|].
        intros Hin. apply Hq. by constructor.
    - intros [Hne [Hd Hq]]. rewrite lookup_insert_ne by done. split; [done|].
      intros Hin. apply elem_of_cons in Hin as [[= _ ->]|Hin]; done. }
  assert (∀ y l, y ≠ v → chain (parent f) root y l → v ∉ l) as Hnotin.
  { intros y l Hy Hch Hin. destruct (chain_parents _ _ _ _ v Hch Hin) as [->|(z & Hz & Hp)];
      [done|]. by apply (Hleaf z). }
  split; [|split].
  - destruct Hinv as [Hrd Hrp Hpq Hnd Hlow Hcl Htree Hchain].
    constructor; unfold update; cbn [dist parent pq].
    + by rewrite lookup_insert_ne.
    + by rewrite lookup_insert_ne.
    + intros k w Hin. apply elem_of_cons in Hin as [[= -> ->]|Hin].
      * exists (d + c). by rewrite lookup_insert_eq.
      * destruct (Hpq k w Hin) as (dw & Hdw & Hle).
        destruct (decide (w = v)) as [->|Hne].
        -- exists (d + c). rewrite lookup_insert_eq. split; [done|].
           specialize (Hless dw Hdw). lia.
        -- exists dw. by rewrite lookup_insert_ne.
    + constructor; [|done]. intros Hin. destruct (Hpq _ _ Hin) as (dv & Hdv & Hle).
      specialize (Hless dv Hdv). lia.
    + intros w dw Hw. destruct (decide (w = v)) as [->|Hne].
      * rewrite lookup_insert_eq in Hw. injection Hw as <-. lia.
      * rewrite lookup_insert_ne in Hw by done. by eapply Hlow.
    + intros x dx k w Hx Hin. apply Hclosed in Hx as [Hne Hx].
      apply elem_of_cons in Hin as [[= -> ->]|Hin].
      * specialize (Hbound x dx Hx). lia.
      * by eapply Hcl.
    + intros w p Hp Hne. destruct (decide (w = v)) as [->|Hwv].
      * rewrite lookup_insert_eq in Hp. injection Hp as <-.
        exists d, c. split; [by apply Hclosed|]. split; [done|]. by rewrite lookup_insert_eq.
      * rewrite lookup_insert_ne in Hp by done.
        destruct (Htree w p Hp Hne) as (dp & c' & Hcl' & Hc' & Hw).
        exists dp, c'. split; [|split; [done|by rewrite lookup_insert_ne]].
        apply Hclosed. split; [|done]. intros ->. by apply (Hopen dp).
    + intros w dw Hw. destruct (decide (w = v)) as [->|Hwv].
      * destruct (Hchain u d Hdu) as [l Hl]. exists (v :: l).
        assert (v ∉ l) as Hvl by (apply (Hnotin u l); [congruence|done]).
        apply chain_step with u; [by rewrite lookup_insert_eq|done|done|].
        by apply chain_insert.
      * rewrite lookup_insert_ne in Hw by done. destruct (Hchain w dw Hw) as [l Hl].
        exists l. apply chain_insert; [done|]. by apply (Hnotin w l).
  - apply Hclosed. by split.
  - intros x dx Hx. apply Hclosed in Hx as [_ Hx]. by apply (Hbound x).
Qed.

Lemma relax_plain_expanding d u f a :
  expanding d u f → a ∈ arcs u → expanding d u (relax_plain d u f a).
Proof.
  intros Hexp Ha. unfold relax_plain. destruct a as [v c]. cbn [fst snd].
  destruct (improves (dist f) v (d + c)) eqn:Himp; [|done].
  by apply update_expanding.
Qed.

Lemma foldl_relax_plain_expanding d u f l :
  expanding d u f → l ⊆ arcs u → expanding d u (foldl (relax_plain d u) f l).
Proof.
  revert f. induction l as [|a l IH]; intros f Hexp Hsub; [done|].
  simpl. apply IH.
  - apply relax_plain_expanding; [done|]. apply Hsub. constructor.
  - intros x Hx. apply Hsub. by constructor.
Qed.

End search.

(** ** Paths and their cost *)

(** A path of the shortcut graph, in the order of travel, and the sum of
    the costs of its shortcuts. *)
Inductive spath (g : CSRGraph) : list Z → Z → Prop :=
  | spath_one u : spath g [u] 0
  | spath_cons u v l sc c :
      sc ∈ shortcuts_ g → sc_from sc = u → sc_to sc = v →
      spath g (v :: l) c → spath g (u :: v :: l) (sc_cost sc + c).

(** A chain of parents, from the last edge reached back to the root, and
    the sum of the costs of its arcs. *)
Inductive rpath (arcs : Z → list (Z * Z)) : list Z → Z → Prop :=
  | rpath_one r : rpath arcs [r] 0
  | rpath_cons v p l c c' :
      (v, c) ∈ arcs p → rpath arcs (p :: l) c' → rpath arcs (v :: p :: l) (c' + c).

Lemma spath_app g l1 m l2 c1 c2 :
  spath g (l1 ++ [m]) c1 → spath g (m :: l2) c2 → spath g (l1 ++ m :: l2) (c1 + c2).
Proof.
  revert c1. induction l1 as [|a l1 IH]; intros c1 H1 H2.
  - simpl in *. inversion H1; subst. done.
  - destruct l1 as [|b l1].
    + simpl in *. inversion H1 as [|? ? ? sc c Hsc Hf Ht Hs]; subst.
      inversion Hs; subst. rewrite Z.add_0_r. by apply spath_cons.
    + simpl in *. inversion H1 as [|? ? ? sc c Hsc Hf Ht Hs]; subst.
      rewrite <- Z.add_assoc. apply spath_cons; try done. by apply IH.
Qed.

Lemma chain_rpath arcs root key f v l d :
  finv arcs root key f → chain (parent f) root v l → dist f !! v = Some d →
  rpath arcs l (d - key).
Proof.
  intros Hinv Hc. revert d. induction Hc as [Hroot|v p l Hp Hne Hnin Hc IH]; intros d Hd.
  - rewrite (fi_root_dist _ _ _ _ Hinv) in Hd. injection Hd as <-.
    rewrite Z.sub_diag. constructor.
  - destruct (fi_tree _ _ _ _ Hinv v p Hp Hne) as (dp & c & [Hdp _] & Harc & Hv).
    rewrite Hv in Hd. injection Hd as <-.
    destruct (chain_head _ _ _ _ Hc) as [l' ->].
    replace (dp + c - key) with (dp - key + c) by lia.
    constructor; [done|]. by apply IH.
Qed.

Lemma rpath_nonneg arcs l c :
  (∀ u a, a ∈ arcs u → 0 ≤ a.1) → rpath arcs l c →
  (∀ r, last l = Some r → 0 ≤ r) → Forall (λ x, 0 ≤ x) l.
Proof.
  intros Harcs. induction 1 as [r|v p l c c' Harc Hr IH]; intros Hlast.
  - constructor; [by apply Hlast|constructor].
  - constructor; [apply (Harcs p (v, c) Harc)|]. apply IH. intros r Hr'. by apply Hlast.
Qed.

(** Forward arcs are shortcuts out of the edge, backward arcs are
    shortcuts into it. *)
Definition fwd_arcs_ok (g : CSRGraph) (arcs : Z → list (Z * Z)) : Prop :=
  ∀ u a, a ∈ arcs u →
    0 ≤ a.1 ∧ (0 ≤ u → ∃ sc, sc ∈ shortcuts_ g ∧ sc_from sc = u
                             ∧ sc_to sc = a.1 ∧ sc_cost sc = a.2).

Definition bwd_arcs_ok (g : CSRGraph) (arcs : Z → list (Z * Z)) : Prop :=
  ∀ u a, a ∈ arcs u →
    0 ≤ a.1 ∧ (0 ≤ u → ∃ sc, sc ∈ shortcuts_ g ∧ sc_to sc = u
                             ∧ sc_from sc = a.1 ∧ sc_cost sc = a.2).

Lemma rpath_bwd_spath g arcs l c :
  bwd_arcs_ok g arcs → rpath arcs l c → (∀ r, last l = Some r → 0 ≤ r) → spath g l c.
Proof.
  intros Hok Hr Hlast.
  pose proof (rpath_nonneg arcs l c (λ u a Ha, proj1 (Hok u a Ha)) Hr Hlast) as Hnn.
  clear Hlast. induction Hr as [r|v p l c c' Harc Hr IH]; [constructor|].
  apply Forall_cons in Hnn as [Hv Hnn]. pose proof Hnn as Hnn'.
  apply Forall_cons in Hnn' as [Hp _].
  destruct (Hok p (v, c) Harc) as [_ Hsc]. destruct (Hsc Hp) as (sc & Hin & Hto & Hfrom & Hcost).
  simpl in *. rewrite Z.add_comm, <- Hcost. apply spath_cons; try done. by apply IH.
Qed.

Lemma rpath_fwd_spath g arcs l c :
  fwd_arcs_ok g arcs → rpath arcs l c → (∀ r, last l = Some r → 0 ≤ r) →
  spath g (reverse l) c.
Proof.
  intros Hok Hr Hlast.
  pose proof (rpath_nonneg arcs l c (λ u a Ha, proj1 (Hok u a Ha)) Hr Hlast) as Hnn.
  clear Hlast. induction Hr as [r|v p l c c' Harc Hr IH]; [constructor|].
  apply Forall_cons in Hnn as [Hv Hnn]. pose proof Hnn as Hnn'.
  apply Forall_cons in Hnn' as [Hp _].
  destruct (Hok p (v, c) Harc) as [_ Hsc]. destruct (Hsc Hp) as (sc & Hin & Hfrom & Hto & Hcost).
  simpl in *. specialize (IH Hnn).
  rewrite reverse_cons. rewrite reverse_cons in IH |- *.
  rewrite <- app_assoc. simpl.
  apply (spath_app g (reverse l) p [v] c' c); [done|].
  rewrite <- Hcost, <- (Z.add_0_r (sc_cost sc)). apply spath_cons; try done. constructor.
Qed.

Lemma fwd_arcs_wf g P : csr_wf g → fwd_arcs_ok g (fwd_arcs P g).
Proof.
  intros Hwf u a Ha. unfold fwd_arcs in Ha.
  apply list_elem_of_fmap in Ha as (sc & -> & Hsc).
  apply list_elem_of_filter in Hsc as [_ Hsc]. simpl.
  assert (sc ∈ shortcuts_ g) as Hin.
  { unfold fwd_shortcuts, slice in Hsc. destruct (get_fwd_range g u) as [a b].
    by eapply subseteq_drop, subseteq_take. }
  split.
  - pose proof (wf_ids g Hwf) as Hids. rewrite Forall_forall in Hids.
    specialize (Hids sc Hin). lia.
  - intros Hu. rewrite fwd_shortcuts_wf in Hsc by done.
    apply list_elem_of_filter in Hsc as [Hfrom _]. by exists sc.
Qed.

Lemma bwd_arcs_wf g P : csr_wf g → bwd_arcs_ok g (bwd_arcs P g).
Proof.
  intros Hwf u a Ha. unfold bwd_arcs in Ha.
  apply list_elem_of_fmap in Ha as (sc & -> & Hsc).
  apply list_elem_of_filter in Hsc as [_ Hsc]. simpl.
  assert (sc ∈ shortcuts_ g) as Hin.
  { unfold bwd_shortcuts in Hsc. destruct (get_bwd_range g u) as [a b].
    apply list_elem_of_omap in Hsc as (idx & _ & Hidx).
    destruct (idx <? 0); [done|]. by eapply list_elem_of_lookup_2. }
  split.
  - pose proof (wf_ids g Hwf) as Hids. rewrite Forall_forall in Hids.
    specialize (Hids sc Hin). lia.
  - intros Hu. rewrite bwd_shortcuts_wf in Hsc by done.
    apply list_elem_of_filter in Hsc as [Hto _]. by exists sc.
Qed.

(** ** The meeting of two directions *)

(** [best] is the sum of the two distances of [meeting]. *)
Definition meets (this other : gmap Z Z) (m : Meet) : Prop :=
  if found m
  then ∃ x y, this !! meeting m = Some x ∧ other !! meeting m = Some y
              ∧ best m = Fin (x + y)
  else best m = Inf.

Lemma meets_sym this other m : meets this other m → meets other this m.
Proof.
  unfold meets. destruct (found m); [|done].
  intros (x & y & Hx & Hy & Hb). exists y, x. rewrite Hb. repeat split; try done.
  f_equal. lia.
Qed.

Lemma meets_update this other m v nd :
  meets this other m → improves this v nd = true →
  meets (<[v:=nd]> this) other (meet_check other v nd m).
Proof.
  unfold meets, meet_check, improves. intros Hm Himp.
  destruct (other !! v) as [o|] eqn:Ho.
  - destruct (Dlt (Fin (nd + o)) (best m)) eqn:Hlt; cbn [found meeting best].
    + exists nd, o. by rewrite lookup_insert_eq.
    + destruct (found m).
      * destruct Hm as (x & y & Hx & Hy & Hb). exists x, y.
        rewrite lookup_insert_ne; [done|]. intros Heq. rewrite <- Heq in Hx, Hy.
        rewrite Hx in Himp. rewrite Hy in Ho. injection Ho as ->.
        rewrite Hb in Hlt. simpl in Hlt. lia.
      * rewrite Hm in Hlt. done.
  - destruct (found m); [|done].
    destruct Hm as (x & y & Hx & Hy & Hb). exists x, y.
    rewrite lookup_insert_ne; [done|]. intros Heq. rewrite <- Heq in Hy. congruence.
Qed.

Section two_directions.
Context (arcs : Z → list (Z * Z)).
Context (arcs_nonneg : ∀ u a, a ∈ arcs u → 0 ≤ a.2).
Context (root key : Z).

Lemma relax_expanding other d u f m a :
  expanding arcs root key d u f → meets (dist f) other m → a ∈ arcs u →
  expanding arcs root key d u (relax other d u (f, m) a).1
  ∧ meets (dist (relax other d u (f, m) a).1) other (relax other d u (f, m) a).2.
Proof.
  intros Hexp Hm Ha. unfold relax. destruct a as [v c]. cbn [fst snd].
  destruct (improves (dist f) v (d + c)) eqn:Himp; [|done]. cbn [fst snd]. split.
  - by apply update_expanding.
  - by apply meets_update.
Qed.

Lemma foldl_relax_expanding other d u s l :
  expanding arcs root key d u s.1 → meets (dist s.1) other s.2 → l ⊆ arcs u →
  expanding arcs root key d u (foldl (relax other d u) s l).1
  ∧ meets (dist (foldl (relax other d u) s l).1) other (foldl (relax other d u) s l).2.
Proof.
  revert s. induction l as [|a l IH]; intros [f m] Hexp Hm Hsub; [done|].
  cbn [foldl]. destruct (relax_expanding other d u f m a) as [H1 H2]; try done.
  { apply Hsub. constructor. }
  destruct (relax other d u (f, m) a) as [f' m'] eqn:Hr. apply IH; try done.
  intros x Hx. apply Hsub. by constructor.
Qed.

Lemma classic_half_inv `{Stl} this other m cont this' m' :
  finv arcs root key this → meets (dist this) (dist other) m →
  classic_half arcs this other m = (cont, (this', m')) →
  finv arcs root key this' ∧ meets (dist this') (dist other) m'.
Proof.
  intros Hinv Hm. unfold classic_half.
  destruct (pq_pop (pq this)) as [[[d u] q]|] eqn:Hpop; [|by intros [= <- <- <-]].
  destruct (pop_finv arcs root key this d u q Hinv Hpop)
    as (Hinv' & Hbound & (du & Hdu & Hle) & Hnin & _ & _).
  cbn [dist].
  destruct (stale (dist this) u d) eqn:Hstale; [by intros [= <- <- <-]|].
  destruct (Dle (best m) (Fin d)); [by intros [= <- <- <-]|].
  intros [= <- Hfold].
  destruct (foldl_relax_expanding (dist other) d u
              ({| dist := dist this; parent := parent this; pq := q |}, m) (arcs u))
    as [(Hf & _) Hmeets]; try done.
  - split; [done|]. split; [|done]. split; [|done].
    change (dist this !! u = Some d).
    unfold stale in Hstale. rewrite Hdu in Hstale. rewrite Hdu. f_equal. lia.
  - rewrite Hfold in Hf, Hmeets. done.
Qed.

Lemma bidijkstra_half_inv `{Stl} this other m this' m' :
  finv arcs root key this → meets (dist this) (dist other) m →
  bidijkstra_half arcs this other m = (this', m') →
  finv arcs root key this' ∧ meets (dist this') (dist other) m'.
Proof.
  intros Hinv Hm. unfold bidijkstra_half.
  destruct (pq_pop (pq this)) as [[[d u] q]|] eqn:Hpop; [|by intros [= <- <-]].
  destruct (pop_finv arcs root key this d u q Hinv Hpop)
    as (Hinv' & Hbound & (du & Hdu & Hle) & Hnin & _ & _).
  cbn [dist].
  destruct (Z.gtb_spec d (dist_at (dist this) u)) as [Hgt|Hngt]; [by intros [= <- <-]|].
  intros Hfold.
  destruct (foldl_relax_expanding (dist other) d u
              ({| dist := dist this; parent := parent this; pq := q |}, m) (arcs u))
    as [(Hf & _) Hmeets]; try done.
  - split; [done|]. split; [|done]. split; [|done].
    change (dist this !! u = Some d).
    unfold dist_at in Hngt. rewrite Hdu in Hngt. simpl in Hngt. rewrite Hdu. f_equal. lia.
  - rewrite Hfold in Hf, Hmeets. done.
Qed.

End two_directions.

Section bidirectional.
Context `{Stl} (farcs barcs : Z → list (Z * Z)).
Context (farcs_nonneg : ∀ u a, a ∈ farcs u → 0 ≤ a.2).
Context (barcs_nonneg : ∀ u a, a ∈ barcs u → 0 ≤ a.2).
Context (s t tc : Z).

(** The invariant of the bidirectional loops. *)
Definition binv (f b : Frontier Z) (m : Meet) : Prop :=
  finv farcs s 0 f ∧ finv barcs t tc b ∧ meets (dist f) (dist b) m.

Lemma binv_init : s ≠ t → binv (seed s 0 s) (seed t tc t) no_meet.
Proof. intros Hne. split; [apply seed_finv|]. split; [apply seed_finv|done]. Qed.

Lemma classic_loop_inv fuel f b m f' b' m' :
  binv f b m → classic_loop fuel farcs barcs f b m = Some (f', b', m') → binv f' b' m'.
Proof.
  revert f b m. induction fuel as [|fuel IH]; intros f b m (Hf & Hb & Hm); [done|].
  cbn [classic_loop].
  destruct (pq_empty (pq f) && pq_empty (pq b)); [by intros [= <- <- <-]|].
  destruct (classic_half farcs f b m) as [cont [f1 m1]] eqn:Hhalf.
  destruct (classic_half_inv farcs farcs_nonneg s 0 f b m cont f1 m1 Hf Hm Hhalf) as [Hf1 Hm1].
  destruct cont; [by apply IH|].
  destruct (classic_half barcs b f1 m1) as [cont [b1 m2]] eqn:Hhalf'.
  destruct (classic_half_inv barcs barcs_nonneg t tc b f1 m1 cont b1 m2 Hb
              (meets_sym _ _ _ Hm1) Hhalf') as [Hb1 Hm2].
  apply meets_sym in Hm2.
  destruct cont; [by apply IH|].
  destruct (classic_done f1 b1 m2); [by intros [= <- <- <-]|]. by apply IH.
Qed.

Lemma bidijkstra_loop_inv fuel f b m f' b' m' :
  binv f b m → bidijkstra_loop fuel farcs barcs f b m = Some (f', b', m') → binv f' b' m'.
Proof.
  revert f b m. induction fuel as [|fuel IH]; intros f b m (Hf & Hb & Hm); [done|].
  cbn [bidijkstra_loop].
  destruct (pq_top_dist (pq f)) as [tf|]; [|by intros [= <- <- <-]].
  destruct (pq_top_dist (pq b)) as [tb|]; [|by intros [= <- <- <-]].
  destruct (Dle (best m) (Fin (tf + tb))); [by intros [= <- <- <-]|].
  destruct (tf <=? tb).
  - destruct (bidijkstra_half farcs f b m) as [f1 m1] eqn:Hhalf.
    destruct (bidijkstra_half_inv farcs farcs_nonneg s 0 f b m f1 m1 Hf Hm Hhalf) as [Hf1 Hm1].
    by apply IH.
  - destruct (bidijkstra_half barcs b f m) as [b1 m1] eqn:Hhalf.
    destruct (bidijkstra_half_inv barcs barcs_nonneg t tc b f m b1 m1 Hb
                (meets_sym _ _ _ Hm) Hhalf) as [Hb1 Hm1].
    apply meets_sym in Hm1. by apply IH.
Qed.

End bidirectional.

(** ** The distance returned is the cost of the path returned *)

Lemma fwd_arcs_nonneg g P :
  Forall (λ sc, 0 ≤ sc_cost sc) (shortcuts_ g) → ∀ u a, a ∈ fwd_arcs P g u → 0 ≤ a.2.
Proof.
  intros Hcost u a Ha. unfold fwd_arcs in Ha.
  apply list_elem_of_fmap in Ha as (sc & -> & Hsc).
  apply list_elem_of_filter in Hsc as [_ Hsc]. simpl.
  rewrite Forall_forall in Hcost. apply Hcost.
  unfold fwd_shortcuts, slice in Hsc. destruct (get_fwd_range g u) as [a b].
  by eapply subseteq_drop, subseteq_take.
Qed.

Lemma bwd_arcs_nonneg g P :
  Forall (λ sc, 0 ≤ sc_cost sc) (shortcuts_ g) → ∀ u a, a ∈ bwd_arcs P g u → 0 ≤ a.2.
Proof.
  intros Hcost u a Ha. unfold bwd_arcs in Ha.
  apply list_elem_of_fmap in Ha as (sc & -> & Hsc).
  apply list_elem_of_filter in Hsc as [_ Hsc]. simpl.
  rewrite Forall_forall in Hcost. apply Hcost.
  unfold bwd_shortcuts in Hsc. destruct (get_bwd_range g u) as [a b].
  apply list_elem_of_omap in Hsc as (idx & _ & Hidx).
  destruct (idx <? 0); [done|]. by eapply list_elem_of_lookup_2.
Qed.

Lemma head_reverse_app (l : list Z) x l2 : head (reverse l ++ x :: l2) = last (x :: l).
Proof.
  rewrite <- (reverse_involutive (x :: l)), last_reverse, reverse_cons.
  by destruct (reverse l).
Qed.

Lemma bidir_result_sound g farcs barcs s t tc fuel msg f b m r :
  fwd_arcs_ok g farcs → bwd_arcs_ok g barcs → 0 ≤ s → 0 ≤ t →
  binv farcs barcs s t tc f b m →
  bidir_result fuel msg (f, b, m) = Some r → reachable r = true →
  ∃ c, spath g (path r) c ∧ distance r = Fin (c + tc)
       ∧ head (path r) = Some s ∧ last (path r) = Some t.
Proof.
  intros Hfok Hbok Hs Ht (Hf & Hb & Hm). unfold bidir_result, bidir_path.
  destruct (found m) eqn:Hfound; [|by intros [= <-]]. cbn [negb].
  destruct (follow fuel (parent f) (meeting m)) as [pf|] eqn:Hpf; [|done].
  destruct (follow fuel (parent b) (meeting m)) as [pb|] eqn:Hpb; [|done].
  intros [= <-] _. cbn [path distance].
  unfold meets in Hm. rewrite Hfound in Hm. destruct Hm as (x & y & Hx & Hy & Hbest).
  destruct (fi_chain _ _ _ _ Hf _ _ Hx) as [lf Hlf].
  destruct (fi_chain _ _ _ _ Hb _ _ Hy) as [lb Hlb].
  rewrite (follow_chain _ _ _ _ _ _ Hlf Hpf). rewrite (follow_chain _ _ _ _ _ _ Hlb Hpb).
  pose proof (chain_rpath _ _ _ _ _ _ _ Hf Hlf Hx) as Hrf.
  pose proof (chain_rpath _ _ _ _ _ _ _ Hb Hlb Hy) as Hrb.
  pose proof (chain_last _ _ _ _ Hlf) as Hlastf.
  pose proof (chain_last _ _ _ _ Hlb) as Hlastb.
  apply (rpath_fwd_spath g) in Hrf; [|done|by intros r'; rewrite Hlastf; intros [= <-]].
  apply (rpath_bwd_spath g) in Hrb; [|done|by intros r'; rewrite Hlastb; intros [= <-]].
  destruct (chain_head _ _ _ _ Hlf) as [lf' ->].
  destruct (chain_head _ _ _ _ Hlb) as [lb' ->].
  rewrite reverse_cons in Hrf |- *. cbn [tail]. rewrite <- app_assoc. cbn [app].
  exists (x - 0 + (y - tc)). split; [by apply spath_app|]. split.
  - rewrite Hbest. f_equal. lia.
  - split.
    + by rewrite head_reverse_app.
    + rewrite last_app. rewrite Hlastb. done.
Qed.

Lemma dijkstra_loop_inv `{Stl} arcs s t fuel f f' res :
  (∀ u a, a ∈ arcs u → 0 ≤ a.2) →
  finv arcs s 0 f → dijkstra_loop fuel arcs t f = Some (f', res) →
  finv arcs s 0 f' ∧ ∀ d, res = Some d → dist f' !! t = Some d.
Proof.
  intros Harcs. revert f. induction fuel as [|fuel IH]; intros f Hinv; [done|].
  cbn [dijkstra_loop].
  destruct (pq_pop (pq f)) as [[[d u] q]|] eqn:Hpop; [|by intros [= <- <-]].
  destruct (pop_finv arcs s 0 f d u q Hinv Hpop)
    as (Hinv' & Hbound & (du & Hdu & Hle) & Hnin & _ & _).
  cbn [dist].
  destruct (Z.gtb_spec d (dist_at (dist f) u)) as [Hgt|Hngt]; [by apply IH|].
  assert (dist f !! u = Some d) as Hd.
  { unfold dist_at in Hngt. rewrite Hdu in Hngt. simpl in Hngt. rewrite Hdu. f_equal. lia. }
  destruct (Z.eqb_spec u t) as [->|Hne].
  - intros [= <- <-]. split; [done|]. by intros d' [= <-].
  - apply IH. apply (foldl_relax_plain_expanding arcs Harcs s 0 d u); [|done].
    split; [done|]. split; [|done]. by split.
Qed.

Lemma query_dijkstra_sound `{Stl} fuel g s t r :
  csr_wf g → Forall (λ sc, 0 ≤ sc_cost sc) (shortcuts_ g) → 0 ≤ s → 0 ≤ t →
  query_dijkstra fuel g s t = Some r → reachable r = true →
  ∃ c, spath g (path r) c ∧ distance r = Fin (c + get_edge_cost g t)
       ∧ head (path r) = Some s ∧ last (path r) = Some t.
Proof.
  intros Hwf Hcost Hs Ht. unfold query_dijkstra.
  destruct (Z.eqb_spec s t) as [->|Hne].
  { intros [= <-] _. exists 0. split; [constructor|done]. }
  destruct (negb (bool_decide (is_Some (edge_meta_ g !! s)))); [by intros [= <-]|].
  destruct (negb (bool_decide (is_Some (edge_meta_ g !! t)))); [by intros [= <-]|].
  destruct (dijkstra_loop fuel (fwd_arcs any_shortcut g) t (seed s 0 s))
    as [[f [d|]]|] eqn:Hloop; [|by intros [= <-]|done].
  destruct (dijkstra_loop_inv _ s t fuel _ f (Some d) (fwd_arcs_nonneg g _ Hcost)
              (seed_finv _ s 0) Hloop) as [Hinv Hd].
  specialize (Hd d eq_refl).
  destruct (fi_chain _ _ _ _ Hinv _ _ Hd) as [l Hl].
  destruct (follow_to fuel (parent f) s t) as [p|] eqn:Hp; [|done].
  intros [= <-] _. cbn [path distance].
  rewrite (follow_to_chain _ _ _ _ _ _ Hl Hp).
  pose proof (chain_rpath _ _ _ _ _ _ _ Hinv Hl Hd) as Hr.
  pose proof (chain_last _ _ _ _ Hl) as Hlast.
  apply (rpath_fwd_spath g) in Hr;
    [|by apply fwd_arcs_wf|by intros r'; rewrite Hlast; intros [= <-]].
  exists (d - 0). split; [done|]. split; [f_equal; lia|].
  destruct (chain_head _ _ _ _ Hl) as [l' ->]. split.
  - rewrite reverse_cons, <- (app_nil_r [t]). simpl. by rewrite head_reverse_app.
  - by rewrite last_reverse.
Qed.

Lemma query_classic_sound `{Stl} fuel g s t r :
  csr_wf g → Forall (λ sc, 0 ≤ sc_cost sc) (shortcuts_ g) → 0 ≤ s → 0 ≤ t →
  query_classic fuel g s t = Some r → reachable r = true →
  ∃ c, spath g (path r) c ∧ distance r = Fin (c + get_edge_cost g t)
       ∧ head (path r) = Some s ∧ last (path r) = Some t.
Proof.
  intros Hwf Hcost Hs Ht. unfold query_classic.
  destruct (Z.eqb_spec s t) as [->|Hne].
  { intros [= <-] _. exists 0. split; [constructor|done]. }
  destruct (negb (bool_decide (is_Some (edge_meta_ g !! s)))); [by intros [= <-]|].
  destruct (negb (bool_decide (is_Some (edge_meta_ g !! t)))); [by intros [= <-]|].
  cbn [classic_init].
  destruct (classic_loop _ _ _ _ _ _) as [[[f b] m]|] eqn:Hloop; [|done].
  intros Hres Hreach.
  eapply (bidir_result_sound g); [by apply fwd_arcs_wf|by apply bwd_arcs_wf|done|done| |done|done].
  eapply classic_loop_inv; [by apply fwd_arcs_nonneg|by apply bwd_arcs_nonneg| |exact Hloop].
  by apply binv_init.
Qed.

Lemma query_bidijkstra_sound `{Stl} fuel g s t r :
  csr_wf g → Forall (λ sc, 0 ≤ sc_cost sc) (shortcuts_ g) → 0 ≤ s → 0 ≤ t →
  query_bidijkstra fuel g s t = Some r → reachable r = true →
  ∃ c, spath g (path r) c ∧ distance r = Fin (c + get_edge_cost g t)
       ∧ head (path r) = Some s ∧ last (path r) = Some t.
Proof.
  intros Hwf Hcost Hs Ht. unfold query_bidijkstra.
  destruct (Z.eqb_spec s t) as [->|Hne].
  { intros [= <-] _. exists 0. split; [constructor|done]. }
  destruct (negb (bool_decide (is_Some (edge_meta_ g !! s)))); [by intros [= <-]|].
  destruct (negb (bool_decide (is_Some (edge_meta_ g !! t)))); [by intros [= <-]|].
  cbn [classic_init].
  destruct (bidijkstra_loop _ _ _ _ _ _) as [[[f b] m]|] eqn:Hloop; [|done].
  intros Hres Hreach.
  eapply (bidir_result_sound g); [by apply fwd_arcs_wf|by apply bwd_arcs_wf|done|done| |done|done].
  eapply bidijkstra_loop_inv; [by apply fwd_arcs_nonneg|by apply bwd_arcs_nonneg| |exact Hloop].
  by apply binv_init.
Qed.

Lemma loaded_csr_wf em tl :
  tl ≠ [] →
  Forall (λ x, 0 ≤ t_from x < 2 ^ 32 - 2 ∧ 0 ≤ t_to x < 2 ^ 32 - 2) tl →
  Z.of_nat (length tl) < 2 ^ 32 →
  csr_wf (loaded em tl).
Proof.
  intros Hne Hids Hsize. unfold loaded.
  destruct (@load_shortcuts stl_ref (list_to_map em) tl) as [g|] eqn:Hload.
  - by destruct (@load_shortcuts_wf stl_ref _ _ _ Hids Hsize Hload) as [Hwf _].
  - unfold load_shortcuts in Hload. by destruct tl.
Qed.

(** Discharges the side conditions of [loaded_csr_wf] on a store written
    out. *)
Ltac loaded_wf :=
  apply loaded_csr_wf;
  [ done
  | repeat (apply Forall_cons; split; [cbn; lia|]); constructor
  | cbn; lia ].

(** Proves a [Forall] over the shortcuts of a store written out. *)
Ltac all_shortcuts :=
  match goal with
  | |- Forall _ (shortcuts_ ?g) =>
      let l := eval vm_compute in (shortcuts_ g) in
      change (shortcuts_ g) with l;
      repeat (apply Forall_cons; split; [cbn; lia|]); constructor
  end.

(** ** Shortest paths: what a direction has explored *)

Lemma filter_length_le {A} (P Q : A → Prop) `{∀ x, Decision (P x)} `{∀ x, Decision (Q x)}
    (l : list A) :
  (∀ x, x ∈ l → P x → Q x) → (length (filter P l) ≤ length (filter Q l))%nat.
Proof.
  induction l as [|a l IH]; intros HPQ; [done|].
  assert (length (filter P l) ≤ length (filter Q l))%nat as IH'.
  { apply IH. intros x Hx. apply HPQ. by constructor. }
  rewrite !filter_cons.
  destruct (decide (P a)) as [HP|HP].
  - rewrite decide_True by (apply HPQ; [constructor|done]). simpl. lia.
  - destruct (decide (Q a)); simpl; lia.
Qed.

Lemma filter_length_split {A} (P Q R : A → Prop) `{∀ x, Decision (P x)}
    `{∀ x, Decision (Q x)} `{∀ x, Decision (R x)} (l : list A) :
  (∀ x, P x → Q x) → (∀ x, R x → Q x ∧ ¬ P x) →
  (length (filter P l) + length (filter R l) ≤ length (filter Q l))%nat.
Proof.
  intros HPQ HR. induction l as [|a l IH]; [done|].
  rewrite !filter_cons.
  destruct (decide (P a)) as [HP|HP], (decide (Q a)) as [HQ|HQ],
    (decide (R a)) as [HRa|HRa]; simpl; try lia; exfalso.
  - by destruct (HR a HRa).
  - by apply HQ, HPQ.
  - by apply HQ, HPQ.
  - by destruct (HR a HRa).
Qed.

Lemma chain_elements P root v l x :
  chain P root v l → x ∈ l → x = root ∨ ∃ p, P !! x = Some p ∧ x ≠ p.
Proof.
  induction 1 as [|v p l Hp Hne Hnin Hc IH]; intros Hx.
  - apply list_elem_of_singleton in Hx. by left.
  - apply elem_of_cons in Hx as [->|Hx]; [right; by exists p | by apply IH].
Qed.

Section exploration.
Context (arcs : Z → list (Z * Z)).
Context (arcs_nonneg : ∀ u a, a ∈ arcs u → 0 ≤ a.2).
Context (root key : Z).

(** Every arc out of [x] has been relaxed from the distance [dx]. *)
Definition relaxed (f : Frontier Z) (x dx : Z) : Prop :=
  ∀ a, a ∈ arcs x → ∃ dv, dist f !! a.1 = Some dv ∧ dv ≤ dx + a.2.

(** Every edge popped at its distance has had all its arcs relaxed: the
    loops of [query_dijkstra] and of [query_bidijkstra] skip no arc. *)
Definition explored (f : Frontier Z) : Prop :=
  ∀ x dx, closed f x dx → relaxed f x dx.

Definition explored_but (u : Z) (f : Frontier Z) : Prop :=
  ∀ x dx, x ≠ u → closed f x dx → relaxed f x dx.

(** Distances only decrease. *)
Definition lowers (f f' : Frontier Z) : Prop :=
  ∀ w dw, dist f !! w = Some dw → ∃ dw', dist f' !! w = Some dw' ∧ dw' ≤ dw.

(** [x] has not been popped at its distance. *)
Definition is_open (f : Frontier Z) (x : Z) : bool :=
  match dist f !! x with
  | Some dx => bool_decide ((dx, x) ∈ pq f)
  | None => true
  end.

(** A path along the arcs and its cost. *)
Inductive apath : Z → Z → Z → Prop :=
  | apath_nil u : apath u u 0
  | apath_cons u v w c c' : (v, c) ∈ arcs u → apath v w c' → apath u w (c + c').

Lemma apath_nonneg u w c : apath u w c → 0 ≤ c.
Proof.
  induction 1 as [|u v w c c' Harc _ IH]; [done|].
  pose proof (arcs_nonneg u (v, c) Harc) as Hc. simpl in Hc. lia.
Qed.

Lemma apath_snoc u v w c c' : apath u v c → (w, c') ∈ arcs v → apath u w (c + c').
Proof.
  induction 1 as [u|u x v c0 c1 Harc _ IH]; intros Hw.
  - rewrite Z.add_comm. apply apath_cons with w; [done|constructor].
  - rewrite <- Z.add_assoc. apply apath_cons with x; [done|by apply IH].
Qed.

Lemma is_open_closed f x : is_open f x = true ↔ ∀ dx, ¬ closed f x dx.
Proof.
  unfold is_open, closed. destruct (dist f !! x) as [d|] eqn:Hd.
  - rewrite bool_decide_eq_true. split.
    + intros Hin dx [[= <-] Hnin]. done.
    + intros Hcl. destruct (decide ((d, x) ∈ pq f)) as [|Hnin]; [done|].
      exfalso. by apply (Hcl d).
  - split; [|done]. by intros _ dx [? _].
Qed.

Lemma lowers_refl f : lowers f f.
Proof. intros w dw Hw. by exists dw. Qed.

Lemma lowers_trans f1 f2 f3 : lowers f1 f2 → lowers f2 f3 → lowers f1 f3.
Proof.
  intros H12 H23 w dw Hw. destruct (H12 w dw Hw) as (d2 & Hd2 & Hle2).
  destruct (H23 w d2 Hd2) as (d3 & Hd3 & Hle3). exists d3. split; [done|lia].
Qed.

(** The edges of [dist] are the root and heads of arcs. *)
Lemma finv_reached f v d :
  finv arcs root key f → dist f !! v = Some d → v = root ∨ ∃ p c, (v, c) ∈ arcs p.
Proof.
  intros Hinv Hd. destruct (fi_chain _ _ _ _ Hinv v d Hd) as [l Hl].
  destruct Hl as [|v p l Hp Hne _ _]; [by left|]. right.
  destruct (fi_tree _ _ _ _ Hinv v p Hp Hne) as (dp & c & _ & Harc & _). by exists p, c.
Qed.

(** What [explored] gives along a path: the end of the path has a
    distance within the cost of the path, or the queue has a key within
    it. *)
Lemma explored_reach f x w c dx a :
  explored f → apath x w c → dist f !! x = Some dx → dx ≤ a →
  (∃ dw, dist f !! w = Some dw ∧ dw ≤ a + c) ∨ (∃ e, e ∈ pq f ∧ e.1 ≤ a + c).
Proof.
  intros Hexp Hp. revert dx a. induction Hp as [u|u v w c c' Harc Hp IH]; intros dx a Hdx Hle.
  - left. exists dx. split; [done|lia].
  - pose proof (apath_nonneg _ _ _ Hp) as Hc'.
    pose proof (arcs_nonneg u (v, c) Harc) as Hc. simpl in Hc.
    destruct (decide ((dx, u) ∈ pq f)) as [Hin|Hnin].
    + right. exists (dx, u). split; [done|]. simpl. lia.
    + destruct (Hexp u dx (conj Hdx Hnin) (v, c) Harc) as (dv & Hdv & Hlev). simpl in *.
      destruct (IH dv (a + c) Hdv) as [(dw & Hdw & Hlew)|(e & He & Hlee)]; [lia| |].
      * left. exists dw. split; [done|lia].
      * right. exists e. split; [done|lia].
Qed.

Lemma update_explored d u f v c :
  expanding arcs root key d u f → (v, c) ∈ arcs u → improves (dist f) v (d + c) = true →
  (∀ x, is_open (update f u v (d + c) v) x = is_open f x)
  ∧ (explored_but u f → explored_but u (update f u v (d + c) v))
  ∧ lowers f (update f u v (d + c) v).
Proof.
  intros (Hinv & [Hdu Hcu] & Hbound) Harc Himp.
  assert (∀ dv, dist f !! v = Some dv → d + c < dv) as Hless.
  { intros dv Hdv. unfold improves in Himp. rewrite Hdv in Himp. lia. }
  pose proof (arcs_nonneg u (v, c) Harc) as Hc. simpl in Hc.
  assert (∀ dv, ¬ closed f v dv) as Hopen.
  { intros dv Hcl. specialize (Hbound v dv Hcl). destruct Hcl as [Hdv _].
    specialize (Hless dv Hdv). lia. }
  assert (lowers f (update f u v (d + c) v)) as Hlow.
  { intros w dw Hw. unfold update. cbn [dist].
    destruct (decide (w = v)) as [->|Hne].
    - exists (d + c). rewrite lookup_insert_eq. split; [done|]. specialize (Hless dw Hw). lia.
    - exists dw. by rewrite lookup_insert_ne. }
  split; [|split; [|done]].
  - intros x. unfold is_open at 1. unfold update. cbn [dist pq].
    destruct (decide (x = v)) as [->|Hne].
    + rewrite lookup_insert_eq. rewrite bool_decide_eq_true_2 by constructor.
      symmetry. by apply is_open_closed.
    + rewrite lookup_insert_ne by done. unfold is_open.
      destruct (dist f !! x) as [dx|]; [|done].
      apply bool_decide_ext. rewrite elem_of_cons. split; [|by right].
      intros [[= _ ->]|Hin]; done.
  - intros Hexp x dx Hxu [Hd Hq]. unfold update in Hd, Hq. cbn [dist pq] in Hd, Hq.
    destruct (decide (x = v)) as [->|Hne].
    + rewrite lookup_insert_eq in Hd. injection Hd as <-. exfalso. apply Hq. constructor.
    + rewrite lookup_insert_ne in Hd by done.
      assert (closed f x dx) as Hcl.
      { split; [done|]. intros Hin. apply Hq. by constructor. }
      intros a Ha. destruct (Hexp x dx Hxu Hcl a Ha) as (dv & Hdv & Hle).
      destruct (Hlow _ _ Hdv) as (dv' & Hdv' & Hle'). exists dv'. split; [done|lia].
Qed.

Lemma relax_plain_explored d u f a :
  expanding arcs root key d u f → a ∈ arcs u →
  (∀ x, is_open (relax_plain d u f a) x = is_open f x)
  ∧ (explored_but u f → explored_but u (relax_plain d u f a))
  ∧ lowers f (relax_plain d u f a)
  ∧ (∃ dv, dist (relax_plain d u f a) !! a.1 = Some dv ∧ dv ≤ d + a.2)
  ∧ (length (pq (relax_plain d u f a)) ≤ S (length (pq f)))%nat.
Proof.
  intros Hexp Ha. unfold relax_plain. destruct a as [v c]. cbn [fst snd] in *.
  destruct (improves (dist f) v (d + c)) eqn:Himp.
  - destruct (update_explored d u f v c Hexp Ha Himp) as (Hopen & Hbut & Hlow).
    split; [done|]. split; [done|]. split; [done|]. split.
    + exists (d + c). unfold update. cbn [dist]. by rewrite lookup_insert_eq.
    + unfold update. cbn [pq]. simpl. lia.
  - split; [done|]. split; [done|]. split; [apply lowers_refl|]. split; [|lia].
    unfold improves in Himp. destruct (dist f !! v) as [old|]; [|done].
    exists old. split; [done|lia].
Qed.

Lemma foldl_relax_plain_explored d u l f :
  expanding arcs root key d u f → l ⊆ arcs u →
  (∀ x, is_open (foldl (relax_plain d u) f l) x = is_open f x)
  ∧ (explored_but u f → explored_but u (foldl (relax_plain d u) f l))
  ∧ lowers f (foldl (relax_plain d u) f l)
  ∧ (∀ a, a ∈ l → ∃ dv, dist (foldl (relax_plain d u) f l) !! a.1 = Some dv ∧ dv ≤ d + a.2)
  ∧ (length (pq (foldl (relax_plain d u) f l)) ≤ length (pq f) + length l)%nat.
Proof.
  revert f. induction l as [|a l IH]; intros f Hexp Hsub.
  { simpl. split; [done|]. split; [done|]. split; [apply lowers_refl|]. split; [|lia].
    intros a Ha. by apply elem_of_nil in Ha. }
  assert (a ∈ arcs u) as Ha by (apply Hsub; constructor).
  assert (l ⊆ arcs u) as Hsub' by (intros x Hx; apply Hsub; by constructor).
  destruct (relax_plain_explored d u f a Hexp Ha) as (Ho1 & Hb1 & Hl1 & Hr1 & Hn1).
  pose proof (relax_plain_expanding arcs arcs_nonneg root key d u f a Hexp Ha) as Hexp1.
  destruct (IH _ Hexp1 Hsub') as (Ho2 & Hb2 & Hl2 & Hr2 & Hn2).
  cbn [foldl]. split; [|split; [|split; [|split]]].
  - intros x. by rewrite Ho2.
  - intros Hb. by apply Hb2, Hb1.
  - by eapply lowers_trans.
  - intros a' Ha'. apply elem_of_cons in Ha' as [->|Ha']; [|by apply Hr2].
    destruct Hr1 as (dv & Hdv & Hle). destruct (Hl2 _ _ Hdv) as (dv' & Hdv' & Hle').
    exists dv'. split; [done|lia].
  - simpl. lia.
Qed.

End exploration.

Section potential.
Context `{Stl} (arcs : Z → list (Z * Z)).
Context (arcs_nonneg : ∀ u a, a ∈ arcs u → 0 ≤ a.2).
Context (root key : Z).
Context (srcs : list Z).
Context (arcs_count : ∀ u, 0 ≤ u → (length (arcs u) ≤ length (filter (λ x, x = u) srcs))%nat).
Context (arcs_heads : ∀ u a, a ∈ arcs u → 0 ≤ a.1).
Context (root_nonneg : 0 ≤ root).

(** What bounds the number of iterations left: the entries of the queue
    and the arcs out of edges not popped yet at their distance. *)
Definition potential (f : Frontier Z) : nat :=
  (length (pq f) + length (filter (λ x, is_open f x = true) srcs))%nat.

Lemma seed_potential : (potential (seed root key root) ≤ 1 + length srcs)%nat.
Proof.
  unfold potential, seed. cbn [pq length].
  pose proof (length_filter (λ x, is_open {| dist := {[root := key]};
    parent := {[root := root]}; pq := [(key, root)] |} x = true) srcs). lia.
Qed.

Lemma finv_nonneg f v d : finv arcs root key f → dist f !! v = Some d → 0 ≤ v.
Proof.
  intros Hinv Hd. destruct (finv_reached arcs root key f v d Hinv Hd) as [->|(p & c & Harc)];
    [done|]. apply (arcs_heads p (v, c) Harc).
Qed.

(** Every pop lowers the potential. *)
Lemma pop_potential f d u q :
  finv arcs root key f → pq_pop (pq f) = Some ((d, u), q) →
  (potential {| dist := dist f; parent := parent f; pq := q |} < potential f)%nat.
Proof.
  intros Hinv Hpop.
  destruct (pop_finv arcs root key f d u q Hinv Hpop) as (_ & _ & _ & _ & _ & Hperm).
  unfold potential. cbn [pq]. pose proof (Permutation_length Hperm) as Hlen. simpl in Hlen.
  rewrite Hlen. apply Nat.lt_succ_r, Nat.add_le_mono_l, filter_length_le.
  intros x _. unfold is_open. cbn [dist pq]. destruct (dist f !! x) as [dx|]; [|done].
  rewrite !bool_decide_eq_true, Hperm. by right.
Qed.

(** So does a pop followed by the relaxation of every arc of the edge:
    the entries pushed are paid by the arcs of the edge, which is popped
    at its distance once. *)
Lemma expand_potential f d u q :
  finv arcs root key f → pq_pop (pq f) = Some ((d, u), q) → dist f !! u = Some d →
  (potential (foldl (relax_plain d u) {| dist := dist f; parent := parent f; pq := q |}
                    (arcs u))
   < potential f)%nat.
Proof.
  intros Hinv Hpop Hdu.
  destruct (pop_finv arcs root key f d u q Hinv Hpop) as (Hinv1 & Hbound & _ & Hnin & _ & Hperm).
  set (f1 := {| dist := dist f; parent := parent f; pq := q |}) in *.
  assert (expanding arcs root key d u f1) as Hexp1.
  { split; [done|]. split; [|done]. by split. }
  destruct (foldl_relax_plain_explored arcs arcs_nonneg root key d u (arcs u) f1 Hexp1)
    as (Ho & _ & _ & _ & Hn); [done|].
  assert (∀ x, is_open f1 x = true → is_open f x = true) as Hsub.
  { intros x. unfold is_open. cbn [f1 dist pq]. destruct (dist f !! x) as [dx|]; [|done].
    rewrite !bool_decide_eq_true, Hperm. by right. }
  unfold potential.
  assert (0 ≤ u) as Hu by by eapply finv_nonneg.
  pose proof (arcs_count u Hu) as Hcount.
  pose proof (filter_length_split (λ x, is_open f1 x = true) (λ x, is_open f x = true)
                (λ x, x = u) srcs Hsub) as Hsplit.
  assert (length (filter (λ x, is_open (foldl (relax_plain d u) f1 (arcs u)) x = true) srcs)
          ≤ length (filter (λ x, is_open f1 x = true) srcs))%nat as Hsame.
  { apply filter_length_le. intros x _. by rewrite Ho. }
  pose proof (Permutation_length Hperm) as Hlen. cbn [f1 pq] in Hn. simpl in Hlen.
  enough (length (filter (λ x, is_open f1 x = true) srcs) + length (filter (λ x, x = u) srcs)
          ≤ length (filter (λ x, is_open f x = true) srcs))%nat by lia.
  apply Hsplit. intros x ->. split.
  - unfold is_open. rewrite Hdu. apply bool_decide_eq_true. rewrite Hperm. constructor.
  - unfold is_open. cbn [f1 dist pq]. rewrite Hdu. rewrite bool_decide_eq_false_2; done.
Qed.

(** A pop that [if (d > dist[u]) continue;] drops. *)
Lemma stale_step f d u q du :
  finv arcs root key f → explored arcs f → pq_pop (pq f) = Some ((d, u), q) →
  dist f !! u = Some du → du < d →
  explored arcs {| dist := dist f; parent := parent f; pq := q |}
  ∧ (∀ x, is_open {| dist := dist f; parent := parent f; pq := q |} x = is_open f x)
  ∧ (potential {| dist := dist f; parent := parent f; pq := q |} < potential f)%nat.
Proof.
  intros Hinv Hexp Hpop Hdu Hlt.
  destruct (pop_finv arcs root key f d u q Hinv Hpop) as (_ & _ & _ & _ & _ & Hperm).
  assert (∀ x, is_open {| dist := dist f; parent := parent f; pq := q |} x = is_open f x)
    as Hopen.
  { intros x. unfold is_open. cbn [dist pq]. destruct (dist f !! x) as [dx|] eqn:Hdx; [|done].
    apply bool_decide_ext. rewrite Hperm, elem_of_cons. split; [by right|].
    intros [[= -> ->]|Hin]; [|done]. rewrite Hdu in Hdx. injection Hdx as ->. lia. }
  split; [|split; [done|]].
  - intros x dx [Hdx Hq]. cbn [dist pq] in Hdx, Hq.
    apply (Hexp x dx). split; [done|]. rewrite Hperm. intros Hin.
    apply elem_of_cons in Hin as [[= -> ->]|Hin]; [|done].
    rewrite Hdu in Hdx. injection Hdx as ->. lia.
  - by eapply pop_potential.
Qed.

(** A pop followed by the relaxation of every arc of the edge. *)
Lemma expand_step f d u q :
  finv arcs root key f → explored arcs f → pq_pop (pq f) = Some ((d, u), q) →
  dist f !! u = Some d →
  let f' := foldl (relax_plain d u) {| dist := dist f; parent := parent f; pq := q |}
                  (arcs u) in
  finv arcs root key f' ∧ explored arcs f'
  ∧ (∀ x, x ≠ u → is_open f' x = is_open f x)
  ∧ (potential f' < potential f)%nat
  ∧ lowers f f'.
Proof.
  intros Hinv Hexp Hpop Hdu f'.
  destruct (pop_finv arcs root key f d u q Hinv Hpop) as (Hinv1 & Hbound & _ & Hnin & _ & Hperm).
  set (f1 := {| dist := dist f; parent := parent f; pq := q |}) in *.
  assert (expanding arcs root key d u f1) as Hexp1.
  { split; [done|]. split; [|done]. by split. }
  assert (explored_but arcs u f1) as Hbut1.
  { intros x dx Hxu [Hdx Hq]. cbn [f1 dist pq] in Hdx, Hq.
    apply (Hexp x dx). split; [done|]. rewrite Hperm. intros Hin.
    apply elem_of_cons in Hin as [[= -> ->]|Hin]; done. }
  destruct (foldl_relax_plain_explored arcs arcs_nonneg root key d u (arcs u) f1 Hexp1)
    as (Ho & Hb & Hl & Hr & Hn); [done|]. fold f' in Ho, Hb, Hl, Hr, Hn.
  destruct (foldl_relax_plain_expanding arcs arcs_nonneg root key d u f1 (arcs u) Hexp1)
    as (Hinv' & [Hdu' Hcu'] & _); [done|]. fold f' in Hinv', Hdu', Hcu'.
  split; [done|]. split; [|split; [|split; [|done]]].
  - intros x dx Hcl. destruct (decide (x = u)) as [->|Hxu]; [|by apply Hb].
    destruct Hcl as [Hdx _]. rewrite Hdu' in Hdx. injection Hdx as <-. exact Hr.
  - intros x Hxu. rewrite Ho. unfold is_open. cbn [f1 dist pq].
    destruct (dist f !! x) as [dx|]; [|done].
    apply bool_decide_ext. rewrite Hperm, elem_of_cons. split; [by right|].
    intros [[= -> ->]|Hin]; done.
  - by apply expand_potential.
Qed.

(** The queue of [query_dijkstra] empties or the target is popped, within
    [potential] iterations; the distance popped is the least cost of a
    path to the target, and the queue empties only if there is none. *)
Lemma dijkstra_loop_total (t : Z) (fuel : nat) (f : Frontier Z) :
  finv arcs root key f → explored arcs f → is_open f t = true →
  (potential f < fuel)%nat →
  ∃ f' res, dijkstra_loop fuel arcs t f = Some (f', res)
    ∧ match res with
      | Some d => ∀ c, apath arcs root t c → d ≤ key + c
      | None => ∀ c, ¬ apath arcs root t c
      end.
Proof.
  revert f. induction fuel as [|fuel IH]; intros f Hinv Hexp Ht Hpot; [lia|].
  cbn [dijkstra_loop].
  destruct (pq_pop (pq f)) as [[[d u] q]|] eqn:Hpop.
  - destruct (pop_finv arcs root key f d u q Hinv Hpop)
      as (Hinv1 & _ & (du & Hdu & Hle) & _ & Hmin & Hperm).
    cbn [dist].
    destruct (Z.gtb_spec d (dist_at (dist f) u)) as [Hgt|Hngt].
    + unfold dist_at in Hgt. rewrite Hdu in Hgt. simpl in Hgt.
      destruct (stale_step f d u q du Hinv Hexp Hpop Hdu) as (Hexp1 & Hopen1 & Hpot1); [lia|].
      apply IH; [done|done|by rewrite Hopen1|lia].
    + assert (dist f !! u = Some d) as Hd.
      { unfold dist_at in Hngt. rewrite Hdu in Hngt. simpl in Hngt. rewrite Hdu. f_equal. lia. }
      destruct (Z.eqb_spec u t) as [->|Hne].
      * eexists _, _. split; [done|]. intros c Hc.
        destruct (explored_reach arcs arcs_nonneg f root t c key key Hexp Hc
                    (fi_root_dist _ _ _ _ Hinv)) as [(dw & Hdw & Hlew)|(e & He & Hlee)]; [lia| |].
        -- rewrite Hd in Hdw. injection Hdw as <-. done.
        -- rewrite Hperm in He. apply elem_of_cons in He as [->|He]; [done|].
           specialize (Hmin e He). lia.
      * destruct (expand_step f d u q Hinv Hexp Hpop Hd) as (Hinv2 & Hexp2 & Hopen2 & Hpot2 & _).
        apply IH; [done|done| |lia]. by rewrite Hopen2.
  - apply pq_pop_None in Hpop. eexists _, _. split; [done|]. intros c Hc.
    destruct (explored_reach arcs arcs_nonneg f root t c key key Hexp Hc
                (fi_root_dist _ _ _ _ Hinv)) as [(dw & Hdw & Hlew)|(e & He & Hlee)]; [lia| |].
    + unfold is_open in Ht. rewrite Hdw, Hpop in Ht. apply bool_decide_eq_true in Ht.
      by apply elem_of_nil in Ht.
    + rewrite Hpop in He. by apply elem_of_nil in He.
Qed.

(** A chain of parents is no longer than the number of arcs plus one. *)
Lemma chain_length (tgts : list Z) f v l :
  (∀ u a, a ∈ arcs u → a.1 ∈ tgts) →
  finv arcs root key f → chain (parent f) root v l → (length l ≤ S (length tgts))%nat.
Proof.
  intros Htgts Hinv Hl.
  change (S (length tgts)) with (length (root :: tgts)).
  apply submseteq_length, NoDup_submseteq; [by eapply chain_NoDup|].
  intros x Hx. destruct (chain_elements _ _ _ _ x Hl Hx) as [->|(p & Hp & Hne)]; [constructor|].
  destruct (fi_tree _ _ _ _ Hinv x p Hp Hne) as (dp & c & _ & Harc & _).
  apply elem_of_cons. right. apply (Htgts p (x, c) Harc).
Qed.

End potential.

(** ** Shortest paths: the arcs of a loaded store *)

Lemma filter_fmap_length {A} (h : A → Z) (u : Z) (l : list A) :
  length (filter (λ x, h x = u) l) = length (filter (λ x, x = u) (h <$> l)).
Proof.
  induction l as [|a l IH]; [done|]. rewrite fmap_cons, !filter_cons.
  destruct (decide (h a = u)); simpl; by rewrite IH.
Qed.

Lemma fwd_arcs_complete g sc :
  csr_wf g → sc ∈ shortcuts_ g →
  (sc_to sc, sc_cost sc) ∈ fwd_arcs any_shortcut g (sc_from sc).
Proof.
  intros Hwf Hin. pose proof (wf_ids g Hwf) as Hids. rewrite Forall_forall in Hids.
  specialize (Hids sc Hin). unfold fwd_arcs.
  apply (list_elem_of_fmap_2 (λ sc, (sc_to sc, sc_cost sc))).
  apply list_elem_of_filter. split; [done|].
  rewrite fwd_shortcuts_wf by (done || lia). by apply list_elem_of_filter.
Qed.

Lemma bwd_arcs_complete g sc :
  csr_wf g → sc ∈ shortcuts_ g →
  (sc_from sc, sc_cost sc) ∈ bwd_arcs any_shortcut g (sc_to sc).
Proof.
  intros Hwf Hin. pose proof (wf_ids g Hwf) as Hids. rewrite Forall_forall in Hids.
  specialize (Hids sc Hin). unfold bwd_arcs.
  apply (list_elem_of_fmap_2 (λ sc, (sc_from sc, sc_cost sc))).
  apply list_elem_of_filter. split; [done|].
  rewrite bwd_shortcuts_wf by (done || lia). by apply list_elem_of_filter.
Qed.

Lemma fwd_arcs_count g P u :
  csr_wf g → 0 ≤ u →
  (length (fwd_arcs P g u) ≤ length (filter (λ x, x = u) (sc_from <$> shortcuts_ g)))%nat.
Proof.
  intros Hwf Hu. unfold fwd_arcs. rewrite length_fmap, <- filter_fmap_length.
  rewrite fwd_shortcuts_wf by done. apply length_filter.
Qed.

Lemma bwd_arcs_count g P u :
  csr_wf g → 0 ≤ u →
  (length (bwd_arcs P g u) ≤ length (filter (λ x, x = u) (sc_to <$> shortcuts_ g)))%nat.
Proof.
  intros Hwf Hu. unfold bwd_arcs. rewrite length_fmap, <- filter_fmap_length.
  rewrite bwd_shortcuts_wf by done. apply length_filter.
Qed.

Lemma fwd_arcs_heads g P u a :
  a ∈ fwd_arcs P g u → a.1 ∈ sc_to <$> shortcuts_ g.
Proof.
  unfold fwd_arcs. intros Ha.
  apply list_elem_of_fmap in Ha as (sc & -> & Hsc).
  apply list_elem_of_filter in Hsc as [_ Hsc]. simpl.
  apply list_elem_of_fmap_2.
  unfold fwd_shortcuts, slice in Hsc. destruct (get_fwd_range g u) as [x y].
  by eapply subseteq_drop, subseteq_take.
Qed.

Lemma bwd_arcs_heads g P u a :
  a ∈ bwd_arcs P g u → a.1 ∈ sc_from <$> shortcuts_ g.
Proof.
  unfold bwd_arcs. intros Ha.
  apply list_elem_of_fmap in Ha as (sc & -> & Hsc).
  apply list_elem_of_filter in Hsc as [_ Hsc]. simpl.
  apply list_elem_of_fmap_2.
  unfold bwd_shortcuts in Hsc. destruct (get_bwd_range g u) as [x y].
  apply list_elem_of_omap in Hsc as (idx & _ & Hidx).
  destruct (idx <? 0); [done|]. by eapply list_elem_of_lookup_2.
Qed.

Lemma spath_nonneg g p c :
  Forall (λ sc, 0 ≤ sc_cost sc) (shortcuts_ g) → spath g p c → 0 ≤ c.
Proof.
  intros Hcost. rewrite Forall_forall in Hcost.
  induction 1 as [|u v l sc c Hsc _ _ _ IH]; [done|]. specialize (Hcost sc Hsc). lia.
Qed.

(** A path of the store is a path along the forward arcs from its first
    edge, and along the backward arcs from its last edge. *)
Lemma spath_apath_fwd g p c u t :
  csr_wf g → spath g p c → head p = Some u → last p = Some t →
  apath (fwd_arcs any_shortcut g) u t c.
Proof.
  intros Hwf Hp. revert u. induction Hp as [x|x v l sc c Hsc Hfrom Hto Hp IH]; intros u Hh Hl.
  - simpl in Hh, Hl. injection Hh as <-. injection Hl as <-. constructor.
  - simpl in Hh. injection Hh as <-. apply apath_cons with v.
    + rewrite <- Hfrom, <- Hto. by apply fwd_arcs_complete.
    + by apply IH.
Qed.

Lemma spath_apath_bwd g p c u t :
  csr_wf g → spath g p c → head p = Some u → last p = Some t →
  apath (bwd_arcs any_shortcut g) t u c.
Proof.
  intros Hwf Hp. revert u. induction Hp as [x|x v l sc c Hsc Hfrom Hto Hp IH]; intros u Hh Hl.
  - simpl in Hh, Hl. injection Hh as <-. injection Hl as <-. constructor.
  - simpl in Hh. injection Hh as <-. rewrite Z.add_comm.
    apply apath_snoc with v; [by apply IH|].
    rewrite <- Hfrom, <- Hto. by apply bwd_arcs_complete.
Qed.

(** ** Shortest paths: [query_dijkstra] *)

(** [r] reports the least cost of a path from [s] to [t], with the cost
    of [t] added, or that there is no path. *)
Definition shortest (g : CSRGraph) (s t : Z) (r : CSRQueryResult) : Prop :=
  if reachable r
  then ∃ c, spath g (path r) c ∧ head (path r) = Some s ∧ last (path r) = Some t
            ∧ distance r = Fin (c + get_edge_cost g t)
            ∧ ∀ p c', spath g p c' → head p = Some s → last p = Some t → c ≤ c'
  else distance r = Fin (-1)
       ∧ ∀ p c', spath g p c' → head p = Some s → last p = Some t → False.


Lemma seed_explored arcs root key : explored arcs (seed root key root).
Proof.
  intros x dx [Hd Hq]. unfold seed in Hd, Hq. cbn [dist pq] in Hd, Hq.
  apply lookup_singleton_Some in Hd as [<- <-]. exfalso. apply Hq. constructor.
Qed.

Lemma query_dijkstra_total `{Stl} fuel g s t :
  csr_wf g → Forall (λ sc, 0 ≤ sc_cost sc) (shortcuts_ g) → 0 ≤ s → 0 ≤ t → s ≠ t →
  is_Some (edge_meta_ g !! s) → is_Some (edge_meta_ g !! t) →
  (length (shortcuts_ g) + 2 ≤ fuel)%nat →
  ∃ r, query_dijkstra fuel g s t = Some r ∧ shortest g s t r.
Proof.
  intros Hwf Hcost Hs Ht Hne Hms Hmt Hfuel.
  pose proof (fwd_arcs_nonneg g any_shortcut Hcost) as Hnn.
  assert (∃ r, query_dijkstra fuel g s t = Some r
    ∧ if reachable r
      then ∃ d, distance r = Fin (d + get_edge_cost g t)
                ∧ ∀ c, apath (fwd_arcs any_shortcut g) s t c → d ≤ c
      else distance r = Fin (-1) ∧ ∀ c, ¬ apath (fwd_arcs any_shortcut g) s t c)
    as (r & Hq & Hr).
  { unfold query_dijkstra.
    destruct (Z.eqb_spec s t) as [|_]; [done|].
    rewrite !bool_decide_eq_true_2 by done. cbn [negb].
    destruct (dijkstra_loop_total (fwd_arcs any_shortcut g) Hnn s 0
                (sc_from <$> shortcuts_ g)
                (λ u Hu, fwd_arcs_count g any_shortcut u Hwf Hu)
                (λ u a Ha, proj1 (fwd_arcs_wf g any_shortcut Hwf u a Ha)) Hs
                t fuel (seed s 0 s)) as (f' & res & Hloop & Hres).
    - apply seed_finv.
    - apply seed_explored.
    - unfold is_open, seed. cbn [dist]. by rewrite lookup_singleton_ne.
    - pose proof (seed_potential s 0 (sc_from <$> shortcuts_ g)) as Hp.
      rewrite length_fmap in Hp. lia.
    - rewrite Hloop. destruct res as [d|].
      + destruct (dijkstra_loop_inv _ s t fuel _ f' (Some d) Hnn (seed_finv _ s 0) Hloop)
          as [Hinv Hd]. specialize (Hd d eq_refl).
        destruct (fi_chain _ _ _ _ Hinv _ _ Hd) as [l Hl].
        rewrite (follow_to_chain_enough _ _ _ _ fuel Hl).
        * eexists. split; [done|]. cbn [reachable distance]. exists d. split; [done|].
          intros c Hc. specialize (Hres c Hc). lia.
        * pose proof (chain_length (fwd_arcs any_shortcut g) s 0 (sc_to <$> shortcuts_ g)
                        f' t l (λ u a Ha, fwd_arcs_heads g any_shortcut u a Ha) Hinv Hl) as Hlen.
          rewrite length_fmap in Hlen. lia.
      + eexists. split; [done|]. cbn [failed reachable distance]. done. }
  exists r. split; [done|]. unfold shortest.
  destruct (reachable r) eqn:Hreach.
  - destruct (query_dijkstra_sound fuel g s t r Hwf Hcost Hs Ht Hq Hreach)
      as (c & Hp & Hdist & Hh & Hl).
    destruct Hr as (d & Hd & Hmin). rewrite Hd in Hdist. injection Hdist as Hdc.
    exists c. split; [done|]. split; [done|]. split; [done|]. split; [by rewrite Hd; f_equal; lia|].
    intros p c' Hp' Hh' Hl'. pose proof (spath_apath_fwd g p c' s t Hwf Hp' Hh' Hl') as Ha.
    specialize (Hmin c' Ha). lia.
  - destruct Hr as [Hd Hno]. split; [done|].
    intros p c' Hp' Hh' Hl'. apply (Hno c'). by apply spath_apath_fwd with p.
Qed.

(** ** Shortest paths: [query_bidijkstra] *)

(** [best] is at most the sum of the two distances of every edge that
    both directions have reached. *)
Definition meets_all (this other : gmap Z Z) (m : Meet) : Prop :=
  ∀ v x y, this !! v = Some x → other !! v = Some y →
           ∃ bst, best m = Fin bst ∧ bst ≤ x + y.

(** [best] is at most the sum of any two keys left in the queues: what
    holds when the loop of [query_bidijkstra] ends. *)
Definition exit_ok (f b : Frontier Z) (m : Meet) : Prop :=
  ∀ ef eb, ef ∈ pq f → eb ∈ pq b → ∃ bst, best m = Fin bst ∧ bst ≤ ef.1 + eb.1.

Lemma meets_all_sym this other m : meets_all this other m → meets_all other this m.
Proof.
  intros Hm v x y Hx Hy. destruct (Hm v y x Hy Hx) as (bst & Hb & Hle).
  exists bst. split; [done|lia].
Qed.

Lemma meets_all_update this other m v nd :
  meets_all this other m → meets_all (<[v:=nd]> this) other (meet_check other v nd m).
Proof.
  intros Hm w x y Hx Hy. unfold meet_check.
  destruct (decide (w = v)) as [->|Hne].
  - rewrite lookup_insert_eq in Hx. injection Hx as <-. rewrite Hy.
    destruct (Dlt (Fin (nd + y)) (best m)) eqn:Hlt; cbn [best].
    + by exists (nd + y).
    + destruct (best m) as [bst|]; [|done]. simpl in Hlt. exists bst. split; [done|lia].
  - rewrite lookup_insert_ne in Hx by done.
    destruct (Hm w x y Hx Hy) as (bst & Hb & Hle).
    destruct (other !! v) as [o|]; [|by exists bst].
    destruct (Dlt (Fin (nd + o)) (best m)) eqn:Hlt; cbn [best]; [|by exists bst].
    rewrite Hb in Hlt. simpl in Hlt. exists (nd + o). split; [done|lia].
Qed.

Lemma foldl_relax_meets_all other d u l f m :
  meets_all (dist f) other m →
  meets_all (dist (foldl (relax other d u) (f, m) l).1) other
            (foldl (relax other d u) (f, m) l).2.
Proof.
  revert f m. induction l as [|a l IH]; intros f m Hm; [done|].
  cbn [foldl]. unfold relax at 2 4. cbn [fst snd].
  destruct (improves (dist f) a.1 (d + a.2)); [|by apply IH].
  apply IH. unfold update. cbn [dist]. by apply meets_all_update.
Qed.

(** The frontier that [relax] builds is the one of [relax_plain]. *)
Lemma foldl_relax_fst other d u l f m :
  (foldl (relax other d u) (f, m) l).1 = foldl (relax_plain d u) f l.
Proof.
  revert f m. induction l as [|a l IH]; intros f m; [done|].
  cbn [foldl]. unfold relax at 2, relax_plain at 2. cbn [fst snd].
  destruct (improves (dist f) a.1 (d + a.2)); apply IH.
Qed.

Section one_half.
Context `{Stl} (arcs : Z → list (Z * Z)).
Context (arcs_nonneg : ∀ u a, a ∈ arcs u → 0 ≤ a.2).
Context (root key : Z).
Context (srcs : list Z).
Context (arcs_count : ∀ u, 0 ≤ u → (length (arcs u) ≤ length (filter (λ x, x = u) srcs))%nat).
Context (arcs_heads : ∀ u a, a ∈ arcs u → 0 ≤ a.1).
Context (root_nonneg : 0 ≤ root).

Lemma bidijkstra_half_total this other m this' m' :
  finv arcs root key this → explored arcs this → meets_all (dist this) (dist other) m →
  pq this ≠ [] →
  bidijkstra_half arcs this other m = (this', m') →
  explored arcs this' ∧ meets_all (dist this') (dist other) m'
  ∧ (potential srcs this' < potential srcs this)%nat.
Proof.
  intros Hinv Hexp Hm Hne. unfold bidijkstra_half.
  destruct (pq_pop (pq this)) as [[[d u] q]|] eqn:Hpop;
    [|by apply pq_pop_None in Hpop].
  destruct (pop_finv arcs root key this d u q Hinv Hpop) as (_ & _ & (du & Hdu & Hle) & _).
  cbn [dist].
  destruct (Z.gtb_spec d (dist_at (dist this) u)) as [Hgt|Hngt].
  - intros [= <- <-]. unfold dist_at in Hgt. rewrite Hdu in Hgt. simpl in Hgt.
    destruct (stale_step arcs root key srcs this d u q du Hinv Hexp Hpop Hdu)
      as (Hexp1 & _ & Hpot1); [lia|]. done.
  - intros Hfold.
    assert (dist this !! u = Some d) as Hd.
    { unfold dist_at in Hngt. rewrite Hdu in Hngt. simpl in Hngt. rewrite Hdu. f_equal. lia. }
    destruct (expand_step arcs arcs_nonneg root key srcs arcs_count arcs_heads root_nonneg
                this d u q Hinv Hexp Hpop Hd) as (_ & Hexp2 & _ & Hpot2 & _).
    pose proof (foldl_relax_fst (dist other) d u (arcs u)
                  {| dist := dist this; parent := parent this; pq := q |} m) as Hfst.
    pose proof (foldl_relax_meets_all (dist other) d u (arcs u)
                  {| dist := dist this; parent := parent this; pq := q |} m Hm) as Hmeet.
    rewrite Hfold in Hfst, Hmeet. cbn [fst snd] in Hfst, Hmeet. subst this'. done.
Qed.

(** A block of the loop of [query_classic] pops an entry, unless the
    queue is empty. *)
Lemma classic_half_total this other m cont this' m' :
  finv arcs root key this →
  classic_half arcs this other m = (cont, (this', m')) →
  (pq this = [] → cont = false ∧ this' = this ∧ m' = m)
  ∧ (pq this ≠ [] → (potential srcs this' < potential srcs this)%nat).
Proof.
  intros Hinv. unfold classic_half.
  destruct (pq_pop (pq this)) as [[[d u] q]|] eqn:Hpop.
  2: { intros [= <- <- <-]. split; [done|]. intros Hne. by apply pq_pop_None in Hpop. }
  destruct (pop_finv arcs root key this d u q Hinv Hpop)
    as (_ & _ & (du & Hdu & Hle) & _ & _ & Hperm).
  pose proof (pop_potential arcs root key srcs this d u q Hinv Hpop) as Hpot.
  intros Hhalf. split.
  { intros Hnil. rewrite Hnil in Hperm. by apply Permutation_nil_cons in Hperm. }
  intros _. revert Hhalf. cbn [dist].
  destruct (stale (dist this) u d) eqn:Hstale; [by intros [= <- <- <-]|].
  destruct (Dle (best m) (Fin d)); [by intros [= <- <- <-]|].
  intros [= <- Hfold].
  assert (dist this !! u = Some d) as Hd.
  { unfold stale in Hstale. rewrite Hdu in Hstale. rewrite Hdu. f_equal. lia. }
  pose proof (foldl_relax_fst (dist other) d u (arcs u)
                {| dist := dist this; parent := parent this; pq := q |} m) as Hfst.
  rewrite Hfold in Hfst. cbn [fst] in Hfst. subst this'.
  apply (expand_potential arcs arcs_nonneg root key srcs arcs_count arcs_heads root_nonneg
           this d u q Hinv Hpop Hd).
Qed.

End one_half.

Section both_halves.
Context `{Stl} (farcs barcs : Z → list (Z * Z)).
Context (farcs_nonneg : ∀ u a, a ∈ farcs u → 0 ≤ a.2).
Context (barcs_nonneg : ∀ u a, a ∈ barcs u → 0 ≤ a.2).
Context (s t tc : Z).
Context (fsrcs bsrcs : list Z).
Context (farcs_count :
  ∀ u, 0 ≤ u → (length (farcs u) ≤ length (filter (λ x, x = u) fsrcs))%nat).
Context (barcs_count :
  ∀ u, 0 ≤ u → (length (barcs u) ≤ length (filter (λ x, x = u) bsrcs))%nat).
Context (farcs_heads : ∀ u a, a ∈ farcs u → 0 ≤ a.1).
Context (barcs_heads : ∀ u a, a ∈ barcs u → 0 ≤ a.1).
Context (s_nonneg : 0 ≤ s) (t_nonneg : 0 ≤ t).

Lemma pq_top_dist_Some {E} (q : list (Z * E)) top :
  pq_top_dist q = Some top → q ≠ [] ∧ ∀ e, e ∈ q → top ≤ e.1.
Proof.
  unfold pq_top_dist. destruct (pq_pop q) as [[e q']|] eqn:Hpop; [|done].
  intros [= <-]. apply pq_pop_Some in Hpop as [Hperm Hmin]. split.
  - intros ->. by apply Permutation_nil_cons in Hperm.
  - intros e' He'. rewrite Hperm in He'. apply elem_of_cons in He' as [->|He']; [done|].
    rewrite Forall_forall in Hmin. by apply Hmin.
Qed.

Lemma pq_top_dist_None {E} (q : list (Z * E)) : pq_top_dist q = None → q = [].
Proof.
  unfold pq_top_dist. destruct (pq_pop q) as [[e q']|] eqn:Hpop; [done|].
  intros _. by apply pq_pop_None in Hpop.
Qed.

(** The loop of [query_bidijkstra] ends within the sum of the two
    potentials, in a state where [best] cannot be improved. *)
Lemma bidijkstra_loop_total fuel f b m :
  finv farcs s 0 f → finv barcs t tc b → explored farcs f → explored barcs b →
  meets (dist f) (dist b) m → meets_all (dist f) (dist b) m →
  (potential fsrcs f + potential bsrcs b < fuel)%nat →
  ∃ f' b' m', bidijkstra_loop fuel farcs barcs f b m = Some (f', b', m')
    ∧ explored farcs f' ∧ explored barcs b' ∧ meets_all (dist f') (dist b') m'
    ∧ exit_ok f' b' m'.
Proof.
  revert f b m. induction fuel as [|fuel IH]; intros f b m Hf Hb Hef Heb Hm Hma Hpot; [lia|].
  cbn [bidijkstra_loop].
  destruct (pq_top_dist (pq f)) as [tf|] eqn:Htf.
  2: { apply pq_top_dist_None in Htf. eexists _, _, _. split; [done|].
       split; [done|]. split; [done|]. split; [done|].
       intros ef eb Hin. rewrite Htf in Hin. by apply elem_of_nil in Hin. }
  destruct (pq_top_dist (pq b)) as [tb|] eqn:Htb.
  2: { apply pq_top_dist_None in Htb. eexists _, _, _. split; [done|].
       split; [done|]. split; [done|]. split; [done|].
       intros ef eb _ Hin. rewrite Htb in Hin. by apply elem_of_nil in Hin. }
  apply pq_top_dist_Some in Htf as [Hfne Hfmin]. apply pq_top_dist_Some in Htb as [Hbne Hbmin].
  destruct (Dle (best m) (Fin (tf + tb))) eqn:Hdone.
  { eexists _, _, _. split; [done|]. split; [done|]. split; [done|]. split; [done|].
    intros ef eb Hef' Heb'. specialize (Hfmin _ Hef'). specialize (Hbmin _ Heb').
    unfold Dle in Hdone. destruct (best m) as [bst|]; [|done]. simpl in Hdone.
    exists bst. split; [done|lia]. }
  destruct (tf <=? tb).
  - destruct (bidijkstra_half farcs f b m) as [f1 m1] eqn:Hhalf.
    destruct (bidijkstra_half_inv farcs farcs_nonneg s 0 f b m f1 m1 Hf Hm Hhalf) as [Hf1 Hm1].
    destruct (bidijkstra_half_total farcs farcs_nonneg s 0 fsrcs farcs_count farcs_heads
                s_nonneg f b m f1 m1 Hf Hef Hma Hfne Hhalf) as (Hef1 & Hma1 & Hpot1).
    apply IH; try done. lia.
  - destruct (bidijkstra_half barcs b f m) as [b1 m1] eqn:Hhalf.
    destruct (bidijkstra_half_inv barcs barcs_nonneg t tc b f m b1 m1 Hb
                (meets_sym _ _ _ Hm) Hhalf) as [Hb1 Hm1].
    destruct (bidijkstra_half_total barcs barcs_nonneg t tc bsrcs barcs_count barcs_heads
                t_nonneg b f m b1 m1 Hb Heb (meets_all_sym _ _ _ Hma) Hbne Hhalf)
      as (Heb1 & Hma1 & Hpot1).
    apply IH; try done; [by apply meets_sym|by apply meets_all_sym|lia].
Qed.

(** The loop of [query_classic] ends within the sum of the two
    potentials. *)
Lemma classic_loop_total fuel f b m :
  finv farcs s 0 f → finv barcs t tc b → meets (dist f) (dist b) m →
  (potential fsrcs f + potential bsrcs b < fuel)%nat →
  is_Some (classic_loop fuel farcs barcs f b m).
Proof.
  revert f b m. induction fuel as [|fuel IH]; intros f b m Hf Hb Hm Hpot; [lia|].
  cbn [classic_loop].
  destruct (pq_empty (pq f) && pq_empty (pq b)) eqn:Hempty; [done|].
  destruct (classic_half farcs f b m) as [cont [f1 m1]] eqn:Hhalf.
  destruct (classic_half_inv farcs farcs_nonneg s 0 f b m cont f1 m1 Hf Hm Hhalf) as [Hf1 Hm1].
  destruct (classic_half_total farcs farcs_nonneg s 0 fsrcs farcs_count farcs_heads s_nonneg
              f b m cont f1 m1 Hf Hhalf) as [Hnil1 Hpot1].
  assert (potential fsrcs f1 ≤ potential fsrcs f)%nat as Hle1.
  { destruct (pq f) eqn:Hq; [by destruct Hnil1 as (_ & -> & _)|]. apply Nat.lt_le_incl.
    by apply Hpot1. }
  destruct cont.
  { apply IH; try done. destruct (pq f) eqn:Hq; [by destruct Hnil1|].
    specialize (Hpot1 ltac:(done)). lia. }
  destruct (classic_half barcs b f1 m1) as [cont [b1 m2]] eqn:Hhalf'.
  destruct (classic_half_inv barcs barcs_nonneg t tc b f1 m1 cont b1 m2 Hb
              (meets_sym _ _ _ Hm1) Hhalf') as [Hb1 Hm2].
  apply meets_sym in Hm2.
  destruct (classic_half_total barcs barcs_nonneg t tc bsrcs barcs_count barcs_heads t_nonneg
              b f1 m1 cont b1 m2 Hb Hhalf') as [Hnil2 Hpot2].
  assert (potential bsrcs b1 ≤ potential bsrcs b)%nat as Hle2.
  { destruct (pq b) eqn:Hq; [by destruct Hnil2 as (_ & -> & _)|]. apply Nat.lt_le_incl.
    by apply Hpot2. }
  assert (potential fsrcs f1 + potential bsrcs b1 < potential fsrcs f + potential bsrcs b)%nat
    as Hless.
  { destruct (pq f) eqn:Hqf.
    - destruct (pq b) eqn:Hqb; [done|]. specialize (Hpot2 ltac:(done)). lia.
    - specialize (Hpot1 ltac:(done)). lia. }
  destruct cont; [apply IH; try done; lia|].
  destruct (classic_done f1 b1 m2); [done|]. apply IH; try done. lia.
Qed.

End both_halves.

(** When the loop of [query_bidijkstra] has ended, [best] is within the
    cost of every path from the source to the target. *)
Lemma bidir_optimal g s t tc f b m :
  csr_wf g → Forall (λ sc, 0 ≤ sc_cost sc) (shortcuts_ g) →
  finv (fwd_arcs any_shortcut g) s 0 f → finv (bwd_arcs any_shortcut g) t tc b →
  explored (fwd_arcs any_shortcut g) f → explored (bwd_arcs any_shortcut g) b →
  meets_all (dist f) (dist b) m → exit_ok f b m →
  ∀ p c, spath g p c → head p = Some s → last p = Some t →
         ∃ bst, best m = Fin bst ∧ bst ≤ c + tc.
Proof.
  intros Hwf Hcost Hf Hb Hef Heb Hma Hexit.
  enough (∀ p c, spath g p c → ∀ u a du, head p = Some u → last p = Some t →
            dist f !! u = Some du → du ≤ a →
            ∃ bst, best m = Fin bst ∧ bst ≤ a + c + tc) as Hgen.
  { intros p c Hp Hh Hl.
    destruct (Hgen p c Hp s 0 0 Hh Hl (fi_root_dist _ _ _ _ Hf)) as (bst & Hbst & Hle); [lia|].
    exists bst. split; [done|lia]. }
  intros p c Hp. induction Hp as [x|x v l sc c Hsc Hfrom Hto Hp IH]; intros u a du Hh Hl Hdu Hle.
  - simpl in Hh, Hl. injection Hh as <-. injection Hl as <-.
    destruct (Hma x du tc Hdu (fi_root_dist _ _ _ _ Hb)) as (bst & Hbst & Hle').
    exists bst. split; [done|lia].
  - simpl in Hh. injection Hh as <-.
    pose proof (spath_nonneg g _ _ Hcost Hp) as Hc.
    assert (0 ≤ sc_cost sc) as Hsc0 by (rewrite Forall_forall in Hcost; by apply Hcost).
    destruct (decide ((du, x) ∈ pq f)) as [Hin|Hnin].
    + assert (apath (bwd_arcs any_shortcut g) t x (sc_cost sc + c)) as Hback.
      { apply spath_apath_bwd with (x :: v :: l); [done| |done|done]. by apply spath_cons. }
      destruct (explored_reach _ (bwd_arcs_nonneg g any_shortcut Hcost) b t x _ tc tc Heb Hback
                  (fi_root_dist _ _ _ _ Hb)) as [(dw & Hdw & Hlew)|(e & He & Hlee)]; [lia| |].
      * destruct (Hma x du dw Hdu Hdw) as (bst & Hbst & Hle').
        exists bst. split; [done|lia].
      * destruct (Hexit (du, x) e Hin He) as (bst & Hbst & Hle'). simpl in Hle'.
        exists bst. split; [done|lia].
    + pose proof (fwd_arcs_complete g sc Hwf Hsc) as Harc. rewrite Hfrom, Hto in Harc.
      destruct (Hef x du (conj Hdu Hnin) _ Harc) as (dv & Hdv & Hlev). simpl in Hdv, Hlev.
      destruct (IH v (a + sc_cost sc) dv eq_refl Hl Hdv) as (bst & Hbst & Hle'); [lia|].
      exists bst. split; [done|lia].
Qed.

(** With fuel for the longest chain of parents, the end of the
    bidirectional queries returns. *)
Lemma bidir_result_returns g P Q s t tc fuel msg f b m :
  binv (fwd_arcs P g) (bwd_arcs Q g) s t tc f b m →
  (length (shortcuts_ g) + 1 ≤ fuel)%nat →
  ∃ r, bidir_result fuel msg (f, b, m) = Some r
       ∧ reachable r = found m
       ∧ distance r = if found m then best m else Fin (-1).
Proof.
  intros (Hf & Hb & Hm) Hfuel.
  unfold bidir_result, bidir_path. destruct (found m) eqn:Hfound; cbn [negb].
  - unfold meets in Hm. rewrite Hfound in Hm. destruct Hm as (x & y & Hx & Hy & _).
    destruct (fi_chain _ _ _ _ Hf _ _ Hx) as [lf Hlf].
    destruct (fi_chain _ _ _ _ Hb _ _ Hy) as [lb Hlb].
    pose proof (chain_length (fwd_arcs P g) s 0 (sc_to <$> shortcuts_ g)
                  f _ lf (λ u a Ha, fwd_arcs_heads g P u a Ha) Hf Hlf) as Hlenf.
    pose proof (chain_length (bwd_arcs Q g) t tc (sc_from <$> shortcuts_ g)
                  b _ lb (λ u a Ha, bwd_arcs_heads g Q u a Ha) Hb Hlb) as Hlenb.
    rewrite length_fmap in Hlenf, Hlenb.
    rewrite (follow_chain_enough _ _ _ _ fuel Hlf) by lia.
    rewrite (follow_chain_enough _ _ _ _ fuel Hlb) by lia.
    eexists. split; [done|]. done.
  - eexists. split; [done|]. done.
Qed.

Lemma query_bidijkstra_total `{Stl} fuel g s t :
  csr_wf g → Forall (λ sc, 0 ≤ sc_cost sc) (shortcuts_ g) → 0 ≤ s → 0 ≤ t → s ≠ t →
  is_Some (edge_meta_ g !! s) → is_Some (edge_meta_ g !! t) →
  (2 * length (shortcuts_ g) + 3 ≤ fuel)%nat →
  ∃ r, query_bidijkstra fuel g s t = Some r ∧ shortest g s t r.
Proof.
  intros Hwf Hcost Hs Ht Hne Hms Hmt Hfuel.
  pose proof (fwd_arcs_nonneg g any_shortcut Hcost) as Hfnn.
  pose proof (bwd_arcs_nonneg g any_shortcut Hcost) as Hbnn.
  set (tc := get_edge_cost g t).
  destruct (bidijkstra_loop_total (fwd_arcs any_shortcut g) (bwd_arcs any_shortcut g)
              Hfnn Hbnn s t tc (sc_from <$> shortcuts_ g) (sc_to <$> shortcuts_ g)
              (λ u Hu, fwd_arcs_count g any_shortcut u Hwf Hu)
              (λ u Hu, bwd_arcs_count g any_shortcut u Hwf Hu)
              (λ u a Ha, proj1 (fwd_arcs_wf g any_shortcut Hwf u a Ha))
              (λ u a Ha, proj1 (bwd_arcs_wf g any_shortcut Hwf u a Ha)) Hs Ht
              fuel (seed s 0 s) (seed t tc t) no_meet)
    as (f & b & m & Hloop & Hef & Heb & Hma & Hexit).
  { apply seed_finv. }
  { apply seed_finv. }
  { apply seed_explored. }
  { apply seed_explored. }
  { done. }
  { intros v x y Hx Hy. unfold seed in Hx, Hy. cbn [dist] in Hx, Hy.
    apply lookup_singleton_Some in Hx as [<- _]. apply lookup_singleton_Some in Hy as [<- _].
    done. }
  { pose proof (seed_potential s 0 (sc_from <$> shortcuts_ g)) as Hp1.
    pose proof (seed_potential t tc (sc_to <$> shortcuts_ g)) as Hp2.
    rewrite length_fmap in Hp1, Hp2. lia. }
  destruct (bidijkstra_loop_inv (fwd_arcs any_shortcut g) (bwd_arcs any_shortcut g)
              Hfnn Hbnn s t tc fuel _ _ _ f b m (binv_init _ _ s t tc Hne) Hloop)
    as (Hf & Hb & Hm).
  pose proof (bidir_optimal g s t tc f b m Hwf Hcost Hf Hb Hef Heb Hma Hexit) as Hopt.
  destruct (bidir_result_returns g any_shortcut any_shortcut s t tc fuel
              "No path found between source and target" f b m (conj Hf (conj Hb Hm)))
    as (r & Hres & Hreach & Hdist); [lia|].
  exists r. split.
  { unfold query_bidijkstra. destruct (Z.eqb_spec s t) as [|_]; [done|].
    rewrite !bool_decide_eq_true_2 by done. cbn [negb classic_init].
    fold tc. rewrite Hloop. done. }
  unfold shortest. rewrite Hreach. destruct (found m) eqn:Hfound.
  - destruct (bidir_result_sound g _ _ s t tc fuel _ f b m r
                (fwd_arcs_wf g any_shortcut Hwf) (bwd_arcs_wf g any_shortcut Hwf) Hs Ht
                (conj Hf (conj Hb Hm)) Hres) as (c & Hp & Hd & Hh & Hl); [by rewrite Hreach|].
    exists c. split; [done|]. split; [done|]. split; [done|]. split; [done|].
    intros p c' Hp' Hh' Hl'. destruct (Hopt p c' Hp' Hh' Hl') as (bst & Hbst & Hle).
    rewrite Hdist, Hbst in Hd. injection Hd as ->. lia.
  - split; [done|]. intros p c' Hp' Hh' Hl'.
    destruct (Hopt p c' Hp' Hh' Hl') as (bst & Hbst & _).
    unfold meets in Hm. rewrite Hfound in Hm. congruence.
Qed.

(** ** The queries return *)

Lemma query_classic_returns `{Stl} fuel g s t :
  csr_wf g → Forall (λ sc, 0 ≤ sc_cost sc) (shortcuts_ g) → 0 ≤ s → 0 ≤ t →
  (2 * length (shortcuts_ g) + 3 ≤ fuel)%nat →
  is_Some (query_classic fuel g s t).
Proof.
  intros Hwf Hcost Hs Ht Hfuel. unfold query_classic.
  destruct (Z.eqb_spec s t) as [|Hne]; [done|].
  destruct (negb (bool_decide (is_Some (edge_meta_ g !! s)))); [done|].
  destruct (negb (bool_decide (is_Some (edge_meta_ g !! t)))); [done|].
  cbn [classic_init]. set (tc := get_edge_cost g t).
  pose proof (fwd_arcs_nonneg g climbs Hcost) as Hfnn.
  pose proof (bwd_arcs_nonneg g descends Hcost) as Hbnn.
  destruct (classic_loop_total (fwd_arcs climbs g) (bwd_arcs descends g)
              Hfnn Hbnn s t tc (sc_from <$> shortcuts_ g) (sc_to <$> shortcuts_ g)
              (λ u Hu, fwd_arcs_count g climbs u Hwf Hu)
              (λ u Hu, bwd_arcs_count g descends u Hwf Hu)
              (λ u a Ha, proj1 (fwd_arcs_wf g climbs Hwf u a Ha))
              (λ u a Ha, proj1 (bwd_arcs_wf g descends Hwf u a Ha)) Hs Ht
              fuel (seed s 0 s) (seed t tc t) no_meet) as [[[f b] m] Hloop].
  { apply seed_finv. }
  { apply seed_finv. }
  { done. }
  { pose proof (seed_potential s 0 (sc_from <$> shortcuts_ g)) as Hp1.
    pose proof (seed_potential t tc (sc_to <$> shortcuts_ g)) as Hp2.
    rewrite length_fmap in Hp1, Hp2. lia. }
  rewrite Hloop.
  pose proof (classic_loop_inv (fwd_arcs climbs g) (bwd_arcs descends g)
                Hfnn Hbnn s t tc fuel _ _ _ f b m (binv_init _ _ s t tc Hne) Hloop) as Hinv.
  destruct (bidir_result_returns g climbs descends s t tc fuel "No path found" f b m Hinv)
    as (r & -> & _); [lia|done].
Qed.

Lemma query_bidijkstra_returns `{Stl} fuel g s t :
  csr_wf g → Forall (λ sc, 0 ≤ sc_cost sc) (shortcuts_ g) → 0 ≤ s → 0 ≤ t →
  (2 * length (shortcuts_ g) + 3 ≤ fuel)%nat →
  is_Some (query_bidijkstra fuel g s t).
Proof.
  intros Hwf Hcost Hs Ht Hfuel.
  destruct (decide (s = t)) as [->|Hne].
  { unfold query_bidijkstra. by rewrite Z.eqb_refl. }
  destruct (decide (is_Some (edge_meta_ g !! s))) as [Hms|Hms].
  2: { unfold query_bidijkstra. destruct (Z.eqb_spec s t) as [|_]; [done|].
       by rewrite (bool_decide_eq_false_2 _ Hms). }
  destruct (decide (is_Some (edge_meta_ g !! t))) as [Hmt|Hmt].
  2: { unfold query_bidijkstra. destruct (Z.eqb_spec s t) as [|_]; [done|].
       by rewrite (bool_decide_eq_true_2 _ Hms), (bool_decide_eq_false_2 _ Hmt). }
  destruct (query_bidijkstra_total fuel g s t Hwf Hcost Hs Ht Hne Hms Hmt Hfuel)
    as (r & -> & _). done.
Qed.

Lemma query_dijkstra_returns `{Stl} fuel g s t :
  csr_wf g → Forall (λ sc, 0 ≤ sc_cost sc) (shortcuts_ g) → 0 ≤ s → 0 ≤ t →
  (length (shortcuts_ g) + 2 ≤ fuel)%nat →
  is_Some (query_dijkstra fuel g s t).
Proof.
  intros Hwf Hcost Hs Ht Hfuel.
  destruct (decide (s = t)) as [->|Hne].
  { unfold query_dijkstra. by rewrite Z.eqb_refl. }
  destruct (decide (is_Some (edge_meta_ g !! s))) as [Hms|Hms].
  2: { unfold query_dijkstra. destruct (Z.eqb_spec s t) as [|_]; [done|].
       by rewrite (bool_decide_eq_false_2 _ Hms). }
  destruct (decide (is_Some (edge_meta_ g !! t))) as [Hmt|Hmt].
  2: { unfold query_dijkstra. destruct (Z.eqb_spec s t) as [|_]; [done|].
       by rewrite (bool_decide_eq_true_2 _ Hms), (bool_decide_eq_false_2 _ Hmt). }
  destruct (query_dijkstra_total fuel g s t Hwf Hcost Hs Ht Hne Hms Hmt Hfuel)
    as (r & -> & _). done.
Qed.

(** C2, as amended.  On a loaded store with non-negative shortcut costs,
    and with fuel for twice the number of shortcuts plus three
    iterations, [query_classic], [query_bidijkstra] and [query_dijkstra]
    return; the distance of a reachable result is the sum of the costs of
    shortcuts along the consecutive pairs of its path, plus [edge_cost]
    of the last edge of the path, the target; the path goes from the
    source to the target. *)
Theorem path_cost `{Stl} (fuel : nat) (g : CSRGraph) (s t : Z) :
  csr_wf g → Forall (λ sc, 0 ≤ sc_cost sc) (shortcuts_ g) → 0 ≤ s → 0 ≤ t →
  (2 * length (shortcuts_ g) + 3 ≤ fuel)%nat →
  ∀ q, q ∈ [query_classic fuel g s t; query_bidijkstra fuel g s t;
            query_dijkstra fuel g s t] →
    ∃ r, q = Some r
      ∧ (reachable r = true →
         ∃ c, spath g (path r) c ∧ distance r = Fin (c + get_edge_cost g t)
              ∧ head (path r) = Some s ∧ last (path r) = Some t).
Proof.
  intros Hwf Hcost Hs Ht Hfuel q Hq.
  apply elem_of_cons in Hq as [->|Hq]; [|apply elem_of_cons in Hq as [->|Hq]].
  - destruct (query_classic_returns fuel g s t Hwf Hcost Hs Ht Hfuel) as [r Hr].
    exists r. split; [done|]. by eapply query_classic_sound.
  - destruct (query_bidijkstra_returns fuel g s t Hwf Hcost Hs Ht Hfuel) as [r Hr].
    exists r. split; [done|]. by eapply query_bidijkstra_sound.
  - apply list_elem_of_singleton in Hq as ->.
    destruct (query_dijkstra_returns fuel g s t Hwf Hcost Hs Ht) as [r Hr]; [lia|].
    exists r. split; [done|]. by eapply query_dijkstra_sound.
Qed.

Lemma path_cost_witness :
  (∃ r, @query_classic stl_ref 10 g_s1 1 2 = Some r
     ∧ (reachable r = true →
        ∃ c, spath g_s1 (path r) c ∧ distance r = Fin (c + get_edge_cost g_s1 2)
             ∧ head (path r) = Some 1 ∧ last (path r) = Some 2))
  ∧ (∃ r, @query_dijkstra stl_ref 10 g_s1 1 2 = Some r
       ∧ (reachable r = true →
          ∃ c, spath g_s1 (path r) c ∧ distance r = Fin (c + get_edge_cost g_s1 2)
               ∧ head (path r) = Some 1 ∧ last (path r) = Some 2)).
Proof.
  assert (csr_wf g_s1) as Hwf by loaded_wf.
  assert (Forall (λ sc, 0 ≤ sc_cost sc) (shortcuts_ g_s1)) as Hcost by all_shortcuts.
  assert (2 * length (shortcuts_ g_s1) + 3 ≤ 10)%nat as Hfuel by (vm_compute; lia).
  split.
  - apply (@path_cost stl_ref 10 g_s1 1 2 Hwf Hcost ltac:(lia) ltac:(lia) Hfuel).
    apply elem_of_cons. by left.
  - apply (@path_cost stl_ref 10 g_s1 1 2 Hwf Hcost ltac:(lia) ltac:(lia) Hfuel).
    do 2 (apply elem_of_cons; right). apply elem_of_cons. by left.
Defined.

(** C2 fails as stated for the classic variant: on [g_s1] the path
    [[1, 2]] has the shortcut cost 10 and [query_classic] returns 17, which
    is that cost plus the cost 7 of the last edge, not plus the cost 1 of
    the first edge. *)
Lemma path_cost_counterexample :
  @query_classic stl_ref 10 g_s1 1 2
  = Some {| distance := Fin 17; path := [1; 2]; reachable := true; error := "" |}
  ∧ (∀ c, spath g_s1 [1; 2] c → c = 10)
  ∧ Fin 17 ≠ Fin (get_edge_cost g_s1 1 + 10).
Proof.
  split; [run|]. split; [|run].
  intros c Hc. inversion Hc as [|? ? ? sc c' Hsc Hf Ht Hs]; subst.
  inversion Hs; subst.
  assert (shortcuts_ g_s1 = [to_csr (temp 1 2 10 0 1)]) as Heq by reflexivity.
  rewrite Heq in Hsc. apply list_elem_of_singleton in Hsc as ->. reflexivity.
Qed.

(** ** The pruned search: [query_pruned] *)

(** A direction of [query_pruned] without the resolutions that its queue
    carries. *)
Definition plain (f : Frontier (Z * Z)) : Frontier Z :=
  {| dist := dist f; parent := parent f; pq := (λ e, (e.1, e.2.1)) <$> pq f |}.

Lemma plain_relax_res d u f a :
  plain (relax_res d u f a) = relax_plain d u (plain f) a.1.
Proof.
  destruct a as [[v c] r]. unfold relax_res, relax_plain. cbn [fst snd plain dist].
  by destruct (improves (dist f) v (d + c)).
Qed.

Lemma plain_foldl d u l f :
  plain (foldl (relax_res d u) f l) = foldl (relax_plain d u) (plain f) (fst <$> l).
Proof.
  revert f. induction l as [|a l IH]; intros f; [done|].
  cbn [foldl fmap list_fmap]. by rewrite IH, plain_relax_res.
Qed.

Section took.
Context (arcs : Z → list (Z * Z)).
Context (arcs_nonneg : ∀ u a, a ∈ arcs u → 0 ≤ a.2).
Context (root key : Z).
Context (srcs : list Z).
Context (arcs_heads : ∀ u a, a ∈ arcs u → 0 ≤ a.1).
Context (root_nonneg : 0 ≤ root).

(** A least entry [(d, u)] leaves the queue. *)
Lemma took_finv f d u q :
  finv arcs root key f → pq f ≡ₚ (d, u) :: q → Forall (λ x, d ≤ x.1) q →
  finv arcs root key {| dist := dist f; parent := parent f; pq := q |}
  ∧ (∀ x dx, closed {| dist := dist f; parent := parent f; pq := q |} x dx → dx ≤ d)
  ∧ (∃ du, dist f !! u = Some du ∧ du ≤ d)
  ∧ ((d, u) ∉ q).
Proof.
  intros Hinv Hperm Hmin.
  pose proof (fi_nodup _ _ _ _ Hinv) as Hnd. rewrite Hperm in Hnd.
  apply NoDup_cons in Hnd as [Hnin Hnd].
  assert (∀ e, e ∈ q → e ∈ pq f) as Hsub.
  { intros e He. rewrite Hperm. by constructor. }
  assert ((d, u) ∈ pq f) as Hin by (rewrite Hperm; constructor).
  assert (∀ x dx, closed {| dist := dist f; parent := parent f; pq := q |} x dx → dx ≤ d)
    as Hbound.
  { intros x dx [Hd Hq]. cbn [dist pq] in *.
    destruct (decide ((dx, x) = (d, u))) as [[= -> ->]|Hne]; [done|].
    apply (fi_closed _ _ _ _ Hinv x dx d u); [|done]. split; [done|].
    rewrite Hperm. intros Hc. apply elem_of_cons in Hc as [Hc|Hc]; done. }
  rewrite Forall_forall in Hmin.
  split; [|split; [done|split; [by apply (fi_pq _ _ _ _ Hinv)|done]]].
  destruct Hinv as [Hrd Hrp Hpq _ Hlow Hcl Htree Hchain].
  constructor; cbn [dist parent pq]; try done.
  - intros k v Hk. apply Hpq. by apply Hsub.
  - intros x dx k v Hc Hk. specialize (Hbound x dx Hc). specialize (Hmin _ Hk).
    simpl in Hmin. lia.
  - intros v p Hp Hne. destruct (Htree v p Hp Hne) as (dp & c & [Hdp Hcl'] & Hc & Hv).
    exists dp, c. split; [|done]. split; [done|]. cbn [pq]. intros Hq. by apply Hcl', Hsub.
Qed.

Lemma took_potential f d u q :
  pq f ≡ₚ (d, u) :: q →
  (potential srcs {| dist := dist f; parent := parent f; pq := q |} < potential srcs f)%nat.
Proof.
  intros Hperm.
  unfold potential. cbn [pq]. pose proof (Permutation_length Hperm) as Hlen. simpl in Hlen.
  rewrite Hlen. apply Nat.lt_succ_r, Nat.add_le_mono_l, filter_length_le.
  intros x _. unfold is_open. cbn [dist pq]. destruct (dist f !! x) as [dx|]; [|done].
  rewrite !bool_decide_eq_true, Hperm. by right.
Qed.

(** The relaxation of some of the arcs of [u], popped at its distance. *)
Lemma took_expand f d u q l :
  finv arcs root key f → pq f ≡ₚ (d, u) :: q → Forall (λ x, d ≤ x.1) q →
  dist f !! u = Some d → l ⊆ arcs u →
  (length l ≤ length (filter (λ x, x = u) srcs))%nat →
  let f' := foldl (relax_plain d u) {| dist := dist f; parent := parent f; pq := q |} l in
  finv arcs root key f' ∧ lowers f f' ∧ (potential srcs f' < potential srcs f)%nat.
Proof.
  intros Hinv Hperm Hmin Hdu Hsub Hcount f'.
  destruct (took_finv f d u q Hinv Hperm Hmin) as (Hinv1 & Hbound & _ & Hnin).
  set (f1 := {| dist := dist f; parent := parent f; pq := q |}) in *.
  assert (expanding arcs root key d u f1) as Hexp1.
  { split; [done|]. split; [|done]. by split. }
  destruct (foldl_relax_plain_explored arcs arcs_nonneg root key d u l f1 Hexp1 Hsub)
    as (Ho & _ & Hlow & _ & Hn).
  split; [by apply (foldl_relax_plain_expanding arcs arcs_nonneg root key d u f1 l)|].
  split; [exact Hlow|].
  assert (∀ x, is_open f1 x = true → is_open f x = true) as Hsub'.
  { intros x. unfold is_open. cbn [f1 dist pq]. destruct (dist f !! x) as [dx|]; [|done].
    rewrite !bool_decide_eq_true, Hperm. by right. }
  unfold potential.
  pose proof (filter_length_split (λ x, is_open f1 x = true) (λ x, is_open f x = true)
                (λ x, x = u) srcs Hsub') as Hsplit.
  assert (length (filter (λ x, is_open f' x = true) srcs)
          ≤ length (filter (λ x, is_open f1 x = true) srcs))%nat as Hsame.
  { apply filter_length_le. intros x _. unfold f'. by rewrite Ho. }
  pose proof (Permutation_length Hperm) as Hlen. cbn [f1 pq] in Hn. simpl in Hlen.
  fold f' in Hn.
  enough (length (filter (λ x, is_open f1 x = true) srcs) + length (filter (λ x, x = u) srcs)
          ≤ length (filter (λ x, is_open f x = true) srcs))%nat by lia.
  apply Hsplit. intros x ->. split.
  - unfold is_open. rewrite Hdu. apply bool_decide_eq_true. rewrite Hperm. constructor.
  - unfold is_open. cbn [f1 dist pq]. rewrite Hdu. rewrite bool_decide_eq_false_2; done.
Qed.

End took.

(** [best] is at least the sum of the two distances of [meeting]: the
    look-up at the pop adds the key popped, which a stale entry has above
    the distance. *)
Definition pmeets (this other : gmap Z Z) (m : Meet) : Prop :=
  found m = true →
  ∃ x y bst, this !! meeting m = Some x ∧ other !! meeting m = Some y
             ∧ best m = Fin bst ∧ x + y ≤ bst.

Lemma pmeets_sym this other m : pmeets this other m → pmeets other this m.
Proof.
  intros Hm Hf. destruct (Hm Hf) as (x & y & bst & Hx & Hy & Hb & Hle).
  exists y, x, bst. repeat split; try done. lia.
Qed.

Lemma pmeets_lowers (D D' : gmap Z Z) other m :
  pmeets D other m →
  (∀ w dw, D !! w = Some dw → ∃ dw', D' !! w = Some dw' ∧ dw' ≤ dw) →
  pmeets D' other m.
Proof.
  intros Hm Hlow Hf. destruct (Hm Hf) as (x & y & bst & Hx & Hy & Hb & Hle).
  destruct (Hlow _ _ Hx) as (x' & Hx' & Hle'). exists x', y, bst. repeat split; try done. lia.
Qed.

Lemma pruned_meet_at_pop_pmeets this other d u du m ta oa m' ta' oa' :
  pmeets this other m → this !! u = Some du → du ≤ d →
  pruned_meet_at_pop this other d u m ta oa = (m', ta', oa') → pmeets this other m'.
Proof.
  intros Hm Hdu Hle. unfold pruned_meet_at_pop.
  destruct (other !! u) as [o|] eqn:Ho; [|by intros [= <- _ _]].
  destruct (Dlt (Fin (d + o)) (best m)); [|by intros [= <- _ _]].
  intros [= <- _ _] _. cbn [meeting best]. exists du, o, (d + o). repeat split; try done. lia.
Qed.

Section pruned_half.
Context `{Stl} (arcs : Z → list (Z * Z)).
Context (arcs_nonneg : ∀ u a, a ∈ arcs u → 0 ≤ a.2).
Context (root key : Z).
Context (srcs : list Z).
Context (arcs_heads : ∀ u a, a ∈ arcs u → 0 ≤ a.1).
Context (root_nonneg : 0 ≤ root).

(** What both blocks of the loop of [query_pruned] do: an entry is
    popped, the opposite map is looked up, and the block ends or relaxes
    some of the arcs of the edge popped. *)
Lemma pruned_half_step this other d u ur q m ta oa m' ta' oa' :
  finv arcs root key (plain this) → pmeets (dist this) other m →
  pq_pop (pq this) = Some ((d, (u, ur)), q) →
  pruned_meet_at_pop (dist this) other d u m ta oa = (m', ta', oa') →
  let this1 := {| dist := dist this; parent := parent this; pq := q |} in
  (finv arcs root key (plain this1) ∧ pmeets (dist this1) other m'
   ∧ (potential srcs (plain this1) < potential srcs (plain this))%nat)
  ∧ ∀ l, stale (dist this) u d = false → fst <$> l ⊆ arcs u →
         (0 ≤ u → (length l ≤ length (filter (λ x, x = u) srcs))%nat) →
         let this2 := foldl (relax_res d u) this1 l in
         finv arcs root key (plain this2) ∧ pmeets (dist this2) other m'
         ∧ (potential srcs (plain this2) < potential srcs (plain this))%nat.
Proof.
  intros Hinv Hm Hpop Hmeet this1.
  apply pq_pop_Some in Hpop as [Hperm Hmin].
  assert (pq (plain this) ≡ₚ (d, u) :: ((λ e, (e.1, e.2.1)) <$> q)) as Hperm'.
  { unfold plain. cbn [pq]. by rewrite Hperm. }
  assert (Forall (λ x : Z * Z, d ≤ x.1) ((λ e : Z * (Z * Z), (e.1, e.2.1)) <$> q)) as Hmin'.
  { apply Forall_fmap. eapply Forall_impl; [exact Hmin|]. by intros [k [v r]]. }
  destruct (took_finv arcs root key (plain this) d u _ Hinv Hperm' Hmin')
    as (Hinv1 & _ & (du & Hdu & Hle) & _).
  pose proof (pruned_meet_at_pop_pmeets _ _ d u du m ta oa m' ta' oa' Hm Hdu Hle Hmeet) as Hm'.
  split.
  { split; [exact Hinv1|]. split; [exact Hm'|].
    apply (took_potential srcs (plain this) d u _ Hperm'). }
  intros l Hstale Hsub Hcount this2.
  assert (dist this !! u = Some d) as Hd.
  { cbn [plain dist] in Hdu. unfold stale in Hstale. rewrite Hdu in Hstale.
    rewrite Hdu. f_equal. lia. }
  destruct (took_expand arcs arcs_nonneg root key srcs (plain this) d u _ (fst <$> l)
              Hinv Hperm' Hmin' Hd Hsub) as (Hinv2 & Hlow & Hpot).
  { rewrite length_fmap. apply Hcount.
    by apply (finv_nonneg arcs root key arcs_heads root_nonneg (plain this) u d). }
  unfold this2. rewrite plain_foldl.
  split; [exact Hinv2|]. split; [|exact Hpot].
  apply (pmeets_lowers (dist this)); [exact Hm'|].
  intros w dw Hw. destruct (Hlow w dw Hw) as (dw' & Hdw' & Hle'). exists dw'.
  split; [|done].
  change (dist (foldl (relax_res d u) this1 l))
    with (dist (plain (foldl (relax_res d u) this1 l))).
  by rewrite plain_foldl.
Qed.

End pruned_half.

Lemma bwd_arcs_any g P u : bwd_arcs P g u ⊆ bwd_arcs any_shortcut g u.
Proof.
  intros a Ha. unfold bwd_arcs in *. apply list_elem_of_fmap in Ha as (sc & -> & Hsc).
  apply list_elem_of_filter in Hsc as [_ Hsc].
  apply (list_elem_of_fmap_2 (λ sc, (sc_from sc, sc_cost sc))).
  by apply list_elem_of_filter.
Qed.

(** The path through an edge that both directions have reached. *)
Lemma meeting_path g P Q s t tc fuel (F B : Frontier Z) m x y :
  csr_wf g → 0 ≤ s → 0 ≤ t →
  finv (fwd_arcs P g) s 0 F → finv (bwd_arcs Q g) t tc B →
  dist F !! m = Some x → dist B !! m = Some y →
  (length (shortcuts_ g) + 1 ≤ fuel)%nat →
  ∃ p, bidir_path fuel (parent F) (parent B) m = Some p
       ∧ spath g p (x + y - tc) ∧ head p = Some s ∧ last p = Some t.
Proof.
  intros Hwf Hs Ht Hf Hb Hx Hy Hfuel.
  destruct (fi_chain _ _ _ _ Hf _ _ Hx) as [lf Hlf].
  destruct (fi_chain _ _ _ _ Hb _ _ Hy) as [lb Hlb].
  pose proof (chain_length (fwd_arcs P g) s 0 (sc_to <$> shortcuts_ g)
                F _ lf (λ u a Ha, fwd_arcs_heads g P u a Ha) Hf Hlf) as Hlenf.
  pose proof (chain_length (bwd_arcs Q g) t tc (sc_from <$> shortcuts_ g)
                B _ lb (λ u a Ha, bwd_arcs_heads g Q u a Ha) Hb Hlb) as Hlenb.
  rewrite length_fmap in Hlenf, Hlenb.
  unfold bidir_path.
  rewrite (follow_chain_enough _ _ _ _ fuel Hlf) by lia.
  rewrite (follow_chain_enough _ _ _ _ fuel Hlb) by lia.
  eexists. split; [done|].
  pose proof (chain_rpath _ _ _ _ _ _ _ Hf Hlf Hx) as Hrf.
  pose proof (chain_rpath _ _ _ _ _ _ _ Hb Hlb Hy) as Hrb.
  pose proof (chain_last _ _ _ _ Hlf) as Hlastf.
  pose proof (chain_last _ _ _ _ Hlb) as Hlastb.
  apply (rpath_fwd_spath g) in Hrf;
    [|by apply fwd_arcs_wf|by intros r'; rewrite Hlastf; intros [= <-]].
  apply (rpath_bwd_spath g) in Hrb;
    [|by apply bwd_arcs_wf|by intros r'; rewrite Hlastb; intros [= <-]].
  destruct (chain_head _ _ _ _ Hlf) as [lf' ->].
  destruct (chain_head _ _ _ _ Hlb) as [lb' ->].
  rewrite reverse_cons in Hrf |- *. cbn [tail]. rewrite <- app_assoc. cbn [app].
  replace (x + y - tc) with (x - 0 + (y - tc)) by lia.
  split; [by apply spath_app|]. split.
  - by rewrite head_reverse_app.
  - rewrite last_app. by rewrite Hlastb.
Qed.

Section pruned_search.
Context `{Stl} (g : CSRGraph) (high : CSRHighCell) (s t tc : Z).
Context (Hwf : csr_wf g).
Context (Hcost : Forall (λ sc, 0 ≤ sc_cost sc) (shortcuts_ g)).
Context (Hs : 0 ≤ s) (Ht : 0 ≤ t).

(** The invariant of the loop of [query_pruned]. *)
Definition pinv (f b : Frontier (Z * Z)) (pm : PrunedMeet) : Prop :=
  finv (fwd_arcs climbs g) s 0 (plain f)
  ∧ finv (bwd_arcs any_shortcut g) t tc (plain b)
  ∧ pmeets (dist f) (dist b) (pm_meet pm).

Lemma pruned_fwd_step f b pm cont f' pm' :
  pinv f b pm → pruned_fwd g high f b pm = (cont, (f', pm')) →
  pinv f' b pm'
  ∧ (pq f = [] → cont = false ∧ f' = f)
  ∧ (pq f ≠ [] → (potential (sc_from <$> shortcuts_ g) (plain f')
                   < potential (sc_from <$> shortcuts_ g) (plain f))%nat).
Proof.
  intros (Hf & Hb & Hm). unfold pruned_fwd.
  destruct (pq_pop (pq f)) as [[[d [u ur]] q]|] eqn:Hpop.
  2: { intros [= <- <- <-]. apply pq_pop_None in Hpop. done. }
  cbn [dist].
  destruct (pruned_meet_at_pop (dist f) (dist b) d u (pm_meet pm) (min_arrival_fwd pm)
              (min_arrival_bwd pm)) as [[m maf] mab] eqn:Hmeet.
  destruct (pruned_half_step (fwd_arcs climbs g) (fwd_arcs_nonneg g climbs Hcost) s 0
              (sc_from <$> shortcuts_ g)
              (λ u a Ha, proj1 (fwd_arcs_wf g climbs Hwf u a Ha)) Hs
              f (dist b) d u ur q _ _ _ m maf mab Hf Hm Hpop Hmeet) as [(Hf1 & Hm1 & Hp1) Hstep].
  assert (pq f ≠ []) as Hne.
  { intros Hnil. rewrite Hnil in Hpop. apply pq_pop_Some in Hpop as [Hperm _].
    by apply Permutation_nil_cons in Hperm. }
  destruct (stale (dist f) u d) eqn:Hstale; [by intros [= <- <- <-]|].
  destruct (Dle (best m) (Fin d)); [by intros [= <- <- <-]|].
  destruct (ur <? hc_res high); [by intros [= <- <- <-]|].
  intros [= <- <- <-].
  destruct (Hstep ((λ sc, (sc_to sc, sc_cost sc, get_res sc))
                     <$> filter (λ sc, climbs sc = true) (fwd_shortcuts g u)) eq_refl)
    as (Hf2 & Hm2 & Hp2).
  { by rewrite <- list_fmap_compose. }
  { intros Hu. rewrite length_fmap.
    pose proof (fwd_arcs_count g climbs u Hwf Hu) as Hc. unfold fwd_arcs in Hc.
    by rewrite length_fmap in Hc. }
  done.
Qed.

Lemma pruned_bwd_step f b pm cont b' pm' :
  pinv f b pm → pruned_bwd g high f b pm = (cont, (b', pm')) →
  pinv f b' pm'
  ∧ (pq b = [] → cont = false ∧ b' = b)
  ∧ (pq b ≠ [] → (potential (sc_to <$> shortcuts_ g) (plain b')
                   < potential (sc_to <$> shortcuts_ g) (plain b))%nat).
Proof.
  intros (Hf & Hb & Hm). unfold pruned_bwd.
  destruct (pq_pop (pq b)) as [[[d [u ur]] q]|] eqn:Hpop.
  2: { intros [= <- <- <-]. apply pq_pop_None in Hpop. done. }
  cbn [dist].
  destruct (pruned_meet_at_pop (dist b) (dist f) d u (pm_meet pm) (min_arrival_bwd pm)
              (min_arrival_fwd pm)) as [[m mab] maf] eqn:Hmeet.
  destruct (pruned_half_step (bwd_arcs any_shortcut g) (bwd_arcs_nonneg g any_shortcut Hcost)
              t tc (sc_to <$> shortcuts_ g)
              (λ u a Ha, proj1 (bwd_arcs_wf g any_shortcut Hwf u a Ha)) Ht
              b (dist f) d u ur q _ _ _ m mab maf Hb (pmeets_sym _ _ _ Hm) Hpop Hmeet)
    as [(Hb1 & Hm1 & Hp1) Hstep].
  assert (pq b ≠ []) as Hne.
  { intros Hnil. rewrite Hnil in Hpop. apply pq_pop_Some in Hpop as [Hperm _].
    by apply Permutation_nil_cons in Hperm. }
  apply pmeets_sym in Hm1.
  destruct (stale (dist b) u d) eqn:Hstale; [by intros [= <- <- <-]|].
  destruct (Dle (best m) (Fin d)); [by intros [= <- <- <-]|].
  intros [= <- <- <-].
  destruct (Hstep ((λ sc, (sc_from sc, sc_cost sc, get_res sc))
                     <$> filter (λ sc, pruned_bwd_allowed ur (hc_res high) sc = true)
                                (bwd_shortcuts g u)) eq_refl)
    as (Hb2 & Hm2 & Hp2).
  { rewrite <- list_fmap_compose.
    apply (bwd_arcs_any g (pruned_bwd_allowed ur (hc_res high)) u). }
  { intros Hu. rewrite length_fmap.
    pose proof (bwd_arcs_count g (pruned_bwd_allowed ur (hc_res high)) u Hwf Hu) as Hc.
    unfold bwd_arcs in Hc. by rewrite length_fmap in Hc. }
  apply pmeets_sym in Hm2. done.
Qed.

(** The loop of [query_pruned] ends within the sum of the two
    potentials. *)
Lemma pruned_loop_run fuel f b pm :
  pinv f b pm →
  (potential (sc_from <$> shortcuts_ g) (plain f)
   + potential (sc_to <$> shortcuts_ g) (plain b) < fuel)%nat →
  ∃ f' b' pm', pruned_loop fuel g high f b pm = Some (f', b', pm') ∧ pinv f' b' pm'.
Proof.
  revert f b pm. induction fuel as [|fuel IH]; intros f b pm Hinv Hpot; [lia|].
  cbn [pruned_loop].
  destruct (pq_empty (pq f) && pq_empty (pq b)) eqn:Hempty; [by exists f, b, pm|].
  destruct (pruned_fwd g high f b pm) as [cont [f1 pm1]] eqn:Hfwd.
  destruct (pruned_fwd_step f b pm cont f1 pm1 Hinv Hfwd) as (Hinv1 & Hnil1 & Hpot1).
  assert (potential (sc_from <$> shortcuts_ g) (plain f1)
          ≤ potential (sc_from <$> shortcuts_ g) (plain f))%nat as Hle1.
  { destruct (pq f) eqn:Hq; [by destruct Hnil1 as (_ & ->)|]. apply Nat.lt_le_incl.
    by apply Hpot1. }
  destruct cont.
  { apply IH; [done|]. destruct (pq f) eqn:Hq; [by destruct Hnil1|].
    specialize (Hpot1 ltac:(done)). lia. }
  destruct (pruned_bwd g high f1 b pm1) as [cont [b1 pm2]] eqn:Hbwd.
  destruct (pruned_bwd_step f1 b pm1 cont b1 pm2 Hinv1 Hbwd) as (Hinv2 & Hnil2 & Hpot2).
  assert (potential (sc_to <$> shortcuts_ g) (plain b1)
          ≤ potential (sc_to <$> shortcuts_ g) (plain b))%nat as Hle2.
  { destruct (pq b) eqn:Hq; [by destruct Hnil2 as (_ & ->)|]. apply Nat.lt_le_incl.
    by apply Hpot2. }
  assert (potential (sc_from <$> shortcuts_ g) (plain f1)
          + potential (sc_to <$> shortcuts_ g) (plain b1)
          < potential (sc_from <$> shortcuts_ g) (plain f)
            + potential (sc_to <$> shortcuts_ g) (plain b))%nat as Hless.
  { destruct (pq f) eqn:Hqf.
    - destruct (pq b) eqn:Hqb; [done|]. specialize (Hpot2 ltac:(done)). lia.
    - specialize (Hpot1 ltac:(done)). lia. }
  destruct cont; [apply IH; [done|lia]|].
  destruct (pruned_done f1 b1 pm2); [by exists f1, b1, pm2|].
  apply IH; [done|lia].
Qed.

End pruned_search.

(** The search of [query_pruned] from its two seeds. *)
Lemma pruned_search `{Stl} fuel g high s t sr tr :
  csr_wf g → Forall (λ sc, 0 ≤ sc_cost sc) (shortcuts_ g) → 0 ≤ s → 0 ≤ t →
  (2 * length (shortcuts_ g) + 3 ≤ fuel)%nat →
  ∃ f b pm,
    pruned_loop fuel g high (seed s 0 (s, sr)) (seed t (get_edge_cost g t) (t, tr))
                {| pm_meet := no_meet; min_arrival_fwd := Inf; min_arrival_bwd := Inf |}
    = Some (f, b, pm)
    ∧ (found (pm_meet pm) = true →
       ∃ p c bst, bidir_path fuel (parent f) (parent b) (meeting (pm_meet pm)) = Some p
                  ∧ spath g p c ∧ head p = Some s ∧ last p = Some t
                  ∧ best (pm_meet pm) = Fin bst ∧ c + get_edge_cost g t ≤ bst).
Proof.
  intros Hwf Hcost Hs Ht Hfuel. set (tc := get_edge_cost g t).
  destruct (pruned_loop_run g high s t tc Hwf Hcost Hs Ht fuel (seed s 0 (s, sr))
              (seed t tc (t, tr))
              {| pm_meet := no_meet; min_arrival_fwd := Inf; min_arrival_bwd := Inf |})
    as (f & b & pm & Hloop & Hf & Hb & Hm).
  { split; [apply seed_finv|]. split; [apply seed_finv|done]. }
  { pose proof (seed_potential s 0 (sc_from <$> shortcuts_ g)) as Hp1.
    pose proof (seed_potential t tc (sc_to <$> shortcuts_ g)) as Hp2.
    rewrite length_fmap in Hp1, Hp2.
    change (plain (seed s 0 (s, sr))) with (seed s 0 s).
    change (plain (seed t tc (t, tr))) with (seed t tc t). lia. }
  exists f, b, pm. split; [exact Hloop|]. intros Hfound.
  destruct (Hm Hfound) as (x & y & bst & Hx & Hy & Hbest & Hle).
  destruct (meeting_path g climbs any_shortcut s t tc fuel (plain f) (plain b)
              (meeting (pm_meet pm)) x y Hwf Hs Ht Hf Hb Hx Hy) as (p & Hp & Hsp & Hhead & Hlast);
    [lia|].
  exists p, (x + y - tc), bst. repeat split; try done. lia.
Qed.

(** ** Agreement of the queries *)


(** A store without hierarchy whose only path from 1 to 3 first descends
    and then climbs: the shortcuts (1,2) with [inside = -1] and (2,3)
    with [inside = +1]; every [lca_res] is -1 and no edge has a cell. *)
Definition g_dn : CSRGraph :=
  loaded [(1, meta 1); (2, meta 1); (3, meta 2)]
         [temp 1 2 4 0 (-1); temp 2 3 5 0 1].




(** * Further properties of the code *)

(** ** [h3_utils.cpp]: the hierarchy of cells *)

Section h3_hierarchy.
Context `{H3Lib}.

Lemma find_lca_loop_swap n c1 c2 :
  find_lca_loop n c2 c1 = ((find_lca_loop n c1 c2).2, (find_lca_loop n c1 c2).1).
Proof.
  revert c1 c2. induction n as [|n IH]; intros c1 c2; [done|]. cbn [find_lca_loop].
  rewrite (Z.eqb_sym c2 c1). destruct (c1 =? c2); [done|]. apply IH.
Qed.

Lemma find_lca_loop_zero_l n c2 : (find_lca_loop n 0 c2).1 = 0.
Proof.
  revert c2. induction n as [|n IH]; intros c2; [done|]. cbn [find_lca_loop].
  destruct (0 =? c2); [done|]. rewrite cell_to_parent_zero. apply IH.
Qed.

Lemma find_lca_loop_zero_r n c1 : (find_lca_loop n c1 0).2 = 0.
Proof.
  revert c1. induction n as [|n IH]; intros c1; [done|]. cbn [find_lca_loop].
  destruct (c1 =? 0); [done|]. rewrite cell_to_parent_zero. apply IH.
Qed.

(** The resolution and the value of [cell_to_parent] when it does not
    return 0. *)
Lemma cell_to_parent_nonzero c r :
  cell_to_parent c r ≠ 0 →
  c ≠ 0 ∧ 0 ≤ r
  ∧ ((getResolution c ≤ r ∧ cell_to_parent c r = c)
     ∨ (r < getResolution c ∧ cellToParent c r = Some (cell_to_parent c r)
        ∧ getResolution (cell_to_parent c r) = r)).
Proof.
  unfold cell_to_parent.
  destruct (Z.eqb_spec c 0); [done|]. destruct (Z.ltb_spec r 0); [done|]. simpl.
  destruct (Z.geb_spec r (getResolution c)) as [Hge|Hlt].
  - intros _. split; [done|]. split; [done|]. left. split; [lia|done].
  - destruct (cellToParent c r) as [p|] eqn:Hp; [|done]. intros _.
    split; [done|]. split; [done|]. right. split; [done|]. split; [done|].
    eapply cellToParent_res; [|done]. lia.
Qed.

(** The state of the loop of [find_lca] at resolution [n]: each cell is 0
    or the ancestor of its input at that resolution. *)
Lemma find_lca_loop_lowest c c' n c1 c2 :
  c ≠ 0 → c' ≠ 0 →
  Z.of_nat n ≤ getResolution c → Z.of_nat n ≤ getResolution c' →
  ancestor_at c (Z.of_nat n) c1 → ancestor_at c' (Z.of_nat n) c2 →
  ∃ m, 0 ≤ m ≤ Z.of_nat n
    ∧ ancestor_at c m (find_lca_loop n c1 c2).1
    ∧ ancestor_at c' m (find_lca_loop n c1 c2).2
    ∧ ((find_lca_loop n c1 c2).1 ≠ 0 → (find_lca_loop n c1 c2).2 ≠ 0 →
       ∀ r, m < r ≤ Z.of_nat n → cell_to_parent c r ≠ cell_to_parent c' r).
Proof.
  intros Hc Hc'. revert c1 c2. induction n as [|n IH]; intros c1 c2 Hle Hle' H1 H2.
  - exists 0. simpl. split; [lia|]. split; [done|]. split; [done|]. intros _ _ r Hr. lia.
  - cbn [find_lca_loop]. destruct (Z.eqb_spec c1 c2) as [Heq|Hne].
    + exists (Z.of_nat (S n)). cbn [fst snd]. split; [lia|]. split; [done|]. split; [done|].
      intros _ _ r Hr. lia.
    + destruct (IH (cell_to_parent c1 (Z.of_nat n)) (cell_to_parent c2 (Z.of_nat n)))
        as (m & Hm & Ha1 & Ha2 & Hlow); [lia|lia| | |].
      { apply ancestor_at_step; [done|lia|lia|].
        by replace (Z.of_nat n + 1) with (Z.of_nat (S n)) by lia. }
      { apply ancestor_at_step; [done|lia|lia|].
        by replace (Z.of_nat n + 1) with (Z.of_nat (S n)) by lia. }
      exists m. split; [lia|]. split; [done|]. split; [done|].
      intros Hx1 Hx2 r Hr.
      destruct (decide (r ≤ Z.of_nat n)) as [Hrn|Hrn]; [apply Hlow; (done || lia)|].
      assert (r = Z.of_nat (S n)) as -> by lia.
      assert (c1 ≠ 0) as Hc1.
      { intros ->. apply Hx1. rewrite cell_to_parent_zero. apply find_lca_loop_zero_l. }
      assert (c2 ≠ 0) as Hc2.
      { intros ->. apply Hx2. rewrite cell_to_parent_zero. apply find_lca_loop_zero_r. }
      destruct (H1 Hc1) as [_ ->]. destruct (H2 Hc2) as [_ ->]. done.
Qed.

End h3_hierarchy.

Lemma find_lca_sym `{H3Lib} (c c' : Z) : find_lca c c' = find_lca c' c.
Proof.
  unfold find_lca. rewrite (orb_comm (c' =? 0)).
  destruct ((c =? 0) || (c' =? 0)); [done|].
  set (res1 := getResolution c). set (res2 := getResolution c').
  assert ((if res2 <? res1 then res2 else res1) = (if res1 <? res2 then res1 else res2))
    as ->.
  { destruct (Z.ltb_spec res2 res1), (Z.ltb_spec res1 res2); lia. }
  set (min_res := if res1 <? res2 then res1 else res2).
  rewrite (find_lca_loop_swap _
             (if res1 >? min_res then cell_to_parent c min_res else c)
             (if res2 >? min_res then cell_to_parent c' min_res else c')).
  destruct (find_lca_loop _ _ _) as [x y]. cbn [fst snd].
  rewrite (Z.eqb_sym y x). destruct (Z.eqb_spec x y); congruence.
Qed.

(** Two steps up the hierarchy are one step, when none fails. *)
Lemma cell_to_parent_twice `{H3Lib} (c a b : Z) :
  b ≤ a → cell_to_parent (cell_to_parent c a) b ≠ 0 →
  cell_to_parent (cell_to_parent c a) b = cell_to_parent c b.
Proof.
  intros Hba Hne.
  destruct (cell_to_parent_nonzero _ _ Hne) as (Hp & Hb & Hcase).
  destruct (cell_to_parent_nonzero _ _ Hp) as (Hc & Ha & [[Hle Hsame]|(Hlt & Hpar & Hres)]).
  { by rewrite Hsame. }
  destruct Hcase as [[Hle' Hsame']|(Hlt' & Hpar' & Hres')].
  - rewrite Hsame'. assert (b = a) as -> by lia. done.
  - rewrite Hres in Hlt'.
    pose proof (cellToParent_trans c a b _ _ ltac:(lia) Hlt Hpar Hpar') as Htrans.
    unfold cell_to_parent at 3.
    destruct (Z.eqb_spec c 0); [done|]. destruct (Z.ltb_spec b 0); [lia|]. simpl.
    destruct (Z.geb_spec b (getResolution c)); [lia|]. by rewrite Htrans.
Qed.

(** X1.  [find_lca] does not depend on the order of its arguments, and
    the lowest common ancestor of a cell with itself is the cell. *)
Theorem find_lca_comm `{H3Lib} (c c' : Z) :
  find_lca c c' = find_lca c' c ∧ find_lca c c = c.
Proof.
  split; [apply find_lca_sym|].
  unfold find_lca. destruct (Z.eqb_spec c 0) as [->|Hc]; [done|]. simpl.
  rewrite Z.ltb_irrefl, Z.gtb_ltb, Z.ltb_irrefl.
  destruct (Z.to_nat (getResolution c)) as [|n]; cbn [find_lca_loop];
    repeat (rewrite Z.eqb_refl; cbn [find_lca_loop]); done.
Qed.

(** X2.  What [find_lca] returns for two non-zero cells, when it is not
    0, is the ancestor of both at its own resolution [m], which is at most
    the resolution of either cell; and it is the lowest one: at every
    resolution between [m] and the coarser of the two cells, the two
    ancestors differ. *)
Theorem find_lca_lowest `{H3Lib} (c c' : Z) :
  c ≠ 0 → c' ≠ 0 → find_lca c c' ≠ 0 →
  ∃ m, 0 ≤ m ∧ m ≤ getResolution c ∧ m ≤ getResolution c'
    ∧ getResolution (find_lca c c') = m
    ∧ cell_to_parent c m = find_lca c c'
    ∧ cell_to_parent c' m = find_lca c c'
    ∧ ∀ r, m < r → r ≤ getResolution c → r ≤ getResolution c' →
           cell_to_parent c r ≠ cell_to_parent c' r.
Proof.
  intros Hc Hc'. unfold find_lca.
  destruct (Z.eqb_spec c 0); [done|]. destruct (Z.eqb_spec c' 0); [done|]. simpl.
  set (res1 := getResolution c). set (res2 := getResolution c').
  set (min_res := if res1 <? res2 then res1 else res2).
  set (c1 := if res1 >? min_res then cell_to_parent c min_res else c).
  set (c2 := if res2 >? min_res then cell_to_parent c' min_res else c').
  pose proof (getResolution_range c). pose proof (getResolution_range c').
  assert (0 ≤ min_res ∧ min_res ≤ res1 ∧ min_res ≤ res2 ∧ (min_res = res1 ∨ min_res = res2))
    as (Hmin0 & Hmin1 & Hmin2 & Hmin).
  { unfold min_res, res1, res2. destruct (Z.ltb_spec (getResolution c) (getResolution c')); lia. }
  assert (∀ x, x ≠ 0 → min_res ≤ getResolution x →
            ancestor_at x min_res
              (if getResolution x >? min_res then cell_to_parent x min_res else x)) as Hanc.
  { intros x Hx Hle. destruct (Z.gtb_spec (getResolution x) min_res) as [Hgt|Hngt].
    - intros Hne. split; [|done].
      destruct (cell_to_parent_nonzero x min_res Hne) as (_ & _ & [[? _]|(_ & _ & ?)]); [lia|done].
    - intros _. assert (min_res = getResolution x) as -> by lia.
      split; [done|]. by apply cell_to_parent_same. }
  destruct (find_lca_loop_lowest c c' (Z.to_nat min_res) c1 c2) as (m & Hm & Ha1 & Ha2 & Hlow);
    [done|done|unfold res1 in *; lia|unfold res2 in *; lia
    |rewrite Z2Nat.id by lia; by apply Hanc
    |rewrite Z2Nat.id by lia; by apply Hanc|].
  rewrite Z2Nat.id in Hm, Hlow by lia.
  destruct (find_lca_loop (Z.to_nat min_res) c1 c2) as [x y]. cbn [fst snd] in *.
  destruct (Z.eqb_spec x y) as [<-|Hne]; [|done]. intros Hx.
  destruct (Ha1 Hx) as [Hres Hpar]. destruct (Ha2 Hx) as [_ Hpar'].
  exists m. split; [lia|]. split; [unfold res1 in *; lia|]. split; [unfold res2 in *; lia|].
  split; [done|]. split; [done|]. split; [done|].
  intros r Hr Hr1 Hr2. apply Hlow; [done|done|]. unfold res1, res2 in *. lia.
Qed.

Lemma find_lca_lowest_witness :
  ∃ m, 0 ≤ m ∧ m ≤ @getResolution h3_ref 617700169958293503
    ∧ m ≤ @getResolution h3_ref 617700169961177087
    ∧ @getResolution h3_ref (@find_lca h3_ref 617700169958293503 617700169961177087) = m
    ∧ @cell_to_parent h3_ref 617700169958293503 m
      = @find_lca h3_ref 617700169958293503 617700169961177087
    ∧ @cell_to_parent h3_ref 617700169961177087 m
      = @find_lca h3_ref 617700169958293503 617700169961177087
    ∧ ∀ r, m < r → r ≤ @getResolution h3_ref 617700169958293503 →
           r ≤ @getResolution h3_ref 617700169961177087 →
           @cell_to_parent h3_ref 617700169958293503 r
           ≠ @cell_to_parent h3_ref 617700169961177087 r.
Proof. apply (@find_lca_lowest h3_ref); run. Defined.

(** X3.  Going up the hierarchy in two steps gives the same cell as
    going up in one, when the two steps do not fail (return 0); the cell
    reached has the resolution asked for, or the one of the cell when
    that is coarser. *)
Theorem cell_to_parent_compose `{H3Lib} (c a b : Z) :
  b ≤ a → cell_to_parent (cell_to_parent c a) b ≠ 0 →
  cell_to_parent (cell_to_parent c a) b = cell_to_parent c b
  ∧ getResolution (cell_to_parent c b) = Z.min b (getResolution c).
Proof.
  intros Hba Hne. pose proof (cell_to_parent_twice c a b Hba Hne) as Heq.
  split; [done|]. rewrite Heq in Hne.
  destruct (cell_to_parent_nonzero _ _ Hne) as (_ & _ & [[Hle ->]|(Hlt & _ & ->)]); lia.
Qed.

Lemma cell_to_parent_compose_witness :
  @cell_to_parent h3_ref (@cell_to_parent h3_ref 617700169958293503 7) 5
  = @cell_to_parent h3_ref 617700169958293503 5
  ∧ @getResolution h3_ref (@cell_to_parent h3_ref 617700169958293503 5)
    = Z.min 5 (@getResolution h3_ref 617700169958293503).
Proof. apply (@cell_to_parent_compose h3_ref); run. Defined.

(** X4.  A node that [parent_check] accepts for a cell is accepted for
    every ancestor of the cell that [cell_to_parent] computes: the
    regions of the hierarchy are nested. *)
Theorem parent_check_nested `{H3Lib} (node high : Z) (r r' : Z) :
  parent_check node high r = true → high ≠ 0 → 0 ≤ r → r' ≤ r →
  parent_check node (cell_to_parent high r') r' = true.
Proof.
  unfold parent_check. intros Hcheck Hhigh Hr Hr'.
  destruct (Z.eqb_spec high 0); [done|]. destruct (Z.ltb_spec r 0); [lia|]. simpl in Hcheck.
  destruct (Z.eqb_spec node 0); [done|].
  destruct (Z.gtb_spec r (getResolution node)); [done|].
  apply Z.eqb_eq in Hcheck.
  destruct (Z.eqb_spec (cell_to_parent high r') 0) as [|Hne]; [done|].
  destruct (Z.ltb_spec r' 0); [done|]. simpl.
  destruct (Z.gtb_spec r' (getResolution node)); [lia|].
  apply Z.eqb_eq. rewrite <- Hcheck in Hne |- *. symmetry. by apply cell_to_parent_twice.
Qed.

Lemma parent_check_nested_witness :
  @parent_check h3_ref 617700169958293503
    (@cell_to_parent h3_ref (@cell_to_parent h3_ref 617700169958293503 7) 5) 5 = true.
Proof.
  apply (@parent_check_nested h3_ref 617700169958293503
           (@cell_to_parent h3_ref 617700169958293503 7) 7 5); run.
Defined.

(** ** [CSRGraph::compute_high_cell] *)

(** X5.  The cell that [compute_high_cell] returns for a query accepts
    the cells of both endpoints in [parent_check]: the pruned search
    never excludes its own source or target.  Its resolution is -1
    exactly when the cell is 0, and at most 15. *)
Theorem high_cell_accepts_endpoints `{H3Lib} (g : CSRGraph) (s t : Z) :
  let high := compute_high_cell g s t in
  parent_check (get_edge_cell g s) (hc_cell high) (hc_res high) = true
  ∧ parent_check (get_edge_cell g t) (hc_cell high) (hc_res high) = true
  ∧ (hc_res high = -1 ↔ hc_cell high = 0)
  ∧ -1 ≤ hc_res high ≤ 15.
Proof.
  unfold compute_high_cell, get_edge_cell.
  destruct (edge_meta_ g !! s) as [src|]; [|cbn; repeat split; lia].
  destruct (edge_meta_ g !! t) as [tgt|]; [|cbn; repeat split; lia].
  destruct (Z.eqb_spec (em_to_cell src) 0) as [|Hs]; [cbn; repeat split; lia|].
  destruct (Z.eqb_spec (em_to_cell tgt) 0) as [|Ht]; [cbn; repeat split; lia|].
  cbn [orb hc_cell hc_res].
  set (lca := find_lca (em_to_cell src) (em_to_cell tgt)).
  assert ((if lca =? 0 then -1 else get_resolution lca) = get_resolution lca) as Hres.
  { unfold get_resolution. by destruct (lca =? 0). }
  rewrite Hres. split; [by apply parent_check_find_lca|]. split.
  { unfold lca. rewrite find_lca_sym. by apply parent_check_find_lca. }
  unfold get_resolution. pose proof (getResolution_range lca).
  destruct (Z.eqb_spec lca 0); split; (lia || split; lia).
Qed.

(** ** [CSRGraph::load_shortcuts]: what is stored *)

(** X6.  [load_shortcuts] fails exactly on an empty list of rows.  When
    it succeeds the store holds the rows, each copied by [to_csr], as a
    multiset, sorted by source; [edge_meta_] is untouched; and
    [max_edge_id_] is the least non-negative bound of the sources and
    targets. *)
Theorem load_shortcuts_rows `{Stl} (em : gmap Z CSREdgeMeta) (tl : list TempShortcut) :
  (load_shortcuts em tl = None ↔ tl = [])
  ∧ ∀ g, load_shortcuts em tl = Some g →
      shortcuts_ g ≡ₚ to_csr <$> tl
      ∧ StronglySorted (λ a b, sc_from a ≤ sc_from b) (shortcuts_ g)
      ∧ edge_meta_ g = em
      ∧ 0 ≤ max_edge_id_ g
      ∧ Forall (λ sc, sc_from sc ≤ max_edge_id_ g ∧ sc_to sc ≤ max_edge_id_ g)
               (shortcuts_ g)
      ∧ ∀ B, 0 ≤ B → Forall (λ sc, sc_from sc ≤ B ∧ sc_to sc ≤ B) (shortcuts_ g) →
             max_edge_id_ g ≤ B.
Proof.
  split.
  { unfold load_shortcuts. by destruct tl. }
  intros g. unfold load_shortcuts. destruct tl as [|t0 tl0] eqn:Htl; [done|].
  rewrite <- Htl. clear Htl t0 tl0. intros [= <-].
  cbn [shortcuts_ edge_meta_ max_edge_id_].
  destruct (find_max_edge_id_spec tl) as (Hmax0 & Hmax & Hleast).
  assert (∀ B, Forall (λ x, t_from x ≤ B ∧ t_to x ≤ B) tl
               ↔ Forall (λ sc, sc_from sc ≤ B ∧ sc_to sc ≤ B) (to_csr <$> std_sort tl))
    as Hbound.
  { intros B. rewrite Forall_fmap, (std_sort_perm tl). done. }
  split; [by rewrite (std_sort_perm tl)|].
  split; [apply StronglySorted_fmap_from, std_sort_sorted|].
  split; [done|]. split; [done|]. split; [by apply Hbound|].
  intros B HB Hall. apply Hleast; [done|]. by apply Hbound.
Qed.

(** X7.  The two bit-fields of a stored shortcut: [inside] is always
    between -2 and 1 and [via_edge] below [2^30]; a row whose [inside] and
    [via_edge] are in these ranges is stored with all its fields
    unchanged. *)
Theorem load_shortcuts_fields `{Stl} (em : gmap Z CSREdgeMeta) (tl : list TempShortcut)
    (g : CSRGraph) :
  load_shortcuts em tl = Some g →
  Forall (λ sc, -2 ≤ sc_inside sc ≤ 1 ∧ 0 ≤ sc_via_edge sc < 2 ^ 30) (shortcuts_ g)
  ∧ ∀ row, row ∈ tl → -2 ≤ t_inside row ≤ 1 → 0 ≤ t_via_edge row < 2 ^ 30 →
      {| sc_cell := t_cell row; sc_cost := t_cost row; sc_from := t_from row;
         sc_to := t_to row; sc_via_edge := t_via_edge row; sc_inside := t_inside row |}
      ∈ shortcuts_ g.
Proof.
  unfold load_shortcuts. destruct tl as [|t0 tl0] eqn:Htl; [done|].
  rewrite <- Htl. clear Htl t0 tl0. intros [= <-]. cbn [shortcuts_]. split.
  - apply Forall_fmap, Forall_forall. intros row _. unfold to_csr, sbits2, bits30. simpl.
    pose proof (Z.mod_pos_bound (t_inside row + 2) 4).
    pose proof (Z.mod_pos_bound (t_via_edge row) (2 ^ 30)). lia.
  - intros row Hrow Hins Hvia.
    assert (to_csr row = {| sc_cell := t_cell row; sc_cost := t_cost row;
                            sc_from := t_from row; sc_to := t_to row;
                            sc_via_edge := t_via_edge row; sc_inside := t_inside row |})
      as <-.
    { unfold to_csr, sbits2, bits30. f_equal.
      - apply Z.mod_small. lia.
      - rewrite Z.mod_small by lia. lia. }
    apply list_elem_of_fmap_2. by rewrite (std_sort_perm tl).
Qed.

Lemma load_shortcuts_fields_witness :
  Forall (λ sc, -2 ≤ sc_inside sc ≤ 1 ∧ 0 ≤ sc_via_edge sc < 2 ^ 30) (shortcuts_ g_dup)
  ∧ ∀ row, row ∈ [temp 1 3 10 0 1; temp 1 3 10 2 1; temp 1 2 4 0 1; temp 2 3 5 0 1] →
      -2 ≤ t_inside row ≤ 1 → 0 ≤ t_via_edge row < 2 ^ 30 →
      {| sc_cell := t_cell row; sc_cost := t_cost row; sc_from := t_from row;
         sc_to := t_to row; sc_via_edge := t_via_edge row; sc_inside := t_inside row |}
      ∈ shortcuts_ g_dup.
Proof.
  apply (@load_shortcuts_fields stl_ref
           (list_to_map [(1, meta 1); (2, meta 1); (3, meta 1)])
           [temp 1 3 10 0 1; temp 1 3 10 2 1; temp 1 2 4 0 1; temp 2 3 5 0 1] g_dup).
  reflexivity.
Defined.

(** ** The CSR arrays: every index is in range *)

Lemma positions_elem v (l : list CSRShortcut) start i sc :
  l !! i = Some sc → sc_to sc = v → start + Z.of_nat i ∈ positions v l start.
Proof.
  revert start i. induction l as [|a l IH]; intros start i Hi Hv; [done|].
  destruct i as [|i]; simpl in Hi.
  - injection Hi as ->. simpl. rewrite decide_True by done.
    replace (start + Z.of_nat 0) with start by lia. constructor.
  - specialize (IH (start + 1) i Hi Hv).
    replace (start + Z.of_nat (S i)) with (start + 1 + Z.of_nat i) by lia.
    simpl. destruct (decide (sc_to a = v)); [by constructor|done].
Qed.

(** Every index of a shortcut is written somewhere in [bwd_indices_]. *)
Lemma bwd_indices_all g i sc :
  csr_wf g → shortcuts_ g !! i = Some sc → Z.of_nat i ∈ bwd_indices_ g.
Proof.
  intros Hwf Hi.
  pose proof (positions_elem (sc_to sc) (shortcuts_ g) 0 i sc Hi eq_refl) as Hpos.
  rewrite Z.add_0_l in Hpos. apply list_elem_of_lookup_1 in Hpos as [j Hj].
  assert (0 ≤ sc_to sc ≤ max_edge_id_ g) as Hto.
  { pose proof (wf_ids g Hwf) as Hids. rewrite Forall_forall in Hids.
    apply list_elem_of_lookup_2 in Hi. specialize (Hids sc Hi). lia. }
  pose proof (wf_idx g Hwf (sc_to sc) j (Z.of_nat i) Hto Hj) as Hfilled.
  by eapply list_elem_of_lookup_2.
Qed.

Lemma bwd_indices_perm g :
  csr_wf g → seqZ 0 (Z.of_nat (length (shortcuts_ g))) ≡ₚ bwd_indices_ g.
Proof.
  intros Hwf. apply submseteq_length_Permutation.
  - apply NoDup_submseteq; [apply NoDup_seqZ|]. intros x Hx.
    apply elem_of_seqZ in Hx.
    destruct (lookup_lt_is_Some_2 (shortcuts_ g) (Z.to_nat x)) as [sc Hsc]; [lia|].
    replace x with (Z.of_nat (Z.to_nat x)) by lia. by eapply bwd_indices_all.
  - rewrite length_seqZ, (wf_idx_len g Hwf). lia.
Qed.

(** X8.  After a successful [load_shortcuts] (edge identifiers below
    [2^32 - 2], fewer than [2^32] rows), [bwd_indices_] is a permutation
    of the indices 0, 1, ..., [|shortcuts_| - 1]: every shortcut is listed
    exactly once in the backward adjacency. *)
Theorem load_shortcuts_bwd_indices `{Stl} (em : gmap Z CSREdgeMeta)
    (tl : list TempShortcut) (g : CSRGraph) :
  Forall (λ x, 0 ≤ t_from x < 2 ^ 32 - 2 ∧ 0 ≤ t_to x < 2 ^ 32 - 2) tl →
  Z.of_nat (length tl) < 2 ^ 32 →
  load_shortcuts em tl = Some g →
  bwd_indices_ g ≡ₚ seqZ 0 (Z.of_nat (length (shortcuts_ g))).
Proof.
  intros Hids Hsize Hload.
  destruct (load_shortcuts_wf em tl g Hids Hsize Hload) as (Hwf & _ & _).
  symmetry. by apply bwd_indices_perm.
Qed.

Lemma load_shortcuts_bwd_indices_witness :
  bwd_indices_ g_dup ≡ₚ seqZ 0 (Z.of_nat (length (shortcuts_ g_dup))).
Proof.
  apply (@load_shortcuts_bwd_indices stl_ref
           (list_to_map [(1, meta 1); (2, meta 1); (3, meta 1)])
           [temp 1 3 10 0 1; temp 1 3 10 2 1; temp 1 2 4 0 1; temp 2 3 5 0 1] g_dup).
  - repeat (apply Forall_cons; split; [cbn; lia|]). constructor.
  - cbn. lia.
  - reflexivity.
Defined.

(** The ranges that the accessors return lie inside the arrays. *)
Lemma ranges_in_bounds g u :
  csr_wf g → 0 ≤ u →
  (0 ≤ (get_fwd_range g u).1 ≤ (get_fwd_range g u).2
   ∧ (get_fwd_range g u).2 ≤ Z.of_nat (length (shortcuts_ g)))
  ∧ (0 ≤ (get_bwd_range g u).1 ≤ (get_bwd_range g u).2
     ∧ (get_bwd_range g u).2 ≤ Z.of_nat (length (bwd_indices_ g))).
Proof.
  intros Hwf Hu. rewrite (wf_idx_len g Hwf).
  destruct (decide (u ≤ max_edge_id_ g)) as [Hle|Hgt].
  - rewrite get_fwd_range_wf, get_bwd_range_wf by done. cbn [fst snd].
    pose proof (below_range sc_from u (shortcuts_ g)).
    pose proof (below_range sc_from (u + 1) (shortcuts_ g)).
    pose proof (below_mono sc_from u (u + 1) (shortcuts_ g)).
    pose proof (below_range sc_to u (shortcuts_ g)).
    pose proof (below_range sc_to (u + 1) (shortcuts_ g)).
    pose proof (below_mono sc_to u (u + 1) (shortcuts_ g)). lia.
  - unfold get_fwd_range, get_bwd_range.
    rewrite is_valid_edge_wf, bool_decide_eq_false_2 by done. cbn [fst snd]. lia.
Qed.

(** X9.  After a successful [load_shortcuts], for every edge id the
    forward range lies within [shortcuts_], the backward range within
    [bwd_indices_], and every entry of [bwd_indices_] is an index of
    [shortcuts_]: the loops over the ranges, with or without their
    bound checks, read no array out of range. *)
Theorem load_shortcuts_in_bounds `{Stl} (em : gmap Z CSREdgeMeta)
    (tl : list TempShortcut) (g : CSRGraph) :
  Forall (λ x, 0 ≤ t_from x < 2 ^ 32 - 2 ∧ 0 ≤ t_to x < 2 ^ 32 - 2) tl →
  Z.of_nat (length tl) < 2 ^ 32 →
  load_shortcuts em tl = Some g →
  (∀ u, 0 ≤ u →
     (0 ≤ (get_fwd_range g u).1 ≤ (get_fwd_range g u).2
      ∧ (get_fwd_range g u).2 ≤ Z.of_nat (length (shortcuts_ g)))
     ∧ (0 ≤ (get_bwd_range g u).1 ≤ (get_bwd_range g u).2
        ∧ (get_bwd_range g u).2 ≤ Z.of_nat (length (bwd_indices_ g))))
  ∧ Forall (λ idx, 0 ≤ idx < Z.of_nat (length (shortcuts_ g))) (bwd_indices_ g).
Proof.
  intros Hids Hsize Hload.
  destruct (load_shortcuts_wf em tl g Hids Hsize Hload) as (Hwf & _ & _).
  split; [intros u Hu; by apply ranges_in_bounds|].
  rewrite <- (bwd_indices_perm g Hwf). apply Forall_forall. intros x Hx.
  by apply elem_of_seqZ in Hx.
Qed.

Lemma load_shortcuts_in_bounds_witness :
  (∀ u, 0 ≤ u →
     (0 ≤ (get_fwd_range g_dup u).1 ≤ (get_fwd_range g_dup u).2
      ∧ (get_fwd_range g_dup u).2 ≤ Z.of_nat (length (shortcuts_ g_dup)))
     ∧ (0 ≤ (get_bwd_range g_dup u).1 ≤ (get_bwd_range g_dup u).2
        ∧ (get_bwd_range g_dup u).2 ≤ Z.of_nat (length (bwd_indices_ g_dup))))
  ∧ Forall (λ idx, 0 ≤ idx < Z.of_nat (length (shortcuts_ g_dup))) (bwd_indices_ g_dup).
Proof.
  apply (@load_shortcuts_in_bounds stl_ref
           (list_to_map [(1, meta 1); (2, meta 1); (3, meta 1)])
           [temp 1 3 10 0 1; temp 1 3 10 2 1; temp 1 2 4 0 1; temp 2 3 5 0 1] g_dup).
  - repeat (apply Forall_cons; split; [cbn; lia|]). constructor.
  - cbn. lia.
  - reflexivity.
Defined.

(** ** [CSRGraph::find_shortcut_index] *)

(** The loop of [find_shortcut_index] returns -1 when no shortcut of the
    range has the target, and the index of the first one that has. *)
Lemma find_to_first (l : list CSRShortcut) (i v : Z) :
  0 ≤ i → i + Z.of_nat (length l) ≤ 2 ^ 31 →
  (find_to l i v = -1 ∧ Forall (λ sc, sc_to sc ≠ v) l)
  ∨ ∃ (k : nat) sc, find_to l i v = i + Z.of_nat k ∧ l !! k = Some sc ∧ sc_to sc = v
                    ∧ ∀ j sc', (j < k)%nat → l !! j = Some sc' → sc_to sc' ≠ v.
Proof.
  revert i. induction l as [|a l IH]; intros i Hi Hlen; [left; by split|].
  cbn [find_to length] in *. destruct (Z.eqb_spec (sc_to a) v) as [Heq|Hne].
  - right. exists 0%nat, a. split; [rewrite int32_small; lia|]. split; [done|].
    split; [done|]. intros j sc' Hj. lia.
  - destruct (IH (i + 1)) as [[Hnone Hall]|(k & sc & Hk & Hsc & Hv & Hfirst)]; [lia|lia| |].
    + left. split; [done|]. by constructor.
    + right. exists (S k), sc. split; [lia|]. split; [done|]. split; [done|].
      intros j sc' Hj Hsc'. destruct j as [|j]; simpl in Hsc'.
      * by injection Hsc' as <-.
      * apply (Hfirst j sc'); [lia|done].
Qed.

Lemma find_shortcut_index_wf g u v :
  csr_wf g → Z.of_nat (length (shortcuts_ g)) < 2 ^ 31 → 0 ≤ u →
  (find_shortcut_index g u v = -1
   ∧ ∀ sc, sc ∈ shortcuts_ g → sc_from sc = u → sc_to sc ≠ v)
  ∨ (0 ≤ find_shortcut_index g u v < Z.of_nat (length (shortcuts_ g))
     ∧ ∃ sc, shortcuts_ g !! Z.to_nat (find_shortcut_index g u v) = Some sc
             ∧ sc_from sc = u ∧ sc_to sc = v
             ∧ ∀ j sc', (j < Z.to_nat (find_shortcut_index g u v))%nat →
                        shortcuts_ g !! j = Some sc' →
                        ¬ (sc_from sc' = u ∧ sc_to sc' = v)).
Proof.
  intros Hwf Hsize Hu. unfold find_shortcut_index.
  pose proof (fwd_shortcuts_wf g u Hwf Hu) as Hslice. unfold fwd_shortcuts in Hslice.
  destruct (ranges_in_bounds g u Hwf Hu) as [(Hfirst0 & Hlast) _].
  destruct (get_fwd_range g u) as [first last] eqn:Hrange. cbn [fst snd] in *.
  assert (∀ k sc, slice first last (shortcuts_ g) !! k = Some sc →
                  shortcuts_ g !! (Z.to_nat first + k)%nat = Some sc) as Hlook.
  { intros k sc. unfold slice. intros Hk.
    apply lookup_take_Some in Hk as [Hk _]. by rewrite lookup_drop in Hk. }
  destruct (find_to_first (slice first last (shortcuts_ g)) first v)
    as [[Hnone Hall]|(k & sc & Hk & Hsc & Hv & Hmin)]; [lia| | |].
  { unfold slice. rewrite length_take, length_drop. lia. }
  - left. split; [done|]. intros sc Hin Hfrom.
    rewrite Forall_forall in Hall. apply Hall. rewrite Hslice.
    by apply list_elem_of_filter.
  - right. rewrite Hk.
    pose proof (Hlook k sc Hsc) as Hidx.
    replace (Z.to_nat (first + Z.of_nat k)) with (Z.to_nat first + k)%nat by lia.
    split.
    { apply lookup_lt_Some in Hidx. lia. }
    exists sc. split; [done|].
    assert (sc ∈ slice first last (shortcuts_ g)) as Hin by by eapply list_elem_of_lookup_2.
    rewrite Hslice in Hin. apply list_elem_of_filter in Hin as [Hfrom _].
    split; [done|]. split; [done|].
    intros j sc' Hj Hsc' [Hfrom' Hto'].
    destruct (decide (j < Z.to_nat first)%nat) as [Hlt|Hge].
    + assert (first = below sc_from u (shortcuts_ g)) as Hf.
      { destruct (decide (u ≤ max_edge_id_ g)) as [Hle|Hgt].
        - rewrite get_fwd_range_wf in Hrange by done. by injection Hrange as <- _.
        - unfold get_fwd_range in Hrange.
          rewrite is_valid_edge_wf, bool_decide_eq_false_2 in Hrange by done.
          apply lookup_lt_Some in Hidx. injection Hrange as <- <-.
          unfold slice in Hsc. by rewrite take_0 in Hsc. }
      pose proof (sorted_index_below sc_from (shortcuts_ g) j sc' (wf_sorted g Hwf) Hsc')
        as [Hlow _].
      rewrite Hfrom' in Hlow. lia.
    + apply (Hmin (j - Z.to_nat first)%nat sc'); [lia| |done].
      unfold slice. rewrite lookup_take_lt.
      * rewrite lookup_drop. by replace (Z.to_nat first + (j - Z.to_nat first))%nat with j by lia.
      * apply lookup_lt_Some in Hsc. unfold slice in Hsc. rewrite length_take in Hsc. lia.
Qed.

(** X10.  After a successful [load_shortcuts] (edge identifiers below
    [2^32 - 2], fewer than [2^31] rows, so that the cast of the index to
    [int] is exact), [find_shortcut_index(u, v)] is -1 exactly when no
    shortcut goes from [u] to [v]; otherwise it is the least index of a
    shortcut from [u] to [v]. *)
Theorem find_shortcut_index_first `{Stl} (em : gmap Z CSREdgeMeta)
    (tl : list TempShortcut) (g : CSRGraph) (u v : Z) :
  Forall (λ x, 0 ≤ t_from x < 2 ^ 32 - 2 ∧ 0 ≤ t_to x < 2 ^ 32 - 2) tl →
  Z.of_nat (length tl) < 2 ^ 31 →
  load_shortcuts em tl = Some g → 0 ≤ u →
  (find_shortcut_index g u v = -1
   ∧ ∀ sc, sc ∈ shortcuts_ g → sc_from sc = u → sc_to sc ≠ v)
  ∨ (0 ≤ find_shortcut_index g u v < 2 ^ 31
     ∧ ∃ sc, shortcuts_ g !! Z.to_nat (find_shortcut_index g u v) = Some sc
             ∧ sc_from sc = u ∧ sc_to sc = v
             ∧ ∀ j sc', (j < Z.to_nat (find_shortcut_index g u v))%nat →
                        shortcuts_ g !! j = Some sc' →
                        ¬ (sc_from sc' = u ∧ sc_to sc' = v)).
Proof.
  intros Hids Hsize Hload Hu.
  destruct (load_shortcuts_wf em tl g Hids ltac:(lia) Hload) as (Hwf & Hperm & _).
  apply Permutation_length in Hperm. rewrite length_fmap in Hperm.
  destruct (find_shortcut_index_wf g u v Hwf ltac:(lia) Hu) as [Hnone|[Hrange Hsome]];
    [by left|].
  right. split; [|done]. lia.
Qed.

Lemma find_shortcut_index_first_witness :
  (find_shortcut_index g_dup 1 3 = -1
   ∧ ∀ sc, sc ∈ shortcuts_ g_dup → sc_from sc = 1 → sc_to sc ≠ 3)
  ∨ (0 ≤ find_shortcut_index g_dup 1 3 < 2 ^ 31
     ∧ ∃ sc, shortcuts_ g_dup !! Z.to_nat (find_shortcut_index g_dup 1 3) = Some sc
             ∧ sc_from sc = 1 ∧ sc_to sc = 3
             ∧ ∀ j sc', (j < Z.to_nat (find_shortcut_index g_dup 1 3))%nat →
                        shortcuts_ g_dup !! j = Some sc' →
                        ¬ (sc_from sc' = 1 ∧ sc_to sc' = 3)).
Proof.
  apply (@find_shortcut_index_first stl_ref
           (list_to_map [(1, meta 1); (2, meta 1); (3, meta 1)])
           [temp 1 3 10 0 1; temp 1 3 10 2 1; temp 1 2 4 0 1; temp 2 3 5 0 1] g_dup).
  - repeat (apply Forall_cons; split; [cbn; lia|]). constructor.
  - cbn. lia.
  - reflexivity.
  - lia.
Defined.

(** ** [CSRGraph::expand_path]: composition *)

Lemma expand_path_pairs g (p : list Z) :
  p ≠ [] → expand_path g p = expand_pairs g p ++ [List.last p 0].
Proof. destruct p as [|a [|b rest]]; done. Qed.

Lemma expand_pairs_app g (l1 : list Z) m l2 :
  expand_pairs g (l1 ++ m :: l2) = expand_pairs g (l1 ++ [m]) ++ expand_pairs g (m :: l2).
Proof.
  induction l1 as [|a l1 IH]; [done|].
  destruct l1 as [|b l1].
  - cbn [app expand_pairs]. by rewrite app_nil_r.
  - change ((a :: b :: l1) ++ m :: l2) with (a :: b :: (l1 ++ m :: l2)).
    change ((a :: b :: l1) ++ [m]) with (a :: b :: (l1 ++ [m])).
    cbn [expand_pairs]. rewrite <- app_assoc. f_equal. exact IH.
Qed.

Lemma expand_path_head g a (rest : list Z) :
  ∃ l, expand_path g (a :: rest) = a :: l.
Proof.
  destruct rest as [|b rest]; [by eexists|].
  unfold expand_path. destruct (expand_pairs_head g a b rest) as [l ->]. by eexists.
Qed.

(** X11.  A path can be expanded piece by piece: the expansion of a path
    cut at an edge [m] is the expansion of the part up to [m] followed by
    the expansion of the part from [m], without the repeated [m]. *)
Theorem expand_path_app (g : CSRGraph) (l1 : list Z) (m : Z) (l2 : list Z) :
  expand_path g (l1 ++ m :: l2)
  = expand_path g (l1 ++ [m]) ++ tail (expand_path g (m :: l2)).
Proof.
  rewrite (expand_path_pairs g (l1 ++ m :: l2)) by by destruct l1.
  rewrite (expand_path_pairs g (l1 ++ [m])) by by destruct l1.
  rewrite expand_pairs_app, <- !app_assoc. f_equal.
  assert (List.last (l1 ++ [m]) 0 = m) as -> by apply last_last.
  assert (List.last (l1 ++ m :: l2) 0 = List.last (m :: l2) 0) as ->.
  { clear. induction l1 as [|a l1 IH]; [done|]. destruct l1; [done|]. exact IH. }
  rewrite <- (expand_path_pairs g (m :: l2)) by done.
  by destruct (expand_path_head g m l2) as [l ->].
Qed.

(** X12.  The expansion keeps the edges of the path given, in their
    order: the input is a subsequence of the output, which is therefore
    at least as long. *)
Theorem expand_path_sublist (g : CSRGraph) (p : list Z) :
  sublist p (expand_path g p) ∧ (length p ≤ length (expand_path g p))%nat.
Proof.
  assert (sublist p (expand_path g p)) as Hsub.
  { induction p as [|a p IH]; [done|].
    destruct p as [|b rest]; [done|].
    change (a :: b :: rest) with ([a] ++ b :: rest).
    rewrite expand_path_app. cbn [app].
    rewrite expand_path_pair.
    destruct (expand_head g 51 a b) as [l ->].
    destruct (expand_path_head g b rest) as [l' Hl']. rewrite Hl' in IH |- *.
    cbn [tail app]. constructor. rewrite <- app_assoc.
    apply sublist_inserts_l. exact IH. }
  split; [done|]. by apply sublist_length.
Qed.

(** ** [CSRGraph::expand_path]: nothing is left to expand *)

(** The three tests after which [expand] pushes [u] and returns, below
    the depth cap: no shortcut found, or a via edge that is [u], [v]
    or 0. *)
Definition stops (g : CSRGraph) (u v : Z) : bool :=
  let idx := find_shortcut_index g u v in
  if (idx <? 0) || (idx >=? int32 (Z.of_nat (length (shortcuts_ g)))) then true
  else match shortcuts_ g !! Z.to_nat idx with
       | None => true
       | Some sc => (sc_via_edge sc =? u) || (sc_via_edge sc =? v) || (sc_via_edge sc =? 0)
       end.

(** [P] holds of every two consecutive edges of the path. *)
Fixpoint all_pairs (P : Z → Z → bool) (l : list Z) : bool :=
  match l with
  | a :: (b :: _) as rest => P a b && all_pairs P rest
  | _ => true
  end.

Lemma expand_stops g n u v : stops g u v = true → expand g (S n) u v = [u].
Proof.
  unfold stops. cbn [expand].
  destruct ((find_shortcut_index g u v <? 0)
            || (find_shortcut_index g u v >=? int32 (Z.of_nat (length (shortcuts_ g))))); [done|].
  destruct (shortcuts_ g !! Z.to_nat (find_shortcut_index g u v)) as [sc|]; [|done].
  by intros ->.
Qed.

Lemma expand_not_stops g n u v :
  stops g u v = false →
  ∃ sc, expand g (S n) u v = expand g n u (sc_via_edge sc) ++ expand g n (sc_via_edge sc) v
        ∧ within_cap g (S n) u v
          = within_cap g n u (sc_via_edge sc) && within_cap g n (sc_via_edge sc) v.
Proof.
  unfold stops. cbn [expand within_cap].
  destruct ((find_shortcut_index g u v <? 0)
            || (find_shortcut_index g u v >=? int32 (Z.of_nat (length (shortcuts_ g))))); [done|].
  destruct (shortcuts_ g !! Z.to_nat (find_shortcut_index g u v)) as [sc|]; [|done].
  intros ->. by exists sc.
Qed.

Lemma all_pairs_app P (l1 : list Z) w l2 :
  all_pairs P (l1 ++ [w]) = true → all_pairs P (w :: l2) = true →
  all_pairs P (l1 ++ w :: l2) = true.
Proof.
  intros H1 H2. induction l1 as [|a l1 IH]; [done|].
  destruct l1 as [|b l1].
  - cbn [app all_pairs] in H1 |- *. apply andb_true_iff in H1 as [H1 _].
    apply andb_true_iff. by split.
  - change ((a :: b :: l1) ++ [w]) with (a :: b :: (l1 ++ [w])) in H1.
    change ((a :: b :: l1) ++ w :: l2) with (a :: b :: (l1 ++ w :: l2)).
    cbn [all_pairs] in H1 |- *. apply andb_true_iff in H1 as [H1 H1'].
    apply andb_true_iff. split; [done|]. by apply IH.
Qed.

(** Within the cap, [expand] stops at every pair of consecutive edges
    of what it returns. *)
Lemma expand_all_stop g n u v :
  within_cap g n u v = true → all_pairs (stops g) (expand g n u v ++ [v]) = true.
Proof.
  revert u v. induction n as [|n IH]; intros u v Hcap; [done|].
  destruct (stops g u v) eqn:Hstop.
  - rewrite (expand_stops g n u v Hstop). cbn [app all_pairs]. by rewrite Hstop.
  - destruct (expand_not_stops g n u v Hstop) as (sc & -> & Hcap').
    rewrite Hcap' in Hcap. apply andb_true_iff in Hcap as [H1 H2].
    specialize (IH _ _ H1) as IH1. specialize (IH _ _ H2) as IH2.
    destruct (expand_head g n (sc_via_edge sc) v) as [l Hl]. rewrite Hl in IH2 |- *.
    rewrite <- app_assoc. cbn [app] in IH2 |- *. by apply all_pairs_app.
Qed.

Lemma expand_path_all_stop g (p : list Z) :
  all_pairs (within_cap g 51) p = true → all_pairs (stops g) (expand_path g p) = true.
Proof.
  induction p as [|a p IH]; [done|]. destruct p as [|b rest]; [done|].
  cbn [all_pairs]. intros Hcap. apply andb_true_iff in Hcap as [Hab Hrest].
  change (a :: b :: rest) with ([a] ++ b :: rest). rewrite expand_path_app. cbn [app].
  rewrite expand_path_pair. specialize (IH Hrest).
  destruct (expand_path_head g b rest) as [l Hl]. rewrite Hl in IH |- *. cbn [tail].
  rewrite <- app_assoc. cbn [app]. apply all_pairs_app; [|done].
  by apply expand_all_stop.
Qed.

Lemma expand_path_fixed g (p : list Z) :
  all_pairs (stops g) p = true → expand_path g p = p.
Proof.
  induction p as [|a p IH]; [done|]. destruct p as [|b rest]; [done|].
  cbn [all_pairs]. intros Hstop. apply andb_true_iff in Hstop as [Hab Hrest].
  change (a :: b :: rest) with ([a] ++ b :: rest). rewrite expand_path_app. cbn [app].
  rewrite expand_path_pair, (expand_stops g 50 a b Hab), (IH Hrest). done.
Qed.

(** X13.  When the expansion of every pair of consecutive edges of a
    path stays within the depth cap of 50, the path returned has nothing
    left to expand: [expand_path] returns it unchanged. *)
Theorem expand_path_idempotent (g : CSRGraph) (p : list Z) :
  all_pairs (within_cap g 51) p = true →
  expand_path g (expand_path g p) = expand_path g p.
Proof. intros Hcap. by apply expand_path_fixed, expand_path_all_stop. Qed.

Lemma expand_path_idempotent_witness :
  expand_path g_s5 (expand_path g_s5 [1; 3]) = expand_path g_s5 [1; 3].
Proof. apply (expand_path_idempotent g_s5 [1; 3]). reflexivity. Defined.
(** ** [CSRGraph::query_classic_alt] *)

(** The loop of [query_classic] reads its arcs edge by edge. *)
Lemma classic_half_ext `{Stl} arcs arcs' this other m :
  (∀ u, arcs u = arcs' u) → classic_half arcs this other m = classic_half arcs' this other m.
Proof.
  intros Hext. unfold classic_half. destruct (pq_pop (pq this)) as [[[d u] q]|]; [|done].
  by rewrite Hext.
Qed.

Lemma classic_loop_ext `{Stl} fuel farcs farcs' barcs barcs' f b m :
  (∀ u, farcs u = farcs' u) → (∀ u, barcs u = barcs' u) →
  classic_loop fuel farcs barcs f b m = classic_loop fuel farcs' barcs' f b m.
Proof.
  intros Hf Hb. revert f b m. induction fuel as [|fuel IH]; intros f b m; [done|].
  cbn [classic_loop]. destruct (pq_empty (pq f) && pq_empty (pq b)); [done|].
  rewrite (classic_half_ext farcs farcs' f b m Hf).
  destruct (classic_half farcs' f b m) as [cont [f1 m1]].
  destruct cont; [apply IH|].
  rewrite (classic_half_ext barcs barcs' b f1 m1 Hb).
  destruct (classic_half barcs' b f1 m1) as [cont [b1 m2]].
  destruct cont; [apply IH|]. destruct (classic_done f1 b1 m2); [done|]. apply IH.
Qed.

(** Every two consecutive edges of the list are related by [R]. *)
Inductive linked (R : Z → Z → Prop) : list Z → Prop :=
  | linked_one x : linked R [x]
  | linked_cons a b l : R a b → linked R (b :: l) → linked R (a :: b :: l).

Lemma linked_app R (l1 : list Z) m l2 :
  linked R (l1 ++ [m]) → linked R (m :: l2) → linked R (l1 ++ m :: l2).
Proof.
  intros H1 H2. induction l1 as [|a l1 IH]; [done|].
  destruct l1 as [|b l1].
  - cbn [app] in H1 |- *. inversion H1; subst. by constructor.
  - change ((a :: b :: l1) ++ [m]) with (a :: b :: (l1 ++ [m])) in H1.
    change ((a :: b :: l1) ++ m :: l2) with (a :: b :: (l1 ++ m :: l2)).
    inversion H1; subst. constructor; [done|]. by apply IH.
Qed.

Lemma linked_reverse R (l : list Z) : linked R l → linked (flip R) (reverse l).
Proof.
  induction 1 as [x|a b l Hab Hl IH]; [constructor|].
  rewrite reverse_cons. rewrite reverse_cons in IH |- *. rewrite <- app_assoc. cbn [app].
  apply linked_app; [done|]. constructor; [done|constructor].
Qed.

Lemma linked_impl (R R' : Z → Z → Prop) (l : list Z) :
  (∀ a b, R a b → R' a b) → linked R l → linked R' l.
Proof. intros Himp. induction 1; constructor; auto. Qed.

(** A chain of parents links every edge to its parent by an arc, and
    parents have a distance. *)
Lemma chain_linked arcs root key f v l :
  finv arcs root key f → chain (parent f) root v l →
  linked (λ x p, is_Some (dist f !! p) ∧ ∃ c, (x, c) ∈ arcs p) l.
Proof.
  intros Hinv. induction 1 as [Hroot|v p l Hp Hne Hnin Hc IH]; [constructor|].
  destruct (chain_head _ _ _ _ Hc) as [l' ->].
  destruct (fi_tree _ _ _ _ Hinv v p Hp Hne) as (dp & c & [Hdp _] & Harc & _).
  constructor; [|done]. split; [by exists dp|by exists c].
Qed.

(** [a] has a shortcut to [b] in its forward range. *)
Definition segment (g : CSRGraph) (a b : Z) : Prop :=
  0 ≤ a ∧ ∃ sc, sc ∈ fwd_shortcuts g a ∧ sc_to sc = b.

Lemma find_Some_elem {A} (P : A → bool) (l : list A) x :
  x ∈ l → P x = true → ∃ y, List.find P l = Some y ∧ y ∈ l ∧ P y = true.
Proof.
  induction l as [|a l IH]; intros Hin HP; [by apply elem_of_nil in Hin|].
  simpl. destruct (P a) eqn:Ha.
  - exists a. split; [done|]. split; [constructor|done].
  - apply elem_of_cons in Hin as [->|Hin]; [congruence|].
    destruct (IH Hin HP) as (y & Hy & Hyl & HPy). exists y. split; [done|].
    split; [by constructor|done].
Qed.

Lemma true_total_step g a b l total :
  true_total g (a :: b :: l) total
  = match List.find (λ sc, sc_to sc =? b) (fwd_shortcuts g a) with
    | Some sc => true_total g (b :: l) (total + sc_cost sc)
    | None => None
    end.
Proof. done. Qed.

(** Along a path of segments, the loop of the cost without penalties
    finds every segment and adds up the cost of a path of shortcuts. *)
Lemma true_total_linked g (p : list Z) :
  csr_wf g → linked (segment g) p →
  ∃ c, (∀ total, true_total g p total = Some (total + c)) ∧ spath g p c.
Proof.
  intros Hwf Hl. induction Hl as [x|a b l [Ha (sc & Hsc & Hto)] Hl (c & IH & Hp)].
  - exists 0. split; [intros total; simpl; f_equal; lia|constructor].
  - destruct (find_Some_elem (λ sc, sc_to sc =? b) (fwd_shortcuts g a) sc Hsc)
      as (sc' & Hfind & Hin & Hto'); [by apply Z.eqb_eq|].
    apply Z.eqb_eq in Hto'.
    exists (sc_cost sc' + c). split.
    + intros total. rewrite true_total_step, Hfind, IH. f_equal. lia.
    + rewrite fwd_shortcuts_wf in Hin by done.
      apply list_elem_of_filter in Hin as [Hfrom Hin]. by apply spath_cons.
Qed.

Section classic_alt.
Context `{Stl} (g : CSRGraph) (times : Z → Z) (pset : gset Z).
Context (Hwf : csr_wf g).
Context (Hcost : Forall (λ sc, 0 ≤ sc_cost sc) (shortcuts_ g)).
Context (Htimes : ∀ c, 0 ≤ c → 0 ≤ times c).

Lemma alt_fwd_arcs_elem u a :
  a ∈ alt_fwd_arcs times pset g u →
  ∃ sc, sc ∈ fwd_shortcuts g u ∧ sc ∈ shortcuts_ g ∧ a.1 = sc_to sc
        ∧ a.2 = alt_cost times pset (sc_to sc) sc.
Proof.
  unfold alt_fwd_arcs. intros Ha. apply list_elem_of_fmap in Ha as (sc & -> & Hsc).
  apply list_elem_of_filter in Hsc as [_ Hsc]. exists sc. split; [done|]. split; [|done].
  unfold fwd_shortcuts, slice in Hsc. destruct (get_fwd_range g u) as [x y].
  by eapply subseteq_drop, subseteq_take.
Qed.

Lemma alt_bwd_arcs_elem u a :
  a ∈ alt_bwd_arcs times pset g u →
  ∃ sc, sc ∈ bwd_shortcuts g u ∧ sc ∈ shortcuts_ g ∧ a.1 = sc_from sc
        ∧ a.2 = alt_cost times pset (sc_from sc) sc.
Proof.
  unfold alt_bwd_arcs. intros Ha. apply list_elem_of_fmap in Ha as (sc & -> & Hsc).
  apply list_elem_of_filter in Hsc as [_ Hsc]. exists sc. split; [done|]. split; [|done].
  unfold bwd_shortcuts in Hsc. destruct (get_bwd_range g u) as [x y].
  apply list_elem_of_omap in Hsc as (idx & _ & Hidx).
  destruct (idx <? 0); [done|]. by eapply list_elem_of_lookup_2.
Qed.

Lemma alt_cost_nonneg far sc : sc ∈ shortcuts_ g → 0 ≤ alt_cost times pset far sc.
Proof.
  intros Hin. rewrite Forall_forall in Hcost. specialize (Hcost sc Hin).
  unfold alt_cost. destruct (_ || _); [by apply Htimes|done].
Qed.

Lemma alt_fwd_arcs_nonneg u a : a ∈ alt_fwd_arcs times pset g u → 0 ≤ a.2.
Proof.
  intros Ha. destruct (alt_fwd_arcs_elem u a Ha) as (sc & _ & Hin & _ & ->).
  by apply alt_cost_nonneg.
Qed.

Lemma alt_bwd_arcs_nonneg u a : a ∈ alt_bwd_arcs times pset g u → 0 ≤ a.2.
Proof.
  intros Ha. destruct (alt_bwd_arcs_elem u a Ha) as (sc & _ & Hin & _ & ->).
  by apply alt_cost_nonneg.
Qed.

Lemma alt_fwd_arcs_heads u a : a ∈ alt_fwd_arcs times pset g u → 0 ≤ a.1.
Proof.
  intros Ha. destruct (alt_fwd_arcs_elem u a Ha) as (sc & _ & Hin & -> & _).
  pose proof (wf_ids g Hwf) as Hids. rewrite Forall_forall in Hids.
  specialize (Hids sc Hin). lia.
Qed.

Lemma alt_bwd_arcs_heads u a : a ∈ alt_bwd_arcs times pset g u → 0 ≤ a.1.
Proof.
  intros Ha. destruct (alt_bwd_arcs_elem u a Ha) as (sc & _ & Hin & -> & _).
  pose proof (wf_ids g Hwf) as Hids. rewrite Forall_forall in Hids.
  specialize (Hids sc Hin). lia.
Qed.

Lemma alt_fwd_arcs_count u :
  0 ≤ u →
  (length (alt_fwd_arcs times pset g u)
   ≤ length (filter (λ x, x = u) (sc_from <$> shortcuts_ g)))%nat.
Proof.
  intros Hu. pose proof (fwd_arcs_count g climbs u Hwf Hu) as Hc.
  unfold alt_fwd_arcs. unfold fwd_arcs in Hc. by rewrite length_fmap in Hc |- *.
Qed.

Lemma alt_bwd_arcs_count u :
  0 ≤ u →
  (length (alt_bwd_arcs times pset g u)
   ≤ length (filter (λ x, x = u) (sc_to <$> shortcuts_ g)))%nat.
Proof.
  intros Hu. pose proof (bwd_arcs_count g descends u Hwf Hu) as Hc.
  unfold alt_bwd_arcs. unfold bwd_arcs in Hc. by rewrite length_fmap in Hc |- *.
Qed.

(** The path that the reconstruction builds from the two chains of
    [meeting] is a path of segments from the source to the target. *)
Lemma alt_path_linked s t tc f b m x y lf lb :
  0 ≤ s → 0 ≤ t →
  finv (alt_fwd_arcs times pset g) s 0 f → finv (alt_bwd_arcs times pset g) t tc b →
  dist f !! m = Some x → dist b !! m = Some y →
  chain (parent f) s m lf → chain (parent b) t m lb →
  linked (segment g) (reverse lf ++ tail lb)
  ∧ head (reverse lf ++ tail lb) = Some s ∧ last (reverse lf ++ tail lb) = Some t.
Proof.
  intros Hs Ht Hf Hb Hx Hy Hlf Hlb.
  pose proof (chain_linked _ _ _ _ _ _ Hf Hlf) as Hkf.
  pose proof (chain_linked _ _ _ _ _ _ Hb Hlb) as Hkb.
  assert (linked (segment g) (reverse lf)) as Hfwd.
  { apply linked_reverse in Hkf. eapply linked_impl; [|exact Hkf].
    intros p v [[dp Hdp] [c Harc]]. unfold flip.
    destruct (alt_fwd_arcs_elem p (v, c) Harc) as (sc & Hsc & _ & Hv & _). simpl in Hv.
    split.
    - apply (finv_nonneg (alt_fwd_arcs times pset g) s 0 alt_fwd_arcs_heads Hs f p dp Hf Hdp).
    - by exists sc. }
  assert (linked (segment g) lb) as Hbwd.
  { eapply linked_impl; [|exact Hkb].
    intros v p [[dp Hdp] [c Harc]].
    destruct (alt_bwd_arcs_elem p (v, c) Harc) as (sc & Hsc & Hin & Hv & _). simpl in Hv.
    pose proof (finv_nonneg (alt_bwd_arcs times pset g) t tc alt_bwd_arcs_heads Ht b p dp Hb Hdp)
      as Hp.
    rewrite bwd_shortcuts_wf in Hsc by done. apply list_elem_of_filter in Hsc as [Hto _].
    assert (0 ≤ v) as Hv0.
    { pose proof (wf_ids g Hwf) as Hids. rewrite Forall_forall in Hids.
      specialize (Hids sc Hin). lia. }
    split; [done|]. exists sc. split; [|done].
    rewrite fwd_shortcuts_wf by done. by apply list_elem_of_filter. }
  pose proof (chain_last _ _ _ _ Hlf) as Hlastf.
  pose proof (chain_last _ _ _ _ Hlb) as Hlastb.
  destruct (chain_head _ _ _ _ Hlf) as [lf' ->].
  destruct (chain_head _ _ _ _ Hlb) as [lb' ->].
  rewrite reverse_cons in Hfwd |- *. cbn [tail]. rewrite <- app_assoc. cbn [app].
  split; [by apply linked_app|]. split.
  - by rewrite head_reverse_app.
  - rewrite last_app. by rewrite Hlastb.
Qed.

End classic_alt.

Lemma string_length_app (x y : string) :
  String.length (x +:+ y) = (String.length x + String.length y)%nat.
Proof. induction x as [|a x IH]; [done|]. simpl. by rewrite IH. Qed.

Lemma string_app_inj_r (x y suffix : string) : x +:+ suffix = y +:+ suffix → x = y.
Proof.
  revert y. induction x as [|a x IH]; intros y Heq.
  - destruct y as [|b y]; [done|]. exfalso.
    apply (f_equal String.length) in Heq. simpl in Heq.
    rewrite !string_length_app in Heq. simpl in Heq. lia.
  - destruct y as [|b y].
    + exfalso. apply (f_equal String.length) in Heq. simpl in Heq.
      rewrite !string_length_app in Heq. simpl in Heq. lia.
    + simpl in Heq. injection Heq as -> Heq. f_equal. by apply IH.
Qed.

Lemma penalty_set_endpoints (pen : list Z) (s t : Z) :
  (∀ x, x ∈ pen → x = s ∨ x = t) → penalty_set pen s t = ∅.
Proof.
  intros Hpen. unfold penalty_set. apply set_eq. intros x.
  rewrite !elem_of_difference, elem_of_list_to_set, !elem_of_singleton.
  split; [|by intros ?%elem_of_empty].
  intros [[Hx Hs] Ht]. destruct (Hpen x Hx); done.
Qed.

Lemma alt_fwd_arcs_empty times g u : alt_fwd_arcs times ∅ g u = fwd_arcs climbs g u.
Proof.
  unfold alt_fwd_arcs, fwd_arcs. apply list_fmap_ext. intros _ sc _.
  unfold alt_cost. by rewrite !bool_decide_eq_false_2, andb_false_r by set_solver.
Qed.

Lemma alt_bwd_arcs_empty times g u : alt_bwd_arcs times ∅ g u = bwd_arcs descends g u.
Proof.
  unfold alt_bwd_arcs, bwd_arcs. apply list_fmap_ext. intros _ sc _.
  unfold alt_cost. by rewrite !bool_decide_eq_false_2, andb_false_r by set_solver.
Qed.

(** The search of [query_classic_alt] between two distinct valid edges:
    the loop ends, and when the two directions have met, the path is
    rebuilt, every segment of it is found again, and the cost without
    penalties is the cost of a path of shortcuts from the source to the
    target. *)
Lemma classic_alt_search `{Stl} fuel g s t times pset :
  csr_wf g → Forall (λ sc, 0 ≤ sc_cost sc) (shortcuts_ g) →
  (∀ c, 0 ≤ c → 0 ≤ times c) → 0 ≤ s → 0 ≤ t → s ≠ t →
  (2 * length (shortcuts_ g) + 3 ≤ fuel)%nat →
  ∃ f b m,
    classic_loop fuel (alt_fwd_arcs times pset g) (alt_bwd_arcs times pset g)
                 (seed s 0 s) (seed t (get_edge_cost g t) t) no_meet = Some (f, b, m)
    ∧ (found m = true →
       ∃ p c, bidir_path fuel (parent f) (parent b) (meeting m) = Some p
              ∧ (∀ total, true_total g p total = Some (total + c))
              ∧ spath g p c ∧ head p = Some s ∧ last p = Some t).
Proof.
  intros Hwf Hcost Htimes Hs Ht Hne Hfuel.
  set (tc := get_edge_cost g t).
  pose proof (alt_fwd_arcs_nonneg g times pset Hcost Htimes) as Hfnn.
  pose proof (alt_bwd_arcs_nonneg g times pset Hcost Htimes) as Hbnn.
  destruct (classic_loop_total (alt_fwd_arcs times pset g) (alt_bwd_arcs times pset g)
              Hfnn Hbnn s t tc (sc_from <$> shortcuts_ g) (sc_to <$> shortcuts_ g)
              (alt_fwd_arcs_count g times pset Hwf) (alt_bwd_arcs_count g times pset Hwf)
              (alt_fwd_arcs_heads g times pset Hwf) (alt_bwd_arcs_heads g times pset Hwf)
              Hs Ht fuel (seed s 0 s) (seed t tc t) no_meet) as [[[f b] m] Hloop].
  { apply seed_finv. }
  { apply seed_finv. }
  { done. }
  { pose proof (seed_potential s 0 (sc_from <$> shortcuts_ g)) as Hp1.
    pose proof (seed_potential t tc (sc_to <$> shortcuts_ g)) as Hp2.
    rewrite length_fmap in Hp1, Hp2. lia. }
  exists f, b, m. split; [done|]. intros Hfound.
  destruct (classic_loop_inv _ _ Hfnn Hbnn s t tc fuel _ _ _ f b m (binv_init _ _ s t tc Hne) Hloop)
    as (Hf & Hb & Hm).
  unfold meets in Hm. rewrite Hfound in Hm. destruct Hm as (x & y & Hx & Hy & _).
  destruct (fi_chain _ _ _ _ Hf _ _ Hx) as [lf Hlf].
  destruct (fi_chain _ _ _ _ Hb _ _ Hy) as [lb Hlb].
  assert (∀ u a, a ∈ alt_fwd_arcs times pset g u → a.1 ∈ sc_to <$> shortcuts_ g) as Hfh.
  { intros u a Ha. destruct (alt_fwd_arcs_elem g times pset u a Ha) as (sc & _ & Hin & -> & _).
    by apply list_elem_of_fmap_2. }
  assert (∀ u a, a ∈ alt_bwd_arcs times pset g u → a.1 ∈ sc_from <$> shortcuts_ g) as Hbh.
  { intros u a Ha. destruct (alt_bwd_arcs_elem g times pset u a Ha) as (sc & _ & Hin & -> & _).
    by apply list_elem_of_fmap_2. }
  pose proof (chain_length _ s 0 (sc_to <$> shortcuts_ g) f _ lf Hfh Hf Hlf) as Hlenf.
  pose proof (chain_length _ t tc (sc_from <$> shortcuts_ g) b _ lb Hbh Hb Hlb) as Hlenb.
  rewrite length_fmap in Hlenf, Hlenb.
  destruct (alt_path_linked g times pset Hwf s t tc f b (meeting m) x y lf lb
              Hs Ht Hf Hb Hx Hy Hlf Hlb) as (Hlinked & Hhead & Hlast).
  destruct (true_total_linked g _ Hwf Hlinked) as (c & Htotal & Hpath).
  exists (reverse lf ++ tail lb), c. split.
  { unfold bidir_path.
    rewrite (follow_chain_enough _ _ _ _ fuel Hlf) by lia.
    by rewrite (follow_chain_enough _ _ _ _ fuel Hlb) by lia. }
  done.
Qed.

(** X14.  On a loaded store with non-negative costs, a penalty factor
    that keeps costs non-negative, and fuel for twice the number of
    shortcuts plus three iterations, [query_classic_alt] returns, and
    never with "Path reconstruction error".  A reachable result has a
    path of stored shortcuts from the source to the target, and its
    distance is the cost of the source edge plus the cost of that path,
    without penalties. *)
Theorem query_classic_alt_cost `{Stl} (fuel : nat) (g : CSRGraph) (s t : Z)
    (penalized_nodes : list Z) (times : Z → Z) :
  csr_wf g → Forall (λ sc, 0 ≤ sc_cost sc) (shortcuts_ g) →
  (∀ c, 0 ≤ c → 0 ≤ times c) → 0 ≤ s → 0 ≤ t →
  (2 * length (shortcuts_ g) + 3 ≤ fuel)%nat →
  ∃ r, query_classic_alt fuel g s t penalized_nodes times = Some r
    ∧ error r ≠ "Path reconstruction error"
    ∧ (reachable r = true →
       ∃ c, spath g (path r) c ∧ distance r = Fin (get_edge_cost g s + c)
            ∧ head (path r) = Some s ∧ last (path r) = Some t).
Proof.
  intros Hwf Hcost Htimes Hs Ht Hfuel. unfold query_classic_alt.
  destruct (Z.eqb_spec s t) as [<-|Hne].
  { eexists. split; [done|]. split; [done|]. intros _. exists 0.
    split; [constructor|]. split; [cbn; f_equal; lia|done]. }
  destruct (is_valid_edge g s); cbn [negb]; [|by eexists].
  destruct (is_valid_edge g t); cbn [negb]; [|by eexists].
  cbn [classic_init].
  destruct (classic_alt_search fuel g s t times (penalty_set penalized_nodes s t)
              Hwf Hcost Htimes Hs Ht Hne Hfuel) as (f & b & m & -> & Hfound).
  destruct (found m); cbn [negb]; [|by eexists].
  destruct (Hfound eq_refl) as (p & c & -> & Htotal & Hpath & Hhead & Hlast).
  rewrite Htotal. eexists. split; [done|]. split; [done|]. intros _.
  cbn [path distance]. exists c. split; [done|]. split; [|done].
  destruct p as [|p0 p]; [done|]. simpl in Hhead. injection Hhead as ->. done.
Qed.

Lemma query_classic_alt_cost_witness :
  ∃ r, @query_classic_alt stl_ref 10 g_s1 1 2 [2; 5] (λ c, 3 * c) = Some r
    ∧ error r ≠ "Path reconstruction error"
    ∧ (reachable r = true →
       ∃ c, spath g_s1 (path r) c ∧ distance r = Fin (get_edge_cost g_s1 1 + c)
            ∧ head (path r) = Some 1 ∧ last (path r) = Some 2).
Proof.
  apply (@query_classic_alt_cost stl_ref 10 g_s1 1 2 [2; 5] (λ c, 3 * c)).
  - loaded_wf.
  - all_shortcuts.
  - intros c Hc. lia.
  - lia.
  - lia.
  - vm_compute. lia.
Defined.

(** X15.  On a loaded store, [query_classic_alt] between two distinct
    edges rejects a source above [max_edge_id_], and a target above it
    when the source is not, whether or not the edge is in [edge_meta_];
    the error message names the edge, so that different edges give
    different messages. *)
Theorem query_classic_alt_names_edge `{Stl} (fuel : nat) (g : CSRGraph) (s t : Z)
    (penalized_nodes : list Z) (times : Z → Z) :
  csr_wf g → 0 ≤ s → 0 ≤ t → s ≠ t →
  (max_edge_id_ g < s →
   query_classic_alt fuel g s t penalized_nodes times
   = Some (failed ("Source edge " +:+ pretty s +:+ " not found in graph")))
  ∧ (s ≤ max_edge_id_ g → max_edge_id_ g < t →
     query_classic_alt fuel g s t penalized_nodes times
     = Some (failed ("Target edge " +:+ pretty t +:+ " not found in graph")))
  ∧ (∀ e e' : Z, "Source edge " +:+ pretty e +:+ " not found in graph"
                 = "Source edge " +:+ pretty e' +:+ " not found in graph" → e = e')
  ∧ (∀ e e' : Z, "Target edge " +:+ pretty e +:+ " not found in graph"
                 = "Target edge " +:+ pretty e' +:+ " not found in graph" → e = e').
Proof.
  intros Hwf Hs Ht Hne. unfold query_classic_alt.
  destruct (Z.eqb_spec s t); [done|].
  rewrite !is_valid_edge_wf by done.
  split; [|split; [|split]].
  - intros Hgt. by rewrite bool_decide_eq_false_2 by lia.
  - intros Hle Hgt. rewrite bool_decide_eq_true_2 by lia.
    by rewrite bool_decide_eq_false_2 by lia.
  - intros e e' Heq. apply (inj (String.append "Source edge ")) in Heq.
    apply string_app_inj_r in Heq. by apply (inj pretty).
  - intros e e' Heq. apply (inj (String.append "Target edge ")) in Heq.
    apply string_app_inj_r in Heq. by apply (inj pretty).
Qed.

Lemma query_classic_alt_names_edge_witness :
  (max_edge_id_ g_s1 < 9999 →
   @query_classic_alt stl_ref 10 g_s1 9999 1 [] (λ c, c)
   = Some (failed ("Source edge " +:+ pretty 9999 +:+ " not found in graph")))
  ∧ (9999 ≤ max_edge_id_ g_s1 → max_edge_id_ g_s1 < 1 →
     @query_classic_alt stl_ref 10 g_s1 9999 1 [] (λ c, c)
     = Some (failed ("Target edge " +:+ pretty 1 +:+ " not found in graph")))
  ∧ (∀ e e' : Z, "Source edge " +:+ pretty e +:+ " not found in graph"
                 = "Source edge " +:+ pretty e' +:+ " not found in graph" → e = e')
  ∧ (∀ e e' : Z, "Target edge " +:+ pretty e +:+ " not found in graph"
                 = "Target edge " +:+ pretty e' +:+ " not found in graph" → e = e').
Proof.
  apply (@query_classic_alt_names_edge stl_ref 10 g_s1 9999 1 [] (λ c, c)).
  - loaded_wf.
  - lia.
  - lia.
  - lia.
Defined.

(** X16.  On a loaded store with non-negative costs and with enough
    fuel, for two endpoints that are both at most [max_edge_id_] (the
    test of [query_classic_alt]) and both in [edge_meta_] (the test of
    [query_classic]): when the only penalised edges are the endpoints
    themselves, which [query_classic_alt] never penalises,
    [query_classic_alt] returns the path of [query_classic] and the same
    [reachable], whatever the penalty factor. *)
Theorem query_classic_alt_no_penalty `{Stl} (fuel : nat) (g : CSRGraph) (s t : Z)
    (penalized_nodes : list Z) (times : Z → Z) :
  csr_wf g → Forall (λ sc, 0 ≤ sc_cost sc) (shortcuts_ g) →
  0 ≤ s ≤ max_edge_id_ g → 0 ≤ t ≤ max_edge_id_ g →
  is_Some (edge_meta_ g !! s) → is_Some (edge_meta_ g !! t) →
  (∀ x, x ∈ penalized_nodes → x = s ∨ x = t) →
  (2 * length (shortcuts_ g) + 3 ≤ fuel)%nat →
  ∃ rc ra, query_classic fuel g s t = Some rc
    ∧ query_classic_alt fuel g s t penalized_nodes times = Some ra
    ∧ path ra = path rc ∧ reachable ra = reachable rc.
Proof.
  intros Hwf Hcost Hs Ht Hms Hmt Hpen Hfuel.
  unfold query_classic, query_classic_alt.
  destruct (Z.eqb_spec s t) as [|Hne]; [by eexists _, _|].
  rewrite !is_valid_edge_wf, !bool_decide_eq_true_2 by (done || lia). cbn [negb].
  cbn [classic_init].
  rewrite (penalty_set_endpoints penalized_nodes s t Hpen).
  rewrite (classic_loop_ext fuel (alt_fwd_arcs times ∅ g) (alt_fwd_arcs (λ c, c) ∅ g)
             (alt_bwd_arcs times ∅ g) (alt_bwd_arcs (λ c, c) ∅ g))
    by (intros u; by rewrite ?alt_fwd_arcs_empty, ?alt_bwd_arcs_empty).
  destruct (classic_alt_search fuel g s t (λ c, c) ∅ Hwf Hcost ltac:(done)
              ltac:(lia) ltac:(lia) Hne Hfuel) as (f & b & m & Hloop & Hfound).
  rewrite Hloop.
  rewrite (classic_loop_ext fuel (alt_fwd_arcs (λ c, c) ∅ g) (fwd_arcs climbs g)
             (alt_bwd_arcs (λ c, c) ∅ g) (bwd_arcs descends g)) in Hloop
    by (intros u; by rewrite ?alt_fwd_arcs_empty, ?alt_bwd_arcs_empty).
  rewrite Hloop. unfold bidir_result.
  destruct (found m); cbn [negb]; [|by eexists _, _].
  destruct (Hfound eq_refl) as (p & c & -> & Htotal & _).
  rewrite Htotal. by eexists _, _.
Qed.

Lemma query_classic_alt_no_penalty_witness :
  ∃ rc ra, @query_classic stl_ref 10 g_s1 1 2 = Some rc
    ∧ @query_classic_alt stl_ref 10 g_s1 1 2 [1; 2; 2] (λ c, 3 * c) = Some ra
    ∧ path ra = path rc ∧ reachable ra = reachable rc.
Proof.
  apply (@query_classic_alt_no_penalty stl_ref 10 g_s1 1 2 [1; 2; 2] (λ c, 3 * c)).
  - loaded_wf.
  - all_shortcuts.
  - vm_compute. split; discriminate.
  - vm_compute. split; discriminate.
  - vm_compute. by eexists.
  - vm_compute. by eexists.
  - intros x Hx. apply elem_of_cons in Hx as [->|Hx]; [by left|].
    apply elem_of_cons in Hx as [->|Hx]; [by right|].
    apply elem_of_cons in Hx as [->|Hx]; [by right|]. by apply elem_of_nil in Hx.
  - vm_compute. lia.
Defined.

(** ** [CSRGraph::query_multi] *)

(** The direction of [query_multi] that no edge seeds. *)
Definition no_frontier : Frontier Z := {| dist := ∅; parent := ∅; pq := [] |}.

Lemma seed_all_known g key e :
  is_Some (edge_meta_ g !! e) → seed_all g key [e] = seed e (key e) e.
Proof.
  intros He. unfold seed_all, seed. cbn [foldl dist parent pq].
  rewrite (bool_decide_eq_true_2 _ He). by rewrite !insert_empty.
Qed.

Lemma seed_all_unknown g key l :
  Forall (λ e, edge_meta_ g !! e = None) l → seed_all g key l = no_frontier.
Proof.
  intros Hall. unfold seed_all. fold no_frontier. generalize no_frontier.
  induction Hall as [|e l He Hl IH]; intros f0; [done|].
  cbn [foldl]. rewrite bool_decide_eq_false_2; [apply IH|].
  rewrite He. by intros [? ?].
Qed.

Lemma pq_pop_nil `{Stl} A : pq_pop (@nil (Z * A)) = None.
Proof.
  destruct (pq_pop (@nil (Z * A))) as [[e q]|] eqn:Hpop; [|done].
  apply pq_pop_Some in Hpop as [Hperm _]. by apply Permutation_nil_cons in Hperm.
Qed.

Lemma classic_half_none `{Stl} arcs other m :
  classic_half arcs no_frontier other m = (false, (no_frontier, m)).
Proof. unfold classic_half, no_frontier. cbn [pq]. by rewrite pq_pop_nil. Qed.

(** Nothing meets a direction that has reached no edge. *)
Lemma foldl_relax_lone d u l f m : (foldl (relax ∅ d u) (f, m) l).2 = m.
Proof.
  revert f. induction l as [|a l IH]; intros f; [done|].
  cbn [foldl]. unfold relax at 2. cbn [fst snd].
  destruct (improves (dist f) a.1 (d + a.2)); [|apply IH].
  unfold meet_check. rewrite lookup_empty. apply IH.
Qed.

Lemma classic_half_lone `{Stl} arcs this m cont this' m' :
  classic_half arcs this no_frontier m = (cont, (this', m')) → m' = m.
Proof.
  unfold classic_half. destruct (pq_pop (pq this)) as [[[d u] q]|]; [|by intros [= _ _ <-]].
  cbn [dist]. destruct (stale (dist this) u d); [by intros [= _ _ <-]|].
  destruct (Dle (best m) (Fin d)); [by intros [= _ _ <-]|].
  intros [= _ Hfold].
  pose proof (foldl_relax_lone d u (arcs u)
                {| dist := dist this; parent := parent this; pq := q |} m) as Hsnd.
  unfold no_frontier in Hfold. cbn [dist] in Hfold. by rewrite Hfold in Hsnd.
Qed.

Section lone.
Context `{Stl} (arcs oarcs : Z → list (Z * Z)).
Context (arcs_nonneg : ∀ u a, a ∈ arcs u → 0 ≤ a.2).
Context (root key : Z).
Context (srcs : list Z).
Context (arcs_count : ∀ u, 0 ≤ u → (length (arcs u) ≤ length (filter (λ x, x = u) srcs))%nat).
Context (arcs_heads : ∀ u a, a ∈ arcs u → 0 ≤ a.1).
Context (root_nonneg : 0 ≤ root).

Lemma classic_half_lone_step this cont this' m' :
  finv arcs root key this → pq this ≠ [] →
  classic_half arcs this no_frontier no_meet = (cont, (this', m')) →
  m' = no_meet ∧ finv arcs root key this'
  ∧ (potential srcs this' < potential srcs this)%nat.
Proof.
  intros Hinv Hne Hhalf.
  split; [by eapply classic_half_lone|].
  split.
  - by destruct (classic_half_inv arcs arcs_nonneg root key this no_frontier no_meet
                   cont this' m' Hinv eq_refl Hhalf).
  - by destruct (classic_half_total arcs arcs_nonneg root key srcs arcs_count arcs_heads
                   root_nonneg this no_frontier no_meet cont this' m' Hinv Hhalf) as [_ Hpot];
      apply Hpot.
Qed.

(** The loop of [query_multi] when no source is seeded. *)
Lemma classic_loop_lone_bwd fuel b :
  finv arcs root key b → (potential srcs b < fuel)%nat →
  ∃ b', classic_loop fuel oarcs arcs no_frontier b no_meet = Some (no_frontier, b', no_meet).
Proof.
  revert b. induction fuel as [|fuel IH]; intros b Hinv Hpot; [lia|].
  cbn [classic_loop]. change (pq no_frontier) with (@nil (Z * Z)). cbn [pq_empty andb].
  destruct (pq b) as [|e q] eqn:Hq; [by exists b|]. cbn [pq_empty].
  rewrite classic_half_none.
  destruct (classic_half arcs b no_frontier no_meet) as [cont [b1 m1]] eqn:Hhalf.
  destruct (classic_half_lone_step b cont b1 m1 Hinv) as (-> & Hinv1 & Hpot1);
    [by rewrite Hq|done|].
  destruct cont; [apply IH; [done|lia]|].
  destruct (classic_done no_frontier b1 no_meet); [by exists b1|].
  apply IH; [done|lia].
Qed.

(** The loop of [query_multi] when no target is seeded. *)
Lemma classic_loop_lone_fwd fuel f :
  finv arcs root key f → (potential srcs f < fuel)%nat →
  ∃ f', classic_loop fuel arcs oarcs f no_frontier no_meet = Some (f', no_frontier, no_meet).
Proof.
  revert f. induction fuel as [|fuel IH]; intros f Hinv Hpot; [lia|].
  cbn [classic_loop]. change (pq no_frontier) with (@nil (Z * Z)). cbn [pq_empty].
  destruct (pq f) as [|e q] eqn:Hq; [by exists f|]. cbn [pq_empty andb].
  destruct (classic_half arcs f no_frontier no_meet) as [cont [f1 m1]] eqn:Hhalf.
  destruct (classic_half_lone_step f cont f1 m1 Hinv) as (-> & Hinv1 & Hpot1);
    [by rewrite Hq|done|].
  destruct cont; [apply IH; [done|lia]|].
  rewrite classic_half_none.
  destruct (classic_done f1 no_frontier no_meet); [by exists f1|].
  apply IH; [done|lia].
Qed.

End lone.

(** X17.  On a loaded store with non-negative costs and with enough
    fuel, [query_multi] from one source to one different target is
    [query_classic] when both edges are in [edge_meta_]; when one of
    them is not, it fails with "No path found", where [query_classic]
    names the missing end.  The two lists of distances play no part. *)
Theorem query_multi_single `{Stl} (fuel : nat) (g : CSRGraph) (s t : Z)
    (source_dists target_dists : list Z) :
  csr_wf g → Forall (λ sc, 0 ≤ sc_cost sc) (shortcuts_ g) →
  0 ≤ s → 0 ≤ t → s ≠ t →
  (2 * length (shortcuts_ g) + 3 ≤ fuel)%nat →
  (is_Some (edge_meta_ g !! s) → is_Some (edge_meta_ g !! t) →
   query_multi fuel g [s] source_dists [t] target_dists = query_classic fuel g s t)
  ∧ (¬ (is_Some (edge_meta_ g !! s) ∧ is_Some (edge_meta_ g !! t)) →
     query_multi fuel g [s] source_dists [t] target_dists = Some (failed "No path found")).
Proof.
  intros Hwf Hcost Hs Ht Hne Hfuel. split.
  - intros Hms Hmt. unfold query_multi, query_classic, multi_init, classic_init.
    destruct (Z.eqb_spec s t); [done|].
    rewrite (bool_decide_eq_true_2 _ Hms), (bool_decide_eq_true_2 _ Hmt). cbn [negb].
    by rewrite !seed_all_known.
  - intros Hmiss. unfold query_multi, multi_init.
    pose proof (fwd_arcs_nonneg g climbs Hcost) as Hfnn.
    pose proof (bwd_arcs_nonneg g descends Hcost) as Hbnn.
    assert (∀ e, ¬ is_Some (edge_meta_ g !! e) → Forall (λ e, edge_meta_ g !! e = None) [e])
      as Hnone.
    { intros e He. constructor; [|constructor].
      destruct (edge_meta_ g !! e); [|done]. exfalso. by apply He. }
    destruct (decide (is_Some (edge_meta_ g !! s))) as [Hms|Hms].
    + assert (¬ is_Some (edge_meta_ g !! t)) as Hmt by tauto.
      rewrite (seed_all_known _ _ _ Hms), (seed_all_unknown _ _ _ (Hnone t Hmt)).
      destruct (classic_loop_lone_fwd (fwd_arcs climbs g) (bwd_arcs descends g) Hfnn s 0
                  (sc_from <$> shortcuts_ g)
                  (λ u Hu, fwd_arcs_count g climbs u Hwf Hu)
                  (λ u a Ha, proj1 (fwd_arcs_wf g climbs Hwf u a Ha)) Hs
                  fuel (seed s 0 s)) as [f' ->]; [apply seed_finv| |done].
      pose proof (seed_potential s 0 (sc_from <$> shortcuts_ g)) as Hp.
      rewrite length_fmap in Hp. lia.
    + rewrite (seed_all_unknown _ _ _ (Hnone s Hms)).
      destruct (decide (is_Some (edge_meta_ g !! t))) as [Hmt|Hmt].
      * rewrite (seed_all_known _ _ _ Hmt).
        destruct (classic_loop_lone_bwd (bwd_arcs descends g) (fwd_arcs climbs g) Hbnn t
                    (get_edge_cost g t) (sc_to <$> shortcuts_ g)
                    (λ u Hu, bwd_arcs_count g descends u Hwf Hu)
                    (λ u a Ha, proj1 (bwd_arcs_wf g descends Hwf u a Ha)) Ht
                    fuel (seed t (get_edge_cost g t) t)) as [b' ->]; [apply seed_finv| |done].
        pose proof (seed_potential t (get_edge_cost g t) (sc_to <$> shortcuts_ g)) as Hp.
        rewrite length_fmap in Hp. lia.
      * rewrite (seed_all_unknown _ _ _ (Hnone t Hmt)).
        destruct fuel as [|fuel]; [lia|]. done.
Qed.

Lemma query_multi_single_witness :
  (is_Some (edge_meta_ g_s1 !! 1) → is_Some (edge_meta_ g_s1 !! 2) →
   @query_multi stl_ref 10 g_s1 [1] [0] [2] [0] = @query_classic stl_ref 10 g_s1 1 2)
  ∧ (¬ (is_Some (edge_meta_ g_s1 !! 1) ∧ is_Some (edge_meta_ g_s1 !! 2)) →
     @query_multi stl_ref 10 g_s1 [1] [0] [2] [0] = Some (failed "No path found")).
Proof.
  apply (@query_multi_single stl_ref 10 g_s1 1 2 [0] [0]).
  - loaded_wf.
  - all_shortcuts.
  - lia.
  - lia.
  - lia.
  - vm_compute. lia.
Defined.

(** *** The same edge as source and as target *)

Section meeting_root.
Context `{Stl} (arcs : Z → list (Z * Z)).
Context (arcs_nonneg : ∀ u a, a ∈ arcs u → 0 ≤ a.2).
Context (root key : Z).

(** The edge where the two directions meet was reached over an arc: it
    is not the seed of the direction that finds the meeting. *)
Definition off_root (m : Meet) : Prop := found m = true → meeting m ≠ root.

Lemma relax_off_root other d u f m a :
  expanding arcs root key d u f → a ∈ arcs u → off_root m →
  expanding arcs root key d u (relax other d u (f, m) a).1
  ∧ off_root (relax other d u (f, m) a).2.
Proof.
  intros Hexp Ha Hm. unfold relax. destruct a as [v c]. cbn [fst snd].
  destruct (improves (dist f) v (d + c)) eqn:Himp; [|done]. cbn [fst snd].
  split; [by apply update_expanding|].
  unfold meet_check. destruct (other !! v) as [o|]; [|done].
  destruct (Dlt (Fin (d + c + o)) (best m)); [|done].
  intros _. cbn [meeting]. intros ->.
  destruct Hexp as (Hinv & [Hdu _] & _).
  pose proof (fi_lower _ _ _ _ Hinv u d Hdu) as Hkey.
  pose proof (arcs_nonneg u (root, c) Ha) as Hc. simpl in Hc.
  unfold improves in Himp. rewrite (fi_root_dist _ _ _ _ Hinv) in Himp. lia.
Qed.

Lemma foldl_relax_off_root other d u s l :
  expanding arcs root key d u s.1 → l ⊆ arcs u → off_root s.2 →
  off_root (foldl (relax other d u) s l).2.
Proof.
  revert s. induction l as [|a l IH]; intros [f m] Hexp Hsub Hm; [done|].
  cbn [foldl]. destruct (relax_off_root other d u f m a) as [H1 H2]; try done.
  { apply Hsub. constructor. }
  destruct (relax other d u (f, m) a) as [f' m'] eqn:Hr. apply IH; try done.
  intros x Hx. apply Hsub. by constructor.
Qed.

Lemma classic_half_off_root this other m cont this' m' :
  finv arcs root key this → off_root m →
  classic_half arcs this other m = (cont, (this', m')) → off_root m'.
Proof.
  intros Hinv Hm. unfold classic_half.
  destruct (pq_pop (pq this)) as [[[d u] q]|] eqn:Hpop; [|by intros [= <- <- <-]].
  destruct (pop_finv arcs root key this d u q Hinv Hpop)
    as (Hinv' & Hbound & (du & Hdu & Hle) & Hnin & _ & _).
  cbn [dist].
  destruct (stale (dist this) u d) eqn:Hstale; [by intros [= <- <- <-]|].
  destruct (Dle (best m) (Fin d)); [by intros [= <- <- <-]|].
  intros [= <- Hfold].
  pose proof (foldl_relax_off_root (dist other) d u
                ({| dist := dist this; parent := parent this; pq := q |}, m) (arcs u)) as Hoff.
  rewrite Hfold in Hoff. apply Hoff; try done.
  split; [done|]. split; [|done]. split; [|done].
  change (dist this !! u = Some d).
  unfold stale in Hstale. rewrite Hdu in Hstale. rewrite Hdu. f_equal. lia.
Qed.

End meeting_root.

Lemma classic_loop_off_root `{Stl} farcs barcs root tc fuel f b m f' b' m' :
  (∀ u a, a ∈ farcs u → 0 ≤ a.2) → (∀ u a, a ∈ barcs u → 0 ≤ a.2) →
  binv farcs barcs root root tc f b m → off_root root m →
  classic_loop fuel farcs barcs f b m = Some (f', b', m') → off_root root m'.
Proof.
  intros Hfnn Hbnn.
  revert f b m. induction fuel as [|fuel IH]; intros f b m (Hf & Hb & Hm) Hoff; [done|].
  cbn [classic_loop].
  destruct (pq_empty (pq f) && pq_empty (pq b)); [by intros [= <- <- <-]|].
  destruct (classic_half farcs f b m) as [cont [f1 m1]] eqn:Hhalf.
  destruct (classic_half_inv farcs Hfnn root 0 f b m cont f1 m1 Hf Hm Hhalf) as [Hf1 Hm1].
  pose proof (classic_half_off_root farcs Hfnn root 0 f b m cont f1 m1 Hf Hoff Hhalf) as Hoff1.
  destruct cont; [by apply IH|].
  destruct (classic_half barcs b f1 m1) as [cont [b1 m2]] eqn:Hhalf'.
  destruct (classic_half_inv barcs Hbnn root tc b f1 m1 cont b1 m2 Hb
              (meets_sym _ _ _ Hm1) Hhalf') as [Hb1 Hm2].
  pose proof (classic_half_off_root barcs Hbnn root tc b f1 m1 cont b1 m2 Hb Hoff1 Hhalf')
    as Hoff2.
  apply meets_sym in Hm2.
  destruct cont; [by apply IH|].
  destruct (classic_done f1 b1 m2); [by intros [= <- <- <-]|]. by apply IH.
Qed.

(** X18.  [query_multi] does not know the path of one edge: given the
    same edge as the only source and the only target, where
    [query_classic] returns that edge alone, it fails with "No path
    found" or returns a path of at least two edges that leaves the edge
    and comes back to it. *)
Theorem query_multi_self `{Stl} (fuel : nat) (g : CSRGraph) (s : Z)
    (source_dists target_dists : list Z) :
  csr_wf g → Forall (λ sc, 0 ≤ sc_cost sc) (shortcuts_ g) → 0 ≤ s →
  (2 * length (shortcuts_ g) + 3 ≤ fuel)%nat →
  ∃ r, query_multi fuel g [s] source_dists [s] target_dists = Some r
    ∧ query_classic fuel g s s = Some (self_result g s)
    ∧ (reachable r = false → r = failed "No path found")
    ∧ (reachable r = true →
       (2 ≤ length (path r))%nat
       ∧ head (path r) = Some s ∧ last (path r) = Some s
       ∧ ∃ c, spath g (path r) c ∧ distance r = Fin (c + get_edge_cost g s)).
Proof.
  intros Hwf Hcost Hs Hfuel.
  assert (query_classic fuel g s s = Some (self_result g s)) as Hclassic.
  { unfold query_classic. by rewrite Z.eqb_refl. }
  unfold query_multi, multi_init.
  destruct (decide (is_Some (edge_meta_ g !! s))) as [Hms|Hms].
  2: { rewrite !seed_all_unknown.
       - destruct fuel as [|fuel]; [lia|]. eexists. split; [done|]. done.
       - constructor; [|constructor]. destruct (edge_meta_ g !! s); [|done].
         exfalso. by apply Hms.
       - constructor; [|constructor]. destruct (edge_meta_ g !! s); [|done].
         exfalso. by apply Hms. }
  rewrite !seed_all_known by done. set (tc := get_edge_cost g s).
  pose proof (fwd_arcs_nonneg g climbs Hcost) as Hfnn.
  pose proof (bwd_arcs_nonneg g descends Hcost) as Hbnn.
  destruct (classic_loop_total (fwd_arcs climbs g) (bwd_arcs descends g)
              Hfnn Hbnn s s tc (sc_from <$> shortcuts_ g) (sc_to <$> shortcuts_ g)
              (λ u Hu, fwd_arcs_count g climbs u Hwf Hu)
              (λ u Hu, bwd_arcs_count g descends u Hwf Hu)
              (λ u a Ha, proj1 (fwd_arcs_wf g climbs Hwf u a Ha))
              (λ u a Ha, proj1 (bwd_arcs_wf g descends Hwf u a Ha)) Hs Hs
              fuel (seed s 0 s) (seed s tc s) no_meet) as [[[f b] m] Hloop].
  { apply seed_finv. }
  { apply seed_finv. }
  { done. }
  { pose proof (seed_potential s 0 (sc_from <$> shortcuts_ g)) as Hp1.
    pose proof (seed_potential s tc (sc_to <$> shortcuts_ g)) as Hp2.
    rewrite length_fmap in Hp1, Hp2. lia. }
  rewrite Hloop.
  assert (binv (fwd_arcs climbs g) (bwd_arcs descends g) s s tc
               (seed s 0 s) (seed s tc s) no_meet) as Hinit.
  { split; [apply seed_finv|]. split; [apply seed_finv|done]. }
  pose proof (classic_loop_inv (fwd_arcs climbs g) (bwd_arcs descends g)
                Hfnn Hbnn s s tc fuel _ _ _ f b m Hinit Hloop) as Hinv.
  assert (off_root s m) as Hoff.
  { by apply (classic_loop_off_root (fwd_arcs climbs g) (bwd_arcs descends g) s tc fuel
                (seed s 0 s) (seed s tc s) no_meet f b m Hfnn Hbnn Hinit). }
  destruct (bidir_result_returns g climbs descends s s tc fuel "No path found" f b m Hinv)
    as (r & Hres & Hreach & Hdist); [lia|].
  exists r. split; [done|]. split; [done|]. split.
  - intros Hr. rewrite Hr in Hreach. unfold bidir_result in Hres.
    rewrite <- Hreach in Hres. cbn [negb] in Hres. by injection Hres as <-.
  - intros Hr.
    destruct (bidir_result_sound g _ _ s s tc fuel _ f b m r
                (fwd_arcs_wf g climbs Hwf) (bwd_arcs_wf g descends Hwf) Hs Hs
                Hinv Hres Hr) as (c & Hp & Hd & Hh & Hl).
    split; [|split; [done|split; [done|by exists c]]].
    rewrite Hr in Hreach. symmetry in Hreach. specialize (Hoff Hreach).
    destruct Hinv as (Hf & Hb & Hm).
    unfold meets in Hm. rewrite Hreach in Hm. destruct Hm as (x & y & Hx & Hy & _).
    destruct (fi_chain _ _ _ _ Hf _ _ Hx) as [lf Hlf].
    unfold bidir_result, bidir_path in Hres. rewrite Hreach in Hres. cbn [negb] in Hres.
    destruct (follow fuel (parent f) (meeting m)) as [pf|] eqn:Hpf; [|done].
    destruct (follow fuel (parent b) (meeting m)) as [pb|] eqn:Hpb; [|done].
    injection Hres as <-. cbn [path].
    rewrite (follow_chain _ _ _ _ _ _ Hlf Hpf).
    inversion Hlf as [Hroot Heq|v p l Hpar Hne Hnin Hc]; subst; [done|].
    destruct (chain_head _ _ _ _ Hc) as [l' ->].
    rewrite length_app, length_reverse. simpl. lia.
Qed.

Lemma query_multi_self_witness :
  ∃ r, @query_multi stl_ref 10 g_s1 [1] [] [1] [] = Some r
    ∧ @query_classic stl_ref 10 g_s1 1 1 = Some (self_result g_s1 1)
    ∧ (reachable r = false → r = failed "No path found")
    ∧ (reachable r = true →
       (2 ≤ length (path r))%nat
       ∧ head (path r) = Some 1 ∧ last (path r) = Some 1
       ∧ ∃ c, spath g_s1 (path r) c ∧ distance r = Fin (c + get_edge_cost g_s1 1)).
Proof.
  apply (@query_multi_self stl_ref 10 g_s1 1 [] []).
  - loaded_wf.
  - all_shortcuts.
  - lia.
  - vm_compute. lia.
Defined.

(** ** [CSRGraph::query_dijkstra]: the path is simple *)

(** X19.  On a loaded store with non-negative costs and with enough
    fuel, [query_dijkstra] returns a path that visits no edge twice; it
    has at most one edge more than the store has shortcuts. *)
Theorem query_dijkstra_simple `{Stl} (fuel : nat) (g : CSRGraph) (s t : Z) :
  csr_wf g → Forall (λ sc, 0 ≤ sc_cost sc) (shortcuts_ g) → 0 ≤ s → 0 ≤ t →
  (length (shortcuts_ g) + 2 ≤ fuel)%nat →
  ∃ r, query_dijkstra fuel g s t = Some r
    ∧ NoDup (path r) ∧ (length (path r) ≤ length (shortcuts_ g) + 1)%nat.
Proof.
  intros Hwf Hcost Hs Ht Hfuel.
  destruct (query_dijkstra_returns fuel g s t Hwf Hcost Hs Ht Hfuel) as [r Hr].
  exists r. split; [done|]. revert Hr. unfold query_dijkstra.
  destruct (Z.eqb_spec s t) as [->|Hne].
  { intros [= <-]. cbn [path self_result length]. split; [apply NoDup_singleton|lia]. }
  destruct (negb (bool_decide (is_Some (edge_meta_ g !! s)))).
  { intros [= <-]. cbn [path failed length]. split; [constructor|lia]. }
  destruct (negb (bool_decide (is_Some (edge_meta_ g !! t)))).
  { intros [= <-]. cbn [path failed length]. split; [constructor|lia]. }
  destruct (dijkstra_loop fuel (fwd_arcs any_shortcut g) t (seed s 0 s))
    as [[f [d|]]|] eqn:Hloop; [| |done].
  2: { intros [= <-]. cbn [path failed length]. split; [constructor|lia]. }
  destruct (dijkstra_loop_inv _ s t fuel _ f (Some d) (fwd_arcs_nonneg g _ Hcost)
              (seed_finv _ s 0) Hloop) as [Hinv Hd].
  specialize (Hd d eq_refl).
  destruct (fi_chain _ _ _ _ Hinv _ _ Hd) as [l Hl].
  destruct (follow_to fuel (parent f) s t) as [p|] eqn:Hp; [|done].
  intros [= <-]. cbn [path].
  rewrite (follow_to_chain _ _ _ _ _ _ Hl Hp).
  pose proof (chain_length (fwd_arcs any_shortcut g) s 0 (sc_to <$> shortcuts_ g)
                f _ l (λ u a Ha, fwd_arcs_heads g any_shortcut u a Ha) Hinv Hl) as Hlen.
  rewrite length_fmap in Hlen. rewrite length_reverse. split; [|lia].
  rewrite (reverse_Permutation l). by eapply chain_NoDup.
Qed.

Lemma query_dijkstra_simple_witness :
  ∃ r, @query_dijkstra stl_ref 20 g_dn 1 3 = Some r
    ∧ NoDup (path r) ∧ (length (path r) ≤ length (shortcuts_ g_dn) + 1)%nat.
Proof.
  apply (@query_dijkstra_simple stl_ref 20 g_dn 1 3).
  - loaded_wf.
  - all_shortcuts.
  - lia.
  - lia.
  - vm_compute. lia.
Defined.

(** ** [query_unidirectional_impl.cpp]: the packed states *)

(** X20.  The packed state of the search loses nothing: for an edge
    below 2^32 and a counter below 8, the three reads at the top of the
    loop give back what was packed, so that two different states never
    share a key of [dist_map]; and the pruning rules never lower the
    counter, never raise it above 2 and never clear [used_minus1], so
    that every state the search makes is in that range. *)
Theorem uni_states_lossless (e e' c c' : Z) (b b' : bool) :
  0 ≤ e < 2 ^ 32 → 0 ≤ c < 8 → 0 ≤ e' < 2 ^ 32 → 0 ≤ c' < 8 →
  unpack_state (pack_state e c b) = (e, c, b)
  ∧ (pack_state e c b = pack_state e' c' b' → e = e' ∧ c = c' ∧ b = b')
  ∧ (∀ u_res high_res inside nc nb,
       c ≤ 2 → uni_transition u_res high_res c b inside = Some (nc, nb) →
       c ≤ nc ≤ 2 ∧ (b = true → nb = true)).
Proof.
  intros He Hc He' Hc'. split; [by apply unpack_pack_state|]. split.
  - intros Heq.
    pose proof (unpack_pack_state e c b He Hc) as H1.
    pose proof (unpack_pack_state e' c' b' He' Hc') as H2.
    rewrite Heq, H2 in H1. by injection H1 as -> -> ->.
  - intros u_res high_res inside nc nb Hc2. unfold uni_transition.
    repeat case_match; intros [= <- <-]; (split; [lia|]); try done;
      by destruct b.
Qed.

Lemma uni_states_lossless_witness :
  unpack_state (pack_state 7 2 true) = (7, 2, true)
  ∧ (pack_state 7 2 true = pack_state 7 2 true → 7 = 7 ∧ 2 = 2 ∧ true = true)
  ∧ (∀ u_res high_res inside nc nb,
       2 ≤ 2 → uni_transition u_res high_res 2 true inside = Some (nc, nb) →
       2 ≤ nc ≤ 2 ∧ (true = true → nb = true)).
Proof. apply (uni_states_lossless 7 7 2 2 true true); lia. Defined.

(** ** [CSRGraph::query_unidirectional]: the search over packed states *)

(** [(edge << 4) | phase] is [16 * edge + phase]. *)
Lemma lor_shiftl_add e p k :
  0 ≤ k → 0 ≤ p < 2 ^ k → Z.lor (Z.shiftl e k) p = e * 2 ^ k + p.
Proof.
  intros Hk Hp. rewrite <- Z.shiftl_mul_pow2 by done.
  rewrite <- Z.lxor_lor, <- Z.add_nocarry_lxor; [done| |].
  all: apply Z.bits_inj'; intros n Hn; rewrite Z.land_spec, Z.bits_0;
    destruct (Z.ltb_spec n k);
    [ rewrite Z.shiftl_spec_low by lia; done
    | rewrite (testbit_small p k n) by lia; apply andb_false_r ].
Qed.

(** The edge and the phase of a packed state. *)
Definition state_edge (x : Z) : Z := wrap32 (Z.shiftr x 4).
Definition state_phase (x : Z) : Z := Z.land x 15.

Lemma state_unpack e p :
  0 ≤ e < 2 ^ 32 → 0 ≤ p < 16 →
  state_edge (Z.lor (Z.shiftl e 4) p) = e ∧ state_phase (Z.lor (Z.shiftl e 4) p) = p
  ∧ 0 ≤ Z.lor (Z.shiftl e 4) p < 2 ^ 36.
Proof.
  intros He Hp. rewrite (lor_shiftl_add e p 4) by lia.
  unfold state_edge, state_phase. rewrite Z.shiftr_div_pow2 by lia.
  change 15 with (Z.ones 4). rewrite Z.land_ones by lia.
  change (2 ^ 4) with 16.
  replace ((e * 16 + p) / 16) with e by (apply (Z.div_unique (e * 16 + p) 16 e p); lia).
  replace ((e * 16 + p) mod 16) with p by (apply (Z.mod_unique (e * 16 + p) 16 e p); lia).
  rewrite wrap32_small by done. lia.
Qed.

Lemma state_pack x :
  0 ≤ x < 2 ^ 36 →
  x = Z.lor (Z.shiftl (state_edge x) 4) (state_phase x)
  ∧ 0 ≤ state_edge x < 2 ^ 32 ∧ 0 ≤ state_phase x < 16.
Proof.
  intros Hx. unfold state_edge, state_phase. rewrite Z.shiftr_div_pow2 by lia.
  change 15 with (Z.ones 4). rewrite Z.land_ones by lia. change (2 ^ 4) with 16.
  pose proof (Z.div_mod x 16 ltac:(lia)) as Hdm.
  pose proof (Z.mod_pos_bound x 16 ltac:(lia)) as Hmod.
  assert (0 ≤ x / 16 < 2 ^ 32) as Hdiv.
  { split; [apply Z.div_pos; lia|]. apply Z.div_lt_upper_bound; lia. }
  rewrite wrap32_small by done. rewrite (lor_shiftl_add _ _ 4) by lia.
  change (2 ^ 4) with 16. lia.
Qed.

(** The arcs that the loop relaxes from the packed state [x]. *)
Definition phase_arcs (g : CSRGraph) (high_res : Z) (x : Z) : list (Z * Z) :=
  omap (λ sc, match phase_transition (Z.land x 15) high_res sc with
              | Some next_phase =>
                  Some (Z.lor (Z.shiftl (sc_to sc) 4) next_phase, sc_cost sc)
              | None => None
              end)
       (fwd_shortcuts g (wrap32 (Z.shiftr x 4))).

(** The graph of the packed states: a state is below 2^36. *)
Definition state_arcs (g : CSRGraph) (high_res : Z) (x : Z) : list (Z * Z) :=
  if x <? 2 ^ 36 then phase_arcs g high_res x else [].

(** The sources of the arcs of the four phases. *)
Definition packed (end_ : CSRShortcut → Z) (p : Z) (g : CSRGraph) : list Z :=
  (λ sc, Z.lor (Z.shiftl (end_ sc) 4) p) <$> shortcuts_ g.

Definition state_srcs (g : CSRGraph) : list Z :=
  packed sc_from 0 g ++ packed sc_from 1 g ++ packed sc_from 2 g ++ packed sc_from 3 g.

(** The ends of the arcs: phases 1 to 3. *)
Definition state_tgts (g : CSRGraph) : list Z :=
  packed sc_to 1 g ++ packed sc_to 2 g ++ packed sc_to 3 g.

(** A direction of the search as a frontier over the packed states. *)
Definition fr (f : StateFrontier) : Frontier Z :=
  {| dist := dist_map f; parent := parent_map f; pq := spq f |}.

Lemma fr_relax_state d x f a : fr (relax_state d x f a) = relax_plain d x (fr f) a.
Proof.
  unfold relax_state, relax_plain. destruct a as [v c]. cbn [fst snd fr dist].
  by destruct (improves (dist_map f) v (d + c)).
Qed.

Lemma fr_foldl d x l f :
  fr (foldl (relax_state d x) f l) = foldl (relax_plain d x) (fr f) l.
Proof.
  revert f. induction l as [|a l IH]; intros f; [done|].
  cbn [foldl]. by rewrite IH, fr_relax_state.
Qed.

Lemma phase_transition_range phase high_res sc np :
  phase_transition phase high_res sc = Some np → 1 ≤ np ≤ 3 ∧ 0 ≤ phase ≤ 3.
Proof.
  unfold phase_transition. repeat case_match; intros [= <-]; lia.
Qed.

Lemma fwd_shortcuts_stored g u sc : sc ∈ fwd_shortcuts g u → sc ∈ shortcuts_ g.
Proof.
  unfold fwd_shortcuts, slice. destruct (get_fwd_range g u) as [a b].
  intros Hsc. by eapply subseteq_drop, subseteq_take.
Qed.

Section state_graph.
Context (g : CSRGraph) (high_res : Z).
Context (Hwf : csr_wf g).
Context (Hcost : Forall (λ sc, 0 ≤ sc_cost sc) (shortcuts_ g)).

Lemma stored_range sc : sc ∈ shortcuts_ g → 0 ≤ sc_from sc < 2 ^ 32 ∧ 0 ≤ sc_to sc < 2 ^ 32.
Proof.
  intros Hsc. pose proof (wf_ids g Hwf) as Hids. rewrite Forall_forall in Hids.
  pose proof (wf_max g Hwf). specialize (Hids sc Hsc). lia.
Qed.

(** An arc of the state graph is a shortcut between the two edges. *)
Lemma state_arcs_elem x a :
  a ∈ state_arcs g high_res x →
  ∃ sc np, sc ∈ shortcuts_ g ∧ sc_from sc = state_edge x
    ∧ phase_transition (state_phase x) high_res sc = Some np
    ∧ a = (Z.lor (Z.shiftl (sc_to sc) 4) np, sc_cost sc).
Proof.
  unfold state_arcs. destruct (x <? 2 ^ 36); [|by intros ?%elem_of_nil].
  unfold phase_arcs. intros Ha. apply list_elem_of_omap in Ha as (sc & Hsc & Ha).
  destruct (phase_transition (Z.land x 15) high_res sc) as [np|] eqn:Hnp; [|done].
  injection Ha as <-. exists sc, np.
  split; [by eapply fwd_shortcuts_stored|]. split; [|done].
  rewrite fwd_shortcuts_wf in Hsc; [|done|apply Z.mod_pos_bound; lia].
  by apply list_elem_of_filter in Hsc as [Hfrom _].
Qed.

Lemma state_arcs_nonneg x a : a ∈ state_arcs g high_res x → 0 ≤ a.2.
Proof.
  intros Ha. apply state_arcs_elem in Ha as (sc & np & Hsc & _ & _ & ->).
  rewrite Forall_forall in Hcost. by apply Hcost.
Qed.

Lemma state_arcs_heads x a : a ∈ state_arcs g high_res x → 0 ≤ a.1 < 2 ^ 36.
Proof.
  intros Ha. apply state_arcs_elem in Ha as (sc & np & Hsc & _ & Hnp & ->).
  apply phase_transition_range in Hnp. cbn [fst].
  apply state_unpack; [by apply stored_range|lia].
Qed.

Lemma state_arcs_tgts x a : a ∈ state_arcs g high_res x → a.1 ∈ state_tgts g.
Proof.
  intros Ha. apply state_arcs_elem in Ha as (sc & np & Hsc & _ & Hnp & ->).
  apply phase_transition_range in Hnp as [Hnp _]. cbn [fst].
  unfold state_tgts, packed. rewrite !elem_of_app.
  assert (np = 1 ∨ np = 2 ∨ np = 3) as [->|[->| ->]] by lia;
    [left|right; left|right; right]; by apply (list_elem_of_fmap_2 (λ sc, Z.lor (Z.shiftl (sc_to sc) 4) _)).
Qed.

(** An arc of the state graph is an arc between the two edges. *)
Lemma state_arcs_fwd x v c :
  (v, c) ∈ state_arcs g high_res x →
  (state_edge v, c) ∈ fwd_arcs any_shortcut g (state_edge x).
Proof.
  intros Ha. apply state_arcs_elem in Ha as (sc & np & Hsc & Hfrom & Hnp & [= -> ->]).
  apply phase_transition_range in Hnp as [Hnp _].
  destruct (state_unpack (sc_to sc) np) as (-> & _); [by apply stored_range|lia|].
  rewrite <- Hfrom. by apply fwd_arcs_complete.
Qed.

Lemma length_omap_le {A B} (h : A → option B) (l : list A) :
  (length (omap h l) ≤ length l)%nat.
Proof.
  induction l as [|a l IH]; [done|]. cbn [omap list_omap]. destruct (h a); simpl; lia.
Qed.

Lemma omap_none {A B} (h : A → option B) (l : list A) :
  (∀ a, a ∈ l → h a = None) → omap h l = [].
Proof.
  induction l as [|a l IH]; intros Hall; [done|]. cbn [omap list_omap].
  rewrite (Hall a) by constructor. apply IH. intros b Hb. apply Hall. by constructor.
Qed.

Lemma state_arcs_count x :
  0 ≤ x → (length (state_arcs g high_res x) ≤ length (filter (λ y, y = x) (state_srcs g)))%nat.
Proof.
  intros Hx. unfold state_arcs. destruct (Z.ltb_spec x (2 ^ 36)) as [Hlt|]; [|simpl; lia].
  destruct (state_pack x ltac:(lia)) as (Hpack & He & Hp).
  unfold phase_arcs. fold (state_edge x) (state_phase x).
  destruct (decide (state_phase x ≤ 3)) as [Hp3|Hp3].
  2: { rewrite omap_none; [simpl; lia|]. intros sc _.
       destruct (phase_transition (state_phase x) high_res sc) as [np|] eqn:Hnp; [|done].
       apply phase_transition_range in Hnp. lia. }
  etrans; [apply length_omap_le|].
  rewrite fwd_shortcuts_wf by (done || lia).
  etrans; [apply (filter_length_le _ (λ sc, Z.lor (Z.shiftl (sc_from sc) 4) (state_phase x) = x))|].
  { intros sc _ ->. by rewrite <- Hpack. }
  rewrite (filter_fmap_length (λ sc, Z.lor (Z.shiftl (sc_from sc) 4) (state_phase x))).
  unfold state_srcs, packed. rewrite !filter_app, !length_app.
  assert (state_phase x = 0 ∨ state_phase x = 1 ∨ state_phase x = 2 ∨ state_phase x = 3)
    as [->|[->|[->| ->]]] by lia; lia.
Qed.

End state_graph.

Lemma rpath_fmap (A B : Z → list (Z * Z)) (h : Z → Z) l c :
  (∀ p v c, (v, c) ∈ A p → (h v, c) ∈ B (h p)) → rpath A l c → rpath B (h <$> l) c.
Proof.
  intros HAB. induction 1 as [r|v p l c c' Harc Hr IH]; [constructor|].
  rewrite !fmap_cons. constructor; [by apply HAB|]. by rewrite fmap_cons in IH.
Qed.

(** The reconstruction of the path from the chain of parents of a packed
    state: the edges of the states, from the root to the end. *)
Lemma state_path_sound g (A : Z → list (Z * Z)) root fuel (F : Frontier Z) e d tgts :
  csr_wf g →
  (∀ x v c, (v, c) ∈ A x → (state_edge v, c) ∈ fwd_arcs any_shortcut g (state_edge x)) →
  (∀ u a, a ∈ A u → a.1 ∈ tgts) →
  finv A root 0 F → dist F !! e = Some d → (length tgts + 1 ≤ fuel)%nat →
  ∃ p, state_path fuel (parent F) e = Some p
       ∧ spath g p d ∧ head p = Some (state_edge root) ∧ last p = Some (state_edge e).
Proof.
  intros Hwf Hfwd Htgts Hinv Hd Hfuel.
  destruct (fi_chain _ _ _ _ Hinv _ _ Hd) as [l Hl].
  pose proof (chain_length A root 0 tgts F _ l Htgts Hinv Hl) as Hlen.
  unfold state_path. rewrite (follow_chain_enough _ _ _ _ fuel Hl) by lia.
  eexists. split; [done|].
  pose proof (chain_rpath _ _ _ _ _ _ _ Hinv Hl Hd) as Hr.
  apply (rpath_fmap _ (fwd_arcs any_shortcut g) state_edge) in Hr; [|exact Hfwd].
  apply (rpath_fwd_spath g) in Hr; [|by apply fwd_arcs_wf|].
  2: { intros r Hlast. rewrite fmap_last in Hlast.
       destruct (last l) as [x|]; [|done]. injection Hlast as <-.
       apply Z.mod_pos_bound. lia. }
  rewrite Z.sub_0_r in Hr.
  pose proof (chain_last _ _ _ _ Hl) as Hlast.
  destruct (chain_head _ _ _ _ Hl) as [l' ->].
  change (λ s0 : Z, wrap32 (Z.shiftr s0 4)) with state_edge.
  split; [exact Hr|]. split.
  - by rewrite head_reverse, fmap_last, Hlast.
  - by rewrite last_reverse.
Qed.

Section phase_search.
Context `{Stl} (g : CSRGraph) (high : CSRHighCell) (t root : Z).
Context (Hwf : csr_wf g).
Context (Hcost : Forall (λ sc, 0 ≤ sc_cost sc) (shortcuts_ g)).
Context (Hroot : 0 ≤ root < 2 ^ 36).

(** Every state reached is below 2^36. *)
Lemma state_in_range f x d :
  finv (state_arcs g (hc_res high)) root 0 f → dist f !! x = Some d → 0 ≤ x < 2 ^ 36.
Proof.
  intros Hinv Hd.
  destruct (finv_reached _ _ _ f x d Hinv Hd) as [->|(p & c & Harc)]; [done|].
  apply (state_arcs_heads g (hc_res high) Hwf p (x, c) Harc).
Qed.

(** The loop of [query_unidirectional] ends, at the target or with an
    empty queue. *)
Lemma phase_loop_run fuel f b :
  finv (state_arcs g (hc_res high)) root 0 (fr f) →
  best_dist b = Inf → ufound b = false →
  (potential (state_srcs g) (fr f) < fuel)%nat →
  ∃ f' b', phase_loop fuel g high t f b = Some (f', b')
    ∧ finv (state_arcs g (hc_res high)) root 0 (fr f')
    ∧ (ufound b' = true →
       ∃ d, dist_map f' !! best_end_state b' = Some d
            ∧ best_dist b' = Fin (d + get_edge_cost g t)
            ∧ state_edge (best_end_state b') = t).
Proof.
  revert f. induction fuel as [|fuel IH]; intros f Hinv Hb Hfound Hpot; [lia|].
  cbn [phase_loop].
  destruct (pq_pop (spq f)) as [[[d x] q]|] eqn:Hpop.
  2: { exists f, b. split; [done|]. split; [done|]. by rewrite Hfound. }
  change (spq f) with (pq (fr f)) in Hpop.
  destruct (pop_finv _ root 0 (fr f) d x q Hinv Hpop)
    as (Hinv1 & Hbound & (du & Hdu & Hle) & Hnin & _ & _).
  pose proof (pop_potential (state_arcs g (hc_res high)) root 0 (state_srcs g)
                (fr f) d x q Hinv Hpop) as Hpot1.
  cbn [dist_map]. cbn [fr dist] in Hdu.
  destruct (Z.gtb_spec d (dist_at (dist_map f) x)) as [Hgt|Hngt].
  { apply IH; [exact Hinv1|done|done|].
    change (potential (state_srcs g)
              {| dist := dist (fr f); parent := parent (fr f); pq := q |} < fuel)%nat. lia. }
  rewrite Hb. change (Dle Inf (Fin d)) with false. cbn match.
  assert (dist_map f !! x = Some d) as Hd.
  { unfold dist_at in Hngt. rewrite Hdu in Hngt. simpl in Hngt. rewrite Hdu. f_equal. lia. }
  destruct (Z.eqb_spec (wrap32 (Z.shiftr x 4)) t) as [Ht|Hne].
  { eexists _, _. split; [done|]. split; [exact Hinv1|]. intros _.
    cbn [best_end_state best_dist dist_map]. by exists d. }
  fold (phase_arcs g (hc_res high) x).
  assert (phase_arcs g (hc_res high) x = state_arcs g (hc_res high) x) as ->.
  { unfold state_arcs.
    destruct (state_in_range (fr f) x d Hinv Hd) as [_ Hlt].
    by rewrite (proj2 (Z.ltb_lt _ _) Hlt). }
  apply IH; [|done|done|].
  - rewrite fr_foldl.
    apply (foldl_relax_plain_expanding _ (state_arcs_nonneg g (hc_res high) Hwf Hcost)
             root 0 d x); [|done].
    split; [exact Hinv1|]. split; [|exact Hbound]. split; [exact Hd|exact Hnin].
  - rewrite fr_foldl.
    pose proof (expand_potential _ (state_arcs_nonneg g (hc_res high) Hwf Hcost) root 0
                  (state_srcs g) (state_arcs_count g (hc_res high) Hwf)
                  (λ u a Ha, proj1 (state_arcs_heads g (hc_res high) Hwf u a Ha))
                  (proj1 Hroot) (fr f) d x q Hinv Hpop Hd) as Hpot2.
    change (fr {| dist_map := dist_map f; parent_map := parent_map f; spq := q |})
      with {| dist := dist (fr f); parent := parent (fr f); pq := q |}. lia.
Qed.

End phase_search.

(** The search of [query_unidirectional] from its start state. *)
Lemma phase_search `{Stl} fuel g high s t :
  csr_wf g → Forall (λ sc, 0 ≤ sc_cost sc) (shortcuts_ g) → 0 ≤ s ≤ max_edge_id_ g →
  (4 * length (shortcuts_ g) + 2 ≤ fuel)%nat →
  ∃ f b,
    phase_loop fuel g high t
      {| dist_map := {[Z.lor (Z.shiftl s 4) 0 := 0]};
         parent_map := {[Z.lor (Z.shiftl s 4) 0 := Z.lor (Z.shiftl s 4) 0]};
         spq := [(0, Z.lor (Z.shiftl s 4) 0)] |}
      {| best_dist := Inf; best_end_state := 0; ufound := false |} = Some (f, b)
    ∧ (ufound b = true →
       ∃ p c, state_path fuel (parent_map f) (best_end_state b) = Some p
              ∧ spath g p c ∧ head p = Some s ∧ last p = Some t
              ∧ best_dist b = Fin (c + get_edge_cost g t)).
Proof.
  intros Hwf Hcost Hs Hfuel.
  pose proof (wf_max g Hwf) as Hmax.
  set (root := Z.lor (Z.shiftl s 4) 0).
  destruct (state_unpack s 0) as (Hedge & _ & Hroot); [lia|lia|]. fold root in Hedge, Hroot.
  set (f0 := {| dist_map := {[root := 0]}; parent_map := {[root := root]};
                spq := [(0, root)] |}).
  destruct (phase_loop_run g high t root Hwf Hcost Hroot fuel f0
              {| best_dist := Inf; best_end_state := 0; ufound := false |})
    as (f & b & Hloop & Hinv & Hb); [apply seed_finv|done|done| |].
  { pose proof (seed_potential root 0 (state_srcs g)) as Hp.
    change (fr f0) with (seed root 0 root).
    assert (length (state_srcs g) = 4 * length (shortcuts_ g))%nat as Hlen.
    { unfold state_srcs, packed. rewrite !length_app, !length_fmap. lia. }
    lia. }
  exists f, b. split; [exact Hloop|]. intros Hfound.
  destruct (Hb Hfound) as (d & Hd & Hbest & Hend).
  assert (length (state_tgts g) = 3 * length (shortcuts_ g))%nat as Hlen.
  { unfold state_tgts, packed. rewrite !length_app, !length_fmap. lia. }
  destruct (state_path_sound g (state_arcs g (hc_res high)) root fuel (fr f)
              (best_end_state b) d (state_tgts g) Hwf
              (state_arcs_fwd g (hc_res high) Hwf) (state_arcs_tgts g (hc_res high) Hwf)
              Hinv Hd) as (p & Hp & Hsp & Hhead & Hlast); [lia|].
  exists p, d. rewrite Hedge in Hhead. rewrite Hend in Hlast. done.
Qed.

(** X21.  On a loaded store with non-negative costs and with fuel for
    four times the number of shortcuts plus two iterations,
    [query_unidirectional] of [csr_graph.cpp] returns; a reachable
    result has a path of stored shortcuts from the source to the target
    and its distance is the cost of that path plus the cost of the
    target edge (with exact costs; in the code, up to floating-point
    rounding). *)
Theorem query_unidirectional_cost `{Stl} `{H3Lib} (fuel : nat) (g : CSRGraph) (s t : Z) :
  csr_wf g → Forall (λ sc, 0 ≤ sc_cost sc) (shortcuts_ g) → 0 ≤ s → 0 ≤ t →
  (4 * length (shortcuts_ g) + 2 ≤ fuel)%nat →
  ∃ r, query_unidirectional fuel g s t = Some r
    ∧ (reachable r = true →
       ∃ c, spath g (path r) c ∧ distance r = Fin (c + get_edge_cost g t)
            ∧ head (path r) = Some s ∧ last (path r) = Some t).
Proof.
  intros Hwf Hcost Hs Ht Hfuel. unfold query_unidirectional.
  destruct (Z.eqb_spec s t) as [<-|Hne].
  { eexists. split; [done|]. intros _. exists 0. split; [constructor|done]. }
  rewrite !is_valid_edge_wf by done.
  destruct (decide (s ≤ max_edge_id_ g)) as [Hsmax|Hsmax].
  2: { rewrite (bool_decide_eq_false_2 _ Hsmax). cbn [negb]. by eexists. }
  rewrite (bool_decide_eq_true_2 _ Hsmax). cbn [negb].
  destruct (bool_decide (t ≤ max_edge_id_ g)); cbn [negb]; [|by eexists].
  cbv zeta.
  destruct (phase_search fuel g (compute_high_cell g s t) s t Hwf Hcost (conj Hs Hsmax) Hfuel)
    as (f & b & -> & Hfound).
  destruct (ufound b); cbn [negb]; [|by eexists].
  destruct (Hfound eq_refl) as (p & c & -> & Hsp & Hhead & Hlast & Hbest).
  eexists. split; [done|]. intros _. cbn [path distance]. by exists c.
Qed.

Lemma query_unidirectional_cost_witness :
  (∃ r, @query_unidirectional stl_ref h3_ref 20 g_s5 1 3 = Some r
     ∧ (reachable r = true →
        ∃ c, spath g_s5 (path r) c ∧ distance r = Fin (c + get_edge_cost g_s5 3)
             ∧ head (path r) = Some 1 ∧ last (path r) = Some 3))
  ∧ @query_unidirectional stl_ref h3_ref 20 g_s5 1 3
    = Some {| distance := Fin 10; path := [1; 3]; reachable := true; error := "" |}.
Proof.
  split; [|run].
  apply (@query_unidirectional_cost stl_ref h3_ref 20 g_s5 1 3).
  - loaded_wf.
  - all_shortcuts.
  - lia.
  - lia.
  - vm_compute. lia.
Defined.

(** ** [CSRGraph::query_pruned] *)

(** X22.  On a loaded store with non-negative costs and with fuel for
    twice the number of shortcuts plus three iterations, [query_pruned]
    returns; a reachable result has a path of stored shortcuts from the
    source to the target, and its distance is at least the cost of that
    path plus the cost of the target edge (with exact costs; in the
    code, up to floating-point rounding). *)
Theorem query_pruned_path `{Stl} `{H3Lib} (fuel : nat) (g : CSRGraph) (s t : Z) :
  csr_wf g → Forall (λ sc, 0 ≤ sc_cost sc) (shortcuts_ g) → 0 ≤ s → 0 ≤ t →
  (2 * length (shortcuts_ g) + 3 ≤ fuel)%nat →
  ∃ r, query_pruned fuel g s t = Some r
    ∧ (reachable r = true →
       ∃ c bst, spath g (path r) c ∧ head (path r) = Some s ∧ last (path r) = Some t
                ∧ distance r = Fin bst ∧ c + get_edge_cost g t ≤ bst).
Proof.
  intros Hwf Hcost Hs Ht Hfuel. unfold query_pruned.
  destruct (Z.eqb_spec s t) as [<-|Hne].
  { eexists. split; [done|]. intros _. exists 0, (get_edge_cost g s).
    split; [constructor|]. cbn. split; [done|]. split; [done|]. split; [done|lia]. }
  destruct (negb (bool_decide (is_Some (edge_meta_ g !! s)))); [by eexists|].
  destruct (negb (bool_decide (is_Some (edge_meta_ g !! t)))); [by eexists|].
  cbv zeta.
  match goal with
  | |- context [pruned_loop fuel g ?high (seed s 0 (s, ?sr)) (seed t _ (t, ?tr)) _] =>
      destruct (pruned_search fuel g high s t sr tr Hwf Hcost Hs Ht Hfuel)
        as (f & b & pm & -> & Hfound)
  end.
  destruct (found (pm_meet pm)); cbn [negb]; [|by eexists].
  destruct (Hfound eq_refl) as (p & c & bst & -> & Hsp & Hhead & Hlast & Hbest & Hle).
  eexists. split; [done|]. intros _. cbn [path distance]. by exists c, bst.
Qed.

Lemma query_pruned_path_witness :
  (∃ r, @query_pruned stl_ref h3_ref 20 g_s5 1 3 = Some r
     ∧ (reachable r = true →
        ∃ c bst, spath g_s5 (path r) c ∧ head (path r) = Some 1 ∧ last (path r) = Some 3
                 ∧ distance r = Fin bst ∧ c + get_edge_cost g_s5 3 ≤ bst))
  ∧ @query_pruned stl_ref h3_ref 20 g_s5 1 3
    = Some {| distance := Fin 10; path := [1; 3]; reachable := true; error := "" |}.
Proof.
  split; [|run].
  apply (@query_pruned_path stl_ref h3_ref 20 g_s5 1 3).
  - loaded_wf.
  - all_shortcuts.
  - lia.
  - lia.
  - vm_compute. lia.
Defined.

(** ** [query_unidirectional_impl.cpp]: the search over packed states *)

(** The arcs that the loop relaxes from the packed state [x]. *)
Definition uni_arcs (g : CSRGraph) (high_res : Z) (x : Z) : list (Z * Z) :=
  omap (λ sc, match uni_transition
                      match edge_meta_ g !! wrap32 (Z.shiftr x 4) with
                      | Some meta => int32 (em_lca_res meta)
                      | None => -1
                      end
                      high_res (Z.land (Z.shiftr x 1) 7) (negb (Z.land x 1 =? 0))
                      (sc_inside sc) with
              | Some (next_counter, next_used_minus1) =>
                  Some (pack_state (sc_to sc) next_counter next_used_minus1, sc_cost sc)
              | None => None
              end)
       (fwd_shortcuts g (wrap32 (Z.shiftr x 4))).

Lemma uni_loop_step `{Stl} fuel g high t f b :
  uni_loop (S fuel) g high t f b
  = match pq_pop (spq f) with
    | None => Some (f, b)
    | Some ((d, x), q) =>
        let f1 := {| dist_map := dist_map f; parent_map := parent_map f; spq := q |} in
        if d >? dist_at (dist_map f) x then uni_loop fuel g high t f1 b
        else if Dle (best_dist b) (Fin d) then uni_loop fuel g high t f1 b
        else if state_edge x =? t then
          uni_loop fuel g high t f1
            (if Dlt (Fin d) (best_dist b)
             then {| best_dist := Fin d; best_end_state := x; ufound := true |}
             else b)
        else uni_loop fuel g high t
               (foldl (relax_state d x) f1 (uni_arcs g (hc_res high) x)) b
    end.
Proof. reflexivity. Qed.

(** The graph of the packed states: a state is below 2^36. *)
Definition uni_state_arcs (g : CSRGraph) (high_res : Z) (x : Z) : list (Z * Z) :=
  if x <? 2 ^ 36 then uni_arcs g high_res x else [].

(** The states of the ends of the shortcuts, with every counter and
    flag. *)
Definition all_packed (end_ : CSRShortcut → Z) (g : CSRGraph) : list Z :=
  concat ((λ p, packed end_ p g) <$> seqZ 0 16).

Lemma length_all_packed end_ g :
  length (all_packed end_ g) = (16 * length (shortcuts_ g))%nat.
Proof.
  unfold all_packed.
  assert (∀ ps, length (concat ((λ p, packed end_ p g) <$> ps))
                = (length ps * length (shortcuts_ g))%nat) as Hgen.
  { induction ps as [|p ps IH]; [done|].
    cbn [fmap list_fmap concat length]. rewrite length_app, IH. unfold packed.
    rewrite length_fmap. lia. }
  by rewrite Hgen, length_seqZ.
Qed.

Lemma filter_concat_le {A} (P : A → Prop) `{!∀ x, Decision (P x)} (l : list A) ls :
  l ∈ ls → (length (filter P l) ≤ length (filter P (concat ls)))%nat.
Proof.
  induction ls as [|l0 ls IH]; intros Hl; [by apply elem_of_nil in Hl|].
  cbn [concat]. rewrite filter_app, length_app.
  apply elem_of_cons in Hl as [->|Hl]; [lia|]. specialize (IH Hl). lia.
Qed.

Lemma elem_of_concat_2 {A} (x : A) l ls : x ∈ l → l ∈ ls → x ∈ concat ls.
Proof.
  intros Hx. induction ls as [|l0 ls IH]; intros Hl; [by apply elem_of_nil in Hl|].
  cbn [concat]. apply elem_of_app. apply elem_of_cons in Hl as [->|Hl]; [by left|].
  right. by apply IH.
Qed.

Lemma elem_of_all_packed end_ g sc p :
  sc ∈ shortcuts_ g → 0 ≤ p < 16 → Z.lor (Z.shiftl (end_ sc) 4) p ∈ all_packed end_ g.
Proof.
  intros Hsc Hp. unfold all_packed. apply (elem_of_concat_2 _ (packed end_ p g)).
  - unfold packed. by apply (list_elem_of_fmap_2 (λ sc, Z.lor (Z.shiftl (end_ sc) 4) p)).
  - apply (list_elem_of_fmap_2 (λ p, packed end_ p g)). apply elem_of_seqZ. lia.
Qed.

(** [(edge << 4) | (counter << 1) | used_minus1] has [edge] above its
    four low bits. *)
Lemma pack_state_nibble e c b :
  0 ≤ c < 8 →
  ∃ p, 0 ≤ p < 16 ∧ pack_state e c b = Z.lor (Z.shiftl e 4) p.
Proof.
  intros Hc. exists (Z.lor (Z.shiftl c 1) (if b then 1 else 0)). split.
  - rewrite (lor_shiftl_add c _ 1) by (destruct b; lia). destruct b; lia.
  - unfold pack_state. by rewrite Z.lor_assoc.
Qed.

Lemma uni_transition_counter u_res high_res c b inside nc nb :
  0 ≤ c < 8 → uni_transition u_res high_res c b inside = Some (nc, nb) → 0 ≤ nc < 8.
Proof.
  intros Hc. unfold uni_transition. repeat case_match; intros [= <- <-]; lia.
Qed.

Section uni_graph.
Context (g : CSRGraph) (high_res : Z).
Context (Hwf : csr_wf g).
Context (Hcost : Forall (λ sc, 0 ≤ sc_cost sc) (shortcuts_ g)).

(** An arc of the state graph is a shortcut between the two edges. *)
Lemma uni_state_arcs_elem x a :
  a ∈ uni_state_arcs g high_res x →
  ∃ sc p, sc ∈ shortcuts_ g ∧ sc_from sc = state_edge x ∧ 0 ≤ p < 16
    ∧ a = (Z.lor (Z.shiftl (sc_to sc) 4) p, sc_cost sc).
Proof.
  unfold uni_state_arcs. destruct (x <? 2 ^ 36); [|by intros ?%elem_of_nil].
  unfold uni_arcs. intros Ha. apply list_elem_of_omap in Ha as (sc & Hsc & Ha).
  destruct (uni_transition _ _ _ _ _) as [[nc nb]|] eqn:Hnp; [|done].
  injection Ha as <-.
  apply uni_transition_counter in Hnp.
  2: { change 7 with (Z.ones 3). rewrite Z.land_ones by lia. apply Z.mod_pos_bound. lia. }
  destruct (pack_state_nibble (sc_to sc) nc nb Hnp) as (p & Hp & ->).
  exists sc, p.
  split; [by eapply fwd_shortcuts_stored|]. split; [|done].
  rewrite fwd_shortcuts_wf in Hsc; [|done|apply Z.mod_pos_bound; lia].
  by apply list_elem_of_filter in Hsc as [Hfrom _].
Qed.

Lemma uni_state_arcs_nonneg x a : a ∈ uni_state_arcs g high_res x → 0 ≤ a.2.
Proof.
  intros Ha. apply uni_state_arcs_elem in Ha as (sc & p & Hsc & _ & _ & ->).
  rewrite Forall_forall in Hcost. by apply Hcost.
Qed.

Lemma uni_state_arcs_heads x a : a ∈ uni_state_arcs g high_res x → 0 ≤ a.1 < 2 ^ 36.
Proof.
  intros Ha. apply uni_state_arcs_elem in Ha as (sc & p & Hsc & _ & Hp & ->).
  cbn [fst]. apply state_unpack; [by apply (stored_range g Hwf)|done].
Qed.

Lemma uni_state_arcs_tgts x a : a ∈ uni_state_arcs g high_res x → a.1 ∈ all_packed sc_to g.
Proof.
  intros Ha. apply uni_state_arcs_elem in Ha as (sc & p & Hsc & _ & Hp & ->).
  cbn [fst]. by apply elem_of_all_packed.
Qed.

Lemma uni_state_arcs_fwd x v c :
  (v, c) ∈ uni_state_arcs g high_res x →
  (state_edge v, c) ∈ fwd_arcs any_shortcut g (state_edge x).
Proof.
  intros Ha. apply uni_state_arcs_elem in Ha as (sc & p & Hsc & Hfrom & Hp & [= -> ->]).
  destruct (state_unpack (sc_to sc) p) as (-> & _); [by apply (stored_range g Hwf)|done|].
  rewrite <- Hfrom. by apply fwd_arcs_complete.
Qed.

Lemma uni_state_arcs_count x :
  0 ≤ x →
  (length (uni_state_arcs g high_res x)
   ≤ length (filter (λ y, y = x) (all_packed sc_from g)))%nat.
Proof.
  intros Hx. unfold uni_state_arcs. destruct (Z.ltb_spec x (2 ^ 36)) as [Hlt|]; [|simpl; lia].
  destruct (state_pack x ltac:(lia)) as (Hpack & He & Hp).
  unfold uni_arcs. fold (state_edge x).
  etrans; [apply length_omap_le|].
  rewrite fwd_shortcuts_wf by (done || lia).
  etrans; [apply (filter_length_le _ (λ sc, Z.lor (Z.shiftl (sc_from sc) 4) (state_phase x) = x))|].
  { intros sc _ ->. by rewrite <- Hpack. }
  rewrite (filter_fmap_length (λ sc, Z.lor (Z.shiftl (sc_from sc) 4) (state_phase x))).
  apply (filter_concat_le (λ y, y = x) (packed sc_from (state_phase x) g)).
  apply (list_elem_of_fmap_2 (λ p, packed sc_from p g)). apply elem_of_seqZ. lia.
Qed.

End uni_graph.

Section closed_kept.
Context (arcs : Z → list (Z * Z)).
Context (arcs_nonneg : ∀ u a, a ∈ arcs u → 0 ≤ a.2).
Context (root key : Z).

(** An edge popped at its distance keeps that distance. *)
Lemma relax_plain_closed d u f a x dx :
  expanding arcs root key d u f → a ∈ arcs u → closed f x dx →
  closed (relax_plain d u f a) x dx.
Proof.
  intros (Hinv & _ & Hbound) Ha Hcl. unfold relax_plain. destruct a as [v c]. cbn [fst snd].
  destruct (improves (dist f) v (d + c)) eqn:Himp; [|done].
  pose proof (arcs_nonneg u (v, c) Ha) as Hc. simpl in Hc.
  pose proof (Hbound x dx Hcl) as Hle. destruct Hcl as [Hd Hq].
  assert (x ≠ v) as Hne.
  { intros ->. unfold improves in Himp. rewrite Hd in Himp. lia. }
  unfold update, closed. cbn [dist pq]. rewrite lookup_insert_ne by done.
  split; [done|]. intros Hin. apply elem_of_cons in Hin as [[= _ ->]|Hin]; done.
Qed.

Lemma foldl_relax_plain_closed d u l f x dx :
  expanding arcs root key d u f → l ⊆ arcs u → closed f x dx →
  closed (foldl (relax_plain d u) f l) x dx.
Proof.
  revert f. induction l as [|a l IH]; intros f Hexp Hsub Hcl; [done|].
  cbn [foldl]. apply IH.
  - apply relax_plain_expanding; [done|done|]. apply Hsub. constructor.
  - intros y Hy. apply Hsub. by constructor.
  - apply relax_plain_closed; [done| |done]. apply Hsub. constructor.
Qed.

End closed_kept.

Section uni_search.
Context `{Stl} (g : CSRGraph) (high : CSRHighCell) (t root : Z).
Context (Hwf : csr_wf g).
Context (Hcost : Forall (λ sc, 0 ≤ sc_cost sc) (shortcuts_ g)).
Context (Hroot : 0 ≤ root < 2 ^ 36).

Lemma uni_state_in_range f x d :
  finv (uni_state_arcs g (hc_res high)) root 0 f → dist f !! x = Some d → 0 ≤ x < 2 ^ 36.
Proof.
  intros Hinv Hd.
  destruct (finv_reached _ _ _ f x d Hinv Hd) as [->|(p & c & Harc)]; [done|].
  apply (uni_state_arcs_heads g (hc_res high) Hwf p (x, c) Harc).
Qed.

(** The best end found so far was popped at its distance. *)
Definition uni_best (f : StateFrontier) (b : UniBest) : Prop :=
  ufound b = true →
  ∃ d, closed (fr f) (best_end_state b) d ∧ best_dist b = Fin d
       ∧ state_edge (best_end_state b) = t.

(** The loop of the search ends with an empty queue. *)
Lemma uni_loop_run fuel f b :
  finv (uni_state_arcs g (hc_res high)) root 0 (fr f) → uni_best f b →
  (potential (all_packed sc_from g) (fr f) < fuel)%nat →
  ∃ f' b', uni_loop fuel g high t f b = Some (f', b')
    ∧ finv (uni_state_arcs g (hc_res high)) root 0 (fr f') ∧ uni_best f' b'.
Proof.
  revert f b. induction fuel as [|fuel IH]; intros f b Hinv Hbest Hpot; [lia|].
  rewrite uni_loop_step.
  destruct (pq_pop (spq f)) as [[[d x] q]|] eqn:Hpop; [|by exists f, b].
  change (spq f) with (pq (fr f)) in Hpop.
  destruct (pop_finv _ root 0 (fr f) d x q Hinv Hpop)
    as (Hinv1 & Hbound & (du & Hdu & Hle) & Hnin & _ & Hperm).
  pose proof (pop_potential (uni_state_arcs g (hc_res high)) root 0 (all_packed sc_from g)
                (fr f) d x q Hinv Hpop) as Hpot1.
  cbn [fr dist] in Hdu. cbv zeta.
  set (f1 := {| dist_map := dist_map f; parent_map := parent_map f; spq := q |}).
  assert (fr f1 = {| dist := dist (fr f); parent := parent (fr f); pq := q |}) as Hf1 by done.
  assert (∀ y dy, closed (fr f) y dy → closed (fr f1) y dy) as Hkeep.
  { intros y dy [Hd Hq]. split; [done|]. cbn [fr f1 pq spq]. intros Hin. apply Hq.
    cbn [fr pq]. change (spq f) with (pq (fr f)). rewrite Hperm. by constructor. }
  assert (uni_best f1 b) as Hbest1.
  { intros Hf. destruct (Hbest Hf) as (d0 & Hcl & Hb). exists d0. split; [by apply Hkeep|done]. }
  assert (potential (all_packed sc_from g) (fr f1) < fuel)%nat as Hpot1'
    by (rewrite Hf1; lia).
  destruct (Z.gtb_spec d (dist_at (dist_map f) x)) as [Hgt|Hngt].
  { apply IH; [by rewrite Hf1|done|done]. }
  destruct (Dle (best_dist b) (Fin d)).
  { apply IH; [by rewrite Hf1|done|done]. }
  assert (dist_map f !! x = Some d) as Hd.
  { unfold dist_at in Hngt. rewrite Hdu in Hngt. simpl in Hngt. rewrite Hdu. f_equal. lia. }
  destruct (Z.eqb_spec (state_edge x) t) as [Ht|Hne].
  { apply IH; [by rewrite Hf1| |done].
    destruct (Dlt (Fin d) (best_dist b)); [|done].
    intros _. cbn [best_end_state best_dist]. exists d. split; [|done].
    split; [exact Hd|]. rewrite Hf1. exact Hnin. }
  assert (uni_arcs g (hc_res high) x = uni_state_arcs g (hc_res high) x) as ->.
  { unfold uni_state_arcs.
    destruct (uni_state_in_range (fr f) x d Hinv Hd) as [_ Hlt].
    by rewrite (proj2 (Z.ltb_lt _ _) Hlt). }
  assert (expanding (uni_state_arcs g (hc_res high)) root 0 d x (fr f1)) as Hexp.
  { rewrite Hf1. split; [exact Hinv1|]. split; [|exact Hbound]. split; [exact Hd|exact Hnin]. }
  apply IH.
  - rewrite fr_foldl.
    by apply (foldl_relax_plain_expanding _ (uni_state_arcs_nonneg g (hc_res high) Hwf Hcost)
                root 0 d x).
  - intros Hf. destruct (Hbest1 Hf) as (d0 & Hcl & Hb). exists d0. split; [|done].
    rewrite fr_foldl.
    by apply (foldl_relax_plain_closed _ (uni_state_arcs_nonneg g (hc_res high) Hwf Hcost)
                root 0 d x).
  - rewrite fr_foldl, Hf1.
    pose proof (expand_potential _ (uni_state_arcs_nonneg g (hc_res high) Hwf Hcost) root 0
                  (all_packed sc_from g) (uni_state_arcs_count g (hc_res high) Hwf)
                  (λ u a Ha, proj1 (uni_state_arcs_heads g (hc_res high) Hwf u a Ha))
                  (proj1 Hroot) (fr f) d x q Hinv Hpop Hd) as Hpot2.
    lia.
Qed.

End uni_search.

(** X23.  On a loaded store with non-negative costs and with fuel for
    sixteen times the number of shortcuts plus two iterations,
    [query_unidirectional] of [query_unidirectional_impl.cpp] returns; a
    reachable result has a path of stored shortcuts from the source to
    the target.  Between two different edges its distance is the cost of
    that path, without the cost of the target edge that the other
    queries add; from an edge to itself it is the cost of the edge.
    Costs are exact here; in the code the sums are rounded. *)
Theorem query_unidirectional_impl_cost `{Stl} `{H3Lib} (fuel : nat) (g : CSRGraph)
    (s t : Z) :
  csr_wf g → Forall (λ sc, 0 ≤ sc_cost sc) (shortcuts_ g) → 0 ≤ s → 0 ≤ t →
  (16 * length (shortcuts_ g) + 2 ≤ fuel)%nat →
  ∃ r, query_unidirectional_impl fuel g s t = Some r
    ∧ (reachable r = true →
       ∃ c, spath g (path r) c ∧ head (path r) = Some s ∧ last (path r) = Some t
            ∧ distance r = Fin (if s =? t then get_edge_cost g s else c)).
Proof.
  intros Hwf Hcost Hs Ht Hfuel. unfold query_unidirectional_impl.
  destruct (Z.eqb_spec s t) as [<-|Hne].
  { eexists. split; [done|]. intros _. exists 0. split; [constructor|done]. }
  rewrite !is_valid_edge_wf by done.
  destruct (decide (s ≤ max_edge_id_ g)) as [Hsmax|Hsmax].
  2: { rewrite (bool_decide_eq_false_2 _ Hsmax). cbn [negb]. by eexists. }
  rewrite (bool_decide_eq_true_2 _ Hsmax). cbn [negb].
  destruct (bool_decide (t ≤ max_edge_id_ g)); cbn [negb]; [|by eexists].
  pose proof (wf_max g Hwf) as Hmax.
  set (high := compute_high_cell g s t).
  set (root := pack_state s 0 false).
  destruct (pack_state_nibble s 0 false) as (p & Hp & Hpack); [lia|]. fold root in Hpack.
  destruct (state_unpack s p) as (Hedge & _ & Hroot); [lia|done|].
  rewrite <- Hpack in Hedge, Hroot.
  set (f0 := {| dist_map := {[root := 0]}; parent_map := {[root := root]};
                spq := [(0, root)] |}).
  destruct (uni_loop_run g high t root Hwf Hcost Hroot fuel f0
              {| best_dist := Inf; best_end_state := 0; ufound := false |})
    as (f & b & -> & Hinv & Hb); [apply seed_finv|done| |].
  { pose proof (seed_potential root 0 (all_packed sc_from g)) as Hpot.
    change (fr f0) with (seed root 0 root).
    pose proof (length_all_packed sc_from g). lia. }
  destruct (ufound b) eqn:Hfound; cbn [negb]; [|by eexists].
  destruct (Hb Hfound) as (d & [Hd _] & Hbest & Hend).
  destruct (state_path_sound g (uni_state_arcs g (hc_res high)) root fuel (fr f)
              (best_end_state b) d (all_packed sc_to g) Hwf
              (uni_state_arcs_fwd g (hc_res high) Hwf)
              (uni_state_arcs_tgts g (hc_res high) Hwf)
              Hinv Hd) as (p' & Hp' & Hsp & Hhead & Hlast).
  { rewrite length_all_packed. lia. }
  change (parent_map f) with (parent (fr f)). rewrite Hp'.
  eexists. split; [done|]. intros _. cbn [path distance].
  exists d. rewrite Hedge in Hhead. rewrite Hend in Hlast. by rewrite Hbest.
Qed.

Lemma query_unidirectional_impl_cost_witness :
  (∃ r, @query_unidirectional_impl stl_ref h3_ref 40 g_dn 1 2 = Some r
     ∧ (reachable r = true →
        ∃ c, spath g_dn (path r) c ∧ head (path r) = Some 1 ∧ last (path r) = Some 2
             ∧ distance r = Fin (if 1 =? 2 then get_edge_cost g_dn 1 else c)))
  ∧ @query_unidirectional_impl stl_ref h3_ref 40 g_dn 1 2
    = Some {| distance := Fin 4; path := [1; 2]; reachable := true; error := "" |}.
Proof.
  split; [|run].
  apply (@query_unidirectional_impl_cost stl_ref h3_ref 40 g_dn 1 2).
  - loaded_wf.
  - all_shortcuts.
  - lia.
  - lia.
  - vm_compute. lia.
Defined.

(** ** [CSRGraph::query_classic]: up, then down *)

(** A stored shortcut from [a] to [b] that the filter [P] lets through. *)
Definition hop (g : CSRGraph) (P : CSRShortcut → bool) (a b : Z) : Prop :=
  ∃ sc, sc ∈ shortcuts_ g ∧ sc_from sc = a ∧ sc_to sc = b ∧ P sc = true.

Lemma fwd_arcs_hop g P u a :
  csr_wf g → 0 ≤ u → a ∈ fwd_arcs P g u → hop g P u a.1.
Proof.
  intros Hwf Hu Ha. unfold fwd_arcs in Ha.
  apply list_elem_of_fmap in Ha as (sc & -> & Hsc).
  apply list_elem_of_filter in Hsc as [HP Hsc].
  exists sc. split; [by eapply fwd_shortcuts_stored|].
  rewrite fwd_shortcuts_wf in Hsc by done.
  by apply list_elem_of_filter in Hsc as [Hfrom _].
Qed.

Lemma bwd_arcs_hop g P u a :
  csr_wf g → 0 ≤ u → a ∈ bwd_arcs P g u → hop g P a.1 u.
Proof.
  intros Hwf Hu Ha. unfold bwd_arcs in Ha.
  apply list_elem_of_fmap in Ha as (sc & -> & Hsc).
  apply list_elem_of_filter in Hsc as [HP Hsc].
  rewrite bwd_shortcuts_wf in Hsc by done.
  apply list_elem_of_filter in Hsc as [Hto Hsc]. by exists sc.
Qed.

(** X24.  The path of [query_classic] goes up, then down: on a loaded
    store with non-negative costs and with enough fuel, a reachable
    result has a path made of shortcuts with [inside = 1] up to one
    edge, and of shortcuts with [inside = -1] or [inside = 0] from that
    edge on. *)
Theorem query_classic_up_down `{Stl} (fuel : nat) (g : CSRGraph) (s t : Z) :
  csr_wf g → Forall (λ sc, 0 ≤ sc_cost sc) (shortcuts_ g) → 0 ≤ s → 0 ≤ t →
  (2 * length (shortcuts_ g) + 3 ≤ fuel)%nat →
  ∃ r, query_classic fuel g s t = Some r
    ∧ (reachable r = true →
       ∃ up top down, path r = up ++ top :: down
         ∧ linked (hop g climbs) (up ++ [top])
         ∧ linked (hop g descends) (top :: down)).
Proof.
  intros Hwf Hcost Hs Ht Hfuel. unfold query_classic.
  destruct (Z.eqb_spec s t) as [|Hne].
  { eexists. split; [done|]. intros _. exists [], s, []. split; [done|]. split; constructor. }
  destruct (negb (bool_decide (is_Some (edge_meta_ g !! s)))); [by eexists|].
  destruct (negb (bool_decide (is_Some (edge_meta_ g !! t)))); [by eexists|].
  cbn [classic_init]. set (tc := get_edge_cost g t).
  pose proof (fwd_arcs_nonneg g climbs Hcost) as Hfnn.
  pose proof (bwd_arcs_nonneg g descends Hcost) as Hbnn.
  destruct (classic_loop_total (fwd_arcs climbs g) (bwd_arcs descends g)
              Hfnn Hbnn s t tc (sc_from <$> shortcuts_ g) (sc_to <$> shortcuts_ g)
              (λ u Hu, fwd_arcs_count g climbs u Hwf Hu)
              (λ u Hu, bwd_arcs_count g descends u Hwf Hu)
              (λ u a Ha, proj1 (fwd_arcs_wf g climbs Hwf u a Ha))
              (λ u a Ha, proj1 (bwd_arcs_wf g descends Hwf u a Ha)) Hs Ht
              fuel (seed s 0 s) (seed t tc t) no_meet) as [[[f b] m] Hloop].
  { apply seed_finv. }
  { apply seed_finv. }
  { done. }
  { pose proof (seed_potential s 0 (sc_from <$> shortcuts_ g)) as Hp1.
    pose proof (seed_potential t tc (sc_to <$> shortcuts_ g)) as Hp2.
    rewrite length_fmap in Hp1, Hp2. lia. }
  rewrite Hloop.
  destruct (classic_loop_inv (fwd_arcs climbs g) (bwd_arcs descends g)
              Hfnn Hbnn s t tc fuel _ _ _ f b m (binv_init _ _ s t tc Hne) Hloop)
    as (Hf & Hb & Hm).
  unfold bidir_result, bidir_path. destruct (found m) eqn:Hfound; cbn [negb]; [|by eexists].
  unfold meets in Hm. rewrite Hfound in Hm. destruct Hm as (x & y & Hx & Hy & _).
  destruct (fi_chain _ _ _ _ Hf _ _ Hx) as [lf Hlf].
  destruct (fi_chain _ _ _ _ Hb _ _ Hy) as [lb Hlb].
  pose proof (chain_length (fwd_arcs climbs g) s 0 (sc_to <$> shortcuts_ g)
                f _ lf (λ u a Ha, fwd_arcs_heads g climbs u a Ha) Hf Hlf) as Hlenf.
  pose proof (chain_length (bwd_arcs descends g) t tc (sc_from <$> shortcuts_ g)
                b _ lb (λ u a Ha, bwd_arcs_heads g descends u a Ha) Hb Hlb) as Hlenb.
  rewrite length_fmap in Hlenf, Hlenb.
  rewrite (follow_chain_enough _ _ _ _ fuel Hlf) by lia.
  rewrite (follow_chain_enough _ _ _ _ fuel Hlb) by lia.
  eexists. split; [done|]. intros _. cbn [path].
  pose proof (chain_linked _ _ _ _ _ _ Hf Hlf) as Hkf.
  pose proof (chain_linked _ _ _ _ _ _ Hb Hlb) as Hkb.
  assert (linked (hop g climbs) (reverse lf)) as Hup.
  { apply linked_reverse in Hkf. eapply linked_impl; [|exact Hkf].
    intros p v [[dp Hdp] [c Harc]]. unfold flip.
    apply (fwd_arcs_hop g climbs p (v, c) Hwf); [|done].
    by apply (finv_nonneg (fwd_arcs climbs g) s 0
                (λ u a Ha, proj1 (fwd_arcs_wf g climbs Hwf u a Ha)) Hs f p dp). }
  assert (linked (hop g descends) lb) as Hdown.
  { eapply linked_impl; [|exact Hkb].
    intros v p [[dp Hdp] [c Harc]].
    apply (bwd_arcs_hop g descends p (v, c) Hwf); [|done].
    by apply (finv_nonneg (bwd_arcs descends g) t tc
                (λ u a Ha, proj1 (bwd_arcs_wf g descends Hwf u a Ha)) Ht b p dp). }
  destruct (chain_head _ _ _ _ Hlf) as [lf' ->].
  destruct (chain_head _ _ _ _ Hlb) as [lb' ->].
  rewrite reverse_cons in Hup |- *. cbn [tail]. rewrite <- app_assoc. cbn [app].
  by exists (reverse lf'), (meeting m), lb'.
Qed.

Lemma query_classic_up_down_witness :
  ∃ r, @query_classic stl_ref 10 g_s1 1 2 = Some r
    ∧ (reachable r = true →
       ∃ up top down, path r = up ++ top :: down
         ∧ linked (hop g_s1 climbs) (up ++ [top])
         ∧ linked (hop g_s1 descends) (top :: down)).
Proof.
  apply (@query_classic_up_down stl_ref 10 g_s1 1 2).
  - loaded_wf.
  - all_shortcuts.
  - lia.
  - lia.
  - vm_compute. lia.
Defined.

(** ** The pruned searches against [query_dijkstra] *)

(** X25.  Pruning never reports less than the shortest distance: between
    two edges of [edge_meta_] of a loaded store with non-negative costs,
    when [query_pruned] or [query_unidirectional] reaches the target,
    [query_dijkstra] reaches it too, and with a distance that is not
    larger.  Costs are exact here: in the code each search adds them in
    [double] in its own order, and the bound holds up to floating-point
    rounding. *)
Theorem pruned_not_below_dijkstra `{Stl} `{H3Lib} (fuel : nat) (g : CSRGraph) (s t : Z)
    (q : option CSRQueryResult) :
  csr_wf g → Forall (λ sc, 0 ≤ sc_cost sc) (shortcuts_ g) → 0 ≤ s → 0 ≤ t →
  is_Some (edge_meta_ g !! s) → is_Some (edge_meta_ g !! t) →
  (4 * length (shortcuts_ g) + 3 ≤ fuel)%nat →
  q ∈ [query_pruned fuel g s t; query_unidirectional fuel g s t] →
  ∃ r rd, q = Some r ∧ query_dijkstra fuel g s t = Some rd
    ∧ (reachable r = true →
       reachable rd = true
       ∧ ∃ d dd, distance r = Fin d ∧ distance rd = Fin dd ∧ dd ≤ d).
Proof.
  intros Hwf Hcost Hs Ht Hms Hmt Hfuel Hq.
  destruct (decide (s = t)) as [<-|Hne].
  { exists (self_result g s), (self_result g s).
    split; [|split].
    - unfold query_pruned, query_unidirectional in Hq. rewrite Z.eqb_refl in Hq.
      apply elem_of_cons in Hq as [->|Hq]; [done|].
      by apply list_elem_of_singleton in Hq as ->.
    - unfold query_dijkstra. by rewrite Z.eqb_refl.
    - intros _. split; [done|]. by exists (get_edge_cost g s), (get_edge_cost g s). }
  destruct (query_dijkstra_total fuel g s t Hwf Hcost Hs Ht Hne Hms Hmt) as (rd & Hrd & Hshort);
    [lia|].
  enough (∃ r, q = Some r
            ∧ (reachable r = true →
               ∃ p c d, spath g p c ∧ head p = Some s ∧ last p = Some t
                        ∧ distance r = Fin d ∧ c + get_edge_cost g t ≤ d))
    as (r & Hr & Hpath).
  { exists r, rd. split; [done|]. split; [done|]. intros Hreach.
    destruct (Hpath Hreach) as (p & c & d & Hsp & Hhead & Hlast & Hd & Hle).
    unfold shortest in Hshort. destruct (reachable rd).
    - split; [done|].
      destruct Hshort as (c0 & _ & _ & _ & Hdd & Hmin).
      exists d, (c0 + get_edge_cost g t). split; [done|]. split; [done|].
      specialize (Hmin p c Hsp Hhead Hlast). lia.
    - destruct Hshort as [_ Hnone]. exfalso. by apply (Hnone p c). }
  apply elem_of_cons in Hq as [->|Hq].
  - unfold query_pruned. destruct (Z.eqb_spec s t) as [|_]; [done|].
    rewrite (bool_decide_eq_true_2 _ Hms), (bool_decide_eq_true_2 _ Hmt). cbn [negb]. cbv zeta.
    match goal with
    | |- context [pruned_loop fuel g ?high (seed s 0 (s, ?sr)) (seed t _ (t, ?tr)) _] =>
        destruct (pruned_search fuel g high s t sr tr Hwf Hcost Hs Ht ltac:(lia))
          as (f & b & pm & -> & Hfound)
    end.
    destruct (found (pm_meet pm)); cbn [negb]; [|by eexists].
    destruct (Hfound eq_refl) as (p & c & bst & -> & Hsp & Hhead & Hlast & Hbest & Hle).
    eexists. split; [done|]. intros _. cbn [path distance]. by exists p, c, bst.
  - apply list_elem_of_singleton in Hq as ->.
    unfold query_unidirectional. destruct (Z.eqb_spec s t) as [|_]; [done|].
    rewrite !is_valid_edge_wf by done.
    destruct (decide (s ≤ max_edge_id_ g)) as [Hsmax|Hsmax].
    2: { rewrite (bool_decide_eq_false_2 _ Hsmax). cbn [negb]. by eexists. }
    rewrite (bool_decide_eq_true_2 _ Hsmax). cbn [negb].
    destruct (bool_decide (t ≤ max_edge_id_ g)); cbn [negb]; [|by eexists].
    cbv zeta.
    destruct (phase_search fuel g (compute_high_cell g s t) s t Hwf Hcost (conj Hs Hsmax))
      as (f & b & -> & Hfound); [lia|].
    destruct (ufound b); cbn [negb]; [|by eexists].
    destruct (Hfound eq_refl) as (p & c & -> & Hsp & Hhead & Hlast & Hbest).
    eexists. split; [done|]. intros _. cbn [path distance].
    exists p, c, (c + get_edge_cost g t). by repeat split.
Qed.

Lemma pruned_not_below_dijkstra_witness :
  (∃ r rd, @query_pruned stl_ref h3_ref 20 g_s5 1 3 = Some r
     ∧ @query_dijkstra stl_ref 20 g_s5 1 3 = Some rd
     ∧ (reachable r = true →
        reachable rd = true
        ∧ ∃ d dd, distance r = Fin d ∧ distance rd = Fin dd ∧ dd ≤ d))
  ∧ (∃ r rd, @query_unidirectional stl_ref h3_ref 20 g_s5 1 3 = Some r
     ∧ @query_dijkstra stl_ref 20 g_s5 1 3 = Some rd
     ∧ (reachable r = true →
        reachable rd = true
        ∧ ∃ d dd, distance r = Fin d ∧ distance rd = Fin dd ∧ dd ≤ d))
  ∧ @query_pruned stl_ref h3_ref 20 g_s5 1 3
    = Some {| distance := Fin 10; path := [1; 3]; reachable := true; error := "" |}
  ∧ @query_unidirectional stl_ref h3_ref 20 g_s5 1 3
    = Some {| distance := Fin 10; path := [1; 3]; reachable := true; error := "" |}.
Proof.
  assert (csr_wf g_s5) as Hwf by loaded_wf.
  assert (Forall (λ sc, 0 ≤ sc_cost sc) (shortcuts_ g_s5)) as Hcost by all_shortcuts.
  assert (is_Some (edge_meta_ g_s5 !! 1)) as H1 by (vm_compute; by eexists).
  assert (is_Some (edge_meta_ g_s5 !! 3)) as H3 by (vm_compute; by eexists).
  assert (4 * length (shortcuts_ g_s5) + 3 ≤ 20)%nat as Hfuel by (vm_compute; lia).
  split; [|split; [|split; run]].
  - apply (@pruned_not_below_dijkstra stl_ref h3_ref 20 g_s5 1 3 _ Hwf Hcost
             ltac:(lia) ltac:(lia) H1 H3 Hfuel). constructor.
  - apply (@pruned_not_below_dijkstra stl_ref h3_ref 20 g_s5 1 3 _ Hwf Hcost
             ltac:(lia) ltac:(lia) H1 H3 Hfuel). right. constructor.
Defined.

(** ** [CSRShortcut::get_res] *)

(** X26.  The resolution that a shortcut reads off the bits of its cell
    is the one [h3_utils::get_resolution] gives for that cell under the
    H3 bit layout: -1 for the cell 0, else the four bits from bit 52; it
    is between -1 and 15. *)
Theorem get_res_get_resolution (sc : CSRShortcut) :
  get_res sc = @get_resolution h3_ref (sc_cell sc) ∧ -1 ≤ get_res sc ≤ 15.
Proof.
  unfold get_res, get_resolution. cbn [getResolution h3_ref].
  pose proof (h3_get_resolution_range (sc_cell sc)) as Hr. unfold h3_get_resolution in *.
  destruct (sc_cell sc =? 0); [lia|].
  unfold int8. rewrite Z.mod_small by lia. lia.
Qed.
